(** * mayhem_25: a blocking, threaded Pub/Sub consumer bridged into asyncio

    Verification development for [src/mandrill/mayhem_25.py].

    The program is a set of coroutines that run on one asyncio event loop,
    plus two synchronous routines ([publish_sync], [consume_sync]) that run
    on worker threads.  The coroutines are embedded as terms of a small
    command language ([coro]) whose constructors are the operations the
    source performs ([await asyncio.sleep], [asyncio.create_task],
    [asyncio.gather], [event.wait], ...); an abstract machine ([exec],
    [step]) gives them the semantics of the event loop.  Time is abstracted:
    a sleeping task may wake at any later point.  Random draws are
    non-deterministic choices. *)

From Stdlib Require Import ZArith List String Ascii Bool Lia.
From stdpp Require Import base tactics option list.
Import ListNotations.
Local Open Scope string_scope.
Set Warnings "-register-all".

(** ** Python values, exceptions, messages *)

Definition bytes := list Byte.byte.

(** The values [json.loads] can produce.  A float is kept as its IEEE-754
    bit pattern; the program never inspects one. *)
Inductive pyval : Type :=
| PNone
| PBool (b : bool)
| PInt (z : Z)
| PFloat (bits : Z)
| PStr (s : string)
| PList (l : list pyval)
| PDict (d : list (string * pyval)).

(** Exceptions the program can meet; all are subclasses of [Exception]. *)
Inductive exn : Type :=
| UnicodeDecodeError
| JSONDecodeError
| KeyError (key : string)
| TypeError
| AttributeError (name : string)
| FrozenInstanceError
| TransportError
| Exception (msg : string).

(** What a finished coroutine left behind: every coroutine of the program
    returns [None] or raises. *)
Inductive outcome : Type :=
| Returned
| Raised (e : exn).

(** [isinstance(result, Exception)] on an entry of gather's result list. *)
Definition is_exception (o : outcome) : bool :=
  match o with Raised _ => true | Returned => false end.

(** The transport's message ([pubsub.Message]): payload bytes and the
    delivery identifier.  Its [ack()] is the machine action [AAck]. *)
Record pubsub_message : Type := PubsubMsg {
  data : bytes;
  message_id : string;
}.

Inductive level : Type := DEBUG | INFO.

(** One constructor per logging call site, carrying the interpolated
    values of the f-string. *)
Inductive log_msg : Type :=
| Published (name : string)
| Restarted (hostname : pyval)
| Saved (instance_name : pyval)
| DoneAcked (mid : string)
| CaughtException (e : exn)
| Handling (instance_name : pyval)
| GettingFromQueue
| Got (mid : string)
| Adding (mid : string)
| CurrentQueueSize (n : nat)
| Consumed (mid : string)
| AddingFromThread
| RunningSomethingElse.

(** Argument of [asyncio.sleep]. *)
Inductive duration : Type :=
| Seconds (n : Z)
| Fraction (num den : Z)
| RandomUnit.                      (* random.random(), in [0, 1) *)

(** Synchronous routines handed to the thread pool. *)
Inductive job : Type :=
| PublishSyncJob
| ConsumeSyncJob.

(** ** Objects

    Instances live in a heap and are passed by reference, as in Python.
    A class made by [attr.s] is frozen only when asked for
    ([attr.s(frozen=True)]); assignment to a field of a frozen instance
    raises [FrozenInstanceError]. *)
Record attrs_class : Type := AttrsClass {
  cls_name : string;
  frozen : bool;
}.

Record object : Type := Obj {
  cls : attrs_class;
  attrs : list (string * pyval);
}.

Fixpoint assoc_get {A} (k : string) (l : list (string * A)) : option A :=
  match l with
  | [] => None
  | (k', v) :: l' => if String.eqb k k' then Some v else assoc_get k l'
  end.

Fixpoint assoc_set {A} (k : string) (v : A) (l : list (string * A))
  : list (string * A) :=
  match l with
  | [] => [(k, v)]
  | (k', v') :: l' =>
      if String.eqb k k' then (k, v) :: l' else (k', v') :: assoc_set k v l'
  end.

(** ** Coroutines

    [k] arguments are continuations: the rest of the coroutine body. *)
Inductive coro : Type :=
| Return                                              (* fall off the end *)
| Raise (e : exn)
| Log (lvl : level) (m : log_msg) (k : coro)          (* logging.<lvl>(...) *)
| RandRange (lo hi : Z) (k : Z -> coro)               (* random.randrange *)
| Sleep (d : duration) (k : coro)                     (* await asyncio.sleep *)
| NewEvent (k : nat -> coro)                          (* asyncio.Event() *)
| EventWait (ev : nat) (k : coro)                     (* await event.wait() *)
| EventSet (ev : nat) (k : coro)                      (* event.set() *)
| CreateTask (c : coro) (k : coro)                    (* asyncio.create_task *)
| Gather (return_exceptions : bool) (cs : list coro)
         (k : list outcome -> coro)                   (* await asyncio.gather *)
| Ack (pm : pubsub_message) (k : coro)                (* pubsub_msg.ack() *)
| QueueGet (k : pubsub_message -> coro)               (* await GLOBAL_QUEUE.get() *)
| QueuePut (pm : pubsub_message) (k : coro)           (* await GLOBAL_QUEUE.put *)
| QueueSize (k : nat -> coro)                         (* GLOBAL_QUEUE.qsize() *)
| RunInExecutor (j : job) (k : coro)                  (* await loop.run_in_executor *)
| SubmitJob (j : job) (k : coro)                      (* loop.run_in_executor, not awaited *)
| NewObj (c : attrs_class) (k : nat -> coro)          (* instance allocation *)
| SetAttr (r : nat) (name : string) (v : pyval) (k : coro)
| GetAttr (r : nat) (name : string) (k : pyval -> coro)
| Forever (body : coro).                              (* while True: body *)

(** [c1; c2]: run [c2] where [c1] falls off its end. *)
Fixpoint seq_coro (c1 c2 : coro) : coro :=
  match c1 with
  | Return => c2
  | Raise e => Raise e
  | Log lvl m k => Log lvl m (seq_coro k c2)
  | RandRange lo hi k => RandRange lo hi (fun z => seq_coro (k z) c2)
  | Sleep d k => Sleep d (seq_coro k c2)
  | NewEvent k => NewEvent (fun ev => seq_coro (k ev) c2)
  | EventWait ev k => EventWait ev (seq_coro k c2)
  | EventSet ev k => EventSet ev (seq_coro k c2)
  | CreateTask c k => CreateTask c (seq_coro k c2)
  | Gather re cs k => Gather re cs (fun rs => seq_coro (k rs) c2)
  | Ack pm k => Ack pm (seq_coro k c2)
  | QueueGet k => QueueGet (fun pm => seq_coro (k pm) c2)
  | QueuePut pm k => QueuePut pm (seq_coro k c2)
  | QueueSize k => QueueSize (fun n => seq_coro (k n) c2)
  | RunInExecutor j k => RunInExecutor j (seq_coro k c2)
  | SubmitJob j k => SubmitJob j (seq_coro k c2)
  | NewObj c k => NewObj c (fun r => seq_coro (k r) c2)
  | SetAttr r name v k => SetAttr r name v (seq_coro k c2)
  | GetAttr r name k => GetAttr r name (fun v => seq_coro (k v) c2)
  | Forever body => Forever body
  end.

(** ** The event loop *)

(** Where a task stands. *)
Inductive status : Type :=
| Runnable (c : coro)                    (* scheduled with call_soon *)
| Sleeping (d : duration) (c : coro)     (* waiting for a timer *)
| OnEvent (ev : nat) (c : coro)          (* inside event.wait() *)
| OnGather (return_exceptions : bool) (children : list nat)
           (k : list outcome -> coro)    (* awaiting gather's future *)
| OnGet (k : pubsub_message -> coro)     (* a getter of GLOBAL_QUEUE *)
| OnExecutor (j : job) (k : coro)        (* awaiting a thread-pool future *)
| Finished (o : outcome).

Record task : Type := Task {
  st : status;
  parent : option nat;                   (* the task gathering this one *)
}.

Record event_state : Type := EventState {
  is_set : bool;
  waiters : list nat;
}.

(** Observable actions, tagged with the task that performed them. *)
Inductive action : Type :=
| ALog (t : nat) (lvl : level) (m : log_msg)
| AAck (t : nat) (pm : pubsub_message)
| ASpawn (t child : nat)
| ASleep (t : nat) (d : duration)
| AWait (t ev : nat)
| ASet (t ev : nat)
| APut (t : nat) (pm : pubsub_message)
| AGet (t : nat) (pm : pubsub_message)
| ASubmit (t : nat) (j : job)
| ASetAttr (t r : nat) (name : string)
| ADone (t : nat) (o : outcome)
| AInject (thread : nat) (pm : pubsub_message)
| ACallbackLog (thread : nat) (lvl : level) (m : log_msg)
| APublish (t : nat) (payload : bytes)
| AThreadLog (t : nat) (lvl : level) (m : log_msg).

Record state : Type := State {
  tasks : list task;                     (* indexed by task id *)
  ready : list nat;                      (* the loop's FIFO of runnable tasks *)
  events : list event_state;             (* indexed by event id *)
  queue : list pubsub_message;           (* GLOBAL_QUEUE *)
  getters : list nat;                    (* tasks blocked in GLOBAL_QUEUE.get *)
  heap : list object;                    (* indexed by reference *)
  subscribed : bool;                     (* consume_sync is running *)
  trace : list action;                   (* oldest first *)
}.

Definition empty_state : state :=
  {| tasks := []; ready := []; events := []; queue := []; getters := [];
     heap := []; subscribed := false; trace := [] |}.

(** *** State updates *)

Definition set_tasks (x : list task) (s : state) : state :=
  {| tasks := x; ready := ready s; events := events s; queue := queue s;
     getters := getters s; heap := heap s; subscribed := subscribed s;
     trace := trace s |}.

Definition set_ready (x : list nat) (s : state) : state :=
  {| tasks := tasks s; ready := x; events := events s; queue := queue s;
     getters := getters s; heap := heap s; subscribed := subscribed s;
     trace := trace s |}.

Definition set_events (x : list event_state) (s : state) : state :=
  {| tasks := tasks s; ready := ready s; events := x; queue := queue s;
     getters := getters s; heap := heap s; subscribed := subscribed s;
     trace := trace s |}.

Definition set_queue (x : list pubsub_message) (s : state) : state :=
  {| tasks := tasks s; ready := ready s; events := events s; queue := x;
     getters := getters s; heap := heap s; subscribed := subscribed s;
     trace := trace s |}.

Definition set_getters (x : list nat) (s : state) : state :=
  {| tasks := tasks s; ready := ready s; events := events s; queue := queue s;
     getters := x; heap := heap s; subscribed := subscribed s;
     trace := trace s |}.

Definition set_heap (x : list object) (s : state) : state :=
  {| tasks := tasks s; ready := ready s; events := events s; queue := queue s;
     getters := getters s; heap := x; subscribed := subscribed s;
     trace := trace s |}.

Definition set_subscribed (x : bool) (s : state) : state :=
  {| tasks := tasks s; ready := ready s; events := events s; queue := queue s;
     getters := getters s; heap := heap s; subscribed := x;
     trace := trace s |}.

Definition emit (a : action) (s : state) : state :=
  {| tasks := tasks s; ready := ready s; events := events s; queue := queue s;
     getters := getters s; heap := heap s; subscribed := subscribed s;
     trace := trace s ++ [a] |}.

Definition status_of (s : state) (t : nat) : option status :=
  match tasks s !! t with Some tk => Some (st tk) | None => None end.

Definition parent_of (s : state) (t : nat) : option nat :=
  match tasks s !! t with Some tk => parent tk | None => None end.

Definition set_status (t : nat) (x : status) (s : state) : state :=
  set_tasks (alter (fun tk => {| st := x; parent := parent tk |}) t (tasks s)) s.

(** [call_soon]: the task goes to the back of the ready queue. *)
Definition resume (t : nat) (c : coro) (s : state) : state :=
  set_ready (ready s ++ [t]) (set_status t (Runnable c) s).

(** A new task: next free id, scheduled at once. *)
Definition spawn (t : nat) (par : option nat) (c : coro) (s : state) : state :=
  let child := length (tasks s) in
  emit (ASpawn t child)
    (set_ready (ready s ++ [child])
       (set_tasks (tasks s ++ [{| st := Runnable c; parent := par |}]) s)).

Fixpoint spawn_all (t : nat) (par : option nat) (cs : list coro) (s : state)
  : list nat * state :=
  match cs with
  | [] => ([], s)
  | c :: cs' =>
      let child := length (tasks s) in
      let '(ids, s') := spawn_all t par cs' (spawn t par c s) in
      (child :: ids, s')
  end.

(** The results of gathered children, when all of them are finished. *)
Fixpoint collect (s : state) (children : list nat) : option (list outcome) :=
  match children with
  | [] => Some []
  | c :: cs =>
      match status_of s c, collect s cs with
      | Some (Finished o), Some os => Some (o :: os)
      | _, _ => None
      end
  end.

(** Gather's done-callback for a child that finished with [o]. *)
Definition child_done (p : nat) (o : outcome) (s : state) : state :=
  match status_of s p with
  | Some (OnGather re children k) =>
      match re, o with
      | false, Raised e => resume p (Raise e) s
      | _, _ =>
          match collect s children with
          | Some os => resume p (k os) s
          | None => s
          end
      end
  | _ => s
  end.

Definition finish (t : nat) (o : outcome) (s : state) : state :=
  let s1 := emit (ADone t o) (set_status t (Finished o) s) in
  match parent_of s t with
  | Some p => child_done p o s1
  | None => s1
  end.

(** [event.set()] hands the result to every waiter, in waiting order. *)
Fixpoint wake_all (ws : list nat) (s : state) : state :=
  match ws with
  | [] => s
  | w :: ws' =>
      match status_of s w with
      | Some (OnEvent _ c) => wake_all ws' (resume w c s)
      | _ => wake_all ws' s
      end
  end.

Definition event_set (ev : nat) (e : event_state) (s : state) : state :=
  wake_all (waiters e)
    (set_events (<[ev := {| is_set := true; waiters := [] |}]> (events s)) s).

Definition event_park (t ev : nat) (e : event_state) (c : coro) (s : state)
  : state :=
  set_events (<[ev := {| is_set := is_set e; waiters := waiters e ++ [t] |}]>
                (events s))
    (set_status t (OnEvent ev c) s).

(** [Queue.put_nowait] wakes the first getter, which then looks again. *)
Definition wake_getter (s : state) : state :=
  match getters s with
  | [] => s
  | g :: gs =>
      match status_of s g with
      | Some (OnGet k) => resume g (QueueGet k) (set_getters gs s)
      | _ => set_getters gs s
      end
  end.

Definition start_job (j : job) (s : state) : state :=
  match j with
  | ConsumeSyncJob => set_subscribed true s
  | PublishSyncJob => s
  end.

Definition range_Z (lo hi : Z) : list Z :=
  map (fun i => (lo + Z.of_nat i)%Z) (seq 0 (Z.to_nat (hi - lo))).

(** *** One task step

    [exec t c s]: task [t] runs [c] from state [s] until it suspends or
    ends.  The result lists every state this can lead to (one per outcome
    of the random draws).  A reference to an event or object that does not
    exist has no successor. *)
Fixpoint exec (t : nat) (c : coro) (s : state) : list state :=
  match c with
  | Return => [finish t Returned s]
  | Raise e => [finish t (Raised e) s]
  | Log lvl m k => exec t k (emit (ALog t lvl m) s)
  | RandRange lo hi k => flat_map (fun z => exec t (k z) s) (range_Z lo hi)
  | Sleep d k => [emit (ASleep t d) (set_status t (Sleeping d k) s)]
  | NewEvent k =>
      exec t (k (length (events s)))
        (set_events (events s ++ [{| is_set := false; waiters := [] |}]) s)
  | EventWait ev k =>
      match events s !! ev with
      | Some e =>
          if is_set e then exec t k s
          else [emit (AWait t ev) (event_park t ev e k s)]
      | None => []
      end
  | EventSet ev k =>
      match events s !! ev with
      | Some e => exec t k (event_set ev e (emit (ASet t ev) s))
      | None => []
      end
  | CreateTask c' k => exec t k (spawn t None c' s)
  | Gather re cs k =>
      match cs with
      | [] => exec t (k []) s
      | _ :: _ =>
          let '(ids, s') := spawn_all t (Some t) cs s in
          [set_status t (OnGather re ids k) s']
      end
  | Ack pm k => exec t k (emit (AAck t pm) s)
  | QueueGet k =>
      match queue s with
      | pm :: q => exec t (k pm) (emit (AGet t pm) (set_queue q s))
      | [] => [set_getters (getters s ++ [t]) (set_status t (OnGet k) s)]
      end
  | QueuePut pm k =>
      exec t k (wake_getter (emit (APut t pm) (set_queue (queue s ++ [pm]) s)))
  | QueueSize k => exec t (k (length (queue s))) s
  | RunInExecutor j k =>
      [emit (ASubmit t j) (set_status t (OnExecutor j k) s)]
  | SubmitJob j k => exec t k (emit (ASubmit t j) (start_job j s))
  | NewObj c' k =>
      exec t (k (length (heap s)))
        (set_heap (heap s ++ [{| cls := c'; attrs := [] |}]) s)
  | SetAttr r name v k =>
      match heap s !! r with
      | Some o =>
          if frozen (cls o) then [finish t (Raised FrozenInstanceError) s]
          else
            exec t k
              (emit (ASetAttr t r name)
                 (set_heap
                    (<[r := {| cls := cls o;
                               attrs := assoc_set name v (attrs o) |}]> (heap s))
                    s))
      | None => []
      end
  | GetAttr r name k =>
      match heap s !! r with
      | Some o =>
          match assoc_get name (attrs o) with
          | Some v => exec t (k v) s
          | None => [finish t (Raised (AttributeError name)) s]
          end
      | None => []
      end
  | Forever body =>
      [set_ready (t :: ready s)
         (set_status t (Runnable (seq_coro body (Forever body))) s)]
  end.

(** ** The program *)

Definition TOPIC : string := "projects/europython18/topics/ep18-topic".
Definition SUBSCRIPTION : string :=
  "projects/europython18/subscriptions/ep18-sub".
Definition CHOICES : string := "abcdefghijklmnopqrstuvwxyz0123456789".

(** [@attr.s class PubSubMessage]: no [frozen=True]. *)
Definition PubSubMessage_class : attrs_class :=
  {| cls_name := "PubSubMessage"; frozen := false |}.

(** *** Synchronous side: what runs on worker threads *)

(** What the outside world decides during one call of [publish_sync]: the
    raw numbers behind [random.choices], and which transport calls fail. *)
Record oracle : Type := Oracle {
  raw : nat -> nat;
  create_topic_raises : bool;
  publish_raises : nat -> bool;          (* by index of the publish call *)
}.

Inductive sync_action : Type :=
| SCreateTopic (topic : string)
| SPublish (topic : string) (payload : bytes)
| SLog (lvl : level) (m : log_msg).

Definition dquote : string := String (ascii_of_nat 34) EmptyString.

Definition hex_digit (n : nat) : ascii :=
  nth n (list_ascii_of_string "0123456789abcdef") "0"%char.

(** [json.dumps] escaping of one character (ensure_ascii). *)
Definition json_escape_char (a : ascii) : string :=
  let n := nat_of_ascii a in
  if Nat.eqb n 34 then "\" ++ dquote
  else if Nat.eqb n 92 then "\\"
  else if Nat.eqb n 10 then "\n"
  else if Nat.eqb n 13 then "\r"
  else if Nat.eqb n 9 then "\t"
  else if Nat.eqb n 8 then "\b"
  else if Nat.eqb n 12 then "\f"
  else if Nat.ltb n 32 || Nat.ltb 126 n then
    "\u00" ++ String (hex_digit (n / 16)) (String (hex_digit (n mod 16)) "")
  else String a "".

Fixpoint json_escape (s : string) : string :=
  match s with
  | EmptyString => ""
  | String a s' => json_escape_char a ++ json_escape s'
  end.

Definition json_quote (s : string) : string :=
  dquote ++ json_escape s ++ dquote.

Fixpoint json_items (d : list (string * string)) : string :=
  match d with
  | [] => ""
  | [(k, v)] => json_quote k ++ ": " ++ json_quote v
  | (k, v) :: d' => json_quote k ++ ": " ++ json_quote v ++ ", " ++ json_items d'
  end.

(** [json.dumps] of a dict from strings to strings. *)
Definition json_dumps (d : list (string * string)) : string :=
  "{" ++ json_items d ++ "}".

Definition utf8_encode_char (a : ascii) : bytes :=
  let n := nat_of_ascii a in
  if Nat.ltb n 128 then [byte_of_ascii a]
  else [byte_of_ascii (ascii_of_nat (192 + n / 64));
        byte_of_ascii (ascii_of_nat (128 + n mod 64))].

(** [bytes(s, encoding='utf-8')]. *)
Fixpoint utf8_encode (s : string) : bytes :=
  match s with
  | EmptyString => []
  | String a s' => (utf8_encode_char a ++ utf8_encode s')%list
  end.

(** One element of [random.choices(population)]. *)
Definition random_choice (population : string) (r : nat) : string :=
  match String.get (r mod String.length population) population with
  | Some a => String a ""
  | None => ""
  end.

(** [''.join(random.choices(population, k=k))], drawing from position
    [pos] of the raw stream. *)
Fixpoint random_choices (population : string) (k : nat) (rng : nat -> nat)
  (pos : nat) : string :=
  match k with
  | 0 => ""
  | S k' =>
      random_choice population (rng pos)
      ++ random_choices population k' rng (S pos)
  end.

(** [get_publisher]: a failing [create_topic] is swallowed. *)
Definition get_publisher (o : oracle) : list sync_action :=
  [SCreateTopic TOPIC].

(** The body of [for msg in range(1, 6)], for the publish calls from
    number [n] on. *)
Fixpoint publish_loop (o : oracle) (msgs : list nat) (n : nat)
  : list sync_action * outcome :=
  match msgs with
  | [] => ([], Returned)
  | _ :: msgs' =>
      let name := random_choices CHOICES 4 (raw o) (4 * n) in
      let msg_data := [("instance_name", name)] in
      let bytes_message := utf8_encode (json_dumps msg_data) in
      if publish_raises o n then ([], Raised TransportError)
      else
        let '(acts, out) := publish_loop o msgs' (S n) in
        (SPublish TOPIC bytes_message :: SLog DEBUG (Published name) :: acts,
         out)
  end.

Definition publish_sync (o : oracle) : list sync_action * outcome :=
  let '(acts, out) := publish_loop o (seq 1 5) 0 in
  ((get_publisher o ++ acts)%list, out).

Section Program.

(** Library functions the program calls on a payload:
    [bytes.decode('utf-8')], [json.loads], and [format] of a value that is
    not a [str] ([None] when the library raises). *)
Variable utf8_decode : bytes -> option string.
Variable json_loads : string -> option pyval.
Variable format_other : pyval -> string.

(** [f'{v}']. *)
Definition py_format (v : pyval) : string :=
  match v with
  | PStr s => s
  | _ => format_other v
  end.

(** [v[key]]. *)
Definition subscript (v : pyval) (key : string) : exn + pyval :=
  match v with
  | PDict d =>
      match assoc_get key d with
      | Some x => inr x
      | None => inl (KeyError key)
      end
  | _ => inl TypeError
  end.

(** [json.loads(data.decode('utf-8'))['instance_name']]. *)
Definition parse_payload (payload : bytes) : exn + pyval :=
  match utf8_decode payload with
  | None => inl UnicodeDecodeError
  | Some text =>
      match json_loads text with
      | None => inl JSONDecodeError
      | Some msg_data => subscript msg_data "instance_name"
      end
  end.

(** [PubSubMessage.__attrs_post_init__]. *)
Definition attrs_post_init (self : nat) (k : coro) : coro :=
  GetAttr self "instance_name" (fun instance_name =>
  SetAttr self "hostname" (PStr (py_format instance_name ++ ".example.net")) k).

(** [PubSubMessage(message_id=..., instance_name=...)]: the [__init__]
    that [attr.s] generates assigns the [init] fields in declaration
    order, then calls [__attrs_post_init__]. *)
Definition PubSubMessage (instance_name message_id : pyval)
  (k : nat -> coro) : coro :=
  NewObj PubSubMessage_class (fun self =>
  SetAttr self "instance_name" instance_name (
  SetAttr self "message_id" message_id (
  attrs_post_init self (k self)))).

Definition restart_host (msg : nat) : coro :=
  RandRange 1 3 (fun rand_int =>
  if Z.eqb rand_int 2 then
    GetAttr msg "hostname" (fun hostname =>
    Raise (Exception ("Could not restart " ++ py_format hostname)))
  else
    RandRange 1 3 (fun secs =>
    Sleep (Seconds secs) (
    GetAttr msg "hostname" (fun hostname =>
    Log DEBUG (Restarted hostname) Return)))).

Definition save (msg : nat) : coro :=
  Sleep RandomUnit (
  GetAttr msg "instance_name" (fun instance_name =>
  Log DEBUG (Saved instance_name) Return)).

Definition cleanup (pubsub_msg : pubsub_message) (event : nat) : coro :=
  EventWait event (
  Sleep RandomUnit (
  Ack pubsub_msg (
  Log DEBUG (DoneAcked (message_id pubsub_msg)) Return))).

Fixpoint handle_results (results : list outcome) (k : coro) : coro :=
  match results with
  | [] => k
  | result :: results' =>
      match result with
      | Raised e => Log DEBUG (CaughtException e) (handle_results results' k)
      | Returned => handle_results results' k
      end
  end.

(** [handle_message] from the construction of the event on. *)
Definition dispatch (pubsub_msg : pubsub_message) (msg : nat) : coro :=
  NewEvent (fun event =>
  CreateTask (cleanup pubsub_msg event) (
  Gather true [save msg; restart_host msg] (fun results =>
  handle_results results (
  EventSet event Return)))).

Definition handle_message (pubsub_msg : pubsub_message) : coro :=
  match parse_payload (data pubsub_msg) with
  | inl e => Raise e
  | inr instance_name =>
      PubSubMessage instance_name (PStr (message_id pubsub_msg)) (fun msg =>
      GetAttr msg "instance_name" (fun shown =>
      Log DEBUG (Handling shown) (
      dispatch pubsub_msg msg)))
  end.

Definition get_from_queue : coro :=
  Forever (
    Log INFO GettingFromQueue (
    QueueGet (fun pubsub_msg =>
    Log INFO (Got (message_id pubsub_msg)) (
    CreateTask (handle_message pubsub_msg) Return)))).

Definition add_to_queue (msg : pubsub_message) : coro :=
  Log INFO (Adding (message_id msg)) (
  QueuePut msg (
  QueueSize (fun n =>
  Log INFO (CurrentQueueSize n) Return))).

Definition publish : coro :=
  Forever (
    RunInExecutor PublishSyncJob (
    Sleep (Seconds 3) Return)).

Definition run_pubsub : coro :=
  SubmitJob ConsumeSyncJob (
  CreateTask publish Return).

Definition run_something_else : coro :=
  Forever (
    Log DEBUG RunningSomethingElse (
    Sleep (Fraction 1 10) Return)).

Definition run : coro :=
  Gather false [run_pubsub; run_something_else; get_from_queue]
    (fun _ => Return).

(** *** Transitions of the whole system *)

Inductive label : Type :=
| Run (t : nat)                          (* the loop runs a ready task *)
| Fire (t : nat)                         (* the timer of a sleeping task expires *)
| Deliver (thread : nat) (pm : pubsub_message)
                                         (* a transport thread calls [callback] *)
| ExecutorDone (t : nat) (o : oracle).   (* a pool thread finished [publish_sync] *)

Fixpoint remove_first (t : nat) (l : list nat) : list nat :=
  match l with
  | [] => []
  | x :: l' => if Nat.eqb x t then l' else x :: remove_first t l'
  end.

Definition sync_to_action (t : nat) (a : sync_action) : list action :=
  match a with
  | SCreateTopic _ => []
  | SPublish _ payload => [APublish t payload]
  | SLog lvl m => [AThreadLog t lvl m]
  end.

(** [callback] of [consume_sync], run by thread [thread]:
    [asyncio.run_coroutine_threadsafe(add_to_queue(pubsub_msg), loop)]
    appends the new task to the loop's ready queue. *)
Definition callback (thread : nat) (pubsub_msg : pubsub_message) (s : state)
  : state :=
  let s1 :=
    emit (ACallbackLog thread INFO (Consumed (message_id pubsub_msg))) s in
  let s2 := emit (ACallbackLog thread INFO AddingFromThread) s1 in
  let s3 := emit (AInject thread pubsub_msg) s2 in
  set_ready (ready s3 ++ [length (tasks s3)])
    (set_tasks
       (tasks s3 ++ [{| st := Runnable (add_to_queue pubsub_msg);
                        parent := None |}]) s3).

Definition step (l : label) (s : state) : list state :=
  match l with
  | Run t =>
      if existsb (Nat.eqb t) (ready s) then
        match status_of s t with
        | Some (Runnable c) => exec t c (set_ready (remove_first t (ready s)) s)
        | _ => []
        end
      else []
  | Fire t =>
      match status_of s t with
      | Some (Sleeping _ c) => [resume t c s]
      | _ => []
      end
  | Deliver thread pm =>
      if subscribed s then [callback thread pm s] else []
  | ExecutorDone t o =>
      match status_of s t with
      | Some (OnExecutor PublishSyncJob k) =>
          let '(acts, out) := publish_sync o in
          let s1 :=
            fold_left (fun s' a => emit a s')
              (flat_map (sync_to_action t) acts) s in
          [resume t (match out with Returned => k | Raised e => Raise e end) s1]
      | _ => []
      end
  end.

(** [path s ls s']: the system can go from [s] to [s'] through the
    transitions [ls]. *)
Inductive path : state -> list label -> state -> Prop :=
| path_nil s : path s [] s
| path_cons s l s1 ls s2 :
    In s1 (step l s) -> path s1 ls s2 -> path s (l :: ls) s2.

(** asyncio runs its ready queue in order. *)
Definition fifo (l : label) (s : state) : Prop :=
  match l with
  | Run t => head (ready s) = Some t
  | _ => True
  end.

(** [loop.create_task(c)] on a fresh loop. *)
Definition boot (c : coro) : state :=
  {| tasks := [{| st := Runnable c; parent := None |}]; ready := [0];
     events := []; queue := []; getters := []; heap := [];
     subscribed := false; trace := [] |}.

(** ** Exhaustive exploration of a closed system *)

Definition awaits_executor (tk : task) : bool :=
  match st tk with OnExecutor _ _ => true | _ => false end.

(** No thread can act on the loop: nothing is subscribed and no task
    waits for the pool. *)
Definition closedb (s : state) : bool :=
  negb (subscribed s)
  && forallb (fun tk => negb (awaits_executor tk)) (tasks s).

(** Every state the loop itself can move to. *)
Definition succs (s : state) : list state :=
  flat_map (fun t => step (Run t) s) (ready s)
  ++ flat_map (fun t => step (Fire t) s) (seq 0 (length (tasks s))).

(** Nothing can happen any more. *)
Definition terminal (s : state) : Prop := forall l, step l s = [].

Definition terminalb (s : state) : bool :=
  match succs s with [] => true | _ :: _ => false end.


(** The states within [n] transitions of [s]. *)
Fixpoint reach (n : nat) (s : state) : list state :=
  s :: match n with
       | 0 => []
       | S n' => flat_map (reach n') (succs s)
       end.

(** ** Reading traces *)





Definition is_spawn (a : action) : bool :=
  match a with ASpawn _ _ => true | _ => false end.

Definition is_setattr (a : action) : bool :=
  match a with ASetAttr _ _ _ => true | _ => false end.

Definition by_task (t : nat) (a : action) : bool :=
  match a with
  | ALog t' _ _ | AAck t' _ | ASpawn t' _ | ASleep t' _ | AWait t' _
  | ASet t' _ | APut t' _ | AGet t' _ | ASubmit t' _ | ASetAttr t' _ _
  | ADone t' _ | APublish t' _ | AThreadLog t' _ _ => Nat.eqb t t'
  | AInject _ _ | ACallbackLog _ _ _ => false
  end.







(** ** A pipeline on its own

    [boot (handle_message pm)] is the loop right after [get_from_queue]
    created the task for [pm].  Tasks, events and objects are numbered in
    creation order: task 0 is [handle_message], 1 [cleanup], 2 [save],
    3 [restart_host]; event 0 is the gate; object 0 is the message. *)


(** The body of [handle_message] once the payload is parsed. *)
Definition handler (pm : pubsub_message) (instance_name : pyval) : coro :=
  PubSubMessage instance_name (PStr (message_id pm)) (fun msg =>
  GetAttr msg "instance_name" (fun shown =>
  Log DEBUG (Handling shown) (
  dispatch pm msg))).


(** *** Sample library functions

    Stand-ins for [bytes.decode] and [json.loads] on the payloads that
    [publish_sync] produces (ASCII text; one object with one string field
    and no escapes).  They serve to exhibit concrete runs. *)

Fixpoint sample_decode (b : bytes) : option string :=
  match b with
  | [] => Some ""
  | x :: b' =>
      if Nat.ltb (Byte.to_nat x) 128 then
        match sample_decode b' with
        | Some s => Some (String (ascii_of_byte x) s)
        | None => None
        end
      else None
  end.

Fixpoint strip_prefix (p s : string) : option string :=
  match p, s with
  | EmptyString, _ => Some s
  | String a p', String b s' => if Ascii.eqb a b then strip_prefix p' s' else None
  | String _ _, EmptyString => None
  end.

Fixpoint until_quote (s : string) : option (string * string) :=
  match s with
  | EmptyString => None
  | String a s' =>
      if Ascii.eqb a (ascii_of_nat 34) then Some ("", s')
      else
        match until_quote s' with
        | Some (x, r) => Some (String a x, r)
        | None => None
        end
  end.

Definition sample_loads (s : string) : option pyval :=
  match strip_prefix ("{" ++ dquote) s with
  | Some r1 =>
      match until_quote r1 with
      | Some (k, r2) =>
          match strip_prefix (": " ++ dquote) r2 with
          | Some r3 =>
              match until_quote r3 with
              | Some (v, r4) =>
                  if String.eqb r4 "}" then Some (PDict [(k, PStr v)]) else None
              | None => None
              end
          | None => None
          end
      | None => None
      end
  | None => None
  end.

Definition sample_format (v : pyval) : string := "".

Definition sample_payload (name : string) : bytes :=
  utf8_encode (json_dumps [("instance_name", name)]).

Definition sample_message : pubsub_message :=
  {| data := sample_payload "ab12"; message_id := "1" |}.



(** The exception [restart_host] raises for a message named [name]. *)
Definition restart_error (name : pyval) : exn :=
  Exception ("Could not restart " ++ (py_format name ++ ".example.net")).


(** The exceptions among gather's results. *)
Fixpoint exceptions (results : list outcome) : list exn :=
  match results with
  | [] => []
  | Raised e :: results' => e :: exceptions results'
  | Returned :: results' => exceptions results'
  end.

Definition log_caught (t : nat) (s : state) (e : exn) : state :=
  emit (ALog t DEBUG (CaughtException e)) s.





(** A payload without the field. *)
Definition untagged_message : pubsub_message :=
  {| data := utf8_encode (json_dumps [("name", "ab12")]); message_id := "2" |}.


(** The instance [PubSubMessage(...)] builds. *)
Definition message_object (instance_name message_id : pyval) : object :=
  {| cls := PubSubMessage_class;
     attrs := [("instance_name", instance_name);
               ("message_id", message_id);
               ("hostname", PStr (py_format instance_name ++ ".example.net"))] |}.

Definition sets_hostname (a : action) : bool :=
  match a with ASetAttr _ _ name => String.eqb name "hostname" | _ => false end.

(** The three assignments of the generated [__init__] and of
    [__attrs_post_init__], for object [r] built by task [t]. *)
Definition construction (t r : nat) : list action :=
  [ASetAttr t r "instance_name"; ASetAttr t r "message_id";
   ASetAttr t r "hostname"].

(** A coroutine that builds a message and then assigns to a field. *)
Definition reassign : coro :=
  PubSubMessage (PStr "ab12") (PStr "1") (fun msg =>
  SetAttr msg "hostname" (PStr "elsewhere") Return).

(** ** What [publish_sync] sends *)

Fixpoint published (acts : list sync_action) : list bytes :=
  match acts with
  | [] => []
  | SPublish _ payload :: acts' => payload :: published acts'
  | _ :: acts' => published acts'
  end.

(** The JSON text of an object whose one field [instance_name] is the
    string [name], for a [name] that needs no escape. *)
Definition payload_text (name : string) : string :=
  "{" ++ dquote ++ "instance_name" ++ dquote ++ ": "
  ++ dquote ++ name ++ dquote ++ "}".

(** A lowercase ASCII letter or a digit. *)
Definition in_choices (a : ascii) : bool :=
  existsb (Ascii.eqb a) (list_ascii_of_string CHOICES).

(** Four characters, each a lowercase ASCII letter or a digit. *)
Definition valid_name (name : string) : Prop :=
  String.length name = 4
  /\ forallb in_choices (list_ascii_of_string name) = true.

(** The names one call of [publish_sync] draws. *)
Definition drawn_names (o : oracle) : list string :=
  map (fun i => random_choices CHOICES 4 (raw o) (4 * i)) (seq 0 5).

(** An outside world in which the transport never fails. *)
Definition calm (rng : nat -> nat) : oracle :=
  {| raw := rng; create_topic_raises := true; publish_raises := fun _ => false |}.

Definition is_ascii (a : ascii) : bool := Nat.ltb (nat_of_ascii a) 128.

(** Every byte is below 128: ASCII, one byte per character in UTF-8. *)
Definition ascii_bytes (p : bytes) : bool :=
  forallb (fun b => Nat.ltb (Byte.to_nat b) 128) p.

(** What one publish call sends and logs. *)
Definition publish_one (name : string) : list sync_action :=
  [SPublish TOPIC (utf8_encode (json_dumps [("instance_name", name)]));
   SLog DEBUG (Published name)].

(** ** What a task's step cannot change

    A status is passive when no other task and no outside event can move
    it: only the task's own step, its timer or its executor can. *)
Definition passive (x : status) : Prop :=
  match x with
  | Runnable _ | Sleeping _ _ | OnExecutor _ _ | Finished _ => True
  | OnEvent _ _ | OnGather _ _ _ | OnGet _ => False
  end.

(** ** The publish loop *)

(** The publish task while [publish_sync] runs on the pool. *)
Definition awaiting_publish : status :=
  OnExecutor PublishSyncJob (Sleep (Seconds 3) publish).

(** An outside world in which every publish call fails. *)
Definition stormy : oracle :=
  {| raw := fun n => n; create_topic_raises := false;
     publish_raises := fun _ => true |}.

Definition is_log (a : action) : bool :=
  match a with
  | ALog _ _ _ | AThreadLog _ _ _ | ACallbackLog _ _ _ => true
  | _ => false
  end.

(** The loop right after [publish] handed [publish_sync] to the pool. *)
Definition publish_waiting : state :=
  hd empty_state (flat_map (step (Run 0)) (step (Run 0) (boot publish))).

(** ** The ingest loop *)

(** [get_from_queue] once it has an item. *)
Definition gfq_got (pubsub_msg : pubsub_message) : coro :=
  Log INFO (Got (message_id pubsub_msg)) (
  CreateTask (handle_message pubsub_msg) get_from_queue).

(** [get_from_queue] at the top of an iteration. *)
Definition gfq_turn : coro :=
  Log INFO GettingFromQueue (QueueGet gfq_got).

(** The ingest task is about to take an item: at the top of an
    iteration, or woken up inside [GLOBAL_QUEUE.get()]. *)
Definition about_to_get (x : option status) : Prop :=
  x = Some (Runnable gfq_turn) \/ x = Some (Runnable (QueueGet gfq_got)).

(** What task [t] leaves when [handle_message] suspends in [gather], for
    the message [pm]: [n] is the first new task, [ev] the gate, [msg] the
    message object. *)
Definition dispatched_by (t : nat) (pm : pubsub_message) (n ev msg : nat)
  (s : state) : Prop :=
  status_of s t
  = Some (OnGather true [S n; S (S n)]
            (fun results => handle_results results (EventSet ev Return)))
  /\ status_of s n = Some (Runnable (cleanup pm ev))
  /\ status_of s (S n) = Some (Runnable (save msg))
  /\ status_of s (S (S n)) = Some (Runnable (restart_host msg))
  /\ In n (ready s) /\ In (S n) (ready s) /\ In (S (S n)) (ready s)
  /\ events s !! ev = Some {| is_set := false; waiters := [] |}.

(** The state [dispatch] leaves, spelled out. *)
Definition dispatch_state (t : nat) (pm : pubsub_message) (msg : nat)
  (s : state) : state :=
  let ev := length (events s) in
  let s1 :=
    set_events (events s ++ [{| is_set := false; waiters := [] |}]) s in
  let s2 := spawn t None (cleanup pm ev) s1 in
  let s3 := spawn t (Some t) (save msg) s2 in
  let s4 := spawn t (Some t) (restart_host msg) s3 in
  set_status t
    (OnGather true [length (tasks s2); length (tasks s3)]
       (fun results => handle_results results (EventSet ev Return)))
    s4.

(** A loop with only the ingest task, at the top of its loop, and two
    messages in the queue. *)
Definition two_queued (A B : pubsub_message) : state :=
  {| tasks := [{| st := Runnable gfq_turn; parent := None |}]; ready := [0];
     events := []; queue := [A; B]; getters := []; heap := [];
     subscribed := true; trace := [] |}.

(** ** The mailbox *)

(** How a waiting task is woken. *)
Definition wakes (x x' : status) : Prop :=
  match x with
  | OnEvent _ c => x' = Runnable c
  | OnGather _ _ k =>
      (exists rs, x' = Runnable (k rs)) \/ (exists e, x' = Runnable (Raise e))
  | OnGet k => x' = Runnable (QueueGet k)
  | _ => False
  end.

(** What the step of another task can do to a task: nothing, or wake it. *)
Definition moved (tk tk' : task) : Prop :=
  parent tk' = parent tk /\ (st tk' = st tk \/ wakes (st tk) (st tk')).

(** Code that never touches [GLOBAL_QUEUE], nor creates a task that
    does. *)
Fixpoint qfree (c : coro) : Prop :=
  match c with
  | Return | Raise _ => True
  | Log _ _ k | Sleep _ k | EventWait _ k | EventSet _ k | Ack _ k
  | RunInExecutor _ k | SubmitJob _ k | SetAttr _ _ _ k => qfree k
  | RandRange _ _ k => forall z, qfree (k z)
  | NewEvent k | NewObj _ k | QueueSize k => forall n, qfree (k n)
  | GetAttr _ _ k => forall v, qfree (k v)
  | CreateTask c' k => qfree c' /\ qfree k
  | Gather _ cs k =>
      (fix all (l : list coro) : Prop :=
         match l with
         | [] => True
         | c' :: l' => qfree c' /\ all l'
         end) cs
      /\ forall rs, qfree (k rs)
  | QueueGet _ | QueuePut _ _ => False
  | Forever body => qfree body
  end.

Definition qfree_status (x : status) : Prop :=
  match x with
  | Runnable c | Sleeping _ c | OnEvent _ c | OnExecutor _ c => qfree c
  | OnGather _ _ k => forall rs, qfree (k rs)
  | OnGet _ => False
  | Finished _ => True
  end.

(** The statuses of the ingest task. *)
Definition ingest_status (x : status) : Prop :=
  x = Runnable get_from_queue \/ x = Runnable gfq_turn
  \/ x = OnGet gfq_got \/ x = Runnable (QueueGet gfq_got).

(** The items [get_from_queue] took, oldest first. *)
Fixpoint taken (tr : list action) : list pubsub_message :=
  match tr with
  | [] => []
  | AGet _ pm :: tr' => pm :: taken tr'
  | _ :: tr' => taken tr'
  end.

(** The injections, oldest first, each with its thread. *)
Fixpoint injected (tr : list action) : list (nat * pubsub_message) :=
  match tr with
  | [] => []
  | AInject th pm :: tr' => (th, pm) :: injected tr'
  | _ :: tr' => injected tr'
  end.

(** Executions in which the loop runs its ready queue in order. *)
Inductive fifo_path : state -> list label -> state -> Prop :=
| fifo_nil s : fifo_path s [] s
| fifo_cons s l s1 ls s2 :
    fifo l s -> In s1 (step l s) -> fifo_path s1 ls s2 ->
    fifo_path s (l :: ls) s2.

Definition member (l : list nat) (u : nat) : bool := existsb (Nat.eqb u) l.

(** The tasks [P] selects are runnable, and are not [t]. *)
Definition selected_runnable (P : nat -> bool) (t : nat) (s : state) : Prop :=
  forall u, P u = true ->
    u <> t /\ exists cu, status_of s u = Some (Runnable cu).

(** Code whose step lands in a status satisfying [G], and creates only
    tasks that never touch the queue. *)
Fixpoint tame (G : status -> Prop) (c : coro) : Prop :=
  match c with
  | Return => G (Finished Returned)
  | Raise e => G (Finished (Raised e))
  | Log _ _ k | Ack _ k | EventSet _ k | SubmitJob _ k | QueuePut _ k =>
      tame G k
  | RandRange _ _ k => forall z, tame G (k z)
  | Sleep d k => G (Sleeping d k)
  | NewEvent k | NewObj _ k | QueueSize k => forall n, tame G (k n)
  | EventWait ev k => G (OnEvent ev k) /\ tame G k
  | CreateTask c' k => qfree c' /\ tame G k
  | Gather re cs k =>
      Forall qfree cs /\ (forall ids, G (OnGather re ids k)) /\ tame G (k [])
  | QueueGet k => G (OnGet k) /\ forall pm, tame G (k pm)
  | RunInExecutor j k => G (OnExecutor j k)
  | SetAttr _ _ _ k => G (Finished (Raised FrozenInstanceError)) /\ tame G k
  | GetAttr _ name k =>
      G (Finished (Raised (AttributeError name))) /\ forall v, tame G (k v)
  | Forever body => G (Runnable (seq_coro body (Forever body)))
  end.

(** The queue, its getters and the record of what went through it are
    the same in both states. *)
Definition same_mailbox (t : nat) (s s' : state) : Prop :=
  queue s' = queue s /\ getters s' = getters s
  /\ taken (trace s') = taken (trace s)
  /\ injected (trace s') = injected (trace s)
  /\ forall u k, u <> t -> status_of s u = Some (OnGet k) ->
       status_of s' u = Some (OnGet k).

(** Every entry of the ready queue is a task. *)
Definition ready_valid (s : state) : Prop :=
  forall u, In u (ready s) -> u < length (tasks s).

Definition is_onget (x : status) : bool :=
  match x with OnGet _ => true | _ => false end.

(** A task that [callback] created and that did not run yet. *)
Definition put_task (pm : pubsub_message) : task :=
  {| st := Runnable (add_to_queue pm); parent := None |}.

(** What holds of the mailbox between two transitions.  [g] is the task
    of [get_from_queue]; [pend] lists the injections that did not reach
    the queue yet, oldest first, each with its task. *)
Record mailbox_inv (g : nat) (pend : list (nat * pubsub_message))
  (s : state) : Prop := {
  inv_ingest :
    exists x, status_of s g = Some x /\ ingest_status x
      /\ getters s = if is_onget x then [g] else [];
  inv_nodup : NoDup (map fst pend);
  inv_pend : forall u pm, In (u, pm) pend -> tasks s !! u = Some (put_task pm);
  inv_order : List.filter (member (map fst pend)) (ready s) = map fst pend;
  inv_others :
    forall u x, status_of s u = Some x -> u <> g -> ~ In u (map fst pend) ->
      qfree_status x;
  inv_ready : ready_valid s;
  inv_count :
    (taken (trace s) ++ queue s ++ map snd pend)%list
    = map snd (injected (trace s));
  inv_awake : forall k, status_of s g = Some (OnGet k) -> queue s = [];
  inv_scheduled : forall c, status_of s g = Some (Runnable c) -> In g (ready s);
}.

(** What thread [th] injected, oldest first. *)
Definition from_thread (th : nat) (l : list (nat * pubsub_message))
  : list pubsub_message :=
  map snd (List.filter (fun p => Nat.eqb (fst p) th) l).

(** ** The whole program *)

(** The loop after the first step of [run]: the gather of the three
    coroutines is pending, its children are scheduled in order. *)
Definition started : state :=
  {| tasks := [ {| st := OnGather false [1; 2; 3] (fun _ => Return);
                   parent := None |};
                {| st := Runnable run_pubsub; parent := Some 0 |};
                {| st := Runnable run_something_else; parent := Some 0 |};
                {| st := Runnable get_from_queue; parent := Some 0 |} ];
     ready := [1; 2; 3]; events := []; queue := []; getters := []; heap := [];
     subscribed := false;
     trace := [ASpawn 0 1; ASpawn 0 2; ASpawn 0 3] |}.

(** The task of [get_from_queue] in a run of the program. *)
Definition ingest : nat := 3.

Definition fifob (l : label) (s : state) : bool :=
  match l with
  | Run t =>
      match ready s with
      | t' :: _ => Nat.eqb t' t
      | [] => false
      end
  | _ => true
  end.

(** Follow the transitions [ls], taking the first outcome of each. *)
Fixpoint follow (ls : list label) (s : state) : option state :=
  match ls with
  | [] => Some s
  | l :: ls' =>
      if fifob l s then
        match step l s with
        | s1 :: _ => follow ls' s1
        | [] => None
        end
      else None
  end.

Definition after (ls : list label) : state :=
  match follow ls (boot run) with
  | Some s => s
  | None => empty_state
  end.

(** The injections that did not reach the queue yet are tasks of
    [add_to_queue], all different, waiting in the ready queue. *)
Definition waiting_to_put (pend : list (nat * pubsub_message)) (s : state)
  : Prop :=
  NoDup (map fst pend)
  /\ forall u pm, In (u, pm) pend ->
       In u (ready s) /\ status_of s u = Some (Runnable (add_to_queue pm)).

(** Start, one delivery by thread 7, and turns of the loop until
    [get_from_queue] has taken the message. *)
Definition one_delivery (pm : pubsub_message) : list label :=
  [Run 0; Run 1; Deliver 7 pm; Run 2; Run 2; Run 3; Run 3; Run 4; Run 4;
   Run 5; Run 3].

(** An outside world in which the publish call number [n] fails, and only
    that one. *)
Definition fails_at (n : nat) : oracle :=
  {| raw := fun i => 5 * i; create_topic_raises := true;
     publish_raises := Nat.eqb n |}.

(** [run_something_else] inside an iteration, before its log line. *)
Definition rse_turn : coro :=
  Log DEBUG RunningSomethingElse (Sleep (Fraction 1 10) run_something_else).

(** The statuses of the task of [run_something_else]. *)
Definition rse_status (x : status) : Prop :=
  x = Runnable run_something_else \/ x = Runnable rse_turn
  \/ x = Sleeping (Fraction 1 10) run_something_else.

(** A transition of task [t] itself: its turn, its timer, its pool
    thread. *)
Definition own_label (t : nat) (l : label) : bool :=
  match l with
  | Run u | Fire u | ExecutorDone u _ => Nat.eqb u t
  | Deliver _ _ => false
  end.

(** The actions of [tr] are all of task [t]. *)
Definition owned (t : nat) (tr : list action) : Prop :=
  List.Forall (fun a => by_task t a = true) tr.

(** No action of [tr] is of task [t]. *)
Definition foreign (t : nat) (tr : list action) : Prop :=
  List.Forall (fun a => by_task t a = false) tr.

(** Code whose step cannot end the task: it suspends, or loops. *)
Fixpoint endless (c : coro) : Prop :=
  match c with
  | Return | Raise _ => False
  | Log _ _ k | Ack _ k | EventSet _ k | SubmitJob _ k | QueuePut _ k
  | EventWait _ k | CreateTask _ k => endless k
  | RandRange _ _ k => forall z, endless (k z)
  | Sleep _ _ | RunInExecutor _ _ | Forever _ => True
  | NewEvent k | NewObj _ k | QueueSize k => forall n, endless (k n)
  | Gather _ cs k =>
      match cs with
      | [] => endless (k [])
      | _ :: _ => True
      end
  | QueueGet k => forall pm, endless (k pm)
  | SetAttr _ _ _ _ | GetAttr _ _ _ => False
  end.

(** [run] while it awaits its gather. *)
Definition gather_of_run : status :=
  OnGather false [1; 2; 3] (fun _ => Return).

(** The program once [run] has taken its first step. *)
Record run_inv (s : state) : Prop := {
  ri_run : status_of s 0 = Some gather_of_run;
  ri_pubsub :
    status_of s 1 = Some (Runnable run_pubsub)
    \/ status_of s 1 = Some (Finished Returned);
  ri_else : exists x, status_of s 2 = Some x /\ rse_status x;
  ri_ingest : exists x, status_of s 3 = Some x /\ ingest_status x;
  ri_children : forall u, parent_of s u = Some 0 -> u = 1 \/ u = 2 \/ u = 3;
}.

(** ** Acks *)

(** [may_ack pm c]: the code [c], what follows it or a task it creates
    contains an ack of [pm]. *)
Inductive may_ack (pm : pubsub_message) : coro -> Prop :=
| ma_here k : may_ack pm (Ack pm k)
| ma_ack pm' k : may_ack pm k -> may_ack pm (Ack pm' k)
| ma_log lvl m k : may_ack pm k -> may_ack pm (Log lvl m k)
| ma_rand lo hi k z : may_ack pm (k z) -> may_ack pm (RandRange lo hi k)
| ma_sleep d k : may_ack pm k -> may_ack pm (Sleep d k)
| ma_new_event k n : may_ack pm (k n) -> may_ack pm (NewEvent k)
| ma_wait ev k : may_ack pm k -> may_ack pm (EventWait ev k)
| ma_set ev k : may_ack pm k -> may_ack pm (EventSet ev k)
| ma_child c' k : may_ack pm c' -> may_ack pm (CreateTask c' k)
| ma_create c' k : may_ack pm k -> may_ack pm (CreateTask c' k)
| ma_gathered re cs k c' :
    In c' cs -> may_ack pm c' -> may_ack pm (Gather re cs k)
| ma_gather re cs k rs : may_ack pm (k rs) -> may_ack pm (Gather re cs k)
| ma_get k pm' : may_ack pm (k pm') -> may_ack pm (QueueGet k)
| ma_put pm' k : may_ack pm k -> may_ack pm (QueuePut pm' k)
| ma_size k n : may_ack pm (k n) -> may_ack pm (QueueSize k)
| ma_executor j k : may_ack pm k -> may_ack pm (RunInExecutor j k)
| ma_submit j k : may_ack pm k -> may_ack pm (SubmitJob j k)
| ma_new_obj c' k n : may_ack pm (k n) -> may_ack pm (NewObj c' k)
| ma_setattr r name v k : may_ack pm k -> may_ack pm (SetAttr r name v k)
| ma_getattr r name k v : may_ack pm (k v) -> may_ack pm (GetAttr r name k)
| ma_forever body : may_ack pm body -> may_ack pm (Forever body).

(** Code that acks only messages of [M]. *)
Definition acks_in (M : list pubsub_message) (c : coro) : Prop :=
  forall pm, may_ack pm c -> In pm M.

Definition acks_status (M : list pubsub_message) (x : status) : Prop :=
  match x with
  | Runnable c | Sleeping _ c | OnEvent _ c | OnExecutor _ c => acks_in M c
  | OnGather _ _ k => forall rs, acks_in M (k rs)
  | OnGet k => forall pm, acks_in M (k pm)
  | Finished _ => True
  end.

(** A task is the one of [get_from_queue], or it acks only messages of
    [M]. *)
Definition ack_safe (M : list pubsub_message) (u : nat) (x : status) : Prop :=
  (u = ingest /\ ingest_status x) \/ acks_status M x.

(** Every task but [t] is safe. *)
Definition others_safe (M : list pubsub_message) (t : nat) (s : state)
  : Prop :=
  forall u x, u <> t -> status_of s u = Some x -> ack_safe M u x.

(** Every ack of [tr] comes after a take of its message; [seen] are the
    messages taken before [tr]. *)
Fixpoint acks_follow (seen : list pubsub_message) (tr : list action) : Prop :=
  match tr with
  | [] => True
  | AGet _ pm :: tr' => acks_follow (seen ++ [pm])%list tr'
  | AAck _ pm :: tr' => In pm seen /\ acks_follow seen tr'
  | _ :: tr' => acks_follow seen tr'
  end.

(** The acks of [tr] are of messages of [M]. *)
Definition acks_within (M : list pubsub_message) (tr : list action) : Prop :=
  forall t pm, In (AAck t pm) tr -> In pm M.

(** [handle_message] finds the field in the payload of [pm]. *)
Definition parses (pm : pubsub_message) : bool :=
  match parse_payload (data pm) with
  | inr _ => true
  | inl _ => false
  end.

(** The messages of [l] that [handle_message] can read. *)
Definition parsed (l : list pubsub_message) : list pubsub_message :=
  List.filter parses l.

Record ack_inv (s : state) : Prop := {
  ai_status :
    forall u x, status_of s u = Some x ->
      ack_safe (parsed (taken (trace s))) u x;
  ai_trace : acks_follow [] (trace s);
  ai_parsed : acks_within (parsed (taken (trace s))) (trace s);
}.

(** Follow the transitions [ls] in any order, taking the first outcome
    of each. *)
Fixpoint walk (ls : list label) (s : state) : option state :=
  match ls with
  | [] => Some s
  | l :: ls' =>
      match step l s with
      | s1 :: _ => walk ls' s1
      | [] => None
      end
  end.

Definition reached (ls : list label) : state :=
  match walk ls (boot run) with
  | Some s => s
  | None => empty_state
  end.

(** Start, one delivery by thread 7, and the life of its message up to
    its ack. *)
Definition one_message (pm : pubsub_message) : list label :=
  [Run 0; Run 1; Deliver 7 pm; Run 5; Run 3; Run 3; Run 6; Run 7; Run 8;
   Run 9; Fire 8; Run 8; Fire 9; Run 9; Run 6; Run 7; Fire 7; Run 7].

(** ** Objects in the whole program *)

Definition fields : list string := ["instance_name"; "message_id"; "hostname"].

(** [tidy n c]: the code [c], run with at least [n] objects in the heap,
    creates objects only by the constructor of [PubSubMessage], never
    assigns to a field otherwise, and reads only the three fields, of
    objects that exist. *)
Inductive tidy : nat -> coro -> Prop :=
| tidy_return n : tidy n Return
| tidy_raise n e : tidy n (Raise e)
| tidy_log n lvl m k : tidy n k -> tidy n (Log lvl m k)
| tidy_rand n lo hi k : (forall z, tidy n (k z)) -> tidy n (RandRange lo hi k)
| tidy_sleep n d k : tidy n k -> tidy n (Sleep d k)
| tidy_new_event n k : (forall ev, tidy n (k ev)) -> tidy n (NewEvent k)
| tidy_wait n ev k : tidy n k -> tidy n (EventWait ev k)
| tidy_set n ev k : tidy n k -> tidy n (EventSet ev k)
| tidy_create n c' k : tidy n c' -> tidy n k -> tidy n (CreateTask c' k)
| tidy_gather n re cs k :
    (forall c', In c' cs -> tidy n c') -> (forall rs, tidy n (k rs)) ->
    tidy n (Gather re cs k)
| tidy_ack n pm k : tidy n k -> tidy n (Ack pm k)
| tidy_get n k : (forall pm, tidy n (k pm)) -> tidy n (QueueGet k)
| tidy_put n pm k : tidy n k -> tidy n (QueuePut pm k)
| tidy_size n k : (forall m, tidy n (k m)) -> tidy n (QueueSize k)
| tidy_executor n j k : tidy n k -> tidy n (RunInExecutor j k)
| tidy_submit n j k : tidy n k -> tidy n (SubmitJob j k)
| tidy_getattr n r name k :
    r < n -> In name fields -> (forall v, tidy n (k v)) ->
    tidy n (GetAttr r name k)
| tidy_forever n body : tidy n body -> tidy n (Forever body)
| tidy_message n name mid k :
    (forall r, n <= r -> tidy (S r) (k r)) ->
    tidy n (PubSubMessage name mid k).

Definition tidy_status (n : nat) (x : status) : Prop :=
  match x with
  | Runnable c | Sleeping _ c | OnEvent _ c | OnExecutor _ c => tidy n c
  | OnGather _ _ k => forall rs, tidy n (k rs)
  | OnGet k => forall pm, tidy n (k pm)
  | Finished _ => True
  end.

(** An object as the constructor leaves it. *)
Definition is_message (o : object) : Prop :=
  exists instance_name mid, o = message_object instance_name mid.

(** Every task but [t] has a status that satisfies [PS]. *)
Definition others_keep (PS : nat -> status -> Prop) (t : nat) (s : state)
  : Prop :=
  forall u x, u <> t -> status_of s u = Some x -> PS u x.

(** The assignments of the constructions of the objects [r], [r + 1],
    ..., built by the tasks [ts]. *)
Fixpoint built (ts : list nat) (r : nat) : list action :=
  match ts with
  | [] => []
  | t :: ts' => (construction t r ++ built ts' (S r))%list
  end.

(** From [s] to [s'] the heap got new messages at its end, built by task
    [t], and nothing else was assigned. *)
Definition grows (t : nat) (s s' : state) : Prop :=
  exists news,
    heap s' = (heap s ++ news)%list
    /\ List.Forall is_message news
    /\ List.filter is_setattr (trace s')
       = (List.filter is_setattr (trace s)
          ++ built (map (fun _ => t) news) (length (heap s)))%list.

(** The same over several transitions: the new messages are built by the
    tasks [ts], one each, in this order. *)
Definition extends (s s' : state) : Prop :=
  exists ts news,
    length ts = length news
    /\ heap s' = (heap s ++ news)%list
    /\ List.Forall is_message news
    /\ List.filter is_setattr (trace s')
       = (List.filter is_setattr (trace s) ++ built ts (length (heap s)))%list.

(** What holds of the objects between two transitions of the program. *)
Record heap_inv (s : state) : Prop := {
  hi_heap : List.Forall is_message (heap s);
  hi_tasks :
    forall u x, status_of s u = Some x -> tidy_status (length (heap s)) x;
}.

(** An assignment to the field [name] of object [r]. *)
Definition assigns (r : nat) (name : string) (a : action) : bool :=
  match a with
  | ASetAttr _ r' name' => Nat.eqb r r' && String.eqb name' name
  | _ => false
  end.

(** ** Gates in the whole program *)

(** [avoids ev c]: the code [c] neither waits for the event [ev] nor sets
    it, as long as the events it creates are other than [ev]; nor does a
    task it creates. *)
Inductive avoids (ev : nat) : coro -> Prop :=
| av_return : avoids ev Return
| av_raise e : avoids ev (Raise e)
| av_log lvl m k : avoids ev k -> avoids ev (Log lvl m k)
| av_rand lo hi k : (forall z, avoids ev (k z)) -> avoids ev (RandRange lo hi k)
| av_sleep d k : avoids ev k -> avoids ev (Sleep d k)
| av_new_event k :
    (forall e, e <> ev -> avoids ev (k e)) -> avoids ev (NewEvent k)
| av_wait e k : e <> ev -> avoids ev k -> avoids ev (EventWait e k)
| av_set e k : e <> ev -> avoids ev k -> avoids ev (EventSet e k)
| av_create c' k : avoids ev c' -> avoids ev k -> avoids ev (CreateTask c' k)
| av_gather re cs k :
    (forall c', In c' cs -> avoids ev c') -> (forall rs, avoids ev (k rs)) ->
    avoids ev (Gather re cs k)
| av_ack pm k : avoids ev k -> avoids ev (Ack pm k)
| av_get k : (forall pm, avoids ev (k pm)) -> avoids ev (QueueGet k)
| av_put pm k : avoids ev k -> avoids ev (QueuePut pm k)
| av_size k : (forall m, avoids ev (k m)) -> avoids ev (QueueSize k)
| av_executor j k : avoids ev k -> avoids ev (RunInExecutor j k)
| av_submit j k : avoids ev k -> avoids ev (SubmitJob j k)
| av_newobj c' k : (forall r, avoids ev (k r)) -> avoids ev (NewObj c' k)
| av_setattr r name v k : avoids ev k -> avoids ev (SetAttr r name v k)
| av_getattr r name k :
    (forall v, avoids ev (k v)) -> avoids ev (GetAttr r name k)
| av_forever body : avoids ev body -> avoids ev (Forever body).

Definition avoids_status (ev : nat) (x : status) : Prop :=
  match x with
  | Runnable c | Sleeping _ c | OnEvent _ c | OnExecutor _ c => avoids ev c
  | OnGather _ _ k => forall rs, avoids ev (k rs)
  | OnGet k => forall pm, avoids ev (k pm)
  | Finished _ => True
  end.

(** Task [w] waits for no event but [ev]. *)
Definition apart (ev w : nat) (s : state) : Prop :=
  forall e es, e <> ev -> events s !! e = Some es -> ~ In w (waiters es).

(** A status that only the setting of [ev] can change from outside. *)
Definition held (ev : nat) (x : status) : Prop :=
  match x with
  | OnEvent e _ => e = ev
  | OnGather _ _ _ | OnGet _ => False
  | Runnable _ | Sleeping _ _ | OnExecutor _ _ | Finished _ => True
  end.

(** Those who wait for an event are tasks. *)
Definition waiters_valid (s : state) : Prop :=
  forall e es w,
    events s !! e = Some es -> In w (waiters es) -> w < length (tasks s).

(** What holds of the events between two transitions of the program: no
    task's code mentions an event that does not exist yet. *)
Record gates_inv (s : state) : Prop := {
  gi_fresh :
    forall u x ev,
      status_of s u = Some x -> length (events s) <= ev -> avoids_status ev x;
  gi_waiters : waiters_valid s;
}.

(** ** A pipeline in the whole program *)

(** The tasks and resources of the pipeline of one message, as
    [handle_message] creates them: [cleanup] is the next free task,
    [save] and [restart_host] follow it. *)
Record pipeline : Type := Pipeline {
  p_pm : pubsub_message;
  p_name : pyval;                        (* the [instance_name] of the payload *)
  p_h : nat;                             (* the task of [handle_message] *)
  p_n : nat;                             (* the task of [cleanup] *)
  p_ev : nat;                            (* the gate *)
  p_msg : nat;                           (* the message object *)
}.

Definition p_cl (P : pipeline) : nat := p_n P.
Definition p_sv (P : pipeline) : nat := S (p_n P).
Definition p_rh (P : pipeline) : nat := S (S (p_n P)).

(** The transitions of the pipeline's own tasks. *)
Definition pipeline_label (P : pipeline) (l : label) : bool :=
  own_label (p_h P) l || own_label (p_cl P) l
  || own_label (p_sv P) l || own_label (p_rh P) l.

(** What is left of each coroutine after its first suspension. *)
Definition save_rest (msg : nat) : coro :=
  GetAttr msg "instance_name" (fun instance_name =>
  Log DEBUG (Saved instance_name) Return).

Definition restart_rest (msg : nat) : coro :=
  GetAttr msg "hostname" (fun hostname =>
  Log DEBUG (Restarted hostname) Return).

Definition cleanup_ack (pubsub_msg : pubsub_message) : coro :=
  Ack pubsub_msg (
  Log DEBUG (DoneAcked (message_id pubsub_msg)) Return).

Definition cleanup_rest (pubsub_msg : pubsub_message) : coro :=
  Sleep RandomUnit (cleanup_ack pubsub_msg).

Definition collect_results (event : nat) : list outcome -> coro :=
  fun results => handle_results results (EventSet event Return).

Definition hostname_of (instance_name : pyval) : pyval :=
  PStr (py_format instance_name ++ ".example.net").

(** Where each task of the pipeline is. *)
Inductive sv_phase : Type := SvStart | SvSleeping | SvWoke | SvDone.

Inductive rh_phase : Type :=
| RhStart
| RhSleeping (secs : Z)
| RhWoke (secs : Z)
| RhDone (secs : Z)
| RhFailed.

Inductive cl_phase : Type :=
| ClStart
| ClParked                               (* waits for the gate *)
| ClWoken                                (* the gate was set while it waited *)
| ClSleeping (parked : bool)
| ClWoke (parked : bool)
| ClDone (parked : bool).

Inductive h_phase : Type := HGather | HResumed | HDone.

Record phases : Type := Phases {
  ph_h : h_phase;
  ph_cl : cl_phase;
  ph_sv : sv_phase;
  ph_rh : rh_phase;
}.

Definition sv_done (f : sv_phase) : bool :=
  match f with SvDone => true | _ => false end.

Definition rh_done (f : rh_phase) : bool :=
  match f with RhDone _ | RhFailed => true | _ => false end.

Definition h_done (f : h_phase) : bool :=
  match f with HDone => true | _ => false end.

(** What gather hands to [handle_results] for [restart_host]. *)
Definition rh_result (P : pipeline) (f : rh_phase) : outcome :=
  match f with
  | RhFailed => Raised (restart_error (p_name P))
  | _ => Returned
  end.

Definition sv_status (P : pipeline) (f : sv_phase) : status :=
  match f with
  | SvStart => Runnable (save (p_msg P))
  | SvSleeping => Sleeping RandomUnit (save_rest (p_msg P))
  | SvWoke => Runnable (save_rest (p_msg P))
  | SvDone => Finished Returned
  end.

Definition rh_status (P : pipeline) (f : rh_phase) : status :=
  match f with
  | RhStart => Runnable (restart_host (p_msg P))
  | RhSleeping secs => Sleeping (Seconds secs) (restart_rest (p_msg P))
  | RhWoke _ => Runnable (restart_rest (p_msg P))
  | RhDone _ => Finished Returned
  | RhFailed => Finished (Raised (restart_error (p_name P)))
  end.

Definition cl_status (P : pipeline) (f : cl_phase) : status :=
  match f with
  | ClStart => Runnable (cleanup (p_pm P) (p_ev P))
  | ClParked => OnEvent (p_ev P) (cleanup_rest (p_pm P))
  | ClWoken => Runnable (cleanup_rest (p_pm P))
  | ClSleeping _ => Sleeping RandomUnit (cleanup_ack (p_pm P))
  | ClWoke _ => Runnable (cleanup_ack (p_pm P))
  | ClDone _ => Finished Returned
  end.

Definition h_status (P : pipeline) (f : phases) : status :=
  match ph_h f with
  | HGather => OnGather true [p_sv P; p_rh P] (collect_results (p_ev P))
  | HResumed =>
      Runnable (collect_results (p_ev P) [Returned; rh_result P (ph_rh f)])
  | HDone => Finished Returned
  end.

(** What each task has done since [handle_message] started. *)
Definition sv_trace (P : pipeline) (f : sv_phase) : list action :=
  match f with
  | SvStart => []
  | SvSleeping | SvWoke => [ASleep (p_sv P) RandomUnit]
  | SvDone =>
      [ASleep (p_sv P) RandomUnit; ALog (p_sv P) DEBUG (Saved (p_name P));
       ADone (p_sv P) Returned]
  end.

Definition rh_trace (P : pipeline) (f : rh_phase) : list action :=
  match f with
  | RhStart => []
  | RhSleeping secs | RhWoke secs => [ASleep (p_rh P) (Seconds secs)]
  | RhDone secs =>
      [ASleep (p_rh P) (Seconds secs);
       ALog (p_rh P) DEBUG (Restarted (hostname_of (p_name P)));
       ADone (p_rh P) Returned]
  | RhFailed => [ADone (p_rh P) (Raised (restart_error (p_name P)))]
  end.

Definition cl_waited (P : pipeline) (parked : bool) : list action :=
  if parked then [AWait (p_cl P) (p_ev P)] else [].

Definition cl_trace (P : pipeline) (f : cl_phase) : list action :=
  match f with
  | ClStart => []
  | ClParked | ClWoken => [AWait (p_cl P) (p_ev P)]
  | ClSleeping b | ClWoke b =>
      (cl_waited P b ++ [ASleep (p_cl P) RandomUnit])%list
  | ClDone b =>
      (cl_waited P b
       ++ [ASleep (p_cl P) RandomUnit; AAck (p_cl P) (p_pm P);
           ALog (p_cl P) DEBUG (DoneAcked (message_id (p_pm P)));
           ADone (p_cl P) Returned])%list
  end.

(** The first step of [handle_message]. *)
Definition h_started (P : pipeline) : list action :=
  (construction (p_h P) (p_msg P)
   ++ [ALog (p_h P) DEBUG (Handling (p_name P));
       ASpawn (p_h P) (p_cl P); ASpawn (p_h P) (p_sv P);
       ASpawn (p_h P) (p_rh P)])%list.

Definition h_trace (P : pipeline) (f : phases) : list action :=
  match ph_h f with
  | HGather | HResumed => h_started P
  | HDone =>
      (h_started P
       ++ map (fun e => ALog (p_h P) DEBUG (CaughtException e))
            (exceptions [Returned; rh_result P (ph_rh f)])
       ++ [ASet (p_h P) (p_ev P); ADone (p_h P) Returned])%list
  end.

(** The gather is pending exactly as long as a sub-task has not ended;
    [cleanup] is past the gate only once [handle_message] has set it. *)
Definition coherent (f : phases) : bool :=
  match ph_h f with
  | HGather => negb (sv_done (ph_sv f) && rh_done (ph_rh f))
  | HResumed | HDone => sv_done (ph_sv f) && rh_done (ph_rh f)
  end
  && match ph_cl f with
     | ClStart => true
     | ClParked => negb (h_done (ph_h f))
     | ClWoken | ClSleeping _ | ClWoke _ | ClDone _ => h_done (ph_h f)
     end.

Definition gate_of (P : pipeline) (f : phases) : event_state :=
  {| is_set := h_done (ph_h f);
     waiters := match ph_cl f with ClParked => [p_cl P] | _ => [] end |}.

(** Transitions still to come. *)
Definition sv_rank (f : sv_phase) : nat :=
  match f with SvStart => 3 | SvSleeping => 2 | SvWoke => 1 | SvDone => 0 end.

Definition rh_rank (f : rh_phase) : nat :=
  match f with
  | RhStart => 3 | RhSleeping _ => 2 | RhWoke _ => 1 | RhDone _ | RhFailed => 0
  end.

Definition cl_rank (f : cl_phase) : nat :=
  match f with
  | ClStart => 5 | ClParked => 4 | ClWoken => 3 | ClSleeping _ => 2
  | ClWoke _ => 1 | ClDone _ => 0
  end.

Definition h_rank (f : h_phase) : nat :=
  match f with HGather => 2 | HResumed => 1 | HDone => 0 end.

Definition rank (f : phases) : nat :=
  sv_rank (ph_sv f) + rh_rank (ph_rh f) + h_rank (ph_h f) + cl_rank (ph_cl f).

(** An acknowledgement given by task [t]. *)
Definition acks_by (t : nat) (a : action) : bool :=
  match a with AAck t' _ => Nat.eqb t t' | _ => false end.

Definition both_ended (P : pipeline) (tr : list action) : Prop :=
  (exists o, In (ADone (p_sv P) o) tr) /\ (exists o, In (ADone (p_rh P) o) tr).

(** In [tr] the ack of the pipeline comes after the end of both
    sub-tasks and after the setting of the gate, and the setting of the
    gate after the end of both sub-tasks. *)
Definition ordered (P : pipeline) (tr : list action) : Prop :=
  (forall before m after,
     tr = (before ++ AAck (p_cl P) m :: after)%list ->
     both_ended P before /\ In (ASet (p_h P) (p_ev P)) before)
  /\ (forall before after,
        tr = (before ++ ASet (p_h P) (p_ev P) :: after)%list ->
        both_ended P before).

Definition pipeline_task (P : pipeline) (u : nat) : Prop :=
  u = p_h P \/ u = p_cl P \/ u = p_sv P \/ u = p_rh P.

(** What holds of a pipeline between two transitions of the program,
    from the first step of its [handle_message] on; [base] is the trace
    before that step. *)
Record pipe_inv (P : pipeline) (base : list action) (f : phases)
  (s : state) : Prop := {
  pi_ids : p_h P < p_n P;
  pi_coherent : coherent f = true;
  pi_heap_inv : heap_inv s;
  pi_heap :
    heap s !! p_msg P
    = Some (message_object (p_name P) (PStr (message_id (p_pm P))));
  pi_parent_sv : parent_of s (p_sv P) = Some (p_h P);
  pi_parent_rh : parent_of s (p_rh P) = Some (p_h P);
  pi_h : status_of s (p_h P) = Some (h_status P f);
  pi_cl : status_of s (p_cl P) = Some (cl_status P (ph_cl f));
  pi_sv : status_of s (p_sv P) = Some (sv_status P (ph_sv f));
  pi_rh : status_of s (p_rh P) = Some (rh_status P (ph_rh f));
  pi_ready :
    forall u c,
      pipeline_task P u -> status_of s u = Some (Runnable c) ->
      In u (ready s);
  pi_gate : events s !! p_ev P = Some (gate_of P f);
  pi_apart : apart (p_ev P) (p_cl P) s;
  pi_others :
    forall u x,
      u <> p_h P -> u <> p_cl P -> status_of s u = Some x ->
      avoids_status (p_ev P) x;
  pi_trace :
    exists tr,
      trace s = (base ++ tr)%list
      /\ List.filter (by_task (p_h P)) tr = h_trace P f
      /\ List.filter (by_task (p_cl P)) tr = cl_trace P (ph_cl f)
      /\ List.filter (by_task (p_sv P)) tr = sv_trace P (ph_sv f)
      /\ List.filter (by_task (p_rh P)) tr = rh_trace P (ph_rh f)
      /\ ordered P tr;
}.

Definition with_h (f : phases) (x : h_phase) : phases :=
  {| ph_h := x; ph_cl := ph_cl f; ph_sv := ph_sv f; ph_rh := ph_rh f |}.

Definition with_cl (f : phases) (x : cl_phase) : phases :=
  {| ph_h := ph_h f; ph_cl := x; ph_sv := ph_sv f; ph_rh := ph_rh f |}.

Definition with_sv (f : phases) (x : sv_phase) : phases :=
  {| ph_h := ph_h f; ph_cl := ph_cl f; ph_sv := x; ph_rh := ph_rh f |}.

Definition with_rh (f : phases) (x : rh_phase) : phases :=
  {| ph_h := ph_h f; ph_cl := ph_cl f; ph_sv := ph_sv f; ph_rh := x |}.

(* ================================================================== *)
(** * Properties *)

Local Open Scope list_scope.

(** ** The exploration is sound *)

Lemma status_of_lt s t x : status_of s t = Some x -> t < length (tasks s).
Proof.
  unfold status_of. destruct (tasks s !! t) eqn:E; [|discriminate].
  intros _. eapply lookup_lt_Some; eauto.
Qed.

Lemma step_in_succs s l s' :
  closedb s = true -> In s' (step l s) -> In s' (succs s).
Proof.
  unfold closedb. rewrite andb_true_iff, negb_true_iff, forallb_forall.
  intros [Hsub Hex] Hin. unfold succs. apply in_or_app.
  destruct l as [t|t|th pm|t o].
  - left. apply in_flat_map. exists t. split; [|exact Hin].
    simpl in Hin. destruct (existsb (Nat.eqb t) (ready s)) eqn:E; [|destruct Hin].
    apply existsb_exists in E. destruct E as [x [Hx Heq]].
    apply Nat.eqb_eq in Heq. now subst.
  - right. apply in_flat_map. exists t. split; [|exact Hin].
    apply in_seq. simpl in Hin.
    destruct (status_of s t) eqn:E; [|destruct Hin].
    apply status_of_lt in E. lia.
  - simpl in Hin. rewrite Hsub in Hin. destruct Hin.
  - simpl in Hin. unfold status_of in Hin.
    destruct (tasks s !! t) as [tk|] eqn:E; [|destruct Hin].
    assert (Hk : In tk (tasks s)).
    { apply list_elem_of_In. eapply list_elem_of_lookup_2; eauto. }
    apply Hex in Hk. unfold awaits_executor in Hk.
    destruct (st tk); try destruct Hin. discriminate.
Qed.




Lemma terminalb_terminal s :
  closedb s = true -> terminalb s = true -> terminal s.
Proof.
  intros Hc Ht l. destruct (step l s) as [|s' r] eqn:E; [reflexivity|].
  assert (Hin : In s' (step l s)) by (rewrite E; now left).
  apply (step_in_succs _ _ _ Hc) in Hin. unfold terminalb in Ht.
  destruct (succs s); [destruct Hin | discriminate].
Qed.

(** ** Traces *)





(** ** The pipeline of one message *)

Lemma handle_message_parsed pm name :
  parse_payload (data pm) = inr name -> handle_message pm = handler pm name.
Proof. intros H. unfold handle_message. now rewrite H. Qed.


(** Facts about all the states of a list, by computing both sides. *)
Lemma observe_all {A} (obs pick : state -> A) (l : list state) :
  map obs l = map pick l -> forall s, In s l -> obs s = pick s.
Proof.
  induction l as [|x l IH]; simpl; intros E s Hin; [destruct Hin|].
  injection E as E1 E2. destruct Hin as [<-|Hin]; auto.
Qed.



(** ** State updates leave the rest alone *)

Lemma events_set_status t x s : events (set_status t x s) = events s.
Proof. reflexivity. Qed.

Lemma events_resume t c s : events (resume t c s) = events s.
Proof. reflexivity. Qed.

Lemma trace_resume t c s : trace (resume t c s) = trace s.
Proof. reflexivity. Qed.

Lemma events_child_done p o s : events (child_done p o s) = events s.
Proof.
  unfold child_done. destruct (status_of s p) as [[]|]; try reflexivity.
  destruct return_exceptions, o; try reflexivity;
    destruct (collect s children); reflexivity.
Qed.

Lemma trace_child_done p o s : trace (child_done p o s) = trace s.
Proof.
  unfold child_done. destruct (status_of s p) as [[]|]; try reflexivity.
  destruct return_exceptions, o; try reflexivity;
    destruct (collect s children); reflexivity.
Qed.

Lemma events_finish t o s : events (finish t o s) = events s.
Proof.
  unfold finish. destruct (parent_of s t); [|reflexivity].
  now rewrite events_child_done.
Qed.

Lemma trace_finish t o s : trace (finish t o s) = trace s ++ [ADone t o].
Proof.
  unfold finish. destruct (parent_of s t); [|reflexivity].
  now rewrite trace_child_done.
Qed.

Lemma events_wake_all ws s : events (wake_all ws s) = events s.
Proof.
  revert s. induction ws as [|w ws IH]; intros s; simpl; [reflexivity|].
  destruct (status_of s w) as [[]|]; rewrite IH; reflexivity.
Qed.

Lemma trace_wake_all ws s : trace (wake_all ws s) = trace s.
Proof.
  revert s. induction ws as [|w ws IH]; intros s; simpl; [reflexivity|].
  destruct (status_of s w) as [[]|]; rewrite IH; reflexivity.
Qed.

(** ** Collecting the results *)

Lemma exec_handle_results results : forall t k s,
  exec t (handle_results results k) s
  = exec t k (fold_left (log_caught t) (exceptions results) s).
Proof.
  induction results as [|[|e] results IH]; intros t k s; simpl;
    [reflexivity| |]; now rewrite IH.
Qed.

Lemma events_log_caught t es : forall s,
  events (fold_left (log_caught t) es s) = events s.
Proof. induction es as [|e es IH]; intros s; simpl; [|rewrite IH]; reflexivity. Qed.

Lemma trace_log_caught t es : forall s,
  trace (fold_left (log_caught t) es s)
  = trace s ++ map (fun e => ALog t DEBUG (CaughtException e)) es.
Proof.
  induction es as [|e es IH]; intros s; simpl.
  - now rewrite app_nil_r.
  - rewrite IH. simpl. now rewrite <- app_assoc.
Qed.















(** ** The message object *)

Lemma lookup_snoc {A} (l : list A) (x : A) : (l ++ [x]) !! length l = Some x.
Proof. induction l as [|y l IH]; simpl; auto. Qed.

Lemma insert_snoc {A} (l : list A) (x y : A) :
  <[length l := y]> (l ++ [x]) = l ++ [y].
Proof. induction l as [|z l IH]; simpl; [reflexivity|]. now rewrite IH. Qed.

Lemma heap_spawn t par c s : heap (spawn t par c s) = heap s.
Proof. reflexivity. Qed.

Lemma heap_spawn_all t par cs : forall s ids s',
  spawn_all t par cs s = (ids, s') -> heap s' = heap s.
Proof.
  induction cs as [|c cs IH]; intros s ids s' E; simpl in E.
  - now injection E as <- <-.
  - destruct (spawn_all t par cs (spawn t par c s)) as [ids' s''] eqn:E'.
    injection E as <- <-. now rewrite (IH _ _ _ E').
Qed.

Lemma exec_NewObj t c k s :
  exec t (NewObj c k) s
  = exec t (k (length (heap s)))
      (set_heap (heap s ++ [{| cls := c; attrs := [] |}]) s).
Proof. reflexivity. Qed.

Lemma exec_SetAttr t r name v k s o :
  heap s !! r = Some o -> frozen (cls o) = false ->
  exec t (SetAttr r name v k) s
  = exec t k
      (emit (ASetAttr t r name)
         (set_heap
            (<[r := {| cls := cls o; attrs := assoc_set name v (attrs o) |}]>
               (heap s)) s)).
Proof. intros H1 H2. simpl. now rewrite H1, H2. Qed.

Lemma exec_GetAttr t r name k s o v :
  heap s !! r = Some o -> assoc_get name (attrs o) = Some v ->
  exec t (GetAttr r name k) s = exec t (k v) s.
Proof. intros H1 H2. simpl. now rewrite H1, H2. Qed.

(** Construction in any state of the loop: a new object is appended, with
    its three fields; everything that runs next sees that heap. *)
Lemma exec_PubSubMessage t instance_name mid k s :
  exec t (PubSubMessage instance_name mid k) s
  = exec t (k (length (heap s)))
      (fold_left (fun s' a => emit a s') (construction t (length (heap s)))
         (set_heap (heap s ++ [message_object instance_name mid]) s)).
Proof.
  unfold PubSubMessage, attrs_post_init. rewrite exec_NewObj.
  erewrite exec_SetAttr; [|apply lookup_snoc|reflexivity].
  cbn [heap set_heap emit]. rewrite insert_snoc.
  erewrite exec_SetAttr; [|apply lookup_snoc|reflexivity].
  cbn [heap set_heap emit]. rewrite insert_snoc.
  erewrite exec_GetAttr; [|apply lookup_snoc|reflexivity].
  erewrite exec_SetAttr; [|apply lookup_snoc|reflexivity].
  cbn [heap set_heap emit]. rewrite insert_snoc.
  reflexivity.
Qed.

Lemma pipeline_heap pm name s :
  In s (reach 12 (boot (handler pm name))) ->
  (if Nat.eqb (length (trace s)) 0 then Some s else None,
   heap s, List.filter is_setattr (trace s))
  = if Nat.eqb (length (trace s)) 0
    then (Some (boot (handler pm name)), [], [])
    else (None, [message_object name (PStr (message_id pm))],
          construction 0 0).
Proof.
  revert s.
  apply (observe_all
           (fun s => (if Nat.eqb (length (trace s)) 0 then Some s else None,
                      heap s, List.filter is_setattr (trace s)))
           (fun s =>
              if Nat.eqb (length (trace s)) 0
              then (Some (boot (handler pm name)), [], [])
              else (None, [message_object name (PStr (message_id pm))],
                    construction 0 0))).
  vm_compute. reflexivity.
Qed.

Lemma filter_sets_hostname_setattr tr :
  List.filter sets_hostname tr
  = List.filter sets_hostname (List.filter is_setattr tr).
Proof.
  induction tr as [|a tr IH]; simpl; [reflexivity|].
  destruct a; simpl; try exact IH.
  destruct (String.eqb name "hostname"); simpl; now rewrite IH.
Qed.

(** ** The published payloads *)

Lemma random_choice_CHOICES r :
  exists a, random_choice CHOICES r = String a "" /\ in_choices a = true.
Proof.
  unfold random_choice.
  assert (H : r mod String.length CHOICES < 36).
  { apply Nat.mod_upper_bound. discriminate. }
  revert H. generalize (r mod String.length CHOICES). intros i Hi.
  do 36 (destruct i as [|i];
         [eexists; split; vm_compute; reflexivity|]).
  exfalso. lia.
Qed.

Lemma json_escape_char_CHOICES a :
  in_choices a = true -> json_escape_char a = String a "".
Proof.
  destruct a as [[] [] [] [] [] [] [] []]; vm_compute;
    intros H; try discriminate H; reflexivity.
Qed.

Lemma utf8_encode_char_CHOICES a :
  in_choices a = true -> utf8_encode_char a = [byte_of_ascii a].
Proof.
  destruct a as [[] [] [] [] [] [] [] []]; vm_compute;
    intros H; try discriminate H; reflexivity.
Qed.


Lemma is_ascii_CHOICES a : in_choices a = true -> is_ascii a = true.
Proof.
  destruct a as [[] [] [] [] [] [] [] []]; vm_compute;
    intros H; try discriminate H; reflexivity.
Qed.

Lemma utf8_encode_char_ascii a :
  is_ascii a = true ->
  utf8_encode_char a = [byte_of_ascii a]
  /\ Nat.ltb (Byte.to_nat (byte_of_ascii a)) 128 = true.
Proof.
  destruct a as [[] [] [] [] [] [] [] []]; vm_compute;
    intros H; try discriminate H; split; reflexivity.
Qed.

Lemma utf8_encode_ascii s :
  forallb is_ascii (list_ascii_of_string s) = true ->
  utf8_encode s = map byte_of_ascii (list_ascii_of_string s)
  /\ ascii_bytes (utf8_encode s) = true.
Proof.
  induction s as [|a s IH]; simpl; [auto|].
  intros H. apply andb_true_iff in H. destruct H as [Ha Hs].
  destruct (utf8_encode_char_ascii a Ha) as [E1 E2].
  destruct (IH Hs) as [E3 E4]. rewrite E1. simpl. rewrite E3. split; [reflexivity|].
  unfold ascii_bytes in *. rewrite <- E3. now rewrite E2, E4.
Qed.

(** A drawn name is valid, its payload is the plain JSON text of the
    object, and that text is ASCII. *)
Lemma drawn_name_payload rng pos :
  valid_name (random_choices CHOICES 4 rng pos)
  /\ json_dumps [("instance_name", random_choices CHOICES 4 rng pos)]
     = payload_text (random_choices CHOICES 4 rng pos)
  /\ ascii_bytes (utf8_encode (payload_text (random_choices CHOICES 4 rng pos)))
     = true.
Proof.
  cbn [random_choices].
  destruct (random_choice_CHOICES (rng pos)) as (a1 & -> & H1).
  destruct (random_choice_CHOICES (rng (S pos))) as (a2 & -> & H2).
  destruct (random_choice_CHOICES (rng (S (S pos)))) as (a3 & -> & H3).
  destruct (random_choice_CHOICES (rng (S (S (S pos))))) as (a4 & -> & H4).
  split; [|split].
  - split; [reflexivity|]. cbn [String.append list_ascii_of_string forallb].
    now rewrite H1, H2, H3, H4.
  - unfold json_dumps, payload_text, json_items, json_quote.
    cbn [json_escape String.append].
    rewrite (json_escape_char_CHOICES a1 H1), (json_escape_char_CHOICES a2 H2),
      (json_escape_char_CHOICES a3 H3), (json_escape_char_CHOICES a4 H4).
    vm_compute. reflexivity.
  - apply utf8_encode_ascii.
    unfold payload_text, dquote.
    cbn [String.append list_ascii_of_string forallb].
    rewrite (is_ascii_CHOICES a1 H1), (is_ascii_CHOICES a2 H2),
      (is_ascii_CHOICES a3 H3), (is_ascii_CHOICES a4 H4).
    vm_compute. reflexivity.
Qed.

Lemma published_app a b : published (a ++ b) = published a ++ published b.
Proof.
  induction a as [|[] a IH]; simpl; auto. now rewrite IH.
Qed.

(** The loop of [publish_sync] goes through the publish calls in order and
    stops at the first one that raises. *)
Lemma publish_loop_prefix o :
  exists k,
    k <= 5
    /\ publish_loop o (seq 1 5) 0
       = (flat_map publish_one (firstn k (drawn_names o)),
          if Nat.eqb k 5 then Returned else Raised TransportError).
Proof.
  unfold drawn_names. cbn [publish_loop seq map].
  destruct (publish_raises o 0); [exists 0; split; [lia|reflexivity]|].
  destruct (publish_raises o 1); [exists 1; split; [lia|reflexivity]|].
  destruct (publish_raises o 2); [exists 2; split; [lia|reflexivity]|].
  destruct (publish_raises o 3); [exists 3; split; [lia|reflexivity]|].
  destruct (publish_raises o 4); [exists 4; split; [lia|reflexivity]|].
  exists 5. split; [lia|reflexivity].
Qed.

Lemma published_publish_one names :
  published (flat_map publish_one names)
  = map (fun name => utf8_encode (json_dumps [("instance_name", name)])) names.
Proof. induction names as [|n names IH]; simpl; [|rewrite IH]; reflexivity. Qed.

Lemma drawn_names_valid o :
  Forall (fun name =>
            valid_name name
            /\ json_dumps [("instance_name", name)] = payload_text name
            /\ ascii_bytes (utf8_encode (payload_text name)) = true)
    (drawn_names o).
Proof.
  unfold drawn_names. cbn [map seq].
  repeat (apply List.Forall_cons; [apply drawn_name_payload|]).
  apply List.Forall_nil.
Qed.

Lemma in_firstn {A} (x : A) k l : In x (firstn k l) -> In x l.
Proof.
  revert l. induction k as [|k IH]; intros [|y l]; simpl; try tauto.
  intros [->|H]; auto.
Qed.

(** C9, as amended.  Whatever the random draws and the transport do
    during a call of [publish_sync]: every payload it publishes is, byte
    for byte, the ASCII (hence UTF-8) text of the JSON object
    [{"instance_name": "<name>"}], where [<name>] is a string of 4
    characters, each a lowercase ASCII letter or a digit, one payload per
    drawn name and in the order of the draws.  A call that returns has
    published exactly 5 payloads.  A call that raises (the error of a
    failing [publisher.publish], which nothing catches) has published
    fewer than 5: those before the failing call. *)
Theorem publish_sync_sends_five_valid_names_unless_it_fails o :
  (forall p, In p (published (fst (publish_sync o))) ->
     exists name,
       valid_name name
       /\ p = map byte_of_ascii (list_ascii_of_string (payload_text name))) /\
  (exists k,
     k <= 5
     /\ published (fst (publish_sync o))
        = map (fun name =>
                 map byte_of_ascii (list_ascii_of_string (payload_text name)))
            (firstn k (drawn_names o))
     /\ length (published (fst (publish_sync o))) = k
     /\ (snd (publish_sync o) = Returned -> k = 5)
     /\ (forall e, snd (publish_sync o) = Raised e ->
           e = TransportError /\ k < 5)).
Proof.
  unfold publish_sync.
  destruct (publish_loop_prefix o) as (k & Hk & E). rewrite E.
  cbn [fst snd get_publisher app published].
  rewrite published_publish_one.
  pose proof (drawn_names_valid o) as V. rewrite List.Forall_forall in V.
  assert (B : forall name, In name (drawn_names o) ->
            utf8_encode (json_dumps [("instance_name", name)])
            = map byte_of_ascii (list_ascii_of_string (payload_text name))).
  { intros name Hin. destruct (V _ Hin) as (V1 & V2 & V3). rewrite V2.
    apply utf8_encode_ascii. destruct V1 as [L F].
    unfold payload_text, dquote.
    destruct name as [|a1 [|a2 [|a3 [|a4 [|a5 name]]]]]; try discriminate L.
    cbn [list_ascii_of_string forallb] in F.
    rewrite !andb_true_iff in F. destruct F as (F1 & F2 & F3 & F4 & _).
    cbn [String.append list_ascii_of_string forallb].
    rewrite (is_ascii_CHOICES a1 F1), (is_ascii_CHOICES a2 F2),
      (is_ascii_CHOICES a3 F3), (is_ascii_CHOICES a4 F4).
    vm_compute. reflexivity. }
  split.
  - intros p Hin. apply in_map_iff in Hin. destruct Hin as (name & <- & Hin).
    apply in_firstn in Hin. destruct (V _ Hin) as (V1 & _).
    exists name. split; [exact V1|now apply B].
  - exists k. split; [exact Hk|].
    split; [apply map_ext_in; intros name Hin; apply B;
            now apply in_firstn in Hin|].
    split.
    + rewrite length_map, length_firstn. unfold drawn_names.
      rewrite length_map, length_seq. lia.
    + split.
      * destruct (Nat.eqb k 5) eqn:E5; [|discriminate].
        intros _. now apply Nat.eqb_eq in E5.
      * intros e. destruct (Nat.eqb k 5) eqn:E5; [discriminate|].
        intros H. injection H as <-. apply Nat.eqb_neq in E5.
        split; [reflexivity|lia].
Qed.

(** ** Frame lemmas: a step leaves passive tasks alone *)

Lemma status_of_set_status_ne t u x s :
  u <> t -> status_of (set_status t x s) u = status_of s u.
Proof.
  intros H. unfold status_of, set_status. simpl.
  rewrite list_lookup_alter_ne; auto.
Qed.

Lemma status_of_set_status_eq t x y s :
  status_of s t = Some y -> status_of (set_status t x s) t = Some x.
Proof.
  unfold status_of, set_status. simpl. rewrite list_lookup_alter.
  destruct (decide (t = t)); [|congruence].
  destruct (tasks s !! t); [reflexivity|discriminate].
Qed.

Lemma status_of_spawn t par c s u x :
  status_of s u = Some x -> status_of (spawn t par c s) u = Some x.
Proof.
  unfold status_of, spawn. simpl. intros H.
  destruct (tasks s !! u) eqn:E; [|discriminate].
  rewrite lookup_app_l; [now rewrite E|]. eapply lookup_lt_Some; eauto.
Qed.

Lemma status_of_spawn_all t par cs u x : forall s ids s',
  spawn_all t par cs s = (ids, s') ->
  status_of s u = Some x -> status_of s' u = Some x.
Proof.
  induction cs as [|c cs IH]; intros s ids s' E H; simpl in E.
  - now injection E as <- <-.
  - destruct (spawn_all t par cs (spawn t par c s)) as [ids' s''] eqn:E'.
    injection E as <- <-. eapply IH; eauto. now apply status_of_spawn.
Qed.

Lemma status_of_resume_ne t c s u :
  u <> t -> status_of (resume t c s) u = status_of s u.
Proof. intros H. unfold resume. simpl. now apply status_of_set_status_ne. Qed.

Lemma passive_wake_all ws u x : forall s,
  passive x -> status_of s u = Some x -> status_of (wake_all ws s) u = Some x.
Proof.
  induction ws as [|w ws IH]; intros s Hx H; simpl; [exact H|].
  destruct (status_of s w) as [[]|] eqn:E; auto.
  apply IH; [exact Hx|]. rewrite status_of_resume_ne; [exact H|].
  intros ->. rewrite H in E. injection E as ->. destruct Hx.
Qed.

Lemma passive_wake_getter s u x :
  passive x -> status_of s u = Some x -> status_of (wake_getter s) u = Some x.
Proof.
  intros Hx H. unfold wake_getter. destruct (getters s) as [|g gs]; [exact H|].
  destruct (status_of s g) as [[]|] eqn:E; try exact H.
  rewrite status_of_resume_ne; [exact H|].
  intros ->. rewrite H in E. injection E as ->. destruct Hx.
Qed.

Lemma passive_child_done p o s u x :
  passive x -> status_of s u = Some x ->
  status_of (child_done p o s) u = Some x.
Proof.
  intros Hx H. unfold child_done.
  destruct (status_of s p) as [[]|] eqn:E; try exact H.
  assert (Hne : u <> p).
  { intros ->. rewrite H in E. injection E as ->. destruct Hx. }
  destruct return_exceptions, o; try (rewrite status_of_resume_ne; auto);
    destruct (collect s children); try exact H;
    rewrite status_of_resume_ne; auto.
Qed.

Lemma passive_finish t o s u x :
  u <> t -> passive x -> status_of s u = Some x ->
  status_of (finish t o s) u = Some x.
Proof.
  intros Hne Hx H. unfold finish.
  assert (H' : status_of (emit (ADone t o) (set_status t (Finished o) s)) u
               = Some x).
  { change (status_of (set_status t (Finished o) s) u = Some x).
    now rewrite status_of_set_status_ne. }
  destruct (parent_of s t); [now apply passive_child_done|exact H'].
Qed.

Lemma status_of_finish t o s y :
  status_of s t = Some y -> status_of (finish t o s) t = Some (Finished o).
Proof.
  intros H. unfold finish.
  assert (H' : status_of (emit (ADone t o) (set_status t (Finished o) s)) t
               = Some (Finished o)).
  { change (status_of (set_status t (Finished o) s) t = Some (Finished o)).
    eapply status_of_set_status_eq; eauto. }
  destruct (parent_of s t); [|exact H'].
  apply passive_child_done; [exact I|exact H'].
Qed.

(** A step of task [t] leaves every other passive task as it was. *)
Lemma exec_passive t u x c : forall s s',
  u <> t -> passive x ->
  In s' (exec t c s) -> status_of s u = Some x -> status_of s' u = Some x.
Proof.
  induction c as [ | e | lvl m k IH | lo hi k IH | d k IH | k IH | ev k IH
                 | ev k IH | c' _ k IH | re cs k IH | pm k IH | k IH
                 | pm k IH | k IH | j k IH | j k IH | c' k IH
                 | r name v k IH | r name k IH | body _ ];
    intros s s' Hne Hx Hin H; simpl in Hin.
  - destruct Hin as [<-|[]]. now apply passive_finish.
  - destruct Hin as [<-|[]]. now apply passive_finish.
  - eapply IH; eauto.
  - apply in_flat_map in Hin. destruct Hin as (z & _ & Hin). eapply IH; eauto.
  - destruct Hin as [<-|[]].
    change (status_of (set_status t (Sleeping d k) s) u = Some x).
    now rewrite status_of_set_status_ne.
  - eapply IH; eauto.
  - destruct (events s !! ev) as [e|]; [|destruct Hin].
    destruct (is_set e); [eapply IH; eauto|].
    destruct Hin as [<-|[]].
    change (status_of (set_status t (OnEvent ev k) s) u = Some x).
    now rewrite status_of_set_status_ne.
  - destruct (events s !! ev) as [e|]; [|destruct Hin].
    eapply IH; eauto. unfold event_set. now apply passive_wake_all.
  - eapply IH; eauto. now apply status_of_spawn.
  - destruct cs as [|c0 cs]; [eapply IH; eauto|].
    destruct (spawn_all t (Some t) (c0 :: cs) s) as [ids s1] eqn:E.
    destruct Hin as [<-|[]].
    rewrite status_of_set_status_ne; [|exact Hne].
    eapply status_of_spawn_all; eauto.
  - eapply IH; eauto.
  - destruct (queue s) as [|pm q].
    + destruct Hin as [<-|[]].
      change (status_of (set_status t (OnGet k) s) u = Some x).
      now rewrite status_of_set_status_ne.
    + eapply IH; eauto.
  - eapply IH; eauto. now apply passive_wake_getter.
  - eapply IH; eauto.
  - destruct Hin as [<-|[]].
    change (status_of (set_status t (OnExecutor j k) s) u = Some x).
    now rewrite status_of_set_status_ne.
  - eapply IH; eauto. destruct j; exact H.
  - eapply IH; eauto.
  - destruct (heap s !! r) as [o|]; [|destruct Hin].
    destruct (frozen (cls o)).
    + destruct Hin as [<-|[]]. now apply passive_finish.
    + eapply IH; eauto.
  - destruct (heap s !! r) as [o|]; [|destruct Hin].
    destruct (assoc_get name (attrs o)).
    + eapply IH; eauto.
    + destruct Hin as [<-|[]]. now apply passive_finish.
  - destruct Hin as [<-|[]].
    change (status_of
              (set_status t (Runnable (seq_coro body (Forever body))) s) u
            = Some x).
    now rewrite status_of_set_status_ne.
Qed.

Lemma ready_child_done p o s u :
  In u (ready s) -> In u (ready (child_done p o s)).
Proof.
  intros H. unfold child_done.
  destruct (status_of s p) as [[]|]; try exact H.
  destruct return_exceptions, o; try (simpl; apply in_or_app; now left);
    destruct (collect s children); try exact H;
    simpl; apply in_or_app; now left.
Qed.

Lemma ready_finish t o s u : In u (ready s) -> In u (ready (finish t o s)).
Proof.
  intros H. unfold finish.
  destruct (parent_of s t); [apply ready_child_done|]; exact H.
Qed.

Lemma ready_wake_all ws u : forall s,
  In u (ready s) -> In u (ready (wake_all ws s)).
Proof.
  induction ws as [|w ws IH]; intros s H; simpl; [exact H|].
  destruct (status_of s w) as [[]|]; auto.
  apply IH. simpl. apply in_or_app. now left.
Qed.

Lemma ready_wake_getter s u : In u (ready s) -> In u (ready (wake_getter s)).
Proof.
  intros H. unfold wake_getter. destruct (getters s) as [|g gs]; [exact H|].
  destruct (status_of s g) as [[]|]; try exact H.
  simpl. apply in_or_app. now left.
Qed.

Lemma ready_spawn_all t par cs u : forall s ids s',
  spawn_all t par cs s = (ids, s') -> In u (ready s) -> In u (ready s').
Proof.
  induction cs as [|c cs IH]; intros s ids s' E H; simpl in E.
  - now injection E as <- <-.
  - destruct (spawn_all t par cs (spawn t par c s)) as [ids' s''] eqn:E'.
    injection E as <- <-. eapply IH; eauto.
    simpl. apply in_or_app. now left.
Qed.

(** A step of a task removes nobody from the ready queue. *)
Lemma exec_ready t u c : forall s s',
  In s' (exec t c s) -> In u (ready s) -> In u (ready s').
Proof.
  induction c as [ | e | lvl m k IH | lo hi k IH | d k IH | k IH | ev k IH
                 | ev k IH | c' _ k IH | re cs k IH | pm k IH | k IH
                 | pm k IH | k IH | j k IH | j k IH | c' k IH
                 | r name v k IH | r name k IH | body _ ];
    intros s s' Hin H; simpl in Hin.
  - destruct Hin as [<-|[]]. now apply ready_finish.
  - destruct Hin as [<-|[]]. now apply ready_finish.
  - eapply IH; eauto.
  - apply in_flat_map in Hin. destruct Hin as (z & _ & Hin). eapply IH; eauto.
  - destruct Hin as [<-|[]]. exact H.
  - eapply IH; eauto.
  - destruct (events s !! ev) as [e|]; [|destruct Hin].
    destruct (is_set e); [eapply IH; eauto|].
    destruct Hin as [<-|[]]. exact H.
  - destruct (events s !! ev) as [e|]; [|destruct Hin].
    eapply IH; eauto. unfold event_set. now apply ready_wake_all.
  - eapply IH; eauto. simpl. apply in_or_app. now left.
  - destruct cs as [|c0 cs]; [eapply IH; eauto|].
    destruct (spawn_all t (Some t) (c0 :: cs) s) as [ids s1] eqn:E.
    destruct Hin as [<-|[]]. simpl. eapply ready_spawn_all; eauto.
  - eapply IH; eauto.
  - destruct (queue s) as [|pm q].
    + destruct Hin as [<-|[]]. exact H.
    + eapply IH; eauto.
  - eapply IH; eauto. now apply ready_wake_getter.
  - eapply IH; eauto.
  - destruct Hin as [<-|[]]. exact H.
  - eapply IH; eauto. destruct j; exact H.
  - eapply IH; eauto.
  - destruct (heap s !! r) as [o|]; [|destruct Hin].
    destruct (frozen (cls o)).
    + destruct Hin as [<-|[]]. now apply ready_finish.
    + eapply IH; eauto.
  - destruct (heap s !! r) as [o|]; [|destruct Hin].
    destruct (assoc_get name (attrs o)).
    + eapply IH; eauto.
    + destruct Hin as [<-|[]]. now apply ready_finish.
  - destruct Hin as [<-|[]]. simpl. now right.
Qed.

Lemma in_remove_first t u l : u <> t -> In u l -> In u (remove_first t l).
Proof.
  intros Hne. induction l as [|x l IH]; simpl; [tauto|].
  destruct (Nat.eqb x t) eqn:E.
  - apply Nat.eqb_eq in E. subst. intros [->|H]; [congruence|exact H].
  - intros [->|H]; [now left|right; auto].
Qed.

Lemma status_of_emits acts : forall s u,
  status_of (fold_left (fun s' a => emit a s') acts s) u = status_of s u.
Proof. induction acts as [|a acts IH]; intros s u; simpl; [|rewrite IH]; reflexivity. Qed.

Lemma ready_emits acts : forall s,
  ready (fold_left (fun s' a => emit a s') acts s) = ready s.
Proof. induction acts as [|a acts IH]; intros s; simpl; [|rewrite IH]; reflexivity. Qed.

Lemma status_of_callback th pm s u x :
  status_of s u = Some x -> status_of (callback th pm s) u = Some x.
Proof.
  unfold status_of, callback. simpl. intros H.
  destruct (tasks s !! u) eqn:E; [|discriminate].
  rewrite lookup_app_l; [now rewrite E|]. eapply lookup_lt_Some; eauto.
Qed.

(** Only its own step moves a runnable task; it stays in the ready queue
    until then. *)
Lemma step_keeps_runnable l s s' u c :
  In s' (step l s) -> l <> Run u ->
  status_of s u = Some (Runnable c) -> In u (ready s) ->
  status_of s' u = Some (Runnable c) /\ In u (ready s').
Proof.
  intros Hin Hl Hu Hr. destruct l as [t|t|th pm|t o]; simpl in Hin.
  - assert (Hne : u <> t) by congruence.
    destruct (existsb (Nat.eqb t) (ready s)); [|destruct Hin].
    destruct (status_of s t) as [[c0| | | | | |]|]; try (now destruct Hin). split.
    + eapply (exec_passive t u); eauto. exact I.
    + eapply exec_ready; eauto. simpl. now apply in_remove_first.
  - destruct (status_of s t) as [[|d c0| | | | |]|] eqn:E;
      try (now destruct Hin). destruct Hin as [<-|[]].
    assert (Hne : u <> t) by (intros ->; congruence).
    split; [now rewrite status_of_resume_ne|].
    simpl. apply in_or_app. now left.
  - destruct (subscribed s); [|destruct Hin]. destruct Hin as [<-|[]].
    split; [now apply status_of_callback|].
    simpl. apply in_or_app. now left.
  - destruct (status_of s t) as [[| | | | |[] k|]|] eqn:E;
      try (now destruct Hin).
    destruct (publish_sync o) as [acts out]. destruct Hin as [<-|[]].
    assert (Hne : u <> t) by (intros ->; congruence).
    split.
    + rewrite status_of_resume_ne by exact Hne. now rewrite status_of_emits.
    + simpl. apply in_or_app. left. now rewrite ready_emits.
Qed.

(** A finished task stays finished. *)
Lemma step_keeps_finished l s s' u o :
  In s' (step l s) -> status_of s u = Some (Finished o) ->
  status_of s' u = Some (Finished o).
Proof.
  intros Hin Hu. destruct l as [t|t|th pm|t o']; simpl in Hin.
  - destruct (existsb (Nat.eqb t) (ready s)); [|destruct Hin].
    destruct (status_of s t) as [[c0| | | | | |]|] eqn:E;
      try (now destruct Hin).
    assert (Hne : u <> t) by (intros ->; congruence).
    eapply (exec_passive t u); eauto. exact I.
  - destruct (status_of s t) as [[|d c0| | | | |]|] eqn:E;
      try (now destruct Hin). destruct Hin as [<-|[]].
    assert (Hne : u <> t) by (intros ->; congruence).
    now rewrite status_of_resume_ne.
  - destruct (subscribed s); [|destruct Hin]. destruct Hin as [<-|[]].
    now apply status_of_callback.
  - destruct (status_of s t) as [[| | | | |[] k|]|] eqn:E;
      try (now destruct Hin).
    destruct (publish_sync o') as [acts out]. destruct Hin as [<-|[]].
    assert (Hne : u <> t) by (intros ->; congruence).
    rewrite status_of_resume_ne by exact Hne. now rewrite status_of_emits.
Qed.

Lemma path_keeps_finished s ls s' u o :
  path s ls s' -> status_of s u = Some (Finished o) ->
  status_of s' u = Some (Finished o).
Proof.
  induction 1 as [|s l s1 ls s2 Hin Hp IH]; intros H; [exact H|].
  apply IH. eapply step_keeps_finished; eauto.
Qed.

(** ** The publish loop *)

Lemma in_ready_existsb t l : In t l -> existsb (Nat.eqb t) l = true.
Proof.
  intros H. apply existsb_exists. exists t. split; [exact H|].
  apply Nat.eqb_refl.
Qed.

Lemma label_eq_Run l t : l = Run t \/ l <> Run t.
Proof.
  destruct l as [u| | |]; try (right; discriminate).
  destruct (Nat.eq_dec u t) as [->|H]; [now left|right; congruence].
Qed.

(** A task about to raise: until it runs it stays so; when it runs it
    only ends; afterwards it is finished for good. *)
Lemma doomed_task e t : forall ls s s',
  path s ls s' ->
  status_of s t = Some (Runnable (Raise e)) -> In t (ready s) ->
  (status_of s' t = Some (Runnable (Raise e)) /\ In t (ready s'))
  \/ status_of s' t = Some (Finished (Raised e)).
Proof.
  induction ls as [|l ls IH]; intros s s' Hp Hs Hr.
  - inversion Hp; subst. now left.
  - inversion Hp as [|? ? s1 ? ? Hin Hp']; subst.
    destruct (label_eq_Run l t) as [->|Hl].
    + right. simpl in Hin. rewrite (in_ready_existsb _ _ Hr), Hs in Hin.
      simpl in Hin. destruct Hin as [<-|[]].
      eapply path_keeps_finished; eauto.
      eapply status_of_finish. exact Hs.
    + destruct (step_keeps_runnable _ _ _ _ _ Hin Hl Hs Hr) as [Hs1 Hr1].
      eapply IH; eauto.
Qed.

Lemma trace_emits acts : forall s,
  trace (fold_left (fun s' a => emit a s') acts s) = trace s ++ acts.
Proof.
  induction acts as [|a acts IH]; intros s; simpl.
  - now rewrite app_nil_r.
  - rewrite IH. simpl. now rewrite <- app_assoc.
Qed.

(** C3, as amended.  While the publish task awaits [publish_sync] on the
    pool: the completion of the call adds to the trace what the call
    published and logged, and nothing else.  If the call returned, the
    task is scheduled to go on with [asyncio.sleep(3)] and the loop.  If
    the call raised [e], the task is scheduled to raise [e]: from then on
    it is either still waiting for its turn, or finished with [e]; its
    turn adds to the trace only that end (no log); it never publishes
    again. *)
Theorem publish_failure_ends_the_loop s t o :
  status_of s t = Some awaiting_publish ->
  exists s1,
    step (ExecutorDone t o) s = [s1]
    /\ trace s1 = trace s ++ flat_map (sync_to_action t) (fst (publish_sync o))
    /\ In t (ready s1)
    /\ match snd (publish_sync o) with
       | Returned =>
           status_of s1 t = Some (Runnable (Sleep (Seconds 3) publish))
       | Raised e =>
           status_of s1 t = Some (Runnable (Raise e))
           /\ (forall ls s2, path s1 ls s2 ->
                 (status_of s2 t = Some (Runnable (Raise e))
                  /\ In t (ready s2)
                  /\ exists s3,
                       step (Run t) s2 = [s3]
                       /\ trace s3 = trace s2 ++ [ADone t (Raised e)]
                       /\ status_of s3 t = Some (Finished (Raised e)))
                 \/ status_of s2 t = Some (Finished (Raised e)))
       end.
Proof.
  intros Hs. unfold awaiting_publish in Hs. simpl. rewrite Hs.
  destruct (publish_sync o) as [acts out] eqn:E. eexists. split; [reflexivity|].
  assert (Hst : forall c,
             status_of
               (resume t c
                  (fold_left (fun s' a => emit a s')
                     (flat_map (sync_to_action t) acts) s)) t
             = Some (Runnable c)).
  { intros c. unfold resume. simpl.
    eapply status_of_set_status_eq. rewrite status_of_emits. exact Hs. }
  split; [simpl; now rewrite trace_emits|].
  split; [simpl; apply in_or_app; right; now left|].
  simpl. destruct out as [|e]; [apply Hst|]. split; [apply Hst|].
  intros ls s2 Hp.
  destruct (doomed_task e t _ _ _ Hp (Hst _)) as [[H1 H2]|H1];
    [simpl; apply in_or_app; right; now left| |now right].
  left. split; [exact H1|]. split; [exact H2|].
  simpl. rewrite (in_ready_existsb _ _ H2), H1. simpl.
  eexists. split; [reflexivity|].
  split; [rewrite trace_finish; reflexivity|].
  eapply status_of_finish. exact H1.
Qed.

(** ** The ingest loop does not wait *)

Lemma get_from_queue_unfolds :
  seq_coro
    (Log INFO GettingFromQueue
       (QueueGet (fun pubsub_msg =>
          Log INFO (Got (message_id pubsub_msg))
            (CreateTask (handle_message pubsub_msg) Return))))
    get_from_queue
  = gfq_turn.
Proof. reflexivity. Qed.

Lemma status_of_spawn_new t par c s :
  status_of (spawn t par c s) (length (tasks s)) = Some (Runnable c).
Proof. unfold status_of, spawn. simpl. now rewrite lookup_snoc. Qed.

Lemma run_runnable s t c :
  status_of s t = Some (Runnable c) -> In t (ready s) ->
  step (Run t) s = exec t c (set_ready (remove_first t (ready s)) s).
Proof. intros H1 H2. simpl. now rewrite (in_ready_existsb _ _ H2), H1. Qed.

(** One turn of the ingest loop with an item at hand: the item leaves the
    queue, a task for it is created and scheduled, and the ingest task is
    back at the top of its loop, first in the ready queue. *)
Lemma ingest_turn s g pm q :
  about_to_get (status_of s g) -> In g (ready s) -> queue s = pm :: q ->
  exists s',
    step (Run g) s = [s']
    /\ status_of s' (length (tasks s)) = Some (Runnable (handle_message pm))
    /\ In (length (tasks s)) (ready s')
    /\ length (tasks s') = S (length (tasks s))
    /\ status_of s' g = Some (Runnable gfq_turn)
    /\ head (ready s') = Some g
    /\ queue s' = q.
Proof.
  intros Hs Hr Hq.
  assert (Hg : g < length (tasks s)).
  { destruct Hs as [Hs|Hs]; eapply status_of_lt; eauto. }
  assert (E : exists s0,
             queue s0 = pm :: q /\ tasks s0 = tasks s
             /\ step (Run g) s = exec g (QueueGet gfq_got) s0).
  { destruct Hs as [Hs|Hs]; rewrite (run_runnable _ _ _ Hs Hr).
    - eexists. split; [|split; [|reflexivity]]; [exact Hq|reflexivity].
    - eexists. split; [|split; [|reflexivity]]; [exact Hq|reflexivity]. }
  destruct E as (s0 & Hq0 & Ht0 & ->).
  cbn [exec]. rewrite Hq0. unfold gfq_got, get_from_queue. cbn [exec].
  eexists. split; [reflexivity|].
  change (seq_coro _ _) with gfq_turn.
  set (s1 := spawn g None (handle_message pm) _).
  assert (H1 : status_of s1 (length (tasks s))
               = Some (Runnable (handle_message pm))).
  { rewrite <- Ht0. exact (status_of_spawn_new g None (handle_message pm) _). }
  assert (H2 : status_of s1 g = Some (Runnable gfq_turn)
               \/ status_of s1 g = Some (Runnable (QueueGet gfq_got))).
  { destruct Hs as [Hs|Hs]; [left|right]; apply status_of_spawn;
      unfold status_of; simpl; rewrite Ht0; exact Hs. }
  split; [|split; [|split; [|split; [|split]]]].
  - change (status_of (set_status g (Runnable gfq_turn) s1) (length (tasks s))
            = Some (Runnable (handle_message pm))).
    rewrite status_of_set_status_ne by lia. exact H1.
  - simpl. right. apply in_or_app. right. rewrite Ht0. now left.
  - simpl. rewrite length_alter, length_app, Ht0. simpl. lia.
  - change (status_of (set_status g (Runnable gfq_turn) s1) g
            = Some (Runnable gfq_turn)).
    destruct H2 as [H2|H2]; eapply status_of_set_status_eq; exact H2.
  - reflexivity.
  - reflexivity.
Qed.

Lemma path_keeps_runnable u c : forall ls s s',
  path s ls s' -> ~ In (Run u) ls ->
  status_of s u = Some (Runnable c) -> In u (ready s) ->
  status_of s' u = Some (Runnable c) /\ In u (ready s').
Proof.
  induction ls as [|l ls IH]; intros s s' Hp Hn Hs Hr.
  - inversion Hp; subst. auto.
  - inversion Hp as [|? ? s1 ? ? Hin Hp']; subst.
    assert (Hl : l <> Run u) by (intros ->; apply Hn; now left).
    destruct (step_keeps_runnable _ _ _ _ _ Hin Hl Hs Hr) as [Hs1 Hr1].
    eapply IH; eauto. intros H. apply Hn. now right.
Qed.

Lemma exec_dispatch t pm msg s :
  exec t (dispatch pm msg) s = [dispatch_state t pm msg s].
Proof. reflexivity. Qed.

Lemma length_tasks_spawn t par c s :
  length (tasks (spawn t par c s)) = S (length (tasks s)).
Proof. simpl. rewrite length_app. simpl. lia. Qed.

Lemma dispatch_state_dispatched t pm msg s x :
  status_of s t = Some x ->
  dispatched_by t pm (length (tasks s)) (length (events s)) msg
    (dispatch_state t pm msg s).
Proof.
  intros Hs. pose proof (status_of_lt _ _ _ Hs) as Hlt.
  unfold dispatch_state, dispatched_by.
  set (ev := length (events s)).
  set (s1 := set_events _ s).
  set (s2 := spawn t None (cleanup pm ev) s1).
  set (s3 := spawn t (Some t) (save msg) s2).
  set (s4 := spawn t (Some t) (restart_host msg) s3).
  assert (L2 : length (tasks s2) = S (length (tasks s)))
    by exact (length_tasks_spawn t None _ s1).
  assert (L3 : length (tasks s3) = S (S (length (tasks s))))
    by (unfold s3; now rewrite length_tasks_spawn, L2).
  rewrite L2, L3.
  assert (H1 : status_of s4 (length (tasks s)) = Some (Runnable (cleanup pm ev))).
  { do 2 apply status_of_spawn. exact (status_of_spawn_new t None _ s1). }
  assert (H2 : status_of s4 (S (length (tasks s))) = Some (Runnable (save msg))).
  { apply status_of_spawn. rewrite <- L2. apply status_of_spawn_new. }
  assert (H3 : status_of s4 (S (S (length (tasks s))))
               = Some (Runnable (restart_host msg))).
  { rewrite <- L3. apply status_of_spawn_new. }
  split; [|split; [|split; [|split; [|split; [|split; [|split]]]]]].
  - eapply status_of_set_status_eq. do 3 apply status_of_spawn. exact Hs.
  - rewrite status_of_set_status_ne by lia. exact H1.
  - rewrite status_of_set_status_ne by lia. exact H2.
  - rewrite status_of_set_status_ne by lia. exact H3.
  - simpl. rewrite !in_app_iff. simpl. tauto.
  - simpl. rewrite !in_app_iff. simpl. rewrite length_app. simpl.
    replace (length (tasks s) + 1) with (S (length (tasks s))) by lia. tauto.
  - simpl. rewrite !in_app_iff. simpl. rewrite !length_app. simpl.
    replace (length (tasks s) + 1 + 1) with (S (S (length (tasks s)))) by lia.
    tauto.
  - simpl. apply lookup_snoc.
Qed.

(** In any state of the loop, the turn of a task that is to run
    [handle_message] on a parsed message ends in the dispatch: [cleanup]
    and the two sub-tasks are created and scheduled, and the task waits
    in [gather]. *)
Lemma handler_dispatches_anywhere s t pm name :
  status_of s t = Some (Runnable (handler pm name)) -> In t (ready s) ->
  exists s',
    step (Run t) s = [s']
    /\ dispatched_by t pm (length (tasks s)) (length (events s))
         (length (heap s)) s'.
Proof.
  intros Hs Hr. rewrite (run_runnable _ _ _ Hs Hr).
  unfold handler. rewrite exec_PubSubMessage.
  erewrite exec_GetAttr; [|apply lookup_snoc|reflexivity].
  cbn [exec]. rewrite exec_dispatch. eexists. split; [reflexivity|].
  match goal with
  | |- dispatched_by _ _ _ _ _ (dispatch_state _ _ _ ?s') =>
      exact (dispatch_state_dispatched t pm (length (heap s)) s' _ Hs)
  end.
Qed.

(** C7.  Take any state of the loop, with whatever other tasks in
    whatever state, in which the ingest task [g] is about to take an item
    and the queue starts with [A] then [B], [B] having a payload that
    parses.  Two turns of [g] take [A] and then [B] out of the queue and
    create a task for each, [hA] and [hB], without waiting for either:
    after them [g] is back at the top of its loop, [hA] has not even
    started, and [hB] is scheduled.  From then on, whatever the loop does
    and however long it does it (the pipeline of [A] running, sleeping
    without end, or failing, included), as long as [hB] has not had its
    turn it remains ready to run, and its turn ends in the dispatch of
    [B]: it never waits for anything of [A]. *)
Theorem ingest_never_waits_for_a_pipeline s g A B q name :
  about_to_get (status_of s g) -> In g (ready s) ->
  queue s = A :: B :: q ->
  parse_payload (data B) = inr name ->
  exists s1 s2,
    step (Run g) s = [s1] /\ step (Run g) s1 = [s2]
    /\ status_of s2 (length (tasks s)) = Some (Runnable (handle_message A))
    /\ status_of s2 (S (length (tasks s)))
       = Some (Runnable (handle_message B))
    /\ In (S (length (tasks s))) (ready s2)
    /\ status_of s2 g = Some (Runnable gfq_turn)
    /\ queue s2 = q
    /\ forall ls s3,
         path s2 ls s3 -> ~ In (Run (S (length (tasks s)))) ls ->
         status_of s3 (S (length (tasks s)))
         = Some (Runnable (handle_message B))
         /\ In (S (length (tasks s))) (ready s3)
         /\ exists s4,
              step (Run (S (length (tasks s)))) s3 = [s4]
              /\ dispatched_by (S (length (tasks s))) B (length (tasks s3))
                   (length (events s3)) (length (heap s3)) s4.
Proof.
  intros Hs Hr Hq Hp.
  assert (Hg : g < length (tasks s)).
  { destruct Hs as [Hs|Hs]; eapply status_of_lt; eauto. }
  destruct (ingest_turn s g A (B :: q) Hs Hr Hq)
    as (s1 & E1 & HA1 & HAr1 & L1 & Hg1 & Hh1 & Hq1).
  assert (Hr1 : In g (ready s1)).
  { destruct (ready s1) as [|x r]; [discriminate|].
    injection Hh1 as ->. now left. }
  destruct (ingest_turn s1 g B q (or_introl Hg1) Hr1 Hq1)
    as (s2 & E2 & HB2 & HBr2 & L2 & Hg2 & Hh2 & Hq2).
  rewrite L1 in HB2, HBr2.
  exists s1, s2. split; [exact E1|]. split; [exact E2|].
  split; [|split; [exact HB2|split; [exact HBr2|split;
            [exact Hg2|split; [exact Hq2|]]]]].
  - assert (Hin : In s2 (step (Run g) s1)) by (rewrite E2; now left).
    refine (proj1 (step_keeps_runnable _ _ _ _ _ Hin _ HA1 HAr1)).
    intros E. injection E as E. lia.
  - intros ls s3 Hpath Hn.
    destruct (path_keeps_runnable _ _ _ _ _ Hpath Hn HB2 HBr2) as [H3 Hr3].
    split; [exact H3|]. split; [exact Hr3|].
    apply (handler_dispatches_anywhere s3 _ B name); [|exact Hr3].
    now rewrite <- (handle_message_parsed _ _ Hp).
Qed.

(** ** How a step moves the other tasks *)

Lemma moved_refl tk : moved tk tk.
Proof. split; auto. Qed.

Lemma moved_trans tk1 tk2 tk3 : moved tk1 tk2 -> moved tk2 tk3 -> moved tk1 tk3.
Proof.
  intros [P1 [E1|W1]] [P2 [E2|W2]]; split; try congruence.
  - left. congruence.
  - right. now rewrite <- E1.
  - right. now rewrite E2.
  - exfalso. destruct (st tk1); simpl in W1; try contradiction;
      try (rewrite W1 in W2; exact W2);
      destruct W1 as [[rs W1]|[e W1]]; rewrite W1 in W2; exact W2.
Qed.

Lemma tasks_set_status_ne t x s u :
  u <> t -> tasks (set_status t x s) !! u = tasks s !! u.
Proof. intros H. simpl. rewrite list_lookup_alter_ne; auto. Qed.

Lemma tasks_set_status_eq t x s tk :
  tasks s !! t = Some tk ->
  tasks (set_status t x s) !! t = Some {| st := x; parent := parent tk |}.
Proof.
  intros H. simpl. rewrite list_lookup_alter.
  destruct (decide (t = t)); [|congruence]. now rewrite H.
Qed.

Lemma status_of_task s u tk : tasks s !! u = Some tk -> status_of s u = Some (st tk).
Proof. intros H. unfold status_of. now rewrite H. Qed.

(** Waking a task that waits. *)
Lemma moved_resume w c s x :
  status_of s w = Some x -> wakes x (Runnable c) ->
  forall u tk, tasks s !! u = Some tk ->
    exists tk', tasks (resume w c s) !! u = Some tk' /\ moved tk tk'.
Proof.
  intros Hw Hx u tk H. change (tasks (resume w c s)) with (tasks (set_status w (Runnable c) s)).
  destruct (Nat.eq_dec u w) as [->|Hne].
  - rewrite (tasks_set_status_eq _ _ _ _ H). eexists. split; [reflexivity|].
    split; [reflexivity|]. right. simpl.
    rewrite (status_of_task _ _ _ H) in Hw. injection Hw as ->. exact Hx.
  - rewrite tasks_set_status_ne by exact Hne. exists tk. split; [exact H|].
    apply moved_refl.
Qed.

Lemma moved_wake_all ws : forall s u tk,
  tasks s !! u = Some tk ->
  exists tk', tasks (wake_all ws s) !! u = Some tk' /\ moved tk tk'.
Proof.
  induction ws as [|w ws IH]; intros s u tk H; simpl.
  - exists tk. split; [exact H|apply moved_refl].
  - destruct (status_of s w) as [[| |ev c| | | |]|] eqn:E; try (now apply IH).
    destruct (moved_resume w c s _ E eq_refl u tk H) as (tk1 & H1 & M1).
    destruct (IH _ _ _ H1) as (tk2 & H2 & M2).
    exists tk2. split; [exact H2|]. eapply moved_trans; eauto.
Qed.

Lemma moved_wake_getter s u tk :
  tasks s !! u = Some tk ->
  exists tk', tasks (wake_getter s) !! u = Some tk' /\ moved tk tk'.
Proof.
  intros H. unfold wake_getter. destruct (getters s) as [|g gs].
  - exists tk. split; [exact H|apply moved_refl].
  - destruct (status_of s g) as [[| | | |k| |]|] eqn:E;
      try (exists tk; split; [exact H|apply moved_refl]).
    exact (moved_resume g (QueueGet k) (set_getters gs s) _ E eq_refl u tk H).
Qed.

Lemma moved_child_done p o s u tk :
  tasks s !! u = Some tk ->
  exists tk', tasks (child_done p o s) !! u = Some tk' /\ moved tk tk'.
Proof.
  intros H. unfold child_done.
  destruct (status_of s p) as [[| | |re children k| | |]|] eqn:E;
    try (exists tk; split; [exact H|apply moved_refl]).
  assert (W1 : forall e, wakes (OnGather re children k) (Runnable (Raise e)))
    by (intros e; right; eauto).
  assert (W2 : forall rs, wakes (OnGather re children k) (Runnable (k rs)))
    by (intros rs; left; eauto).
  destruct re, o; try (eapply moved_resume; eauto; fail);
    destruct (collect s children);
    try (exists tk; split; [exact H|apply moved_refl]);
    eapply moved_resume; eauto.
Qed.

Lemma moved_finish t o s u tk :
  u <> t -> tasks s !! u = Some tk ->
  exists tk', tasks (finish t o s) !! u = Some tk' /\ moved tk tk'.
Proof.
  intros Hne H. unfold finish.
  assert (H' : tasks (emit (ADone t o) (set_status t (Finished o) s)) !! u
               = Some tk).
  { change (tasks (set_status t (Finished o) s) !! u = Some tk).
    now rewrite tasks_set_status_ne. }
  destruct (parent_of s t); [now apply moved_child_done|].
  exists tk. split; [exact H'|apply moved_refl].
Qed.

Lemma tasks_spawn t par c s u tk :
  tasks s !! u = Some tk -> tasks (spawn t par c s) !! u = Some tk.
Proof.
  intros H. simpl. rewrite lookup_app_l; [exact H|].
  eapply lookup_lt_Some; eauto.
Qed.

Lemma tasks_spawn_all t par cs u tk : forall s ids s',
  spawn_all t par cs s = (ids, s') ->
  tasks s !! u = Some tk -> tasks s' !! u = Some tk.
Proof.
  induction cs as [|c cs IH]; intros s ids s' E H; simpl in E.
  - now injection E as <- <-.
  - destruct (spawn_all t par cs (spawn t par c s)) as [ids' s''] eqn:E'.
    injection E as <- <-. eapply IH; eauto. now apply tasks_spawn.
Qed.

(** The step of task [t] leaves every other task as it was, or wakes it. *)
Lemma exec_moves t u c : forall s s' tk,
  u <> t -> In s' (exec t c s) -> tasks s !! u = Some tk ->
  exists tk', tasks s' !! u = Some tk' /\ moved tk tk'.
Proof.
  induction c as [ | e | lvl m k IH | lo hi k IH | d k IH | k IH | ev k IH
                 | ev k IH | c' _ k IH | re cs k IH | pm k IH | k IH
                 | pm k IH | k IH | j k IH | j k IH | c' k IH
                 | r name v k IH | r name k IH | body _ ];
    intros s s' tk Hne Hin H; simpl in Hin.
  - destruct Hin as [<-|[]]. now apply moved_finish.
  - destruct Hin as [<-|[]]. now apply moved_finish.
  - eapply IH; eauto.
  - apply in_flat_map in Hin. destruct Hin as (z & _ & Hin). eapply IH; eauto.
  - destruct Hin as [<-|[]]. exists tk. split; [|apply moved_refl].
    change (tasks (set_status t (Sleeping d k) s) !! u = Some tk).
    now rewrite tasks_set_status_ne.
  - eapply IH; eauto.
  - destruct (events s !! ev) as [e|]; [|destruct Hin].
    destruct (is_set e); [eapply IH; eauto|].
    destruct Hin as [<-|[]]. exists tk. split; [|apply moved_refl].
    change (tasks (set_status t (OnEvent ev k) s) !! u = Some tk).
    now rewrite tasks_set_status_ne.
  - destruct (events s !! ev) as [e|]; [|destruct Hin].
    destruct (moved_wake_all (waiters e)
                (set_events (<[ev:={| is_set := true; waiters := [] |}]> (events s))
                   (emit (ASet t ev) s)) u tk H) as (tk1 & H1 & M1).
    destruct (IH _ _ _ Hne Hin H1) as (tk2 & H2 & M2).
    exists tk2. split; [exact H2|]. eapply moved_trans; eauto.
  - eapply IH; eauto. now apply tasks_spawn.
  - destruct cs as [|c0 cs]; [eapply IH; eauto|].
    destruct (spawn_all t (Some t) (c0 :: cs) s) as [ids s1] eqn:E.
    destruct Hin as [<-|[]]. exists tk. split; [|apply moved_refl].
    rewrite tasks_set_status_ne by exact Hne.
    eapply tasks_spawn_all; eauto.
  - eapply IH; eauto.
  - destruct (queue s) as [|pm q].
    + destruct Hin as [<-|[]]. exists tk. split; [|apply moved_refl].
      change (tasks (set_status t (OnGet k) s) !! u = Some tk).
      now rewrite tasks_set_status_ne.
    + eapply IH; eauto.
  - destruct (moved_wake_getter
                (emit (APut t pm) (set_queue (queue s ++ [pm]) s)) u tk H)
      as (tk1 & H1 & M1).
    destruct (IH _ _ _ Hne Hin H1) as (tk2 & H2 & M2).
    exists tk2. split; [exact H2|]. eapply moved_trans; eauto.
  - eapply IH; eauto.
  - destruct Hin as [<-|[]]. exists tk. split; [|apply moved_refl].
    change (tasks (set_status t (OnExecutor j k) s) !! u = Some tk).
    now rewrite tasks_set_status_ne.
  - eapply IH; eauto. destruct j; exact H.
  - eapply IH; eauto.
  - destruct (heap s !! r) as [o|]; [|destruct Hin].
    destruct (frozen (cls o)).
    + destruct Hin as [<-|[]]. now apply moved_finish.
    + eapply IH; eauto.
  - destruct (heap s !! r) as [o|]; [|destruct Hin].
    destruct (assoc_get name (attrs o)).
    + eapply IH; eauto.
    + destruct Hin as [<-|[]]. now apply moved_finish.
  - destruct Hin as [<-|[]]. exists tk. split; [|apply moved_refl].
    change (tasks
              (set_status t (Runnable (seq_coro body (Forever body))) s) !! u
            = Some tk).
    now rewrite tasks_set_status_ne.
Qed.

(** ** The order of the ready queue *)

Section FilterReady.

Variable P : nat -> bool.
Variable t : nat.

Lemma selected_not_waiting s w x :
  selected_runnable P t s -> status_of s w = Some x ->
  (forall c, x <> Runnable c) -> P w = false.
Proof.
  intros HP Hw Hx. destruct (P w) eqn:E; [|reflexivity].
  destruct (HP _ E) as [_ [cu Hc]]. rewrite Hc in Hw. injection Hw as <-.
  now destruct (Hx cu).
Qed.

Lemma selected_keeps s s' :
  selected_runnable P t s ->
  (forall u x, u <> t -> passive x -> status_of s u = Some x ->
     status_of s' u = Some x) ->
  selected_runnable P t s'.
Proof.
  intros HP H u Hu. destruct (HP u Hu) as [Hne [cu Hc]].
  split; [exact Hne|]. exists cu. apply H; auto. exact I.
Qed.

Lemma filter_snoc_out (l : list nat) w :
  P w = false -> List.filter P (l ++ [w]) = List.filter P l.
Proof.
  intros H. rewrite List.filter_app. simpl. rewrite H. apply app_nil_r.
Qed.

Lemma filter_resume w c s x :
  selected_runnable P t s -> status_of s w = Some x ->
  (forall c', x <> Runnable c') ->
  List.filter P (ready (resume w c s)) = List.filter P (ready s).
Proof.
  intros HP Hw Hx. simpl. apply filter_snoc_out.
  eapply selected_not_waiting; eauto.
Qed.

Lemma filter_wake_all ws : forall s,
  selected_runnable P t s ->
  List.filter P (ready (wake_all ws s)) = List.filter P (ready s).
Proof.
  induction ws as [|w ws IH]; intros s HP; simpl; [reflexivity|].
  destruct (status_of s w) as [[| |ev c| | | |]|] eqn:E; auto.
  rewrite IH.
  - apply (filter_resume w c s (OnEvent ev c) HP E). discriminate.
  - eapply selected_keeps; eauto. intros u x Hne Hx Hu.
    rewrite status_of_resume_ne; [exact Hu|].
    intros ->. rewrite Hu in E. injection E as ->. destruct Hx.
Qed.

Lemma filter_wake_getter s :
  selected_runnable P t s ->
  List.filter P (ready (wake_getter s)) = List.filter P (ready s).
Proof.
  intros HP. unfold wake_getter. destruct (getters s) as [|g gs]; [reflexivity|].
  destruct (status_of s g) as [[| | | |k| |]|] eqn:E; try reflexivity.
  apply (filter_resume g (QueueGet k) (set_getters gs s) (OnGet k));
    [exact HP|exact E|discriminate].
Qed.

Lemma filter_child_done p o s :
  selected_runnable P t s ->
  List.filter P (ready (child_done p o s)) = List.filter P (ready s).
Proof.
  intros HP. unfold child_done.
  destruct (status_of s p) as [[| | |re children k| | |]|] eqn:E;
    try reflexivity.
  destruct re, o;
    try (apply (filter_resume p _ s _ HP E); discriminate);
    destruct (collect s children); try reflexivity;
    apply (filter_resume p _ s _ HP E); discriminate.
Qed.

Lemma selected_set_status x s :
  selected_runnable P t s -> selected_runnable P t (set_status t x s).
Proof.
  intros HP. eapply selected_keeps; eauto. intros u y Hne _ Hu.
  now rewrite status_of_set_status_ne.
Qed.

Lemma filter_finish o s :
  selected_runnable P t s ->
  List.filter P (ready (finish t o s)) = List.filter P (ready s).
Proof.
  intros HP. unfold finish. destruct (parent_of s t); [|reflexivity].
  rewrite filter_child_done; [reflexivity|].
  exact (selected_set_status (Finished o) s HP).
Qed.

Lemma filter_spawn par c s :
  selected_runnable P t s ->
  List.filter P (ready (spawn t par c s)) = List.filter P (ready s)
  /\ selected_runnable P t (spawn t par c s).
Proof.
  intros HP. split.
  - simpl. apply filter_snoc_out.
    destruct (P (length (tasks s))) eqn:E; [|reflexivity].
    destruct (HP _ E) as [_ [cu Hc]]. apply status_of_lt in Hc. lia.
  - eapply selected_keeps; eauto. intros u x _ _ Hu.
    now apply status_of_spawn.
Qed.

Lemma filter_spawn_all par cs : forall s ids s',
  spawn_all t par cs s = (ids, s') -> selected_runnable P t s ->
  List.filter P (ready s') = List.filter P (ready s).
Proof.
  induction cs as [|c cs IH]; intros s ids s' E HP; simpl in E.
  - now injection E as <- <-.
  - destruct (spawn_all t par cs (spawn t par c s)) as [ids' s''] eqn:E'.
    injection E as <- <-. destruct (filter_spawn par c s HP) as [F1 HP1].
    rewrite (IH _ _ _ E' HP1). exact F1.
Qed.

Ltac by_IH IH HP Hin :=
  match type of Hin with
  | In ?s' (exec _ _ ?s1) =>
      first [ exact (IH s1 s' HP Hin) | exact (IH _ s1 s' HP Hin) ]
  end.

(** The step of task [t] leaves the selected tasks of the ready queue in
    place and in order. *)
Lemma exec_filter_ready c : forall s s',
  selected_runnable P t s -> In s' (exec t c s) ->
  List.filter P (ready s') = List.filter P (ready s).
Proof.
  induction c as [ | e | lvl m k IH | lo hi k IH | d k IH | k IH | ev k IH
                 | ev k IH | c' _ k IH | re cs k IH | pm k IH | k IH
                 | pm k IH | k IH | j k IH | j k IH | c' k IH
                 | r name v k IH | r name k IH | body _ ];
    intros s s' HP Hin; simpl in Hin.
  - destruct Hin as [<-|[]]. now apply filter_finish.
  - destruct Hin as [<-|[]]. now apply filter_finish.
  - by_IH IH HP Hin.
  - apply in_flat_map in Hin. destruct Hin as (z & _ & Hin).
    by_IH IH HP Hin.
  - destruct Hin as [<-|[]]. reflexivity.
  - by_IH IH HP Hin.
  - destruct (events s !! ev) as [e|]; [|destruct Hin].
    destruct (is_set e); [by_IH IH HP Hin|].
    destruct Hin as [<-|[]]. reflexivity.
  - destruct (events s !! ev) as [e|]; [|destruct Hin].
    assert (HP1 : selected_runnable P t (event_set ev e (emit (ASet t ev) s))).
    { eapply selected_keeps; [exact HP|]. intros u x _ Hx Hu.
      unfold event_set. apply passive_wake_all; [exact Hx|exact Hu]. }
    rewrite (IH _ _ HP1 Hin). unfold event_set.
    rewrite filter_wake_all; [reflexivity|exact HP].
  - destruct (filter_spawn None c' s HP) as [F1 HP1].
    rewrite (IH _ _ HP1 Hin). exact F1.
  - destruct cs as [|c0 cs]; [by_IH IH HP Hin|].
    destruct (spawn_all t (Some t) (c0 :: cs) s) as [ids s1] eqn:E.
    destruct Hin as [<-|[]]. simpl.
    exact (filter_spawn_all _ _ _ _ _ E HP).
  - by_IH IH HP Hin.
  - destruct (queue s) as [|pm q].
    + destruct Hin as [<-|[]]. reflexivity.
    + by_IH IH HP Hin.
  - assert (HP1 : selected_runnable P t
                    (wake_getter
                       (emit (APut t pm) (set_queue (queue s ++ [pm]) s)))).
    { eapply selected_keeps; [exact HP|]. intros u x _ Hx Hu.
      apply passive_wake_getter; [exact Hx|exact Hu]. }
    rewrite (IH _ _ HP1 Hin).
    rewrite filter_wake_getter; [reflexivity|exact HP].
  - by_IH IH HP Hin.
  - destruct Hin as [<-|[]]. reflexivity.
  - destruct j; by_IH IH HP Hin.
  - by_IH IH HP Hin.
  - destruct (heap s !! r) as [o|]; [|destruct Hin].
    destruct (frozen (cls o)).
    + destruct Hin as [<-|[]]. now apply filter_finish.
    + by_IH IH HP Hin.
  - destruct (heap s !! r) as [o|]; [|destruct Hin].
    destruct (assoc_get name (attrs o)).
    + by_IH IH HP Hin.
    + destruct Hin as [<-|[]]. now apply filter_finish.
  - destruct Hin as [<-|[]]. simpl.
    destruct (P t) eqn:E; [|reflexivity].
    destruct (HP _ E) as [Hne _]. congruence.
Qed.

End FilterReady.

(** ** Where a step lands, and what it creates *)

Lemma status_of_set_status t x s x' :
  status_of (set_status t x s) t = Some x' -> x' = x.
Proof.
  unfold status_of, set_status. simpl. rewrite list_lookup_alter.
  destruct (decide (t = t)); [|congruence].
  destruct (tasks s !! t); simpl; congruence.
Qed.

Lemma status_of_finish_self t o s x' :
  status_of (finish t o s) t = Some x' -> x' = Finished o.
Proof.
  intros H.
  assert (E : exists y, status_of s t = Some y).
  { destruct (status_of s t) as [y|] eqn:E; [eauto|].
    exfalso. unfold finish in H.
    assert (N : status_of (emit (ADone t o) (set_status t (Finished o) s)) t
                = None).
    { unfold status_of in *. simpl. rewrite list_lookup_alter.
      destruct (decide (t = t)); [|congruence].
      destruct (tasks s !! t); [discriminate|reflexivity]. }
    destruct (parent_of s t) as [p|]; [|congruence].
    unfold child_done in H.
    destruct (status_of _ p) as [[| | |re children k| | |]|] eqn:Ep;
      try congruence.
    assert (Hne : t <> p) by (intros ->; congruence).
    destruct re, o; try (rewrite status_of_resume_ne in H; congruence);
      destruct (collect _ children); try congruence;
      rewrite status_of_resume_ne in H; congruence. }
  destruct E as [y E]. rewrite (status_of_finish _ o _ _ E) in H. congruence.
Qed.

(** The status in which the step of [t] leaves [t]. *)
Lemma exec_tame_self G t c : forall s s' x',
  tame G c -> In s' (exec t c s) -> status_of s' t = Some x' -> G x'.
Proof.
  induction c as [ | e | lvl m k IH | lo hi k IH | d k IH | k IH | ev k IH
                 | ev k IH | c' _ k IH | re cs k IH | pm k IH | k IH
                 | pm k IH | k IH | j k IH | j k IH | c' k IH
                 | r name v k IH | r name k IH | body _ ];
    intros s s' x' HG Hin H; simpl in Hin, HG.
  - destruct Hin as [<-|[]]. apply status_of_finish_self in H. now subst.
  - destruct Hin as [<-|[]]. apply status_of_finish_self in H. now subst.
  - eapply IH; eauto.
  - apply in_flat_map in Hin. destruct Hin as (z & _ & Hin). eapply IH; eauto.
  - destruct Hin as [<-|[]].
    change (status_of (set_status t (Sleeping d k) s) t = Some x') in H.
    apply status_of_set_status in H. now subst.
  - eapply IH; eauto.
  - destruct HG as [HG1 HG2].
    destruct (events s !! ev) as [e|]; [|destruct Hin].
    destruct (is_set e); [eapply IH; eauto|].
    destruct Hin as [<-|[]].
    change (status_of (set_status t (OnEvent ev k) s) t = Some x') in H.
    apply status_of_set_status in H. now subst.
  - destruct (events s !! ev) as [e|]; [|destruct Hin]. eapply IH; eauto.
  - destruct HG as [HG1 HG2]. eapply IH; eauto.
  - destruct HG as (HG1 & HG2 & HG3).
    destruct cs as [|c0 cs]; [eapply IH; eauto|].
    destruct (spawn_all t (Some t) (c0 :: cs) s) as [ids s1] eqn:E.
    destruct Hin as [<-|[]].
    apply status_of_set_status in H. subst. apply HG2.
  - eapply IH; eauto.
  - destruct HG as [HG1 HG2]. destruct (queue s) as [|pm q].
    + destruct Hin as [<-|[]].
      change (status_of (set_status t (OnGet k) s) t = Some x') in H.
      apply status_of_set_status in H. now subst.
    + eapply IH; eauto.
  - eapply IH; eauto.
  - eapply IH; eauto.
  - destruct Hin as [<-|[]].
    change (status_of (set_status t (OnExecutor j k) s) t = Some x') in H.
    apply status_of_set_status in H. now subst.
  - eapply IH; eauto.
  - eapply IH; eauto.
  - destruct HG as [HG1 HG2].
    destruct (heap s !! r) as [o|]; [|destruct Hin].
    destruct (frozen (cls o)).
    + destruct Hin as [<-|[]]. apply status_of_finish_self in H. now subst.
    + eapply IH; eauto.
  - destruct HG as [HG1 HG2].
    destruct (heap s !! r) as [o|]; [|destruct Hin].
    destruct (assoc_get name (attrs o)).
    + eapply IH; eauto.
    + destruct Hin as [<-|[]]. apply status_of_finish_self in H. now subst.
  - destruct Hin as [<-|[]].
    change (status_of
              (set_status t (Runnable (seq_coro body (Forever body))) s) t
            = Some x') in H.
    apply status_of_set_status in H. now subst.
Qed.

Lemma length_tasks_resume w c s :
  length (tasks (resume w c s)) = length (tasks s).
Proof. simpl. apply length_alter. Qed.

Lemma length_tasks_wake_all ws : forall s,
  length (tasks (wake_all ws s)) = length (tasks s).
Proof.
  induction ws as [|w ws IH]; intros s; simpl; [reflexivity|].
  destruct (status_of s w) as [[]|]; rewrite IH; try reflexivity.
  apply length_tasks_resume.
Qed.

Lemma length_tasks_wake_getter s :
  length (tasks (wake_getter s)) = length (tasks s).
Proof.
  unfold wake_getter. destruct (getters s) as [|g gs]; [reflexivity|].
  destruct (status_of s g) as [[]|]; try reflexivity.
  exact (length_tasks_resume g _ (set_getters gs s)).
Qed.

Lemma length_tasks_child_done p o s :
  length (tasks (child_done p o s)) = length (tasks s).
Proof.
  unfold child_done. destruct (status_of s p) as [[]|]; try reflexivity.
  destruct return_exceptions, o; try apply length_tasks_resume;
    destruct (collect s children); try reflexivity; apply length_tasks_resume.
Qed.

Lemma length_tasks_finish t o s :
  length (tasks (finish t o s)) = length (tasks s).
Proof.
  unfold finish. destruct (parent_of s t).
  - rewrite length_tasks_child_done. simpl. apply length_alter.
  - simpl. apply length_alter.
Qed.

Lemma no_status_beyond s u x :
  length (tasks s) <= u -> status_of s u = Some x -> False.
Proof. intros H1 H2. apply status_of_lt in H2. lia. Qed.

Lemma spawn_all_new t par cs u x' : forall s ids s',
  spawn_all t par cs s = (ids, s') ->
  length (tasks s) <= u -> status_of s' u = Some x' ->
  exists c, In c cs /\ x' = Runnable c.
Proof.
  induction cs as [|c cs IH]; intros s ids s' E Hu H; simpl in E.
  - injection E as <- <-. destruct (no_status_beyond _ _ _ Hu H).
  - destruct (spawn_all t par cs (spawn t par c s)) as [ids' s''] eqn:E'.
    injection E as <- <-.
    destruct (Nat.eq_dec u (length (tasks s))) as [->|Hne].
    + exists c. split; [now left|].
      pose proof (status_of_spawn_all t par cs _ _ _ _ _ E'
                    (status_of_spawn_new t par c s)) as H'.
      congruence.
    + destruct (IH _ _ _ E') as (c1 & Hc1 & ->); [|exact H|].
      * rewrite length_tasks_spawn. lia.
      * exists c1. split; [now right|reflexivity].
Qed.

Lemma length_tasks_spawn_all t par cs : forall s ids s',
  spawn_all t par cs s = (ids, s') -> length (tasks s) <= length (tasks s').
Proof.
  induction cs as [|c cs IH]; intros s ids s' E; simpl in E.
  - injection E as <- <-. lia.
  - destruct (spawn_all t par cs (spawn t par c s)) as [ids' s''] eqn:E'.
    injection E as <- <-. apply IH in E'. rewrite length_tasks_spawn in E'. lia.
Qed.

Ltac ih_new IH HG Ht Hin Hu H :=
  match type of Hin with
  | In _ (exec _ _ ?s1) =>
      first [ refine (IH s1 _ _ _ _ Ht Hin Hu H)
            | refine (IH _ s1 _ _ _ _ Ht Hin Hu H) ];
      first [ exact HG | apply HG | apply (proj2 HG)
            | apply (proj2 (proj2 HG)) ]
  end.

(** The tasks the step of [t] creates never touch the queue. *)
Lemma exec_tame_new G t c : forall s s' u x',
  tame G c -> t < length (tasks s) -> In s' (exec t c s) ->
  length (tasks s) <= u -> status_of s' u = Some x' -> qfree_status x'.
Proof.
  induction c as [ | e | lvl m k IH | lo hi k IH | d k IH | k IH | ev k IH
                 | ev k IH | c' _ k IH | re cs k IH | pm k IH | k IH
                 | pm k IH | k IH | j k IH | j k IH | c' k IH
                 | r name v k IH | r name k IH | body _ ];
    intros s s' u x' HG Ht Hin Hu H; simpl in Hin, HG.
  - destruct Hin as [<-|[]]. exfalso. eapply no_status_beyond; [|exact H].
    now rewrite length_tasks_finish.
  - destruct Hin as [<-|[]]. exfalso. eapply no_status_beyond; [|exact H].
    now rewrite length_tasks_finish.
  - ih_new IH HG Ht Hin Hu H.
  - apply in_flat_map in Hin. destruct Hin as (z & _ & Hin). ih_new IH HG Ht Hin Hu H.
  - destruct Hin as [<-|[]]. exfalso. eapply no_status_beyond; [|exact H].
    simpl. now rewrite length_alter.
  - ih_new IH HG Ht Hin Hu H.
  - destruct HG as [HG1 HG2].
    destruct (events s !! ev) as [e|]; [|destruct Hin].
    destruct (is_set e); [ih_new IH HG2 Ht Hin Hu H|].
    destruct Hin as [<-|[]]. exfalso. eapply no_status_beyond; [|exact H].
    simpl. now rewrite length_alter.
  - destruct (events s !! ev) as [e|]; [|destruct Hin].
    eapply IH; [exact HG| |exact Hin| |exact H]; unfold event_set;
      rewrite length_tasks_wake_all; assumption.
  - destruct HG as [HG1 HG2].
    destruct (Nat.eq_dec u (length (tasks s))) as [->|Hne].
    + assert (Hn : tasks (spawn t None c' s) !! length (tasks s)
                   = Some {| st := Runnable c'; parent := None |}).
      { simpl. apply lookup_snoc. }
      destruct (exec_moves t (length (tasks s)) k _ _ _ ltac:(lia) Hin Hn)
        as (tk' & Htk' & _ & [E|W]).
      * rewrite (status_of_task _ _ _ Htk') in H. injection H as <-.
        rewrite E. exact HG1.
      * destruct W.
    + eapply IH; [exact HG2| |exact Hin| |exact H];
        rewrite length_tasks_spawn; lia.
  - destruct HG as (HG1 & HG2 & HG3).
    destruct cs as [|c0 cs]; [ih_new IH HG3 Ht Hin Hu H|].
    destruct (spawn_all t (Some t) (c0 :: cs) s) as [ids s1] eqn:E.
    destruct Hin as [<-|[]].
    rewrite status_of_set_status_ne in H by lia.
    destruct (spawn_all_new _ _ _ _ _ _ _ _ E Hu H) as (c1 & Hc1 & ->).
    rewrite List.Forall_forall in HG1. exact (HG1 _ Hc1).
  - ih_new IH HG Ht Hin Hu H.
  - destruct HG as [HG1 HG2]. destruct (queue s) as [|pm q].
    + destruct Hin as [<-|[]]. exfalso. eapply no_status_beyond; [|exact H].
      simpl. now rewrite length_alter.
    + ih_new IH HG2 Ht Hin Hu H.
  - eapply IH; [exact HG| |exact Hin| |exact H];
      rewrite length_tasks_wake_getter; assumption.
  - ih_new IH HG Ht Hin Hu H.
  - destruct Hin as [<-|[]]. exfalso. eapply no_status_beyond; [|exact H].
    simpl. now rewrite length_alter.
  - eapply IH; [exact HG| |exact Hin| |exact H]; destruct j; assumption.
  - ih_new IH HG Ht Hin Hu H.
  - destruct HG as [HG1 HG2].
    destruct (heap s !! r) as [o|]; [|destruct Hin].
    destruct (frozen (cls o)).
    + destruct Hin as [<-|[]]. exfalso. eapply no_status_beyond; [|exact H].
      now rewrite length_tasks_finish.
    + ih_new IH HG2 Ht Hin Hu H.
  - destruct HG as [HG1 HG2].
    destruct (heap s !! r) as [o|]; [|destruct Hin].
    destruct (assoc_get name (attrs o)).
    + ih_new IH HG2 Ht Hin Hu H.
    + destruct Hin as [<-|[]]. exfalso. eapply no_status_beyond; [|exact H].
      now rewrite length_tasks_finish.
  - destruct Hin as [<-|[]]. exfalso. eapply no_status_beyond; [|exact H].
    simpl. now rewrite length_alter.
Qed.

(** ** Code that never touches the queue *)

Lemma qfree_seq c1 c2 : qfree c1 -> qfree c2 -> qfree (seq_coro c1 c2).
Proof.
  induction c1; simpl; intros Q1 Q2; auto; try tauto;
    destruct Q1; split; auto.
Qed.

Lemma all_qfree_Forall cs :
  (fix all (l : list coro) : Prop :=
     match l with
     | [] => True
     | c' :: l' => qfree c' /\ all l'
     end) cs -> Forall qfree cs.
Proof.
  induction cs as [|c cs IH]; intros H; [apply List.Forall_nil|].
  destruct H. apply List.Forall_cons; auto.
Qed.

Lemma qfree_tame c : qfree c -> tame qfree_status c.
Proof.
  induction c; simpl; intros Q; auto; try tauto;
    try (apply qfree_seq; auto; fail);
    try (destruct Q as [Q1 Q2]; split;
         [now apply all_qfree_Forall|split; auto]; fail);
    destruct Q; split; auto.
Qed.

Lemma taken_app a b : taken (a ++ b) = taken a ++ taken b.
Proof.
  induction a as [|x a IH]; simpl; [reflexivity|].
  destruct x; simpl; rewrite ?IH; reflexivity.
Qed.

Lemma injected_app a b : injected (a ++ b) = injected a ++ injected b.
Proof.
  induction a as [|x a IH]; simpl; [reflexivity|].
  destruct x; simpl; rewrite ?IH; reflexivity.
Qed.

Lemma same_mailbox_refl t s : same_mailbox t s s.
Proof. repeat split; auto. Qed.

Lemma same_mailbox_trans t s1 s2 s3 :
  same_mailbox t s1 s2 -> same_mailbox t s2 s3 -> same_mailbox t s1 s3.
Proof.
  intros (A1 & A2 & A3 & A4 & A5) (B1 & B2 & B3 & B4 & B5).
  repeat split; try congruence. intros u k Hne H. auto.
Qed.

(** Updates that leave tasks, queue and getters alone and record nothing
    about the queue. *)
Lemma same_mailbox_quiet t s s' :
  tasks s' = tasks s -> queue s' = queue s -> getters s' = getters s ->
  taken (trace s') = taken (trace s) ->
  injected (trace s') = injected (trace s) ->
  same_mailbox t s s'.
Proof.
  intros H1 H2 H3 H4 H5. repeat split; auto.
  intros u k _ H. unfold status_of in *. now rewrite H1.
Qed.

Lemma same_mailbox_set_status t x s : same_mailbox t s (set_status t x s).
Proof.
  repeat split; auto. intros u k Hne H. now rewrite status_of_set_status_ne.
Qed.

Lemma same_mailbox_resume t w c s x :
  status_of s w = Some x -> (forall k, x <> OnGet k) ->
  same_mailbox t s (resume w c s).
Proof.
  intros Hw Hx. repeat split; auto. intros u k _ H.
  rewrite status_of_resume_ne; [exact H|].
  intros ->. rewrite H in Hw. injection Hw as <-. now destruct (Hx k).
Qed.

Lemma same_mailbox_wake_all t ws : forall s, same_mailbox t s (wake_all ws s).
Proof.
  induction ws as [|w ws IH]; intros s; simpl; [apply same_mailbox_refl|].
  destruct (status_of s w) as [[| |ev c| | | |]|] eqn:E; auto.
  eapply same_mailbox_trans; [|apply IH].
  apply (same_mailbox_resume t w c s _ E). discriminate.
Qed.

Lemma same_mailbox_child_done t p o s : same_mailbox t s (child_done p o s).
Proof.
  unfold child_done.
  destruct (status_of s p) as [[| | |re children k| | |]|] eqn:E;
    try apply same_mailbox_refl.
  destruct re, o;
    try (apply (same_mailbox_resume t p _ s _ E); discriminate);
    destruct (collect s children); try apply same_mailbox_refl;
    apply (same_mailbox_resume t p _ s _ E); discriminate.
Qed.

Lemma same_mailbox_finish t o s : same_mailbox t s (finish t o s).
Proof.
  unfold finish.
  assert (H : same_mailbox t s (emit (ADone t o) (set_status t (Finished o) s))).
  { eapply same_mailbox_trans; [apply (same_mailbox_set_status t (Finished o))|].
    apply same_mailbox_quiet; try reflexivity; simpl;
      [rewrite taken_app|rewrite injected_app]; simpl; apply app_nil_r. }
  destruct (parent_of s t); [|exact H].
  eapply same_mailbox_trans; [exact H|apply same_mailbox_child_done].
Qed.

Lemma same_mailbox_emit t a s :
  taken [a] = [] -> injected [a] = [] -> same_mailbox t s (emit a s).
Proof.
  intros H1 H2. apply same_mailbox_quiet; try reflexivity; simpl;
    [rewrite taken_app, H1|rewrite injected_app, H2]; apply app_nil_r.
Qed.

Lemma same_mailbox_spawn t par c s : same_mailbox t s (spawn t par c s).
Proof.
  repeat split; simpl; auto.
  - rewrite taken_app. apply app_nil_r.
  - rewrite injected_app. apply app_nil_r.
  - intros u k _ H. now apply status_of_spawn.
Qed.

Lemma same_mailbox_spawn_all t par cs : forall s ids s',
  spawn_all t par cs s = (ids, s') -> same_mailbox t s s'.
Proof.
  induction cs as [|c cs IH]; intros s ids s' E; simpl in E.
  - injection E as <- <-. apply same_mailbox_refl.
  - destruct (spawn_all t par cs (spawn t par c s)) as [ids' s''] eqn:E'.
    injection E as <- <-.
    eapply same_mailbox_trans; [apply same_mailbox_spawn|]. eapply IH; eauto.
Qed.

Ltac sm_step IH Hin :=
  match type of Hin with
  | In ?s' (exec _ _ ?s1) =>
      eapply same_mailbox_trans;
      [| first [ refine (IH s1 s' _ Hin) | refine (IH _ s1 s' _ Hin) ] ]
  end.

(** A step that never touches the queue leaves the mailbox as it was. *)
Lemma exec_qfree_mailbox t c : forall s s',
  qfree c -> In s' (exec t c s) -> same_mailbox t s s'.
Proof.
  induction c as [ | e | lvl m k IH | lo hi k IH | d k IH | k IH | ev k IH
                 | ev k IH | c' _ k IH | re cs k IH | pm k IH | k IH
                 | pm k IH | k IH | j k IH | j k IH | c' k IH
                 | r name v k IH | r name k IH | body _ ];
    intros s s' HQ Hin; simpl in Hin, HQ.
  - destruct Hin as [<-|[]]. apply same_mailbox_finish.
  - destruct Hin as [<-|[]]. apply same_mailbox_finish.
  - sm_step IH Hin; [now apply same_mailbox_emit|exact HQ].
  - apply in_flat_map in Hin. destruct Hin as (z & _ & Hin).
    sm_step IH Hin; [apply same_mailbox_refl|apply HQ].
  - destruct Hin as [<-|[]].
    eapply same_mailbox_trans; [apply (same_mailbox_set_status t (Sleeping d k))|].
    now apply same_mailbox_emit.
  - sm_step IH Hin; [|apply HQ]. now apply same_mailbox_quiet.
  - destruct (events s !! ev) as [e|]; [|destruct Hin].
    destruct (is_set e).
    + sm_step IH Hin; [apply same_mailbox_refl|exact HQ].
    + destruct Hin as [<-|[]].
      eapply same_mailbox_trans;
        [apply (same_mailbox_set_status t (OnEvent ev k))|].
      apply same_mailbox_quiet; try reflexivity; simpl;
        [rewrite taken_app|rewrite injected_app]; apply app_nil_r.
  - destruct (events s !! ev) as [e|]; [|destruct Hin].
    sm_step IH Hin; [|exact HQ]. unfold event_set.
    eapply same_mailbox_trans; [|apply same_mailbox_wake_all].
    apply same_mailbox_quiet; try reflexivity; simpl;
      [rewrite taken_app|rewrite injected_app]; apply app_nil_r.
  - sm_step IH Hin; [apply same_mailbox_spawn|apply HQ].
  - destruct HQ as [HQ1 HQ2]. destruct cs as [|c0 cs].
    + sm_step IH Hin; [apply same_mailbox_refl|apply HQ2].
    + destruct (spawn_all t (Some t) (c0 :: cs) s) as [ids s1] eqn:E.
      destruct Hin as [<-|[]].
      eapply same_mailbox_trans; [eapply same_mailbox_spawn_all; eauto|].
      apply same_mailbox_set_status.
  - sm_step IH Hin; [now apply same_mailbox_emit|exact HQ].
  - destruct HQ.
  - destruct HQ.
  - sm_step IH Hin; [apply same_mailbox_refl|apply HQ].
  - destruct Hin as [<-|[]].
    eapply same_mailbox_trans;
      [apply (same_mailbox_set_status t (OnExecutor j k))|].
    now apply same_mailbox_emit.
  - sm_step IH Hin; [|exact HQ].
    apply same_mailbox_quiet; try (destruct j; reflexivity); simpl;
      [rewrite taken_app|rewrite injected_app]; destruct j; apply app_nil_r.
  - sm_step IH Hin; [|apply HQ]. now apply same_mailbox_quiet.
  - destruct (heap s !! r) as [o|]; [|destruct Hin].
    destruct (frozen (cls o)).
    + destruct Hin as [<-|[]]. apply same_mailbox_finish.
    + sm_step IH Hin; [|exact HQ].
      apply same_mailbox_quiet; try reflexivity; simpl;
        [rewrite taken_app|rewrite injected_app]; apply app_nil_r.
  - destruct (heap s !! r) as [o|]; [|destruct Hin].
    destruct (assoc_get name (attrs o)).
    + sm_step IH Hin; [apply same_mailbox_refl|apply HQ].
    + destruct Hin as [<-|[]]. apply same_mailbox_finish.
  - destruct Hin as [<-|[]].
    eapply same_mailbox_trans;
      [apply (same_mailbox_set_status t
                (Runnable (seq_coro body (Forever body))))|].
    now apply same_mailbox_quiet.
Qed.

Lemma ready_valid_resume w c s x :
  status_of s w = Some x -> ready_valid s -> ready_valid (resume w c s).
Proof.
  intros Hw HV u Hu. rewrite length_tasks_resume. simpl in Hu.
  apply in_app_or in Hu. destruct Hu as [Hu|[<-|[]]]; [now apply HV|].
  eapply status_of_lt; eauto.
Qed.

Lemma ready_valid_wake_all ws : forall s,
  ready_valid s -> ready_valid (wake_all ws s).
Proof.
  induction ws as [|w ws IH]; intros s HV; simpl; [exact HV|].
  destruct (status_of s w) as [[| |ev c| | | |]|] eqn:E; auto.
  apply IH. eapply ready_valid_resume; eauto.
Qed.

Lemma ready_valid_wake_getter s : ready_valid s -> ready_valid (wake_getter s).
Proof.
  intros HV. unfold wake_getter. destruct (getters s) as [|g gs]; [exact HV|].
  destruct (status_of s g) as [[| | | |k| |]|] eqn:E; try exact HV.
  exact (ready_valid_resume g (QueueGet k) (set_getters gs s) _ E HV).
Qed.

Lemma ready_valid_child_done p o s :
  ready_valid s -> ready_valid (child_done p o s).
Proof.
  intros HV. unfold child_done.
  destruct (status_of s p) as [[| | |re children k| | |]|] eqn:E;
    try exact HV.
  destruct re, o; try (eapply ready_valid_resume; eauto; fail);
    destruct (collect s children); try exact HV;
    eapply ready_valid_resume; eauto.
Qed.

Lemma ready_valid_set_status t x s :
  ready_valid s -> ready_valid (set_status t x s).
Proof. intros HV u Hu. simpl. rewrite length_alter. now apply HV. Qed.

Lemma ready_valid_finish t o s : ready_valid s -> ready_valid (finish t o s).
Proof.
  intros HV. unfold finish.
  assert (H : ready_valid (emit (ADone t o) (set_status t (Finished o) s)))
    by exact (ready_valid_set_status t (Finished o) s HV).
  destruct (parent_of s t); [now apply ready_valid_child_done|exact H].
Qed.

Lemma ready_valid_spawn t par c s :
  ready_valid s -> ready_valid (spawn t par c s).
Proof.
  intros HV u Hu. rewrite length_tasks_spawn. simpl in Hu.
  apply in_app_or in Hu. destruct Hu as [Hu|[<-|[]]]; [|lia].
  apply HV in Hu. lia.
Qed.

Lemma ready_valid_spawn_all t par cs : forall s ids s',
  spawn_all t par cs s = (ids, s') -> ready_valid s -> ready_valid s'.
Proof.
  induction cs as [|c cs IH]; intros s ids s' E HV; simpl in E.
  - now injection E as <- <-.
  - destruct (spawn_all t par cs (spawn t par c s)) as [ids' s''] eqn:E'.
    injection E as <- <-. eapply IH; eauto. now apply ready_valid_spawn.
Qed.

Ltac rv_step IH Hin :=
  match type of Hin with
  | In ?s' (exec _ _ ?s1) =>
      first [ refine (IH s1 s' _ _ Hin) | refine (IH _ s1 s' _ _ Hin) ]
  end.

(** A step keeps the ready queue made of tasks. *)
Lemma exec_ready_valid t c : forall s s',
  t < length (tasks s) -> ready_valid s -> In s' (exec t c s) ->
  ready_valid s'.
Proof.
  induction c as [ | e | lvl m k IH | lo hi k IH | d k IH | k IH | ev k IH
                 | ev k IH | c' _ k IH | re cs k IH | pm k IH | k IH
                 | pm k IH | k IH | j k IH | j k IH | c' k IH
                 | r name v k IH | r name k IH | body _ ];
    intros s s' Ht HV Hin; simpl in Hin.
  - destruct Hin as [<-|[]]. now apply ready_valid_finish.
  - destruct Hin as [<-|[]]. now apply ready_valid_finish.
  - rv_step IH Hin; assumption.
  - apply in_flat_map in Hin. destruct Hin as (z & _ & Hin).
    rv_step IH Hin; assumption.
  - destruct Hin as [<-|[]].
    exact (ready_valid_set_status t (Sleeping d k) s HV).
  - rv_step IH Hin; assumption.
  - destruct (events s !! ev) as [e|]; [|destruct Hin].
    destruct (is_set e); [rv_step IH Hin; assumption|].
    destruct Hin as [<-|[]].
    exact (ready_valid_set_status t (OnEvent ev k) s HV).
  - destruct (events s !! ev) as [e|]; [|destruct Hin].
    rv_step IH Hin; unfold event_set.
    + now rewrite length_tasks_wake_all.
    + now apply ready_valid_wake_all.
  - rv_step IH Hin.
    + rewrite length_tasks_spawn. lia.
    + now apply ready_valid_spawn.
  - destruct cs as [|c0 cs]; [rv_step IH Hin; assumption|].
    destruct (spawn_all t (Some t) (c0 :: cs) s) as [ids s1] eqn:E.
    destruct Hin as [<-|[]]. apply ready_valid_set_status.
    eapply ready_valid_spawn_all; eauto.
  - rv_step IH Hin; assumption.
  - destruct (queue s) as [|pm q].
    + destruct Hin as [<-|[]].
      exact (ready_valid_set_status t (OnGet k) s HV).
    + rv_step IH Hin; assumption.
  - rv_step IH Hin.
    + now rewrite length_tasks_wake_getter.
    + now apply ready_valid_wake_getter.
  - rv_step IH Hin; assumption.
  - destruct Hin as [<-|[]].
    exact (ready_valid_set_status t (OnExecutor j k) s HV).
  - rv_step IH Hin; destruct j; assumption.
  - rv_step IH Hin.
    + exact Ht.
    + exact HV.
  - destruct (heap s !! r) as [o|]; [|destruct Hin].
    destruct (frozen (cls o)).
    + destruct Hin as [<-|[]]. now apply ready_valid_finish.
    + rv_step IH Hin; assumption.
  - destruct (heap s !! r) as [o|]; [|destruct Hin].
    destruct (assoc_get name (attrs o)).
    + rv_step IH Hin; assumption.
    + destruct Hin as [<-|[]]. now apply ready_valid_finish.
  - destruct Hin as [<-|[]]. intros u Hu. simpl. rewrite length_alter.
    simpl in Hu. destruct Hu as [<-|Hu]; [exact Ht|now apply HV].
Qed.

(** ** The mailbox invariant *)

Lemma member_In l u : member l u = true <-> In u l.
Proof.
  unfold member. rewrite existsb_exists. split.
  - intros (x & Hx & E). apply Nat.eqb_eq in E. now subst.
  - intros H. exists u. split; [exact H|apply Nat.eqb_refl].
Qed.

Lemma member_not_In l u : ~ In u l -> member l u = false.
Proof.
  intros H. destruct (member l u) eqn:E; [|reflexivity].
  apply member_In in E. contradiction.
Qed.

Lemma in_map_fst {A B} (u : A) (l : list (A * B)) :
  In u (map fst l) -> exists b, In (u, b) l.
Proof.
  intros H. apply in_map_iff in H. destruct H as ([a b] & E & H).
  simpl in E. subst. eauto.
Qed.

Lemma ingest_not_put x pm :
  ingest_status x -> x <> Runnable (add_to_queue pm).
Proof.
  intros [ -> | [ -> | [ -> | -> ] ] ]; unfold get_from_queue, gfq_turn, add_to_queue;
    discriminate.
Qed.

Lemma qfree_wakes x x' : qfree_status x -> wakes x x' -> qfree_status x'.
Proof.
  destruct x as [c|d c|ev c|re ids k|k|j c|o]; simpl; try tauto.
  - intros Q ->. exact Q.
  - intros Q [[rs ->]|[e ->]]; simpl; auto.
Qed.

Lemma qfree_moved tk tk' :
  moved tk tk' -> qfree_status (st tk) -> qfree_status (st tk').
Proof.
  intros [_ [E|W]] Q; [now rewrite E|]. eapply qfree_wakes; eauto.
Qed.

Lemma put_task_moved pm tk' : moved (put_task pm) tk' -> tk' = put_task pm.
Proof.
  intros [P [E|[]]]. destruct tk' as [x p]. simpl in *. now subst.
Qed.

Section Invariant.

Variable g : nat.
Variable pend : list (nat * pubsub_message).
Variable s : state.
Hypothesis Inv : mailbox_inv g pend s.

Lemma pend_status u pm :
  In (u, pm) pend -> status_of s u = Some (Runnable (add_to_queue pm)).
Proof.
  intros H. apply (inv_pend _ _ _ Inv) in H. unfold status_of. now rewrite H.
Qed.

Lemma ingest_not_pending : ~ In g (map fst pend).
Proof.
  intros H. apply in_map_fst in H. destruct H as [pm H].
  apply pend_status in H. destruct (inv_ingest _ _ _ Inv) as (x & Hx & Hi & _).
  rewrite Hx in H. injection H as ->. now apply (ingest_not_put _ pm) in Hi.
Qed.

Lemma pending_selected t :
  ~ In t (map fst pend) ->
  selected_runnable (member (map fst pend)) t s.
Proof.
  intros Ht u Hu. apply member_In in Hu. split; [congruence|].
  apply in_map_fst in Hu. destruct Hu as [pm Hu]. eauto using pend_status.
Qed.

(** [callback] adds one pending injection, behind the others. *)
Lemma mailbox_deliver th pm :
  mailbox_inv g (pend ++ [(length (tasks s), pm)]) (callback th pm s).
Proof.
  pose proof ingest_not_pending as Hg.
  assert (Hnew : ~ In (length (tasks s)) (map fst pend)).
  { intros H. apply in_map_fst in H. destruct H as [pm' H].
    apply pend_status, status_of_lt in H. lia. }
  split.
  - destruct (inv_ingest _ _ _ Inv) as (x & Hx & Hi & Hget). exists x.
    split; [now apply status_of_callback|]. split; [exact Hi|exact Hget].
  - rewrite map_app. simpl. apply NoDup_app. split; [apply (inv_nodup _ _ _ Inv)|].
    split; [|apply NoDup_singleton].
    intros u Hu Hu'. apply list_elem_of_In in Hu, Hu'.
    destruct Hu' as [<-|[]]. contradiction.
  - intros u pm' H. apply in_app_or in H. simpl.
    destruct H as [H|[E|[]]].
    + apply (inv_pend _ _ _ Inv) in H. rewrite lookup_app_l; [exact H|].
      eapply lookup_lt_Some; eauto.
    + injection E as <- <-. apply lookup_snoc.
  - rewrite map_app. simpl. rewrite List.filter_app. simpl.
    rewrite (proj2 (member_In _ _)) by (apply in_or_app; right; now left).
    f_equal. rewrite <- (inv_order _ _ _ Inv) at 2.
    apply List.filter_ext_in. intros u Hu. apply (inv_ready _ _ _ Inv) in Hu.
    unfold member. rewrite existsb_app. simpl.
    replace (Nat.eqb u (length (tasks s))) with false; [now rewrite !orb_false_r|].
    symmetry. apply Nat.eqb_neq. lia.
  - intros u x Hx Hne Hu. rewrite map_app in Hu. simpl in Hu.
    assert (Hlt : u < length (tasks s)).
    { apply status_of_lt in Hx. simpl in Hx. rewrite length_app in Hx.
      simpl in Hx. destruct (Nat.eq_dec u (length (tasks s))) as [->|]; [|lia].
      exfalso. apply Hu. apply in_or_app. right. now left. }
    apply (inv_others _ _ _ Inv u); auto.
    + unfold status_of in *. simpl in Hx. now rewrite lookup_app_l in Hx.
    + intros H. apply Hu, in_or_app. now left.
  - intros u Hu. simpl in *. rewrite length_app. simpl.
    apply in_app_or in Hu. destruct Hu as [Hu|[<-|[]]]; [|lia].
    apply (inv_ready _ _ _ Inv) in Hu. lia.
  - simpl. rewrite !taken_app, !injected_app. simpl.
    rewrite !app_nil_r, !map_app. simpl.
    rewrite <- (inv_count _ _ _ Inv). now rewrite <- !app_assoc.
  - intros k Hk. apply (inv_awake _ _ _ Inv k).
    destruct (inv_ingest _ _ _ Inv) as (x & Hx & _).
    rewrite (status_of_callback th pm s g x Hx) in Hk. congruence.
  - intros c Hk. simpl. apply in_or_app. left.
    apply (inv_scheduled _ _ _ Inv c).
    destruct (inv_ingest _ _ _ Inv) as (x & Hx & _).
    rewrite (status_of_callback th pm s g x Hx) in Hk. congruence.
Qed.


(** Updates that keep tasks, ready queue, queue and getters, and record
    nothing about the queue. *)
Lemma mailbox_quiet s' :
  tasks s' = tasks s -> ready s' = ready s -> queue s' = queue s ->
  getters s' = getters s -> taken (trace s') = taken (trace s) ->
  injected (trace s') = injected (trace s) ->
  mailbox_inv g pend s'.
Proof.
  intros H1 H2 H3 H4 H5 H6. destruct Inv as [A B C D E F G K L].
  split; unfold status_of, ready_valid in *; try rewrite H1; try rewrite H2;
    try rewrite H3; try rewrite H4; try rewrite H5; try rewrite H6; auto.
Qed.

(** A task outside the mailbox is put back into the ready queue. *)
Lemma mailbox_resume t c x :
  status_of s t = Some x -> (forall c', x <> Runnable c') ->
  t <> g -> qfree c -> mailbox_inv g pend (resume t c s).
Proof.
  intros Hx Hnr Hne Q.
  assert (Ht : ~ In t (map fst pend)).
  { intros H. apply in_map_fst in H. destruct H as [pm H].
    apply pend_status in H. rewrite H in Hx. injection Hx as <-.
    now apply (Hnr (add_to_queue pm)). }
  destruct Inv as [A B C D E F G K L]. split; auto.
  - destruct A as (y & Hy & Hi & Hg). exists y.
    rewrite status_of_resume_ne by congruence. auto.
  - intros u pm H.
    change (tasks (set_status t (Runnable c) s) !! u = Some (put_task pm)).
    rewrite tasks_set_status_ne; [now apply C|].
    intros ->. apply Ht. apply in_map_iff. now exists (t, pm).
  - simpl. rewrite filter_snoc_out; [exact D|]. now apply member_not_In.
  - intros u y Hy Hu Hn. destruct (Nat.eq_dec u t) as [->|Hut].
    + apply status_of_set_status in Hy. now subst.
    + rewrite status_of_resume_ne in Hy by exact Hut. eauto.
  - eapply ready_valid_resume; eauto.
  - intros k Hk. rewrite status_of_resume_ne in Hk by congruence. eauto.
  - intros c' Hk. rewrite status_of_resume_ne in Hk by congruence.
    simpl. apply in_or_app. left. eauto.
Qed.

End Invariant.

Lemma taken_sync t acts : taken (flat_map (sync_to_action t) acts) = [].
Proof.
  induction acts as [|[| |] acts IH]; simpl; auto.
Qed.

Lemma injected_sync t acts : injected (flat_map (sync_to_action t) acts) = [].
Proof.
  induction acts as [|[| |] acts IH]; simpl; auto.
Qed.

(** ** The code outside the mailbox *)

Lemma qfree_handle_results rs k : qfree k -> qfree (handle_results rs k).
Proof.
  intros Q. induction rs as [|[|e] rs IH]; simpl; auto.
Qed.

Lemma qfree_restart_host msg : qfree (restart_host msg).
Proof.
  unfold restart_host. simpl. intros z. destruct (Z.eqb z 2); simpl; auto.
Qed.

Lemma qfree_dispatch pm msg : qfree (dispatch pm msg).
Proof.
  unfold dispatch. cbn [qfree]. intros ev. split; [simpl; auto|].
  split.
  - split; [simpl; auto|]. split; [apply qfree_restart_host|exact I].
  - intros rs. apply qfree_handle_results. exact I.
Qed.

Lemma qfree_handle_message pm : qfree (handle_message pm).
Proof.
  unfold handle_message. destruct (parse_payload (data pm)); [exact I|].
  unfold PubSubMessage, attrs_post_init. cbn [qfree].
  intros self v shown. apply qfree_dispatch.
Qed.

Lemma tame_get_from_queue : tame ingest_status get_from_queue.
Proof. right. left. reflexivity. Qed.

Lemma tame_queue_get : tame ingest_status (QueueGet gfq_got).
Proof.
  split; [right; right; left; reflexivity|].
  intros pm. split; [apply qfree_handle_message|exact tame_get_from_queue].
Qed.

Lemma tame_ingest c :
  ingest_status (Runnable c) -> tame ingest_status c.
Proof.
  intros [E|[E|[E|E]]]; try discriminate; injection E as ->.
  - exact tame_get_from_queue.
  - exact tame_queue_get.
  - exact tame_queue_get.
Qed.

Lemma queue_wake_getter s : queue (wake_getter s) = queue s.
Proof.
  unfold wake_getter. destruct (getters s) as [|g gs]; [reflexivity|].
  now destruct (status_of s g) as [[]|].
Qed.

Lemma trace_wake_getter s : trace (wake_getter s) = trace s.
Proof.
  unfold wake_getter. destruct (getters s) as [|g gs]; [reflexivity|].
  now destruct (status_of s g) as [[]|].
Qed.

(** One look of [get_from_queue] at the queue: it takes the oldest item
    and goes back to the top of its loop, or it waits as the only
    getter. *)
Lemma exec_queue_get g s1 s' x0 :
  status_of s1 g = Some x0 -> getters s1 = [] ->
  In s' (exec g (QueueGet gfq_got) s1) ->
  exists x',
    status_of s' g = Some x' /\ ingest_status x'
    /\ getters s' = (if is_onget x' then [g] else [])
    /\ taken (trace s') ++ queue s' = taken (trace s1) ++ queue s1
    /\ injected (trace s') = injected (trace s1)
    /\ (is_onget x' = true -> queue s' = [])
    /\ (is_onget x' = false -> In g (ready s')).
Proof.
  intros Hx Hg Hin. cbn [exec] in Hin. destruct (queue s1) as [|pm q] eqn:Eq.
  - destruct Hin as [<-|[]]. exists (OnGet gfq_got).
    split; [|split; [right; right; left; reflexivity|]].
    + change (status_of (set_status g (OnGet gfq_got) s1) g
              = Some (OnGet gfq_got)).
      eapply status_of_set_status_eq; eauto.
    + simpl. rewrite Hg, Eq. rewrite app_nil_r.
      repeat split; auto. discriminate.
  - unfold gfq_got, get_from_queue in Hin. cbn [exec] in Hin.
    destruct Hin as [<-|[]]. exists (Runnable gfq_turn).
    split; [|split; [right; left; reflexivity|]].
    + match goal with
      | |- status_of (set_ready _ (set_status _ _ ?S)) _ = _ =>
          change (status_of (set_status g (Runnable gfq_turn) S) g
                  = Some (Runnable gfq_turn));
          apply (status_of_set_status_eq g _ x0)
      end.
      apply status_of_spawn. exact Hx.
    + simpl. rewrite Hg. rewrite !taken_app, !injected_app. simpl.
      rewrite !app_nil_r. split; [reflexivity|].
      split; [now rewrite <- app_assoc|]. split; [reflexivity|].
      split; [discriminate|]. intros _. now left.
Qed.

Lemma exec_ingest g c s0 s' x0 :
  status_of s0 g = Some x0 -> getters s0 = [] ->
  ingest_status (Runnable c) -> In s' (exec g c s0) ->
  exists x',
    status_of s' g = Some x' /\ ingest_status x'
    /\ getters s' = (if is_onget x' then [g] else [])
    /\ taken (trace s') ++ queue s' = taken (trace s0) ++ queue s0
    /\ injected (trace s') = injected (trace s0)
    /\ (is_onget x' = true -> queue s' = [])
    /\ (is_onget x' = false -> In g (ready s')).
Proof.
  intros Hx Hg [E|[E|[E|E]]] Hin; try discriminate; injection E as ->.
  - destruct Hin as [<-|[]]. exists (Runnable gfq_turn).
    split; [|split; [right; left; reflexivity|]].
    + change (status_of (set_status g (Runnable gfq_turn) s0) g
              = Some (Runnable gfq_turn)).
      eapply status_of_set_status_eq; eauto.
    + simpl. rewrite Hg. repeat split; auto. discriminate.
  - change (In s' (exec g (QueueGet gfq_got)
                       (emit (ALog g INFO GettingFromQueue) s0))) in Hin.
    destruct (exec_queue_get g (emit (ALog g INFO GettingFromQueue) s0) s' x0
                Hx Hg Hin) as (x' & A & B & C & D & E & F & F').
    exists x'. simpl in D, E. rewrite taken_app, injected_app in *.
    simpl in D, E. rewrite app_nil_r in *. auto 8.
  - exact (exec_queue_get g s0 s' x0 Hx Hg Hin).
Qed.

Lemma tame_add_to_queue pm :
  tame (fun x => x = Finished Returned) (add_to_queue pm).
Proof. simpl. intros n. reflexivity. Qed.

Lemma member_cons_ne u t l : u <> t -> member (t :: l) u = member l u.
Proof.
  intros H. unfold member. simpl. apply Nat.eqb_neq in H. now rewrite H.
Qed.

(** ** The step of a ready task, under the invariant *)

Section RunStep.

Variable g : nat.
Variable pend : list (nat * pubsub_message).
Variable s : state.
Hypothesis Inv : mailbox_inv g pend s.

Variable t : nat.
Variable r : list nat.
Variable c : coro.
Variable s' : state.
Hypothesis Hr : ready s = t :: r.
Hypothesis Hc : status_of s t = Some (Runnable c).
Hypothesis Hin : In s' (exec t c (set_ready r s)).

Lemma run_keeps_pending u pm :
  In (u, pm) pend -> u <> t -> tasks s' !! u = Some (put_task pm).
Proof.
  intros H Hne. apply (inv_pend _ _ _ Inv) in H.
  destruct (exec_moves t u c (set_ready r s) s' _ Hne Hin H) as (tk' & E & M).
  apply put_task_moved in M. now subst.
Qed.

Lemma run_keeps_others G u x :
  tame G c -> status_of s' u = Some x -> u <> g -> u <> t ->
  ~ In u (map fst pend) -> qfree_status x.
Proof.
  intros HG Hx Hg Ht Hp.
  destruct (le_lt_dec (length (tasks s)) u) as [Hle|Hlt].
  - refine (exec_tame_new G t c (set_ready r s) s' u x HG _ Hin Hle Hx).
    eapply status_of_lt; eauto.
  - destruct (lookup_lt_is_Some_2 (tasks s) u Hlt) as [tk E].
    destruct (exec_moves t u c (set_ready r s) s' _ Ht Hin E) as (tk' & E' & M).
    apply status_of_task in E'. rewrite E' in Hx. injection Hx as <-.
    apply (qfree_moved _ _ M).
    apply (inv_others _ _ _ Inv u); auto. now apply status_of_task.
Qed.

Lemma run_keeps_order tids :
  (forall u, In u tids -> In u (map fst pend) /\ u <> t) ->
  List.filter (member tids) (ready s') = List.filter (member tids) r.
Proof.
  intros H.
  refine (exec_filter_ready (member tids) t c (set_ready r s) s' _ Hin).
  intros u Hu. apply member_In in Hu. destruct (H u Hu) as [Hp Hne].
  split; [exact Hne|]. apply in_map_fst in Hp. destruct Hp as [pm Hp].
  exists (add_to_queue pm). exact (pend_status _ _ _ Inv _ _ Hp).
Qed.

Lemma run_ready_valid : ready_valid s'.
Proof.
  refine (exec_ready_valid t c (set_ready r s) s' _ _ Hin).
  - eapply status_of_lt; eauto.
  - intros u Hu. apply (inv_ready _ _ _ Inv). rewrite Hr. now right.
Qed.

Lemma run_ingest_waits x :
  t <> g -> qfree c -> status_of s g = Some x -> ingest_status x ->
  status_of s' g = Some x.
Proof.
  intros Hne Q Hx Hi.
  destruct (exec_qfree_mailbox t c _ _ Q Hin) as (_ & _ & _ & _ & K).
  destruct Hi as [ -> | [ -> | [ -> | -> ] ] ].
  - refine (exec_passive t g (Runnable _) c _ s' _ I Hin Hx); congruence.
  - refine (exec_passive t g (Runnable _) c _ s' _ I Hin Hx); congruence.
  - apply K; [congruence|exact Hx].
  - refine (exec_passive t g (Runnable _) c _ s' _ I Hin Hx); congruence.
Qed.

(** The step of a task that has nothing to do with the queue. *)
Lemma mailbox_run_other :
  t <> g -> ~ In t (map fst pend) -> mailbox_inv g pend s'.
Proof.
  intros Hg Hp.
  assert (Q : qfree c) by exact (inv_others _ _ _ Inv t _ Hc Hg Hp).
  destruct (exec_qfree_mailbox t c _ _ Q Hin) as (M1 & M2 & M3 & M4 & _).
  simpl in M1, M2, M3, M4. split.
  - destruct (inv_ingest _ _ _ Inv) as (x & Hx & Hi & Hget). exists x.
    split; [now apply run_ingest_waits|]. split; [exact Hi|congruence].
  - apply (inv_nodup _ _ _ Inv).
  - intros u pm H. apply run_keeps_pending; [exact H|].
    intros ->. apply Hp. apply in_map_iff. now exists (t, pm).
  - rewrite run_keeps_order.
    + rewrite <- (inv_order _ _ _ Inv) at 2. rewrite Hr. simpl.
      now rewrite (member_not_In _ _ Hp).
    + intros u Hu. split; [exact Hu|]. congruence.
  - intros u x Hx Hu Hn. destruct (Nat.eq_dec u t) as [->|Hut].
    + exact (exec_tame_self qfree_status t c _ s' x (qfree_tame c Q) Hin Hx).
    + exact (run_keeps_others qfree_status u x (qfree_tame c Q) Hx Hu Hut Hn).
  - exact run_ready_valid.
  - rewrite M1, M3, M4. apply (inv_count _ _ _ Inv).
  - intros k Hk. rewrite M1. apply (inv_awake _ _ _ Inv k).
    destruct (inv_ingest _ _ _ Inv) as (x & Hx & Hi & _).
    rewrite (run_ingest_waits x Hg Q Hx Hi) in Hk. congruence.
  - intros c' Hk. refine (exec_ready t g c _ s' Hin _). simpl.
    destruct (inv_ingest _ _ _ Inv) as (x & Hx & Hi & _).
    rewrite (run_ingest_waits x Hg Q Hx Hi) in Hk. injection Hk as ->.
    pose proof (inv_scheduled _ _ _ Inv c' Hx) as H. rewrite Hr in H.
    destruct H as [H|H]; [congruence|exact H].
Qed.


(** The step of [get_from_queue]. *)
Lemma mailbox_run_ingest : t = g -> mailbox_inv g pend s'.
Proof.
  intros E. pose proof (ingest_not_pending _ _ _ Inv) as Hp.
  destruct (inv_ingest _ _ _ Inv) as (x & Hx & Hi & Hget).
  pose proof Hc as Hc'. rewrite E, Hx in Hc'. injection Hc' as ->.
  pose proof Hin as Hin'. rewrite E in Hin'.
  assert (HG : tame ingest_status c) by now apply tame_ingest.
  destruct (exec_ingest g c (set_ready r s) s' _ Hx Hget Hi Hin')
    as (x' & A & B & C & D & F & K & K').
  simpl in D, F. split.
  - exists x'. auto.
  - apply (inv_nodup _ _ _ Inv).
  - intros u pm H. apply run_keeps_pending; [exact H|].
    intros ->. apply Hp. rewrite <- E. apply in_map_iff. now exists (t, pm).
  - rewrite run_keeps_order.
    + rewrite <- (inv_order _ _ _ Inv) at 2. rewrite Hr. simpl.
      rewrite E. now rewrite (member_not_In _ _ Hp).
    + intros u Hu. split; [exact Hu|]. congruence.
  - intros u y Hy Hu Hn.
    refine (run_keeps_others ingest_status u y HG Hy Hu _ Hn). congruence.
  - exact run_ready_valid.
  - rewrite app_assoc, D, F, <- app_assoc. apply (inv_count _ _ _ Inv).
  - intros k Hk. rewrite A in Hk. injection Hk as ->. now apply K.
  - intros c' Hk. rewrite A in Hk. injection Hk as ->. now apply K'.
Qed.

Lemma run_put_head :
  In t (map fst pend) -> exists pm pend0, pend = (t, pm) :: pend0.
Proof.
  intros Hp. pose proof (inv_order _ _ _ Inv) as D. rewrite Hr in D.
  simpl in D. rewrite (proj2 (member_In _ _) Hp) in D.
  destruct pend as [|[u pm] pend0]; [discriminate|]. simpl in D.
  injection D as <- _. eauto.
Qed.

(** The step of a task that [callback] created: its message joins the
    queue, behind the others, and the waiting getter is woken. *)
Lemma mailbox_run_put pm pend0 :
  pend = (t, pm) :: pend0 -> mailbox_inv g pend0 s'.
Proof.
  intros E.
  assert (Hp : In (t, pm) pend) by (rewrite E; now left).
  assert (Htg : t <> g).
  { intros ->. apply (ingest_not_pending _ _ _ Inv).
    apply in_map_iff. now exists (g, pm). }
  pose proof (inv_nodup _ _ _ Inv) as ND. rewrite E in ND. simpl in ND.
  apply NoDup_cons in ND. destruct ND as [Hnew ND].
  rewrite list_elem_of_In in Hnew.
  pose proof (pend_status _ _ _ Inv _ _ Hp) as Hc'. rewrite Hc in Hc'.
  injection Hc' as Ec. pose proof Hin as Hin'. rewrite Ec in Hin'.
  unfold add_to_queue in Hin'. cbn [exec] in Hin'.
  destruct Hin' as [Es|[]].
  set (s1 := emit (APut t pm) _) in Es.
  destruct (inv_ingest _ _ _ Inv) as (x & Hx & Hi & Hget).
  assert (W : exists x', status_of (wake_getter s1) g = Some x'
              /\ ingest_status x' /\ passive x'
              /\ getters (wake_getter s1) = []).
  { assert (H1 : status_of s1 g = Some x) by exact Hx.
    assert (H2 : getters s1 = getters s) by reflexivity.
    unfold wake_getter. rewrite H2, Hget.
    destruct Hi as [ -> | [ -> | [ -> | -> ] ] ]; simpl.
    - eexists. split; [exact H1|]. split; [now left|]. now split.
    - eexists. split; [exact H1|]. split; [right; now left|]. now split.
    - rewrite H1. exists (Runnable (QueueGet gfq_got)).
      split; [|split; [right; right; now right|now split]].
      change (status_of
                (set_status g (Runnable (QueueGet gfq_got)) (set_getters [] s1))
                g = Some (Runnable (QueueGet gfq_got))).
      eapply status_of_set_status_eq. exact H1.
    - eexists. split; [exact H1|]. split; [right; right; now right|].
      now split. }
  destruct W as (x' & W1 & W2 & W3 & W4).
  match type of Es with finish t Returned ?S = _ => set (s2 := S) in Es end.
  destruct (same_mailbox_finish t Returned s2) as (M1 & M2 & M3 & M4 & _).
  rewrite Es in M1, M2, M3, M4.
  assert (HG : tame (fun x => x = Finished Returned) c)
    by (rewrite Ec; apply tame_add_to_queue).
  split.
  - exists x'. split; [|split; [exact W2|]].
    + rewrite <- Es. apply passive_finish; [congruence|exact W3|exact W1].
    + rewrite M2. replace (is_onget x') with false by now destruct x'.
      exact W4.
  - exact ND.
  - intros u pm' H. apply run_keeps_pending; [rewrite E; now right|].
    intros ->. apply Hnew. apply in_map_iff. now exists (t, pm').
  - rewrite run_keeps_order.
    + pose proof (inv_order _ _ _ Inv) as D. rewrite Hr, E in D.
      simpl in D. unfold member at 1 in D. simpl in D.
      rewrite Nat.eqb_refl in D. simpl in D. injection D as D.
      rewrite <- D at 2. apply List.filter_ext_in. intros u Hu.
      symmetry. apply member_cons_ne. intros ->. apply Hnew.
      rewrite <- D. apply List.filter_In. split; [exact Hu|].
      unfold member. simpl. now rewrite Nat.eqb_refl.
    + intros u Hu. split; [rewrite E; now right|]. congruence.
  - intros u y Hy Hu Hn. destruct (Nat.eq_dec u t) as [->|Hut].
    + now rewrite (exec_tame_self _ t c _ s' y HG Hin Hy).
    + refine (run_keeps_others _ u y HG Hy Hu Hut _).
      rewrite E. simpl. intros [H|H]; [congruence|contradiction].
  - exact run_ready_valid.
  - rewrite M1, M3, M4. subst s2. simpl.
    rewrite queue_wake_getter, trace_wake_getter. subst s1. simpl.
    rewrite !taken_app, !injected_app. simpl. rewrite !app_nil_r.
    rewrite <- (inv_count _ _ _ Inv), E. simpl.
    now rewrite <- !app_assoc.
  - intros k Hk. exfalso.
    assert (H : status_of s' g = Some x')
      by (rewrite <- Es; apply passive_finish; [congruence|exact W3|exact W1]).
    rewrite H in Hk. injection Hk as ->. exact W3.
  - intros _ _. rewrite <- Es. apply ready_finish.
    change (In g (ready (wake_getter s1))).
    assert (H1 : status_of s1 g = Some x) by exact Hx.
    assert (H2 : getters s1 = getters s) by reflexivity.
    assert (H3 : forall c', x = Runnable c' -> In g (ready s1)).
    { intros c' ->. pose proof (inv_scheduled _ _ _ Inv c' Hx) as H.
      rewrite Hr in H. destruct H as [H|H]; [congruence|exact H]. }
    unfold wake_getter. rewrite H2, Hget.
    destruct Hi as [ -> | [ -> | [ -> | -> ] ] ]; simpl; eauto.
    rewrite H1. simpl. apply in_or_app. right. now left.
Qed.

End RunStep.

Lemma tasks_emits acts : forall s,
  tasks (fold_left (fun s' a => emit a s') acts s) = tasks s.
Proof. induction acts as [|a acts IH]; intros s; simpl; [|rewrite IH]; reflexivity. Qed.

Lemma queue_emits acts : forall s,
  queue (fold_left (fun s' a => emit a s') acts s) = queue s.
Proof. induction acts as [|a acts IH]; intros s; simpl; [|rewrite IH]; reflexivity. Qed.

Lemma getters_emits acts : forall s,
  getters (fold_left (fun s' a => emit a s') acts s) = getters s.
Proof. induction acts as [|a acts IH]; intros s; simpl; [|rewrite IH]; reflexivity. Qed.

(** Every transition of the system, the loop running its ready queue in
    order, keeps the invariant. *)
Lemma mailbox_step g pend s l s' :
  mailbox_inv g pend s -> fifo l s -> In s' (step l s) ->
  exists pend', mailbox_inv g pend' s'.
Proof.
  intros Inv Hf Hin. destruct l as [t|t|th pm|t o]; simpl in Hf, Hin.
  - destruct (ready s) as [|t' r] eqn:Hr; [discriminate|].
    injection Hf as ->. simpl in Hin. rewrite Nat.eqb_refl in Hin.
    simpl in Hin. destruct (status_of s t) as [[c| | | | | |]|] eqn:Hc;
      try (now destruct Hin).
    destruct (Nat.eq_dec t g) as [Hg|Hg].
    + exists pend. exact (mailbox_run_ingest g pend s Inv t r c s' Hr Hc Hin Hg).
    + destruct (in_dec Nat.eq_dec t (map fst pend)) as [Hp|Hp].
      * destruct (run_put_head g pend s Inv t r Hr Hp) as (pm & pend0 & E).
        exists pend0.
        exact (mailbox_run_put g pend s Inv t r c s' Hr Hc Hin pm pend0 E).
      * exists pend.
        exact (mailbox_run_other g pend s Inv t r c s' Hr Hc Hin Hg Hp).
  - destruct (status_of s t) as [[|d c| | | | |]|] eqn:Hc;
      try (now destruct Hin).
    destruct Hin as [<-|[]]. exists pend.
    assert (Hg : t <> g).
    { intros ->. destruct (inv_ingest _ _ _ Inv) as (x & Hx & Hi & _).
      rewrite Hx in Hc. injection Hc as ->.
      destruct Hi as [E|[E|[E|E]]]; discriminate. }
    assert (Hp : ~ In t (map fst pend)).
    { intros H. apply in_map_fst in H. destruct H as [pm H].
      apply (pend_status _ _ _ Inv) in H. congruence. }
    apply (mailbox_resume g pend s Inv t c _ Hc);
      [intros c'; discriminate|exact Hg|].
    exact (inv_others _ _ _ Inv t _ Hc Hg Hp).
  - destruct (subscribed s); [|destruct Hin]. destruct Hin as [<-|[]].
    eexists. exact (mailbox_deliver g pend s Inv th pm).
  - destruct (status_of s t) as [[| | | | |[] k|]|] eqn:Hc;
      try (now destruct Hin).
    destruct (publish_sync o) as [acts out]. destruct Hin as [<-|[]].
    exists pend.
    assert (Hg : t <> g).
    { intros ->. destruct (inv_ingest _ _ _ Inv) as (x & Hx & Hi & _).
      rewrite Hx in Hc. injection Hc as ->.
      destruct Hi as [E|[E|[E|E]]]; discriminate. }
    assert (Hp : ~ In t (map fst pend)).
    { intros H. apply in_map_fst in H. destruct H as [pm H].
      apply (pend_status _ _ _ Inv) in H. congruence. }
    pose proof (inv_others _ _ _ Inv t _ Hc Hg Hp) as Q. simpl in Q.
    set (s1 := fold_left _ _ s).
    assert (Inv1 : mailbox_inv g pend s1).
    { apply (mailbox_quiet g pend s Inv); subst s1.
      - apply tasks_emits.
      - apply ready_emits.
      - apply queue_emits.
      - apply getters_emits.
      - rewrite trace_emits, taken_app, taken_sync. apply app_nil_r.
      - rewrite trace_emits, injected_app, injected_sync. apply app_nil_r. }
    apply (mailbox_resume g pend s1 Inv1 t _ (OnExecutor PublishSyncJob k)).
    + subst s1. rewrite status_of_emits. exact Hc.
    + intros c'. discriminate.
    + exact Hg.
    + destruct out; [exact Q|exact I].
Qed.

Lemma mailbox_path g ls : forall s s' pend,
  mailbox_inv g pend s -> fifo_path s ls s' ->
  exists pend', mailbox_inv g pend' s'.
Proof.
  induction ls as [|l ls IH]; intros s s' pend Inv Hp.
  - inversion Hp; subst. eauto.
  - inversion Hp as [|? ? s1 ? ? Hf Hin Hp']; subst.
    destruct (mailbox_step g pend s l s1 Inv Hf Hin) as [pend1 Inv1].
    eauto.
Qed.

(** ** The program from its start *)

Lemma fifo_fifob l s : fifob l s = true -> fifo l s.
Proof.
  destruct l as [t| | |]; simpl; auto. destruct (ready s) as [|t' r]; [discriminate|].
  intros H. apply Nat.eqb_eq in H. now subst.
Qed.

Lemma follow_fifo_path ls : forall s s',
  follow ls s = Some s' -> fifo_path s ls s'.
Proof.
  induction ls as [|l ls IH]; intros s s' H; simpl in H.
  - injection H as <-. constructor.
  - destruct (fifob l s) eqn:F; [|discriminate].
    destruct (step l s) as [|s1 rest] eqn:E; [discriminate|].
    apply fifo_cons with s1; [now apply fifo_fifob|rewrite E; now left|auto].
Qed.

(** A fresh loop can only run [run]. *)
Lemma boot_run_step l s1 :
  In s1 (step l (boot run)) -> l = Run 0 /\ s1 = started.
Proof.
  intros H. destruct l as [t|t|th pm|t o].
  - destruct t as [|t]; [|destruct H]. split; [reflexivity|].
    destruct H as [<-|[]]. reflexivity.
  - destruct t as [|t]; destruct H.
  - destruct H.
  - destruct t as [|t]; destruct H.
Qed.

Lemma qfree_publish : qfree publish.
Proof. exact I. Qed.

Lemma mailbox_started : mailbox_inv ingest [] started.
Proof.
  split.
  - exists (Runnable get_from_queue). split; [reflexivity|].
    split; [now left|reflexivity].
  - apply NoDup_nil_2.
  - intros u pm [].
  - reflexivity.
  - intros u x Hx Hu _.
    destruct u as [|[|[|[|u]]]]; try discriminate; try (now destruct Hu);
      injection Hx as <-; simpl; auto.
  - intros u Hu. simpl in *. lia.
  - reflexivity.
  - discriminate.
  - intros _ _. simpl. auto.
Qed.

(** From its first step on, the program keeps the mailbox invariant. *)
Lemma mailbox_reachable l ls s :
  fifo_path (boot run) (l :: ls) s -> exists pend, mailbox_inv ingest pend s.
Proof.
  intros Hp. inversion Hp as [|? ? s1 ? ? Hf Hin Hp']; subst.
  apply boot_run_step in Hin. destruct Hin as [_ ->].
  exact (mailbox_path ingest ls started s [] mailbox_started Hp').
Qed.

Lemma waiting_to_put_inv g pend s :
  mailbox_inv g pend s -> waiting_to_put pend s.
Proof.
  intros Inv. split; [apply (inv_nodup _ _ _ Inv)|]. intros u pm H.
  split; [|exact (pend_status _ _ _ Inv _ _ H)].
  assert (Hu : In u (map fst pend)) by (apply in_map_iff; now exists (u, pm)).
  rewrite <- (inv_order _ _ _ Inv) in Hu. apply List.filter_In in Hu. tauto.
Qed.

Lemma from_thread_sublist th l : sublist (from_thread th l) (map snd l).
Proof.
  unfold from_thread. induction l as [|[th' pm] l IH]; simpl.
  - constructor.
  - destruct (Nat.eqb th' th); simpl; now constructor.
Qed.

Lemma prefix_firstn {A} (a b c : list A) :
  a ++ b = c -> a = firstn (length a) c.
Proof. intros <-. now rewrite firstn_app, Nat.sub_diag, firstn_all, app_nil_r. Qed.

Lemma prefix_full {A} (a b c : list A) :
  a ++ b = c -> length a = length c -> a = c /\ b = [].
Proof.
  intros <- H. rewrite length_app in H.
  assert (E : b = []) by (destruct b; [reflexivity|simpl in H; lia]).
  subst. now rewrite app_nil_r.
Qed.

(** X1.  In every run of the program in which the loop runs its ready
    queue in order, whatever the threads deliver and whenever they do: the
    messages injected so far, in the order of their injection, are the
    messages [get_from_queue] has taken, in the order it took them,
    followed by the content of [GLOBAL_QUEUE], followed by the messages
    whose [add_to_queue] task did not run yet; each of these tasks is in
    the ready queue, once.  Nothing is lost, duplicated or invented, and
    nothing overtakes. *)
Theorem mailbox_keeps_every_injection ls s :
  fifo_path (boot run) ls s ->
  exists pend,
    waiting_to_put pend s
    /\ taken (trace s) ++ queue s ++ map snd pend
       = map snd (injected (trace s)).
Proof.
  intros Hp. destruct ls as [|l ls].
  - inversion Hp; subst. exists []. split; [|reflexivity].
    split; [apply NoDup_nil_2|]. intros u pm [].
  - destruct (mailbox_reachable l ls s Hp) as [pend Inv]. exists pend.
    split; [exact (waiting_to_put_inv _ _ _ Inv)|].
    apply (inv_count _ _ _ Inv).
Qed.

(** X2.  In every such run, the messages [get_from_queue] has taken are
    the first messages injected, in injection order.  So when as many
    messages were taken as were injected, the messages taken are exactly
    the injected ones, the queue is empty, and the messages of each
    thread came out in the order in which the thread injected them. *)
Theorem dequeues_follow_injections ls s :
  fifo_path (boot run) ls s ->
  taken (trace s)
  = firstn (length (taken (trace s))) (map snd (injected (trace s)))
  /\ (length (taken (trace s)) = length (injected (trace s)) ->
      taken (trace s) = map snd (injected (trace s))
      /\ queue s = []
      /\ forall th,
           sublist (from_thread th (injected (trace s))) (taken (trace s))).
Proof.
  intros Hp.
  assert (E : exists rest,
             taken (trace s) ++ queue s ++ rest
             = map snd (injected (trace s))).
  { destruct ls as [|l ls].
    - inversion Hp; subst. now exists [].
    - destruct (mailbox_reachable l ls s Hp) as [pend Inv].
      exists (map snd pend). apply (inv_count _ _ _ Inv). }
  destruct E as [rest E]. split; [exact (prefix_firstn _ _ _ E)|].
  intros L. rewrite <- (length_map snd) in L.
  destruct (prefix_full _ _ _ E L) as [E1 E2].
  split; [exact E1|]. split; [now destruct (queue s)|].
  intros th. rewrite E1. apply from_thread_sublist.
Qed.

(** X3.  Once the program has started, the task of [get_from_queue] never
    ends.  It is always at the top of its loop or about to look at the
    queue, and then it is in the ready queue; or it waits inside
    [GLOBAL_QUEUE.get()], and then it is the only getter and the queue is
    empty: a [put] never leaves it asleep. *)
Theorem ingest_never_ends_nor_oversleeps l ls s :
  fifo_path (boot run) (l :: ls) s ->
  exists x,
    status_of s ingest = Some x /\ ingest_status x
    /\ if is_onget x then getters s = [ingest] /\ queue s = []
       else getters s = [] /\ In ingest (ready s).
Proof.
  intros Hp. destruct (mailbox_reachable l ls s Hp) as [pend Inv].
  destruct (inv_ingest _ _ _ Inv) as (x & Hx & Hi & Hg). exists x.
  split; [exact Hx|]. split; [exact Hi|].
  destruct Hi as [ -> | [ -> | [ -> | -> ] ] ]; simpl in *;
    (split; [exact Hg|]);
    first [ exact (inv_awake _ _ _ Inv _ Hx)
          | exact (inv_scheduled _ _ _ Inv _ Hx) ].
Qed.

(** ** More on [publish_sync] *)

(** X4.  [publish_sync] first calls [create_topic], whose failure it
    swallows, and then publishes.  When the publish call number [k]
    (counted from 0) is the first to fail, the [k] messages before it have
    been published, each followed by its log line, the failed message is
    not logged, no later message is attempted, and the transport error
    leaves [publish_sync]. *)
Theorem publish_sync_stops_at_first_failure o k :
  k < 5 ->
  (forall i, i < k -> publish_raises o i = false) ->
  publish_raises o k = true ->
  publish_sync o
  = (SCreateTopic TOPIC :: flat_map publish_one (firstn k (drawn_names o)),
     Raised TransportError).
Proof.
  intros Hk Hlt Hk'. unfold publish_sync, drawn_names, get_publisher.
  destruct k as [|[|[|[|[|k]]]]]; try lia; cbn [publish_loop seq map].
  - rewrite Hk'. reflexivity.
  - rewrite (Hlt 0) by lia. rewrite Hk'. reflexivity.
  - rewrite (Hlt 0), (Hlt 1) by lia. rewrite Hk'. reflexivity.
  - rewrite (Hlt 0), (Hlt 1), (Hlt 2) by lia. rewrite Hk'. reflexivity.
  - rewrite (Hlt 0), (Hlt 1), (Hlt 2), (Hlt 3) by lia. rewrite Hk'.
    reflexivity.
Qed.

Lemma published_payload_name o p :
  In p (published (fst (publish_sync o))) ->
  exists name,
    valid_name name /\ p = utf8_encode (json_dumps [("instance_name", name)]).
Proof.
  unfold publish_sync.
  destruct (publish_loop_prefix o) as (k & Hk & E). rewrite E.
  cbn [fst snd get_publisher app published].
  rewrite published_publish_one. intros Hin.
  apply in_map_iff in Hin. destruct Hin as (name & <- & Hin).
  apply in_firstn in Hin. pose proof (drawn_names_valid o) as V.
  rewrite List.Forall_forall in V. destruct (V _ Hin) as (V1 & _).
  exists name. auto.
Qed.

(** X5.  What [publish_sync] publishes is what [handle_message] reads.
    The payload of every message it publishes is the UTF-8 encoding of the
    JSON text of a dict with the one key [instance_name], whose value is a
    name of four characters of [CHOICES]; so, as soon as the decoder and
    the JSON parser give back that text and that dict, [handle_message]
    finds the field: it takes the branch that builds the [PubSubMessage]
    for that name, never the one that raises. *)
Theorem published_payload_is_accepted o pm :
  In (data pm) (published (fst (publish_sync o))) ->
  exists name,
    valid_name name
    /\ data pm = utf8_encode (json_dumps [("instance_name", name)])
    /\ (utf8_decode (data pm) = Some (json_dumps [("instance_name", name)]) ->
        json_loads (json_dumps [("instance_name", name)])
        = Some (PDict [("instance_name", PStr name)]) ->
        parse_payload (data pm) = inr (PStr name)
        /\ handle_message pm = handler pm (PStr name)).
Proof.
  intros Hin. destruct (published_payload_name o _ Hin) as (name & V & E).
  exists name. split; [exact V|]. split; [exact E|]. intros H1 H2.
  assert (P : parse_payload (data pm) = inr (PStr name)).
  { unfold parse_payload. rewrite H1, H2. reflexivity. }
  split; [exact P|]. unfold handle_message. now rewrite P.
Qed.

(** ** Single tasks in an arbitrary loop *)

Lemma status_of_resume_eq t c s y :
  status_of s t = Some y -> status_of (resume t c s) t = Some (Runnable c).
Proof.
  intros H. change (status_of (set_status t (Runnable c) s) t
                    = Some (Runnable c)).
  eapply status_of_set_status_eq; eauto.
Qed.

Lemma in_ready_resume t c s : In t (ready (resume t c s)).
Proof. simpl. apply in_or_app. right. now left. Qed.

Lemma fire_sleeping s t d c :
  status_of s t = Some (Sleeping d c) -> step (Fire t) s = [resume t c s].
Proof. intros H. unfold step. now rewrite H. Qed.

(** X6.  A call of [publish_sync] that returns lets [publish] go round
    its loop: the task takes its turn, sleeps 3 seconds, and at its next
    turn hands [publish_sync] to the pool again.  Between the two calls it
    records the sleep and the new submission, nothing else. *)
Theorem publish_goes_round s t o :
  status_of s t = Some awaiting_publish ->
  snd (publish_sync o) = Returned ->
  exists s',
    path s [ExecutorDone t o; Run t; Fire t; Run t; Run t] s'
    /\ status_of s' t = Some awaiting_publish
    /\ trace s'
       = trace s ++ flat_map (sync_to_action t) (fst (publish_sync o))
         ++ [ASleep t (Seconds 3); ASubmit t PublishSyncJob].
Proof.
  intros Hs Ho. destruct (publish_sync o) as [acts out] eqn:Ep.
  simpl in Ho. subst out. cbn [fst].
  set (s0 := fold_left (fun s' a => emit a s')
               (flat_map (sync_to_action t) acts) s).
  assert (H0 : status_of s0 t = Some awaiting_publish)
    by (subst s0; rewrite status_of_emits; exact Hs).
  set (s1 := resume t (Sleep (Seconds 3) publish) s0).
  assert (E1 : step (ExecutorDone t o) s = [s1]).
  { unfold step. rewrite Hs. unfold awaiting_publish. now rewrite Ep. }
  assert (H1 : status_of s1 t = Some (Runnable (Sleep (Seconds 3) publish)))
    by exact (status_of_resume_eq _ _ _ _ H0).
  pose proof (run_runnable s1 t _ H1 (in_ready_resume _ _ _)) as E2.
  cbn [exec] in E2.
  match type of E2 with _ = [?S] => set (s2 := S) in E2 end.
  assert (H2 : status_of s2 t = Some (Sleeping (Seconds 3) publish)).
  { subst s2.
    match goal with
    | |- status_of (emit _ (set_status _ _ ?S)) _ = _ =>
        change (status_of (set_status t (Sleeping (Seconds 3) publish) S) t
                = Some (Sleeping (Seconds 3) publish))
    end.
    eapply status_of_set_status_eq. exact H1. }
  pose proof (fire_sleeping s2 t _ _ H2) as E3.
  set (s3 := resume t publish s2) in E3.
  assert (H3 : status_of s3 t = Some (Runnable publish))
    by exact (status_of_resume_eq _ _ _ _ H2).
  pose proof (run_runnable s3 t _ H3 (in_ready_resume _ _ _)) as E4.
  unfold publish at 1 in E4. cbn [exec] in E4.
  match type of E4 with _ = [?S] => set (s4 := S) in E4 end.
  assert (H4 : status_of s4 t
               = Some (Runnable (RunInExecutor PublishSyncJob
                                   (Sleep (Seconds 3) publish)))).
  { subst s4.
    match goal with
    | |- status_of (set_ready _ (set_status _ ?x ?S)) _ = _ =>
        change (status_of (set_status t x S) t
                = Some (Runnable (RunInExecutor PublishSyncJob
                                    (Sleep (Seconds 3) publish))))
    end.
    eapply status_of_set_status_eq. exact H3. }
  assert (R4 : In t (ready s4)) by (subst s4; now left).
  pose proof (run_runnable s4 t _ H4 R4) as E5. cbn [exec] in E5.
  match type of E5 with _ = [?S] => set (s5 := S) in E5 end.
  exists s5. split; [|split].
  - eapply path_cons; [rewrite E1; now left|].
    eapply path_cons; [rewrite E2; now left|].
    eapply path_cons; [rewrite E3; now left|].
    eapply path_cons; [rewrite E4; now left|].
    eapply path_cons; [rewrite E5; now left|]. apply path_nil.
  - subst s5.
    match goal with
    | |- status_of (emit _ (set_status _ ?x ?S)) _ = _ =>
        change (status_of (set_status t x S) t = Some awaiting_publish)
    end.
    eapply status_of_set_status_eq. exact H4.
  - subst s5 s4 s3 s2 s1. simpl. subst s0. rewrite trace_emits.
    now rewrite <- !app_assoc.
Qed.

Lemma length_queue_wake_getter s :
  length (queue (wake_getter s)) = length (queue s).
Proof. now rewrite queue_wake_getter. Qed.

(** X7.  [add_to_queue] never waits: in one turn it logs the message,
    appends it at the back of [GLOBAL_QUEUE], logs the size of the queue,
    which counts the message just added, and ends.  A task waiting in
    [GLOBAL_QUEUE.get()] is taken off the getters and scheduled to look at
    the queue again. *)
Theorem add_to_queue_appends t pm s x :
  status_of s t = Some x ->
  exists s',
    exec t (add_to_queue pm) s = [s']
    /\ queue s' = queue s ++ [pm]
    /\ trace s'
       = trace s
         ++ [ALog t INFO (Adding (message_id pm)); APut t pm;
             ALog t INFO (CurrentQueueSize (S (length (queue s))));
             ADone t Returned]
    /\ status_of s' t = Some (Finished Returned)
    /\ getters s' = tl (getters s)
    /\ forall g k,
         head (getters s) = Some g -> g <> t ->
         status_of s g = Some (OnGet k) ->
         status_of s' g = Some (Runnable (QueueGet k)) /\ In g (ready s').
Proof.
  intros Hx. unfold add_to_queue. cbn [exec].
  set (s1 := emit (APut t pm) _).
  set (s2 := emit _ (wake_getter s1)).
  destruct (same_mailbox_finish t Returned s2) as (M1 & M2 & M3 & M4 & _).
  exists (finish t Returned s2). split; [reflexivity|].
  assert (L : length (queue (wake_getter s1)) = S (length (queue s))).
  { rewrite queue_wake_getter. subst s1. simpl. rewrite length_app.
    simpl. lia. }
  split; [|split; [|split; [|split]]].
  - rewrite M1. subst s2. simpl. rewrite queue_wake_getter. reflexivity.
  - rewrite trace_finish. subst s2. cbn [trace emit]. rewrite L.
    rewrite trace_wake_getter. subst s1. simpl. now rewrite <- !app_assoc.
  - assert (E : exists y, status_of (wake_getter s1) t = Some y).
    { assert (H1 : status_of s1 t = Some x) by exact Hx.
      unfold wake_getter. destruct (getters s1) as [|g gs]; [eauto|].
      destruct (status_of s1 g) as [[| | | |k| |]|] eqn:Eg; eauto.
      destruct (Nat.eq_dec t g) as [->|Hne].
      - eexists. eapply status_of_resume_eq. exact Eg.
      - rewrite status_of_resume_ne by exact Hne. eauto. }
    destruct E as [y E]. exact (status_of_finish t Returned s2 y E).
  - rewrite M2. change (getters (wake_getter s1) = tl (getters s)).
    assert (G : getters s1 = getters s) by reflexivity.
    unfold wake_getter. rewrite G. destruct (getters s) as [|g gs] eqn:Eg.
    + exact G.
    + now destruct (status_of s1 g) as [[]|].
  - intros g k Hg Hne Hk.
    assert (W : status_of (wake_getter s1) g = Some (Runnable (QueueGet k))
                /\ In g (ready (wake_getter s1))).
    { assert (G : getters s1 = getters s) by reflexivity.
      assert (K : status_of s1 g = Some (OnGet k)) by exact Hk.
      unfold wake_getter. rewrite G.
      destruct (getters s) as [|g' gs]; [discriminate|].
      injection Hg as ->. rewrite K. split; [|apply in_ready_resume].
      apply (status_of_resume_eq g _ _ (OnGet k)). exact K. }
    destruct W as [W1 W2]. split.
    + apply passive_finish; [exact Hne|exact I|exact W1].
    + apply ready_finish. exact W2.
Qed.

(** ** Who moves a task, who writes in its name *)

(** Only its own transitions move a passive task. *)
Lemma step_keeps_passive l s s' u x :
  In s' (step l s) -> own_label u l = false -> passive x ->
  status_of s u = Some x -> status_of s' u = Some x.
Proof.
  intros Hin Hl Hx Hu. destruct l as [t|t|th pm|t o]; simpl in Hin, Hl.
  - apply Nat.eqb_neq in Hl.
    destruct (existsb (Nat.eqb t) (ready s)); [|destruct Hin].
    destruct (status_of s t) as [[c| | | | | |]|]; try (now destruct Hin).
    refine (exec_passive t u x c _ s' _ Hx Hin Hu). congruence.
  - apply Nat.eqb_neq in Hl.
    destruct (status_of s t) as [[|d c| | | | |]|]; try (now destruct Hin).
    destruct Hin as [<-|[]]. rewrite status_of_resume_ne by congruence.
    exact Hu.
  - destruct (subscribed s); [|destruct Hin]. destruct Hin as [<-|[]].
    now apply status_of_callback.
  - apply Nat.eqb_neq in Hl.
    destruct (status_of s t) as [[| | | | |[] k|]|]; try (now destruct Hin).
    destruct (publish_sync o) as [acts out]. destruct Hin as [<-|[]].
    rewrite status_of_resume_ne by congruence. now rewrite status_of_emits.
Qed.

Lemma owned_cons t a s1 s s' :
  trace s1 = trace s ++ [a] -> by_task t a = true ->
  (exists tr, trace s' = trace s1 ++ tr /\ owned t tr) ->
  exists tr, trace s' = trace s ++ tr /\ owned t tr.
Proof.
  intros E Ha (tr & E' & F). exists (a :: tr). split.
  - rewrite E', E, <- app_assoc. reflexivity.
  - now constructor.
Qed.

Lemma owned_same t s1 s s' :
  trace s1 = trace s ->
  (exists tr, trace s' = trace s1 ++ tr /\ owned t tr) ->
  exists tr, trace s' = trace s ++ tr /\ owned t tr.
Proof. intros E (tr & E' & F). exists tr. now rewrite <- E. Qed.

Lemma owned_done t s : exists tr, trace s = trace s ++ tr /\ owned t tr.
Proof. exists []. split; [now rewrite app_nil_r|constructor]. Qed.

Lemma owned_nil t s s' :
  trace s' = trace s -> exists tr, trace s' = trace s ++ tr /\ owned t tr.
Proof. intros E. exists []. split; [now rewrite app_nil_r|constructor]. Qed.

Lemma owned_one t a s s' :
  trace s' = trace s ++ [a] -> by_task t a = true ->
  exists tr, trace s' = trace s ++ tr /\ owned t tr.
Proof. intros E H. exists [a]. split; [exact E|]. now constructor. Qed.

Lemma owned_finish t o s :
  exists tr, trace (finish t o s) = trace s ++ tr /\ owned t tr.
Proof.
  exists [ADone t o]. split; [apply trace_finish|].
  constructor; [apply Nat.eqb_refl|constructor].
Qed.

Lemma owned_spawn_all t par cs : forall s ids s',
  spawn_all t par cs s = (ids, s') ->
  exists tr, trace s' = trace s ++ tr /\ owned t tr.
Proof.
  induction cs as [|c cs IH]; intros s ids s' E; simpl in E.
  - injection E as <- <-. apply owned_done.
  - destruct (spawn_all t par cs (spawn t par c s)) as [ids' s''] eqn:E'.
    injection E as <- <-.
    eapply (owned_cons t (ASpawn t (length (tasks s))) (spawn t par c s));
      [reflexivity|apply Nat.eqb_refl|]. eapply IH; eauto.
Qed.

Ltac own_emit t IH Hin :=
  match type of Hin with
  | In ?s' (exec _ _ ?s1) =>
      eapply (owned_cons t _ s1);
      [reflexivity|apply Nat.eqb_refl
      |first [ exact (IH s1 s' Hin) | exact (IH _ s1 s' Hin) ]]
  end.

Ltac own_same t IH Hin :=
  match type of Hin with
  | In ?s' (exec _ _ ?s1) =>
      eapply (owned_same t s1);
      [reflexivity
      |first [ exact (IH s1 s' Hin) | exact (IH _ s1 s' Hin) ]]
  end.

(** What the step of task [t] adds to the trace is in the name of [t]. *)
Lemma exec_trace_own t c : forall s s',
  In s' (exec t c s) -> exists tr, trace s' = trace s ++ tr /\ owned t tr.
Proof.
  induction c as [ | e | lvl m k IH | lo hi k IH | d k IH | k IH | ev k IH
                 | ev k IH | c' _ k IH | re cs k IH | pm k IH | k IH
                 | pm k IH | k IH | j k IH | j k IH | c' k IH
                 | r name v k IH | r name k IH | body _ ];
    intros s s' Hin; simpl in Hin.
  - destruct Hin as [<-|[]]. apply owned_finish.
  - destruct Hin as [<-|[]]. apply owned_finish.
  - own_emit t IH Hin.
  - apply in_flat_map in Hin. destruct Hin as (z & _ & Hin). eauto.
  - destruct Hin as [<-|[]].
    apply (owned_one t (ASleep t d)); [reflexivity|apply Nat.eqb_refl].
  - own_same t IH Hin.
  - destruct (events s !! ev) as [e|]; [|destruct Hin].
    destruct (is_set e); [eauto|]. destruct Hin as [<-|[]].
    apply (owned_one t (AWait t ev)); [reflexivity|apply Nat.eqb_refl].
  - destruct (events s !! ev) as [e|]; [|destruct Hin].
    eapply (owned_cons t (ASet t ev) (event_set ev e (emit (ASet t ev) s)));
      [|apply Nat.eqb_refl|exact (IH _ s' Hin)].
    unfold event_set. now rewrite trace_wake_all.
  - own_emit t IH Hin.
  - destruct cs as [|c0 cs]; [eauto|].
    destruct (spawn_all t (Some t) (c0 :: cs) s) as [ids s1] eqn:E.
    destruct Hin as [<-|[]].
    exact (owned_spawn_all t (Some t) (c0 :: cs) s ids s1 E).
  - own_emit t IH Hin.
  - destruct (queue s) as [|pm q].
    + destruct Hin as [<-|[]]. now apply owned_nil.
    + own_emit t IH Hin.
  - match type of Hin with
    | In _ (exec _ _ ?s1) =>
        eapply (owned_cons t (APut t pm) s1);
        [|apply Nat.eqb_refl|exact (IH _ s' Hin)]
    end.
    now rewrite trace_wake_getter.
  - eauto.
  - destruct Hin as [<-|[]].
    apply (owned_one t (ASubmit t j)); [reflexivity|apply Nat.eqb_refl].
  - match type of Hin with
    | In _ (exec _ _ ?s1) =>
        eapply (owned_cons t (ASubmit t j) s1);
        [|apply Nat.eqb_refl|exact (IH _ s' Hin)]
    end.
    now destruct j.
  - own_same t IH Hin.
  - destruct (heap s !! r) as [o|]; [|destruct Hin].
    destruct (frozen (cls o)).
    + destruct Hin as [<-|[]]. apply owned_finish.
    + own_emit t IH Hin.
  - destruct (heap s !! r) as [o|]; [|destruct Hin].
    destruct (assoc_get name (attrs o)); [eauto|].
    destruct Hin as [<-|[]]. apply owned_finish.
  - destruct Hin as [<-|[]]. now apply owned_nil.
Qed.

Lemma by_task_other t u a : u <> t -> by_task t a = true -> by_task u a = false.
Proof.
  intros Hne. destruct a; simpl; try discriminate;
    intros H; apply Nat.eqb_eq in H; subst; now apply Nat.eqb_neq.
Qed.

Lemma owned_foreign t u tr : u <> t -> owned t tr -> foreign u tr.
Proof.
  intros Hne H. induction H as [|a tr Ha _ IH]; constructor; auto.
  eapply by_task_other; eauto.
Qed.

Lemma owned_sync t acts : owned t (flat_map (sync_to_action t) acts).
Proof.
  induction acts as [|[| |] acts IH]; simpl; auto; try constructor; auto;
    apply Nat.eqb_refl.
Qed.

(** What a transition that is not of task [t] adds to the trace is not in
    the name of [t]. *)
Lemma step_trace_foreign l s s' t :
  In s' (step l s) -> own_label t l = false ->
  exists tr, trace s' = trace s ++ tr /\ foreign t tr.
Proof.
  intros Hin Hl. destruct l as [u|u|th pm|u o]; simpl in Hin, Hl.
  - apply Nat.eqb_neq in Hl.
    destruct (existsb (Nat.eqb u) (ready s)); [|destruct Hin].
    destruct (status_of s u) as [[c| | | | | |]|]; try (now destruct Hin).
    destruct (exec_trace_own u c _ s' Hin) as (tr & E & F).
    exists tr. split; [exact E|].
    apply (owned_foreign u t); [congruence|exact F].
  - destruct (status_of s u) as [[|d c| | | | |]|]; try (now destruct Hin).
    destruct Hin as [<-|[]]. exists []. split; [now rewrite app_nil_r|].
    constructor.
  - destruct (subscribed s); [|destruct Hin]. destruct Hin as [<-|[]].
    eexists. split; [simpl; rewrite <- !app_assoc; reflexivity|].
    repeat constructor.
  - apply Nat.eqb_neq in Hl.
    destruct (status_of s u) as [[| | | | |[] k|]|]; try (now destruct Hin).
    destruct (publish_sync o) as [acts out]. destruct Hin as [<-|[]].
    eexists. split; [simpl; apply trace_emits|].
    apply (owned_foreign u t); [congruence|apply owned_sync].
Qed.

Lemma fifo_path_path s ls s' : fifo_path s ls s' -> path s ls s'.
Proof.
  induction 1 as [|s l s1 ls s2 _ Hin _ IH]; [apply path_nil|].
  eapply path_cons; eauto.
Qed.

Lemma rse_passive x : rse_status x -> passive x.
Proof. intros [ -> | [ -> | -> ] ]; exact I. Qed.

(** The transitions of the task of [run_something_else]: the start of an
    iteration, its log line and sleep, the end of the sleep. *)
Lemma rse_own_step s t l s' x :
  status_of s t = Some x -> rse_status x -> own_label t l = true ->
  In s' (step l s) ->
  (exists x', status_of s' t = Some x' /\ rse_status x')
  /\ exists tr,
       trace s' = trace s ++ tr
       /\ (tr = []
           \/ tr = [ALog t DEBUG RunningSomethingElse;
                    ASleep t (Fraction 1 10)]).
Proof.
  intros Hx Hr Hl Hin. destruct l as [u|u|th pm|u o]; simpl in Hl;
    try discriminate; apply Nat.eqb_eq in Hl; subst u; simpl in Hin;
    rewrite Hx in Hin.
  - destruct (existsb (Nat.eqb t) (ready s)); [|destruct Hin].
    destruct Hr as [ -> | [ -> | -> ] ]; [| |destruct Hin].
    + destruct Hin as [<-|[]]. split.
      * exists (Runnable rse_turn). split; [|right; now left].
        match goal with
        | |- status_of (set_ready _ (set_status _ _ ?S)) _ = _ =>
            change (status_of (set_status t (Runnable rse_turn) S) t
                    = Some (Runnable rse_turn))
        end.
        eapply status_of_set_status_eq. exact Hx.
      * exists []. split; [simpl; now rewrite app_nil_r|now left].
    + destruct Hin as [<-|[]]. split.
      * exists (Sleeping (Fraction 1 10) run_something_else).
        split; [|right; now right].
        match goal with
        | |- status_of (emit _ (set_status _ ?y ?S)) _ = _ =>
            change (status_of (set_status t y S) t = Some y)
        end.
        eapply status_of_set_status_eq. exact Hx.
      * eexists. split; [|now right]. simpl. now rewrite <- app_assoc.
  - destruct Hr as [ -> | [ -> | -> ] ]; try (now destruct Hin).
    destruct Hin as [<-|[]]. split.
    + exists (Runnable run_something_else). split; [|now left].
      eapply status_of_resume_eq. exact Hx.
    + exists []. split; [simpl; now rewrite app_nil_r|now left].
  - destruct Hr as [ -> | [ -> | -> ] ]; destruct Hin.
Qed.

(** X8.  The task of [run_something_else] never ends and never fails,
    whatever the rest of the system does: it is at the start of an
    iteration, or about to log, or asleep for a tenth of a second.  All
    it ever records is its log line [Running something else] and its
    sleep. *)
Theorem run_something_else_never_ends t ls : forall s s' x,
  status_of s t = Some x -> rse_status x -> path s ls s' ->
  (exists x', status_of s' t = Some x' /\ rse_status x')
  /\ exists tr,
       trace s' = trace s ++ tr
       /\ forall a, In a tr -> by_task t a = true ->
            a = ALog t DEBUG RunningSomethingElse
            \/ a = ASleep t (Fraction 1 10).
Proof.
  induction ls as [|l ls IH]; intros s s' x Hx Hr Hp.
  - inversion Hp; subst. split; [eauto|]. exists [].
    split; [now rewrite app_nil_r|]. intros a [].
  - inversion Hp as [|? ? s1 ? ? Hin Hp']; subst.
    assert (S1 : (exists x1, status_of s1 t = Some x1 /\ rse_status x1)
                 /\ exists tr1,
                      trace s1 = trace s ++ tr1
                      /\ forall a, In a tr1 -> by_task t a = true ->
                           a = ALog t DEBUG RunningSomethingElse
                           \/ a = ASleep t (Fraction 1 10)).
    { destruct (own_label t l) eqn:Hl.
      - destruct (rse_own_step s t l s1 x Hx Hr Hl Hin)
          as [H1 (tr1 & E1 & [->| ->])]; (split; [exact H1|]);
          eexists; (split; [exact E1|]).
        + intros a [].
        + intros a [<-|[<-|[]]] _; auto.
      - split.
        + exists x. split; [|exact Hr].
          eapply step_keeps_passive; eauto using rse_passive.
        + destruct (step_trace_foreign l s s1 t Hin Hl) as (tr1 & E1 & F1).
          exists tr1. split; [exact E1|]. intros a Ha Hb.
          unfold foreign in F1. rewrite List.Forall_forall in F1. rewrite (F1 a Ha) in Hb.
          discriminate. }
    destruct S1 as [(x1 & Hx1 & Hr1) (tr1 & E1 & F1)].
    destruct (IH s1 s' x1 Hx1 Hr1 Hp') as [H2 (tr2 & E2 & F2)].
    split; [exact H2|]. exists (tr1 ++ tr2).
    split; [rewrite E2, E1; now rewrite <- app_assoc|].
    intros a Ha. apply in_app_or in Ha. destruct Ha; auto.
Qed.

(** ** Parents and gathers *)

Lemma parent_of_set_status t x s u :
  parent_of (set_status t x s) u = parent_of s u.
Proof.
  unfold parent_of, set_status. simpl. rewrite list_lookup_alter.
  destruct (decide (t = u)) as [->|]; [|reflexivity].
  now destruct (tasks s !! u).
Qed.

Lemma parent_of_resume w c s u : parent_of (resume w c s) u = parent_of s u.
Proof. exact (parent_of_set_status w (Runnable c) s u). Qed.

Lemma parent_of_wake_all ws u : forall s,
  parent_of (wake_all ws s) u = parent_of s u.
Proof.
  induction ws as [|w ws IH]; intros s; simpl; [reflexivity|].
  destruct (status_of s w) as [[]|]; rewrite IH; try reflexivity.
  apply parent_of_resume.
Qed.

Lemma parent_of_wake_getter s u : parent_of (wake_getter s) u = parent_of s u.
Proof.
  unfold wake_getter. destruct (getters s) as [|g gs]; [reflexivity|].
  destruct (status_of s g) as [[]|]; try reflexivity.
  exact (parent_of_resume g _ (set_getters gs s) u).
Qed.

Lemma parent_of_child_done p o s u :
  parent_of (child_done p o s) u = parent_of s u.
Proof.
  unfold child_done. destruct (status_of s p) as [[]|]; try reflexivity.
  destruct return_exceptions, o; try apply parent_of_resume;
    destruct (collect s children); try reflexivity; apply parent_of_resume.
Qed.

Lemma parent_of_finish t o s u : parent_of (finish t o s) u = parent_of s u.
Proof.
  unfold finish. destruct (parent_of s t).
  - rewrite parent_of_child_done. exact (parent_of_set_status t _ s u).
  - exact (parent_of_set_status t _ s u).
Qed.

Lemma parent_of_spawn t par c s u p :
  parent_of (spawn t par c s) u = Some p ->
  parent_of s u = Some p \/ par = Some p.
Proof.
  unfold parent_of, spawn. simpl. intros H.
  destruct (le_lt_dec (length (tasks s)) u) as [Hle|Hlt].
  - right. rewrite lookup_app_r in H by exact Hle.
    destruct (u - length (tasks s)) as [|n]; simpl in H; [exact H|].
    discriminate.
  - left. now rewrite lookup_app_l in H by exact Hlt.
Qed.

Lemma parent_of_spawn_all t par cs u p : forall s ids s',
  spawn_all t par cs s = (ids, s') ->
  parent_of s' u = Some p -> parent_of s u = Some p \/ par = Some p.
Proof.
  induction cs as [|c cs IH]; intros s ids s' E H; simpl in E.
  - injection E as <- <-. now left.
  - destruct (spawn_all t par cs (spawn t par c s)) as [ids' s''] eqn:E'.
    injection E as <- <-. destruct (IH _ _ _ E' H) as [H1|H1]; [|now right].
    now apply parent_of_spawn in H1.
Qed.

Ltac par_IH IH Hin H :=
  match type of Hin with
  | In ?s' (exec _ _ ?s1) =>
      first [ pose proof (IH s1 s' Hin H) as H1
            | pose proof (IH _ s1 s' Hin H) as H1 ]
  end.

(** A step of task [t] gives no task a parent other than [t]. *)
Lemma exec_parents t u p c :
  p <> t -> forall s s',
  In s' (exec t c s) -> parent_of s' u = Some p -> parent_of s u = Some p.
Proof.
  intros Hne.
  induction c as [ | e | lvl m k IH | lo hi k IH | d k IH | k IH | ev k IH
                 | ev k IH | c' _ k IH | re cs k IH | pm k IH | k IH
                 | pm k IH | k IH | j k IH | j k IH | c' k IH
                 | r name v k IH | r name k IH | body _ ];
    intros s s' Hin H; simpl in Hin.
  - destruct Hin as [<-|[]]. now rewrite parent_of_finish in H.
  - destruct Hin as [<-|[]]. now rewrite parent_of_finish in H.
  - par_IH IH Hin H. exact H1.
  - apply in_flat_map in Hin. destruct Hin as (z & _ & Hin). eauto.
  - destruct Hin as [<-|[]].
    exact (eq_trans (eq_sym (parent_of_set_status t _ s u)) H).
  - par_IH IH Hin H. exact H1.
  - destruct (events s !! ev) as [e|]; [|destruct Hin].
    destruct (is_set e); [eauto|]. destruct Hin as [<-|[]].
    exact (eq_trans (eq_sym (parent_of_set_status t _ s u)) H).
  - destruct (events s !! ev) as [e|]; [|destruct Hin].
    par_IH IH Hin H. unfold event_set in H1.
    now rewrite parent_of_wake_all in H1.
  - par_IH IH Hin H. apply parent_of_spawn in H1.
    destruct H1 as [H1|H1]; [exact H1|discriminate].
  - destruct cs as [|c0 cs]; [eauto|].
    destruct (spawn_all t (Some t) (c0 :: cs) s) as [ids s1] eqn:E.
    destruct Hin as [<-|[]]. rewrite parent_of_set_status in H.
    destruct (parent_of_spawn_all _ _ _ _ _ _ _ _ E H) as [H1|H1];
      [exact H1|congruence].
  - par_IH IH Hin H. exact H1.
  - destruct (queue s) as [|pm q].
    + destruct Hin as [<-|[]].
      exact (eq_trans (eq_sym (parent_of_set_status t _ s u)) H).
    + par_IH IH Hin H. exact H1.
  - par_IH IH Hin H. now rewrite parent_of_wake_getter in H1.
  - eauto.
  - destruct Hin as [<-|[]].
    exact (eq_trans (eq_sym (parent_of_set_status t _ s u)) H).
  - par_IH IH Hin H. destruct j; exact H1.
  - par_IH IH Hin H. exact H1.
  - destruct (heap s !! r) as [o|]; [|destruct Hin].
    destruct (frozen (cls o)).
    + destruct Hin as [<-|[]]. now rewrite parent_of_finish in H.
    + par_IH IH Hin H. exact H1.
  - destruct (heap s !! r) as [o|]; [|destruct Hin].
    destruct (assoc_get name (attrs o)); [eauto|].
    destruct Hin as [<-|[]]. now rewrite parent_of_finish in H.
  - destruct Hin as [<-|[]].
    exact (eq_trans (eq_sym (parent_of_set_status t _ s u)) H).
Qed.

Section Gather.

Variable p : nat.
Variable re : bool.
Variable ids : list nat.
Variable k0 : list outcome -> coro.

Let waiting (s : state) : Prop := status_of s p = Some (OnGather re ids k0).

Lemma gather_wake_all ws : forall s, waiting s -> waiting (wake_all ws s).
Proof.
  unfold waiting.
  induction ws as [|w ws IH]; intros s H; simpl; [exact H|].
  destruct (status_of s w) as [[| |ev c| | | |]|] eqn:E; auto.
  apply IH. rewrite status_of_resume_ne; [exact H|]. intros ->. congruence.
Qed.

Lemma gather_wake_getter s : waiting s -> waiting (wake_getter s).
Proof.
  unfold waiting. intros H. unfold wake_getter.
  destruct (getters s) as [|g gs]; [exact H|].
  destruct (status_of s g) as [[| | | |k| |]|] eqn:E; try exact H.
  rewrite status_of_resume_ne; [exact H|]. intros ->. congruence.
Qed.

Lemma gather_child_done p' o s :
  p' <> p -> waiting s -> waiting (child_done p' o s).
Proof.
  unfold waiting. intros Hne H. unfold child_done.
  destruct (status_of s p') as [[| | |re' ids' k'| | |]|]; try exact H.
  destruct re', o; try (rewrite status_of_resume_ne by congruence; exact H);
    destruct (collect s ids'); try exact H;
    rewrite status_of_resume_ne by congruence; exact H.
Qed.

Lemma gather_finish t o s :
  t <> p -> parent_of s t <> Some p -> waiting s -> waiting (finish t o s).
Proof.
  unfold waiting. intros Hne Hp H. unfold finish.
  assert (H1 : waiting (emit (ADone t o) (set_status t (Finished o) s))).
  { unfold waiting.
    change (status_of (set_status t (Finished o) s) p
            = Some (OnGather re ids k0)).
    rewrite status_of_set_status_ne by congruence. exact H. }
  destruct (parent_of s t) as [p'|]; [|exact H1].
  apply gather_child_done; [congruence|exact H1].
Qed.

Lemma gather_spawn_all t par cs : forall s ids' s',
  spawn_all t par cs s = (ids', s') -> waiting s -> waiting s'.
Proof.
  unfold waiting. intros s ids' s' E H.
  eapply status_of_spawn_all; eauto.
Qed.

Ltac gather_IH IH Hin :=
  match type of Hin with
  | In ?s' (exec _ _ ?s1) =>
      first [ refine (IH s1 s' _ _ Hin) | refine (IH _ s1 s' _ _ Hin) ]
  end.

(** A gather is not disturbed by the step of a task that is not one of
    its children, nor by a step that does not end its task. *)
Lemma exec_keeps_gather t c :
  t <> p -> forall s s',
  endless c \/ parent_of s t <> Some p ->
  waiting s -> In s' (exec t c s) -> waiting s'.
Proof.
  intros Hne.
  induction c as [ | e | lvl m k IH | lo hi k IH | d k IH | k IH | ev k IH
                 | ev k IH | c' _ k IH | re' cs k IH | pm k IH | k IH
                 | pm k IH | k IH | j k IH | j k IH | c' k IH
                 | r name v k IH | r name k IH | body _ ];
    intros s s' Hs H Hin; simpl in Hin, Hs.
  - destruct Hs as [[]|Hs]. destruct Hin as [<-|[]].
    now apply gather_finish.
  - destruct Hs as [[]|Hs]. destruct Hin as [<-|[]].
    now apply gather_finish.
  - gather_IH IH Hin; [exact Hs|exact H].
  - apply in_flat_map in Hin. destruct Hin as (z & _ & Hin).
    gather_IH IH Hin; [|exact H]. destruct Hs as [Hs|Hs]; auto.
  - destruct Hin as [<-|[]]. unfold waiting.
    change (status_of (set_status t (Sleeping d k) s) p
            = Some (OnGather re ids k0)).
    rewrite status_of_set_status_ne by congruence. exact H.
  - gather_IH IH Hin; [|exact H]. destruct Hs as [Hs|Hs]; auto.
  - destruct (events s !! ev) as [e|]; [|destruct Hin].
    destruct (is_set e); [gather_IH IH Hin; [exact Hs|exact H]|].
    destruct Hin as [<-|[]]. unfold waiting.
    change (status_of (set_status t (OnEvent ev k) s) p
            = Some (OnGather re ids k0)).
    rewrite status_of_set_status_ne by congruence. exact H.
  - destruct (events s !! ev) as [e|]; [|destruct Hin].
    gather_IH IH Hin.
    + destruct Hs as [Hs|Hs]; [now left|right].
      unfold event_set. now rewrite parent_of_wake_all.
    + unfold event_set. now apply gather_wake_all.
  - gather_IH IH Hin.
    + destruct Hs as [Hs|Hs]; [now left|right]. intros Q.
      apply parent_of_spawn in Q. destruct Q as [Q|Q]; [auto|discriminate].
    + unfold waiting. apply status_of_spawn. exact H.
  - destruct cs as [|c0 cs]; [gather_IH IH Hin; [|exact H]; tauto|].
    destruct (spawn_all t (Some t) (c0 :: cs) s) as [ids' s1] eqn:E.
    destruct Hin as [<-|[]]. unfold waiting.
    rewrite status_of_set_status_ne by congruence.
    eapply gather_spawn_all; eauto.
  - gather_IH IH Hin; [exact Hs|exact H].
  - destruct (queue s) as [|pm q].
    + destruct Hin as [<-|[]]. unfold waiting.
      change (status_of (set_status t (OnGet k) s) p
              = Some (OnGather re ids k0)).
      rewrite status_of_set_status_ne by congruence. exact H.
    + gather_IH IH Hin; [|exact H]. destruct Hs as [Hs|Hs]; auto.
  - gather_IH IH Hin.
    + destruct Hs as [Hs|Hs]; [now left|right].
      now rewrite parent_of_wake_getter.
    + now apply gather_wake_getter.
  - gather_IH IH Hin; [|exact H]. destruct Hs as [Hs|Hs]; auto.
  - destruct Hin as [<-|[]]. unfold waiting.
    change (status_of (set_status t (OnExecutor j k) s) p
            = Some (OnGather re ids k0)).
    rewrite status_of_set_status_ne by congruence. exact H.
  - gather_IH IH Hin; destruct j; assumption.
  - gather_IH IH Hin; [|exact H]. destruct Hs as [Hs|Hs]; auto.
  - destruct Hs as [[]|Hs].
    destruct (heap s !! r) as [o|]; [|destruct Hin].
    destruct (frozen (cls o)).
    + destruct Hin as [<-|[]]. now apply gather_finish.
    + gather_IH IH Hin; [right; exact Hs|exact H].
  - destruct Hs as [[]|Hs].
    destruct (heap s !! r) as [o|]; [|destruct Hin].
    destruct (assoc_get name (attrs o)).
    + gather_IH IH Hin; [right; exact Hs|exact H].
    + destruct Hin as [<-|[]]. now apply gather_finish.
  - destruct Hin as [<-|[]]. unfold waiting.
    match goal with
    | |- status_of (set_ready _ (set_status _ ?x _)) _ = _ =>
        change (status_of (set_status t x s) p = Some (OnGather re ids k0))
    end.
    rewrite status_of_set_status_ne by congruence. exact H.
Qed.

Lemma collect_none c x s cs :
  In c cs -> status_of s c = Some x -> (forall o, x <> Finished o) ->
  collect s cs = None.
Proof.
  intros Hin Hx Hn. induction cs as [|c' cs IH]; [destruct Hin|].
  simpl. destruct Hin as [->|Hin].
  - rewrite Hx. destruct x; try reflexivity. now destruct (Hn o).
  - rewrite (IH Hin). now destruct (status_of s c') as [[]|].
Qed.

End Gather.

(** A gather without [return_exceptions] keeps waiting when a child
    returns while a sibling is not finished. *)
Lemma gather_waits_for_sibling p ids k t c x s :
  t <> p -> c <> t -> In c ids ->
  status_of s p = Some (OnGather false ids k) ->
  status_of s c = Some x -> (forall o, x <> Finished o) ->
  status_of (finish t Returned s) p = Some (OnGather false ids k).
Proof.
  intros Hne Hc Hin Hp Hx Hn. unfold finish.
  set (s1 := emit (ADone t Returned) (set_status t (Finished Returned) s)).
  assert (H1 : status_of s1 p = Some (OnGather false ids k)).
  { change (status_of (set_status t (Finished Returned) s) p
            = Some (OnGather false ids k)).
    rewrite status_of_set_status_ne by congruence. exact Hp. }
  assert (H2 : status_of s1 c = Some x).
  { change (status_of (set_status t (Finished Returned) s) c = Some x).
    rewrite status_of_set_status_ne by congruence. exact Hx. }
  destruct (parent_of s t) as [p'|]; [|exact H1].
  destruct (Nat.eq_dec p' p) as [->|Hp'].
  - unfold child_done. rewrite H1.
    now rewrite (collect_none c x s1 ids Hin H2 Hn).
  - now apply gather_child_done.
Qed.

Lemma exec_tasks_grow t c : forall s s',
  In s' (exec t c s) -> length (tasks s) <= length (tasks s').
Proof.
  induction c as [ | e | lvl m k IH | lo hi k IH | d k IH | k IH | ev k IH
                 | ev k IH | c' _ k IH | re cs k IH | pm k IH | k IH
                 | pm k IH | k IH | j k IH | j k IH | c' k IH
                 | r name v k IH | r name k IH | body _ ];
    intros s s' Hin; simpl in Hin.
  - destruct Hin as [<-|[]]. now rewrite length_tasks_finish.
  - destruct Hin as [<-|[]]. now rewrite length_tasks_finish.
  - exact (IH _ _ Hin).
  - apply in_flat_map in Hin. destruct Hin as (z & _ & Hin). eauto.
  - destruct Hin as [<-|[]]. simpl. now rewrite length_alter.
  - exact (IH _ _ _ Hin).
  - destruct (events s !! ev) as [e|]; [|destruct Hin].
    destruct (is_set e); [eauto|]. destruct Hin as [<-|[]].
    simpl. now rewrite length_alter.
  - destruct (events s !! ev) as [e|]; [|destruct Hin].
    apply IH in Hin. unfold event_set in Hin.
    now rewrite length_tasks_wake_all in Hin.
  - apply IH in Hin. rewrite length_tasks_spawn in Hin. lia.
  - destruct cs as [|c0 cs]; [eauto|].
    destruct (spawn_all t (Some t) (c0 :: cs) s) as [ids s1] eqn:E.
    destruct Hin as [<-|[]]. simpl. rewrite length_alter.
    eapply length_tasks_spawn_all; eauto.
  - exact (IH _ _ Hin).
  - destruct (queue s) as [|pm q].
    + destruct Hin as [<-|[]]. simpl. now rewrite length_alter.
    + exact (IH _ _ _ Hin).
  - apply IH in Hin. now rewrite length_tasks_wake_getter in Hin.
  - exact (IH _ _ _ Hin).
  - destruct Hin as [<-|[]]. simpl. now rewrite length_alter.
  - apply IH in Hin. now destruct j.
  - exact (IH _ _ _ Hin).
  - destruct (heap s !! r) as [o|]; [|destruct Hin].
    destruct (frozen (cls o)).
    + destruct Hin as [<-|[]]. now rewrite length_tasks_finish.
    + exact (IH _ _ Hin).
  - destruct (heap s !! r) as [o|]; [|destruct Hin].
    destruct (assoc_get name (attrs o)); [eauto|].
    destruct Hin as [<-|[]]. now rewrite length_tasks_finish.
  - destruct Hin as [<-|[]]. simpl. now rewrite length_alter.
Qed.

(** The task that runs still exists after its step. *)
Lemma exec_keeps_task t c s s' x :
  status_of s t = Some x -> In s' (exec t c s) ->
  exists x', status_of s' t = Some x'.
Proof.
  intros Hx Hin. apply status_of_lt in Hx. apply exec_tasks_grow in Hin.
  destruct (lookup_lt_is_Some_2 (tasks s') t) as [tk E]; [lia|].
  exists (st tk). now apply status_of_task.
Qed.

(** ** [run] and its three children *)

Lemma ingest_moved tk tk' :
  moved tk tk' -> ingest_status (st tk) -> ingest_status (st tk').
Proof.
  intros [_ [E|W]] Hi; [now rewrite E|].
  destruct Hi as [E|[E|[E|E]]]; rewrite E in W; simpl in W;
    try contradiction.
  right. right. now right.
Qed.

Lemma ingest_endless c : ingest_status (Runnable c) -> endless c.
Proof.
  intros [E|[E|[E|E]]]; try discriminate; injection E as ->;
    simpl; intros; exact I.
Qed.

Lemma rse_endless c : rse_status (Runnable c) -> endless c.
Proof.
  intros [E|[E|E]]; try discriminate; injection E as ->; exact I.
Qed.

Lemma rse_unfinished x : rse_status x -> forall o, x <> Finished o.
Proof. intros [ -> | [ -> | -> ] ] o; discriminate. Qed.

Lemma parent_of_callback th pm s u p :
  parent_of (callback th pm s) u = Some p -> parent_of s u = Some p.
Proof.
  unfold parent_of, callback. simpl. intros H.
  destruct (le_lt_dec (length (tasks s)) u) as [Hle|Hlt].
  - rewrite lookup_app_r in H by exact Hle.
    destruct (u - length (tasks s)) as [|n]; simpl in H; discriminate.
  - now rewrite lookup_app_l in H by exact Hlt.
Qed.

Lemma parent_of_emits acts u : forall s,
  parent_of (fold_left (fun s' a => emit a s') acts s) u = parent_of s u.
Proof. intros s. unfold parent_of. now rewrite tasks_emits. Qed.

Lemma run_inv_started : run_inv started.
Proof.
  split.
  - reflexivity.
  - now left.
  - exists (Runnable run_something_else). split; [reflexivity|now left].
  - exists (Runnable get_from_queue). split; [reflexivity|now left].
  - intros [|[|[|[|u]]]] H; try discriminate; auto.
Qed.

Section RunChildren.

Variable s : state.
Hypothesis Inv : run_inv s.
Variable t : nat.
Variable c : coro.
Variable s' : state.
Variable r : list nat.
Hypothesis Hc : status_of s t = Some (Runnable c).
Hypothesis Hin : In s' (exec t c (set_ready r s)).

Lemma run_not_ready : t <> 0.
Proof. intros ->. rewrite (ri_run _ Inv) in Hc. discriminate. Qed.

Lemma keep_pubsub :
  t <> 1 ->
  status_of s' 1 = Some (Runnable run_pubsub)
  \/ status_of s' 1 = Some (Finished Returned).
Proof.
  intros Hne. destruct (ri_pubsub _ Inv) as [H|H]; [left|right].
  - refine (exec_passive t 1 (Runnable _) c _ s' _ I Hin H). congruence.
  - refine (exec_passive t 1 (Finished _) c _ s' _ I Hin H). congruence.
Qed.

Lemma keep_else : t <> 2 -> exists x, status_of s' 2 = Some x /\ rse_status x.
Proof.
  intros Hne. destruct (ri_else _ Inv) as (x & Hx & Hr). exists x.
  split; [|exact Hr].
  refine (exec_passive t 2 x c _ s' _ (rse_passive x Hr) Hin Hx). congruence.
Qed.

Lemma keep_ingest :
  t <> 3 -> exists x, status_of s' 3 = Some x /\ ingest_status x.
Proof.
  intros Hne. destruct (ri_ingest _ Inv) as (x & Hx & Hi).
  unfold status_of in Hx. destruct (tasks s !! 3) as [tk|] eqn:E;
    [|discriminate]. injection Hx as <-.
  destruct (exec_moves t 3 c (set_ready r s) s' tk) as (tk' & E' & M);
    [congruence|exact Hin|exact E|].
  exists (st tk'). split; [now apply status_of_task|].
  eapply ingest_moved; eauto.
Qed.

Lemma keep_children u :
  parent_of s' u = Some 0 -> u = 1 \/ u = 2 \/ u = 3.
Proof.
  intros H. apply (ri_children _ Inv).
  refine (exec_parents t u 0 c _ (set_ready r s) s' Hin H).
  pose proof run_not_ready. congruence.
Qed.

(** The turn of [run_pubsub]: it submits [consume_sync] to the pool,
    creates the task of [publish], and returns without waiting for
    either. *)
Lemma run_pubsub_turn :
  c = run_pubsub ->
  s' = finish t Returned
         (spawn t None publish
            (emit (ASubmit t ConsumeSyncJob)
               (start_job ConsumeSyncJob (set_ready r s)))).
Proof.
  intros E. pose proof Hin as H. rewrite E in H.
  destruct H as [H|[]]. now symmetry.
Qed.

Lemma keep_run : status_of s' 0 = Some gather_of_run.
Proof.
  pose proof run_not_ready as H0.
  destruct (Nat.eq_dec t 1) as [E1|N1];
    [|destruct (Nat.eq_dec t 2) as [E2|N2];
      [|destruct (Nat.eq_dec t 3) as [E3|N3]]].
  - assert (E : c = run_pubsub).
    { destruct (ri_pubsub _ Inv) as [H|H]; rewrite <- E1, Hc in H;
        [now injection H|discriminate]. }
    rewrite (run_pubsub_turn E).
    destruct (ri_else _ Inv) as (x & Hx & Hr).
    apply (gather_waits_for_sibling 0 [1; 2; 3] _ t 2 x); auto.
    + congruence.
    + simpl. auto.
    + apply status_of_spawn. exact (ri_run _ Inv).
    + apply status_of_spawn. exact Hx.
    + now apply rse_unfinished.
  - refine (exec_keeps_gather 0 false [1; 2; 3] _ t c H0 (set_ready r s) s'
              _ (ri_run _ Inv) Hin).
    left. apply rse_endless. destruct (ri_else _ Inv) as (x & Hx & Hr).
    rewrite <- E2, Hc in Hx. now injection Hx as <-.
  - refine (exec_keeps_gather 0 false [1; 2; 3] _ t c H0 (set_ready r s) s'
              _ (ri_run _ Inv) Hin).
    left. apply ingest_endless. destruct (ri_ingest _ Inv) as (x & Hx & Hr).
    rewrite <- E3, Hc in Hx. now injection Hx as <-.
  - refine (exec_keeps_gather 0 false [1; 2; 3] _ t c H0 (set_ready r s) s'
              _ (ri_run _ Inv) Hin).
    right. intros Q. apply (ri_children _ Inv) in Q. lia.
Qed.

Lemma run_inv_run :
  (t = 2 -> exists x, status_of s' 2 = Some x /\ rse_status x) ->
  run_inv s'.
Proof.
  intros H2. split.
  - exact keep_run.
  - destruct (Nat.eq_dec t 1) as [E1|N1]; [|now apply keep_pubsub].
    right.
    assert (E : c = run_pubsub).
    { destruct (ri_pubsub _ Inv) as [H|H]; rewrite <- E1, Hc in H;
        [now injection H|discriminate]. }
    rewrite (run_pubsub_turn E), <- E1.
    eapply status_of_finish. apply status_of_spawn. exact Hc.
  - destruct (Nat.eq_dec t 2) as [E2|N2]; [now apply H2|now apply keep_else].
  - destruct (Nat.eq_dec t 3) as [E3|N3]; [|now apply keep_ingest].
    destruct (exec_keeps_task t c (set_ready r s) s' _ Hc Hin) as [x' Hx'].
    rewrite <- E3. exists x'. split; [exact Hx'|].
    refine (exec_tame_self ingest_status t c _ s' x' _ Hin Hx').
    apply tame_ingest. destruct (ri_ingest _ Inv) as (x & Hx & Hr).
    rewrite <- E3, Hc in Hx. now injection Hx as <-.
  - exact keep_children.
Qed.

End RunChildren.

(** Every transition keeps [run] in its gather and its children where
    they belong. *)
Lemma run_inv_step l s s' : run_inv s -> In s' (step l s) -> run_inv s'.
Proof.
  intros Inv Hstep. pose proof Hstep as Hin.
  destruct l as [t|t|th pm|t o]; simpl in Hin.
  - destruct (existsb (Nat.eqb t) (ready s)); [|destruct Hin].
    destruct (status_of s t) as [[c| | | | | |]|] eqn:Hc;
      try (now destruct Hin).
    apply (run_inv_run s Inv t c s' _ Hc Hin). intros ->.
    destruct (ri_else _ Inv) as (x & Hx & Hr).
    exact (proj1 (rse_own_step s 2 (Run 2) s' x Hx Hr eq_refl Hstep)).
  - destruct (status_of s t) as [[|d c| | | | |]|] eqn:Hc;
      try (now destruct Hin).
    destruct Hin as [<-|[]].
    assert (N0 : t <> 0)
      by (intros ->; rewrite (ri_run _ Inv) in Hc; discriminate).
    assert (N1 : t <> 1)
      by (intros ->; destruct (ri_pubsub _ Inv) as [H|H]; congruence).
    assert (N3 : t <> 3).
    { intros ->. destruct (ri_ingest _ Inv) as (x & Hx & Hi).
      rewrite Hc in Hx. injection Hx as <-.
      destruct Hi as [E|[E|[E|E]]]; discriminate. }
    split.
    + rewrite status_of_resume_ne by congruence. exact (ri_run _ Inv).
    + rewrite status_of_resume_ne by congruence. exact (ri_pubsub _ Inv).
    + destruct (Nat.eq_dec t 2) as [->|N2].
      * destruct (ri_else _ Inv) as (x & Hx & Hr).
        exact (proj1 (rse_own_step s 2 (Fire 2) _ x Hx Hr eq_refl Hstep)).
      * rewrite status_of_resume_ne by congruence. exact (ri_else _ Inv).
    + rewrite status_of_resume_ne by congruence. exact (ri_ingest _ Inv).
    + intros u. rewrite parent_of_resume. apply (ri_children _ Inv).
  - destruct (subscribed s); [|destruct Hin]. destruct Hin as [<-|[]].
    split.
    + apply status_of_callback. exact (ri_run _ Inv).
    + destruct (ri_pubsub _ Inv) as [H|H]; [left|right];
        now apply status_of_callback.
    + destruct (ri_else _ Inv) as (x & Hx & Hr). exists x.
      split; [now apply status_of_callback|exact Hr].
    + destruct (ri_ingest _ Inv) as (x & Hx & Hr). exists x.
      split; [now apply status_of_callback|exact Hr].
    + intros u H. apply parent_of_callback in H. now apply (ri_children _ Inv).
  - destruct (status_of s t) as [[| | | | |[] k|]|] eqn:Hc;
      try (now destruct Hin).
    destruct (publish_sync o) as [acts out]. destruct Hin as [<-|[]].
    assert (N0 : t <> 0)
      by (intros ->; rewrite (ri_run _ Inv) in Hc; discriminate).
    assert (N1 : t <> 1)
      by (intros ->; destruct (ri_pubsub _ Inv) as [H|H]; congruence).
    assert (N2 : t <> 2).
    { intros ->. destruct (ri_else _ Inv) as (x & Hx & Hi).
      rewrite Hc in Hx. injection Hx as <-.
      destruct Hi as [E|[E|E]]; discriminate. }
    assert (N3 : t <> 3).
    { intros ->. destruct (ri_ingest _ Inv) as (x & Hx & Hi).
      rewrite Hc in Hx. injection Hx as <-.
      destruct Hi as [E|[E|[E|E]]]; discriminate. }
    split.
    + rewrite status_of_resume_ne, status_of_emits by congruence.
      exact (ri_run _ Inv).
    + rewrite status_of_resume_ne, status_of_emits by congruence.
      exact (ri_pubsub _ Inv).
    + rewrite status_of_resume_ne, status_of_emits by congruence.
      exact (ri_else _ Inv).
    + rewrite status_of_resume_ne, status_of_emits by congruence.
      exact (ri_ingest _ Inv).
    + intros u. rewrite parent_of_resume, parent_of_emits.
      apply (ri_children _ Inv).
Qed.

Lemma run_inv_path ls : forall s s',
  run_inv s -> path s ls s' -> run_inv s'.
Proof.
  induction ls as [|l ls IH]; intros s s' Inv Hp.
  - now inversion Hp; subst.
  - inversion Hp as [|? ? s1 ? ? Hin Hp']; subst.
    eapply IH; [|exact Hp']. eapply run_inv_step; eauto.
Qed.

(** X9.  [run] never returns.  After its first step it waits in its
    gather for good, whatever the scheduling, the timers, the deliveries
    and the outcomes of [publish_sync]: [run_pubsub] returns as soon as it
    has its turn (it waits neither for [consume_sync] nor for [publish]),
    and neither [run_something_else] nor [get_from_queue] ever ends or
    fails. *)
Theorem run_never_returns l ls s :
  path (boot run) (l :: ls) s ->
  status_of s 0 = Some gather_of_run
  /\ (status_of s 1 = Some (Runnable run_pubsub)
      \/ status_of s 1 = Some (Finished Returned))
  /\ (exists x, status_of s 2 = Some x /\ rse_status x)
  /\ (exists x, status_of s 3 = Some x /\ ingest_status x)
  /\ forall u o, In u [0; 2; 3] -> status_of s u <> Some (Finished o).
Proof.
  intros Hp. inversion Hp as [|? ? s1 ? ? Hin Hp']; subst.
  apply boot_run_step in Hin. destruct Hin as [_ ->].
  pose proof (run_inv_path ls started s run_inv_started Hp') as Inv.
  destruct (ri_else _ Inv) as (x2 & H2 & R2).
  destruct (ri_ingest _ Inv) as (x3 & H3 & R3).
  split; [exact (ri_run _ Inv)|]. split; [exact (ri_pubsub _ Inv)|].
  split; [eauto|]. split; [eauto|].
  intros u o [<-|[<-|[<-|[]]]].
  - rewrite (ri_run _ Inv). discriminate.
  - rewrite H2. intros E. injection E as E.
    exact (rse_unfinished _ R2 o E).
  - rewrite H3. intros E. injection E as E.
    destruct R3 as [R|[R|[R|R]]]; congruence.
Qed.

(** ** Who acks what *)

Lemma acks_in_mono M M' c :
  (forall pm, In pm M -> In pm M') -> acks_in M c -> acks_in M' c.
Proof. intros Hs H pm Hpm. auto. Qed.

Lemma acks_status_mono M M' x :
  (forall pm, In pm M -> In pm M') -> acks_status M x -> acks_status M' x.
Proof.
  intros Hs. destruct x; simpl; eauto using acks_in_mono.
Qed.

Lemma ack_safe_mono M M' u x :
  (forall pm, In pm M -> In pm M') -> ack_safe M u x -> ack_safe M' u x.
Proof.
  intros Hs [H|H]; [now left|right]. eapply acks_status_mono; eauto.
Qed.

Lemma may_ack_seq pm c1 c2 :
  may_ack pm (seq_coro c1 c2) -> may_ack pm c1 \/ may_ack pm c2.
Proof.
  induction c1 as [ | e | lvl m k IH | lo hi k IH | d k IH | k IH | ev k IH
                  | ev k IH | c' _ k IH | re cs k IH | pm0 k IH | k IH
                  | pm0 k IH | k IH | j k IH | j k IH | c' k IH
                  | r name v k IH | r name k IH | body _ ];
    simpl; intros H; auto;
    try (inversion H; subst; clear H;
         match goal with
         | Hk : may_ack _ (seq_coro _ _) |- _ =>
             apply IH in Hk; destruct Hk as [Hk|Hk]; [left|now right];
             econstructor; exact Hk
         | _ => left; econstructor; eauto; fail
         end).
Qed.

Lemma acks_in_seq M c1 c2 :
  acks_in M c1 -> acks_in M c2 -> acks_in M (seq_coro c1 c2).
Proof.
  intros H1 H2 pm H. apply may_ack_seq in H. destruct H; auto.
Qed.

Lemma safe_wakes M u x x' : ack_safe M u x -> wakes x x' -> ack_safe M u x'.
Proof.
  intros [[Hu Hi]|H] W.
  - left. split; [exact Hu|].
    destruct Hi as [E|[E|[E|E]]]; rewrite E in W; simpl in W;
      try contradiction.
    right. right. now right.
  - right. destruct x as [c|d c|ev c|re ids k|k|j c|o]; simpl in W;
      try contradiction.
    + subst x'. exact H.
    + destruct W as [[rs ->]|[e ->]]; simpl; [apply H|].
      intros pm Hpm. inversion Hpm.
    + subst x'. simpl. intros pm Hpm. inversion Hpm; subst.
      eapply H; eauto.
Qed.

Lemma status_of_spawn_inv t par c s u x :
  status_of (spawn t par c s) u = Some x ->
  status_of s u = Some x \/ x = Runnable c.
Proof.
  unfold status_of, spawn. simpl. intros H.
  destruct (le_lt_dec (length (tasks s)) u) as [Hle|Hlt].
  - right. rewrite lookup_app_r in H by exact Hle.
    destruct (u - length (tasks s)) as [|n]; simpl in H; [|discriminate].
    now injection H.
  - left. now rewrite lookup_app_l in H by exact Hlt.
Qed.

Section Safe.

Variable M : list pubsub_message.
Variable t : nat.

Lemma os_set_own x s :
  others_safe M t s -> others_safe M t (set_status t x s).
Proof.
  intros H u y Hne Hy. rewrite status_of_set_status_ne in Hy by exact Hne.
  eauto.
Qed.

Lemma os_resume w c s :
  others_safe M t s ->
  (forall x0, status_of s w = Some x0 -> ack_safe M w x0 ->
     ack_safe M w (Runnable c)) ->
  others_safe M t (resume w c s).
Proof.
  intros H Hw u y Hne Hy. destruct (Nat.eq_dec u w) as [->|Huw].
  - destruct (status_of s w) as [x0|] eqn:E.
    + apply status_of_set_status in Hy. subst y. eauto.
    + exfalso. unfold status_of, resume in *. simpl in Hy.
      rewrite list_lookup_alter in Hy.
      destruct (decide (w = w)); [|congruence].
      destruct (tasks s !! w); discriminate.
  - rewrite status_of_resume_ne in Hy by exact Huw. eauto.
Qed.

Lemma os_wake_all ws : forall s,
  others_safe M t s -> others_safe M t (wake_all ws s).
Proof.
  induction ws as [|w ws IH]; intros s H; simpl; [exact H|].
  destruct (status_of s w) as [[| |ev c| | | |]|] eqn:E; auto.
  apply IH. apply os_resume; [exact H|]. intros x0 Hx0 Hs.
  rewrite E in Hx0. injection Hx0 as <-.
  exact (safe_wakes M w _ _ Hs eq_refl).
Qed.

Lemma os_wake_getter s :
  others_safe M t s -> others_safe M t (wake_getter s).
Proof.
  intros H. unfold wake_getter. destruct (getters s) as [|g gs]; [exact H|].
  destruct (status_of s g) as [[| | | |k| |]|] eqn:E; try exact H.
  apply (os_resume g (QueueGet k) (set_getters gs s) H).
  intros x0 Hx0 Hs. change (status_of s g = Some x0) in Hx0.
  rewrite E in Hx0. injection Hx0 as <-.
  exact (safe_wakes M g _ _ Hs eq_refl).
Qed.

Lemma os_child_done p o s :
  others_safe M t s -> others_safe M t (child_done p o s).
Proof.
  intros H. unfold child_done.
  destruct (status_of s p) as [[| | |re ids k| | |]|] eqn:E; try exact H.
  assert (R : forall c,
             wakes (OnGather re ids k) (Runnable c) ->
             others_safe M t (resume p c s)).
  { intros c W. apply os_resume; [exact H|]. intros x0 Hx0 Hs.
    rewrite E in Hx0. injection Hx0 as <-. exact (safe_wakes M p _ _ Hs W). }
  destruct re, o; try (apply R; simpl; eauto; fail);
    destruct (collect s ids); try exact H; apply R; simpl; eauto.
Qed.

Lemma os_finish o s : others_safe M t s -> others_safe M t (finish t o s).
Proof.
  intros H. unfold finish.
  assert (H1 : others_safe M t
                 (emit (ADone t o) (set_status t (Finished o) s)))
    by exact (os_set_own (Finished o) s H).
  destruct (parent_of s t); [now apply os_child_done|exact H1].
Qed.

Lemma os_spawn par c s :
  acks_in M c -> others_safe M t s -> others_safe M t (spawn t par c s).
Proof.
  intros Hc H u y Hne Hy. apply status_of_spawn_inv in Hy.
  destruct Hy as [Hy| ->]; [eauto|]. right. exact Hc.
Qed.

Lemma os_spawn_all par cs : forall s ids s',
  (forall c, In c cs -> acks_in M c) ->
  spawn_all t par cs s = (ids, s') ->
  others_safe M t s -> others_safe M t s'.
Proof.
  induction cs as [|c cs IH]; intros s ids s' Hcs E H; simpl in E.
  - now injection E as <- <-.
  - destruct (spawn_all t par cs (spawn t par c s)) as [ids' s''] eqn:E'.
    injection E as <- <-.
    eapply IH; [|exact E'|]; [intros; apply Hcs; now right|].
    apply os_spawn; [apply Hcs; now left|exact H].
Qed.

Definition own_safe (s : state) : Prop :=
  forall x, status_of s t = Some x -> acks_status M x.

Lemma own_set x s : acks_status M x -> own_safe (set_status t x s).
Proof. intros H y Hy. apply status_of_set_status in Hy. now subst. Qed.

Lemma own_finish o s : own_safe (finish t o s).
Proof. intros y Hy. apply status_of_finish_self in Hy. now subst. Qed.

Ltac sub_ack H := intros ? ?; apply H; solve [econstructor; eassumption].

Ltac safe_IH IH Hin :=
  match type of Hin with
  | In ?s' (exec _ _ ?s1) =>
      first [ refine (IH s1 s' _ _ Hin) | refine (IH _ s1 s' _ _ Hin) ]
  end.

(** The step of a task that acks only messages of [M] leaves every task
    safe. *)
Lemma exec_keeps_safe c : forall s s',
  others_safe M t s -> acks_in M c -> In s' (exec t c s) ->
  others_safe M t s' /\ own_safe s'.
Proof.
  induction c as [ | e | lvl m k IH | lo hi k IH | d k IH | k IH | ev k IH
                 | ev k IH | c' _ k IH | re cs k IH | pm k IH | k IH
                 | pm k IH | k IH | j k IH | j k IH | c' k IH
                 | r name v k IH | r name k IH | body _ ];
    intros s s' H Hc Hin; simpl in Hin.
  - destruct Hin as [<-|[]]. split; [now apply os_finish|apply own_finish].
  - destruct Hin as [<-|[]]. split; [now apply os_finish|apply own_finish].
  - safe_IH IH Hin; [exact H|sub_ack Hc].
  - apply in_flat_map in Hin. destruct Hin as (z & _ & Hin).
    safe_IH IH Hin; [exact H|sub_ack Hc].
  - destruct Hin as [<-|[]]. split.
    + exact (os_set_own (Sleeping d k) s H).
    + apply (own_set (Sleeping d k) s). simpl. sub_ack Hc.
  - safe_IH IH Hin; [exact H|sub_ack Hc].
  - destruct (events s !! ev) as [e|]; [|destruct Hin].
    destruct (is_set e); [safe_IH IH Hin; [exact H|sub_ack Hc]|].
    destruct Hin as [<-|[]]. split.
    + exact (os_set_own (OnEvent ev k) s H).
    + apply (own_set (OnEvent ev k) s). simpl. sub_ack Hc.
  - destruct (events s !! ev) as [e|]; [|destruct Hin].
    safe_IH IH Hin; [|sub_ack Hc]. unfold event_set.
    apply os_wake_all. exact H.
  - safe_IH IH Hin; [|sub_ack Hc]. apply os_spawn; [sub_ack Hc|exact H].
  - destruct cs as [|c0 cs]; [safe_IH IH Hin; [exact H|sub_ack Hc]|].
    destruct (spawn_all t (Some t) (c0 :: cs) s) as [ids s1] eqn:E.
    destruct Hin as [<-|[]]. split.
    + apply os_set_own. eapply os_spawn_all; [|exact E|exact H].
      intros c1 Hc1 pm Hpm. apply Hc. eapply ma_gathered; eauto.
    + apply own_set. simpl. intros rs. sub_ack Hc.
  - safe_IH IH Hin; [exact H|sub_ack Hc].
  - destruct (queue s) as [|pm q].
    + destruct Hin as [<-|[]]. split.
      * exact (os_set_own (OnGet k) s H).
      * apply (own_set (OnGet k) s). simpl. intros pm. sub_ack Hc.
    + safe_IH IH Hin; [exact H|sub_ack Hc].
  - safe_IH IH Hin; [|sub_ack Hc]. apply os_wake_getter. exact H.
  - safe_IH IH Hin; [exact H|sub_ack Hc].
  - destruct Hin as [<-|[]]. split.
    + exact (os_set_own (OnExecutor j k) s H).
    + apply (own_set (OnExecutor j k) s). simpl. sub_ack Hc.
  - safe_IH IH Hin; [destruct j; exact H|sub_ack Hc].
  - safe_IH IH Hin; [exact H|sub_ack Hc].
  - destruct (heap s !! r) as [o|]; [|destruct Hin].
    destruct (frozen (cls o)).
    + destruct Hin as [<-|[]].
      split; [now apply os_finish|apply own_finish].
    + safe_IH IH Hin; [exact H|sub_ack Hc].
  - destruct (heap s !! r) as [o|]; [|destruct Hin].
    destruct (assoc_get name (attrs o)).
    + safe_IH IH Hin; [exact H|sub_ack Hc].
    + destruct Hin as [<-|[]].
      split; [now apply os_finish|apply own_finish].
  - destruct Hin as [<-|[]]. split.
    + exact (os_set_own _ s H).
    + match goal with
      | |- own_safe (set_ready _ (set_status _ ?x _)) =>
          apply (own_set x s)
      end.
      simpl. apply acks_in_seq; [sub_ack Hc|exact Hc].
Qed.

End Safe.

Lemma walk_path ls : forall s s', walk ls s = Some s' -> path s ls s'.
Proof.
  induction ls as [|l ls IH]; intros s s' H; simpl in H.
  - injection H as <-. constructor.
  - destruct (step l s) as [|s1 rest] eqn:E; [discriminate|].
    apply path_cons with s1; [rewrite E; now left|auto].
Qed.

(** *** What a step adds to the trace *)

Section Within.

Variable M : list pubsub_message.

Let adds (s s' : state) : Prop :=
  exists tr, trace s' = trace s ++ tr /\ acks_within M tr.

Lemma within_nil s s' : trace s' = trace s -> adds s s'.
Proof.
  intros E. exists []. split; [now rewrite app_nil_r|]. intros t pm [].
Qed.

Lemma within_cons a s1 s s' :
  trace s1 = trace s ++ [a] ->
  (forall t pm, a = AAck t pm -> In pm M) ->
  adds s1 s' -> adds s s'.
Proof.
  intros E Ha (tr & E' & F). exists (a :: tr). split.
  - rewrite E', E, <- app_assoc. reflexivity.
  - intros t pm [H|H]; eauto.
Qed.

Lemma within_same s1 s s' : trace s1 = trace s -> adds s1 s' -> adds s s'.
Proof. intros E (tr & E' & F). exists tr. now rewrite <- E. Qed.

Lemma within_finish t o s : adds s (finish t o s).
Proof.
  exists [ADone t o]. split; [apply trace_finish|].
  intros t' pm [H|[]]. discriminate.
Qed.

Lemma within_spawn_all t par cs : forall s ids s',
  spawn_all t par cs s = (ids, s') -> adds s s'.
Proof.
  induction cs as [|c cs IH]; intros s ids s' E; simpl in E.
  - injection E as <- <-. now apply within_nil.
  - destruct (spawn_all t par cs (spawn t par c s)) as [ids' s''] eqn:E'.
    injection E as <- <-.
    apply (within_cons (ASpawn t (length (tasks s))) (spawn t par c s));
      [reflexivity|discriminate|]. eapply IH; eauto.
Qed.

Ltac sub_ack H := intros ? ?; apply H; solve [econstructor; eassumption].

Ltac within_emit t IH Hc Hin :=
  match type of Hin with
  | In ?s' (exec _ _ ?s1) =>
      eapply (within_cons _ s1);
      [reflexivity|discriminate
      |first [ refine (IH s1 s' _ Hin) | refine (IH _ s1 s' _ Hin) ];
       sub_ack Hc]
  end.

Ltac within_IH t IH Hc Hin :=
  match type of Hin with
  | In ?s' (exec _ _ ?s1) =>
      eapply (within_same s1);
      [reflexivity
      |first [ refine (IH s1 s' _ Hin) | refine (IH _ s1 s' _ Hin) ];
       sub_ack Hc]
  end.

(** The acks a step records are acks its code contains. *)
Lemma exec_acks_within t c : forall s s',
  acks_in M c -> In s' (exec t c s) -> adds s s'.
Proof.
  induction c as [ | e | lvl m k IH | lo hi k IH | d k IH | k IH | ev k IH
                 | ev k IH | c' _ k IH | re cs k IH | pm k IH | k IH
                 | pm k IH | k IH | j k IH | j k IH | c' k IH
                 | r name v k IH | r name k IH | body _ ];
    intros s s' Hc Hin; simpl in Hin.
  - destruct Hin as [<-|[]]. apply within_finish.
  - destruct Hin as [<-|[]]. apply within_finish.
  - within_emit t IH Hc Hin.
  - apply in_flat_map in Hin. destruct Hin as (z & _ & Hin).
    within_IH t IH Hc Hin.
  - destruct Hin as [<-|[]].
    apply (within_cons (ASleep t d) (emit (ASleep t d) s));
      [reflexivity|discriminate|now apply within_nil].
  - within_IH t IH Hc Hin.
  - destruct (events s !! ev) as [e|]; [|destruct Hin].
    destruct (is_set e); [within_IH t IH Hc Hin|].
    destruct Hin as [<-|[]].
    apply (within_cons (AWait t ev) (emit (AWait t ev) s));
      [reflexivity|discriminate|now apply within_nil].
  - destruct (events s !! ev) as [e|]; [|destruct Hin].
    apply (within_cons (ASet t ev) (event_set ev e (emit (ASet t ev) s)));
      [unfold event_set; now rewrite trace_wake_all|discriminate|].
    refine (IH _ s' _ Hin). sub_ack Hc.
  - within_emit t IH Hc Hin.
  - destruct cs as [|c0 cs]; [within_IH t IH Hc Hin|].
    destruct (spawn_all t (Some t) (c0 :: cs) s) as [ids s1] eqn:E.
    destruct Hin as [<-|[]].
    exact (within_spawn_all t (Some t) (c0 :: cs) s ids s1 E).
  - match type of Hin with
    | In _ (exec _ _ ?s1) =>
        apply (within_cons (AAck t pm) s1); [reflexivity| |]
    end.
    + intros t' pm' E. injection E as _ <-. apply Hc. constructor.
    + refine (IH _ s' _ Hin). sub_ack Hc.
  - destruct (queue s) as [|pm q].
    + destruct Hin as [<-|[]]. now apply within_nil.
    + within_emit t IH Hc Hin.
  - match type of Hin with
    | In _ (exec _ _ ?s1) =>
        apply (within_cons (APut t pm) s1);
        [now rewrite trace_wake_getter|discriminate|]
    end.
    refine (IH _ s' _ Hin). sub_ack Hc.
  - within_IH t IH Hc Hin.
  - destruct Hin as [<-|[]].
    apply (within_cons (ASubmit t j) (emit (ASubmit t j) s));
      [reflexivity|discriminate|now apply within_nil].
  - match type of Hin with
    | In _ (exec _ _ ?s1) =>
        apply (within_cons (ASubmit t j) s1);
        [now destruct j|discriminate|]
    end.
    refine (IH _ s' _ Hin). sub_ack Hc.
  - within_IH t IH Hc Hin.
  - destruct (heap s !! r) as [o|]; [|destruct Hin].
    destruct (frozen (cls o)).
    + destruct Hin as [<-|[]]. apply within_finish.
    + within_emit t IH Hc Hin.
  - destruct (heap s !! r) as [o|]; [|destruct Hin].
    destruct (assoc_get name (attrs o)); [within_IH t IH Hc Hin|].
    destruct Hin as [<-|[]]. apply within_finish.
  - destruct Hin as [<-|[]]. now apply within_nil.
Qed.

End Within.

Lemma acks_follow_within tr : forall seen,
  acks_within seen tr -> acks_follow seen tr.
Proof.
  induction tr as [|a tr IH]; intros seen H; [exact I|].
  assert (H' : acks_within seen tr)
    by (intros t pm Hin; apply (H t pm); right; exact Hin).
  destruct a; simpl; auto.
  - split; [apply (H t pm); now left|auto].
  - apply IH. intros t' pm' Hin. apply in_or_app. left. eauto.
Qed.

Lemma acks_follow_app tr0 : forall seen tr,
  acks_follow seen tr0 -> acks_within (seen ++ taken tr0) tr ->
  acks_follow seen (tr0 ++ tr).
Proof.
  induction tr0 as [|a tr0 IH]; intros seen tr H0 H; simpl in *.
  - rewrite app_nil_r in H. now apply acks_follow_within.
  - destruct a; simpl in *; auto.
    + destruct H0 as [H1 H2]. split; auto.
    + apply IH; [exact H0|]. now rewrite <- app_assoc.
Qed.

Lemma acks_follow_split tr1 : forall seen t pm tr2,
  acks_follow seen (tr1 ++ AAck t pm :: tr2) -> In pm (seen ++ taken tr1).
Proof.
  induction tr1 as [|a tr1 IH]; intros seen t pm tr2 H; simpl in *.
  - rewrite app_nil_r. tauto.
  - destruct a; simpl in *; eauto.
    + destruct H as [_ H]. eauto.
    + apply IH in H. now rewrite <- app_assoc in H.
Qed.

(** *** The acks in the program's code *)

Ltac ma_inv :=
  match goal with
  | H : may_ack _ ?c |- _ =>
      lazymatch c with
      | Return => idtac | Raise _ => idtac | Log _ _ _ => idtac
      | RandRange _ _ _ => idtac | Sleep _ _ => idtac | NewEvent _ => idtac
      | EventWait _ _ => idtac | EventSet _ _ => idtac
      | CreateTask _ _ => idtac | Gather _ _ _ => idtac | Ack _ _ => idtac
      | QueueGet _ => idtac | QueuePut _ _ => idtac | QueueSize _ => idtac
      | RunInExecutor _ _ => idtac | SubmitJob _ _ => idtac
      | NewObj _ _ => idtac | SetAttr _ _ _ _ => idtac
      | GetAttr _ _ _ => idtac | Forever _ => idtac
      end;
      inversion H; clear H; subst; cbv beta in *
  end.

Lemma no_ack_handle_results pm rs k :
  may_ack pm (handle_results rs k) -> may_ack pm k.
Proof.
  induction rs as [|[|e] rs IH]; simpl; auto. intros H. ma_inv. auto.
Qed.

Lemma no_ack_save pm msg : ~ may_ack pm (save msg).
Proof. unfold save. intros H. repeat ma_inv. Qed.

Lemma no_ack_restart_host pm msg : ~ may_ack pm (restart_host msg).
Proof.
  unfold restart_host. intros H. ma_inv.
  destruct (Z.eqb z 2); repeat ma_inv.
Qed.

Lemma cleanup_acks pm ev pm' : may_ack pm' (cleanup pm ev) -> pm' = pm.
Proof. unfold cleanup. intros H. repeat ma_inv. reflexivity. Qed.

Lemma dispatch_acks pm msg pm' : may_ack pm' (dispatch pm msg) -> pm' = pm.
Proof.
  unfold dispatch. intros H. ma_inv. ma_inv.
  - eapply cleanup_acks; eauto.
  - ma_inv.
    + match goal with
      | Hin : In _ [_; _] |- _ => destruct Hin as [<-|[<-|[]]]
      end.
      * exfalso. eapply no_ack_save; eauto.
      * exfalso. eapply no_ack_restart_host; eauto.
    + match goal with
      | Hk : may_ack _ (handle_results _ _) |- _ =>
          apply no_ack_handle_results in Hk
      end.
      repeat ma_inv.
Qed.

(** [handle_message] acks, through its [cleanup], its own message and no
    other, and only when it could read the payload. *)
Lemma handle_message_acks pm pm' :
  may_ack pm' (handle_message pm) -> pm' = pm /\ parses pm = true.
Proof.
  unfold handle_message, parses.
  destruct (parse_payload (data pm)) as [e|name]; intros H; [inversion H|].
  split; [|reflexivity].
  unfold PubSubMessage, attrs_post_init in H. repeat ma_inv.
  eapply dispatch_acks; eauto.
Qed.

Lemma no_ack_add_to_queue pm' pm : ~ may_ack pm' (add_to_queue pm).
Proof. unfold add_to_queue. intros H. repeat ma_inv. Qed.

Lemma no_ack_publish pm : ~ may_ack pm publish.
Proof. unfold publish. intros H. repeat ma_inv. Qed.

Lemma no_ack_run_pubsub pm : ~ may_ack pm run_pubsub.
Proof.
  unfold run_pubsub. intros H. repeat ma_inv.
  eapply no_ack_publish; eauto.
Qed.

Lemma no_ack_run_something_else pm : ~ may_ack pm run_something_else.
Proof. unfold run_something_else. intros H. repeat ma_inv. Qed.

(** *** The invariant *)

(** The turn of [get_from_queue]: the task it creates acks the message
    just taken, and no other. *)
Lemma queue_get_keeps_safe M g s1 s' x0 :
  others_safe M g s1 -> status_of s1 g = Some x0 ->
  In s' (exec g (QueueGet gfq_got) s1) ->
  exists tr,
    trace s' = trace s1 ++ tr /\ acks_within [] tr
    /\ forall u x, status_of s' u = Some x ->
         (u = g /\ ingest_status x) \/ ack_safe M u x
         \/ exists pm, In pm (taken tr) /\ x = Runnable (handle_message pm).
Proof.
  intros H Hx Hin. cbn [exec] in Hin. destruct (queue s1) as [|pm q].
  - destruct Hin as [<-|[]]. exists [].
    split; [simpl; now rewrite app_nil_r|]. split; [intros t pm []|].
    intros u x Hu. change (status_of (set_status g (OnGet gfq_got) s1) u
                           = Some x) in Hu.
    destruct (Nat.eq_dec u g) as [->|Hne].
    + left. apply status_of_set_status in Hu. subst.
      split; [reflexivity|right; right; now left].
    + rewrite status_of_set_status_ne in Hu by exact Hne.
      right. left. exact (H u x Hne Hu).
  - unfold gfq_got, get_from_queue in Hin. cbn [exec] in Hin.
    destruct Hin as [<-|[]].
    exists [AGet g pm; ALog g INFO (Got (message_id pm));
            ASpawn g (length (tasks s1))].
    split; [simpl; now rewrite <- !app_assoc|].
    split; [intros t pm' [E|[E|[E|[]]]]; discriminate|].
    intros u x Hu.
    match type of Hu with
    | status_of (set_ready _ (set_status _ ?y ?S)) _ = _ =>
        change (status_of (set_status g y S) u = Some x) in Hu
    end.
    destruct (Nat.eq_dec u g) as [->|Hne].
    + left. apply status_of_set_status in Hu. subst.
      split; [reflexivity|right; now left].
    + rewrite status_of_set_status_ne in Hu by exact Hne.
      apply status_of_spawn_inv in Hu. destruct Hu as [Hu| ->].
      * right. left. exact (H u x Hne Hu).
      * right. right. exists pm. split; [now left|reflexivity].
Qed.

Lemma ingest_keeps_safe M g c s0 s' x0 :
  ingest_status (Runnable c) -> others_safe M g s0 ->
  status_of s0 g = Some x0 -> In s' (exec g c s0) ->
  exists tr,
    trace s' = trace s0 ++ tr /\ acks_within [] tr
    /\ forall u x, status_of s' u = Some x ->
         (u = g /\ ingest_status x) \/ ack_safe M u x
         \/ exists pm, In pm (taken tr) /\ x = Runnable (handle_message pm).
Proof.
  intros [E|[E|[E|E]]] H Hx Hin; try discriminate; injection E as ->.
  - destruct Hin as [<-|[]]. exists [].
    split; [simpl; now rewrite app_nil_r|]. split; [intros t pm []|].
    intros u x Hu. change (status_of (set_status g (Runnable gfq_turn) s0) u
                           = Some x) in Hu.
    destruct (Nat.eq_dec u g) as [->|Hne].
    + left. apply status_of_set_status in Hu. subst.
      split; [reflexivity|right; now left].
    + rewrite status_of_set_status_ne in Hu by exact Hne.
      right. left. exact (H u x Hne Hu).
  - change (In s' (exec g (QueueGet gfq_got)
                     (emit (ALog g INFO GettingFromQueue) s0))) in Hin.
    destruct (queue_get_keeps_safe M g
                (emit (ALog g INFO GettingFromQueue) s0) s' x0 H Hx Hin)
      as (tr & E1 & E2 & E3).
    exists (ALog g INFO GettingFromQueue :: tr).
    split; [rewrite E1; simpl; now rewrite <- app_assoc|].
    split; [intros t pm [E|Hi]; [discriminate|eauto]|exact E3].
  - exact (queue_get_keeps_safe M g s0 s' x0 H Hx Hin).
Qed.

Lemma status_of_callback_inv th pm s u x :
  status_of (callback th pm s) u = Some x ->
  status_of s u = Some x \/ x = Runnable (add_to_queue pm).
Proof.
  unfold status_of, callback. simpl. intros H.
  destruct (le_lt_dec (length (tasks s)) u) as [Hle|Hlt].
  - right. rewrite lookup_app_r in H by exact Hle.
    destruct (u - length (tasks s)) as [|n]; simpl in H; [|discriminate].
    now injection H.
  - left. now rewrite lookup_app_l in H by exact Hlt.
Qed.

Lemma ack_inv_started : ack_inv started.
Proof.
  split; [|exact I|intros t pm [H|[H|[H|[]]]]; discriminate].
  intros u x Hx.
  destruct u as [|[|[|[|u]]]]; try discriminate; injection Hx as <-.
  - right. intros rs pm H. inversion H.
  - right. intros pm H. now apply no_ack_run_pubsub in H.
  - right. intros pm H. now apply no_ack_run_something_else in H.
  - left. split; [reflexivity|now left].
Qed.

Lemma in_parsed pm l : In pm (parsed l) -> In pm l /\ parses pm = true.
Proof. apply List.filter_In. Qed.

Lemma parsed_app a b : parsed (a ++ b) = parsed a ++ parsed b.
Proof. apply List.filter_app. Qed.

Lemma ack_inv_quiet s s' tr :
  ack_inv s -> trace s' = trace s ++ tr ->
  acks_within (parsed (taken (trace s))) tr ->
  (forall u x, status_of s' u = Some x ->
     ack_safe (parsed (taken (trace s)) ++ parsed (taken tr)) u x) ->
  ack_inv s'.
Proof.
  intros Inv E Hw Hs. split.
  - intros u x Hx. rewrite E, taken_app, parsed_app. auto.
  - rewrite E. apply acks_follow_app; [exact (ai_trace _ Inv)|].
    intros t pm H. apply Hw, in_parsed in H. simpl. tauto.
  - rewrite E, taken_app, parsed_app. intros t pm H.
    apply in_or_app. left. apply in_app_or in H.
    destruct H as [H|H]; [exact (ai_parsed _ Inv t pm H)|exact (Hw t pm H)].
Qed.

(** Every transition keeps the invariant. *)
Lemma ack_inv_step l s s' : ack_inv s -> In s' (step l s) -> ack_inv s'.
Proof.
  intros Inv Hin. set (M := parsed (taken (trace s))).
  assert (Hm : forall M', forall pm, In pm M -> In pm (M ++ M'))
    by (intros; apply in_or_app; auto).
  destruct l as [t|t|th pm|t o]; simpl in Hin.
  - destruct (existsb (Nat.eqb t) (ready s)); [|destruct Hin].
    destruct (status_of s t) as [[c| | | | | |]|] eqn:Hc;
      try (now destruct Hin).
    match type of Hin with In _ (exec _ _ ?S) => set (s0 := S) in Hin end.
    assert (Ho : others_safe M t s0)
      by (intros u x _ Hx; exact (ai_status _ Inv u x Hx)).
    destruct (ai_status _ Inv t _ Hc) as [[-> Hi]|Ha].
    + destruct (ingest_keeps_safe M ingest c s0 s' _ Hi Ho Hc Hin)
        as (tr & E1 & E2 & E3).
      apply (ack_inv_quiet s s' tr Inv E1).
      * intros t' pm' H. destruct (E2 t' pm' H).
      * intros u x Hx. destruct (E3 u x Hx) as [H|[H|(pm & H1 & ->)]].
        -- now left.
        -- apply (ack_safe_mono M); [apply Hm|exact H].
        -- right. intros pm' Hm'. apply handle_message_acks in Hm'.
           destruct Hm' as [-> Hp]. apply in_or_app. right.
           apply List.filter_In. auto.
    + destruct (exec_keeps_safe M t c s0 s' Ho Ha Hin) as [H1 H2].
      destruct (exec_acks_within M t c s0 s' Ha Hin) as (tr & E1 & E2).
      apply (ack_inv_quiet s s' tr Inv E1 E2). intros u x Hx.
      apply (ack_safe_mono M); [apply Hm|].
      destruct (Nat.eq_dec u t) as [->|Hne]; [right; now apply H2|].
      now apply H1.
  - destruct (status_of s t) as [[|d c| | | | |]|] eqn:Hc;
      try (now destruct Hin).
    destruct Hin as [<-|[]].
    apply (ack_inv_quiet s _ [] Inv);
      [simpl; now rewrite app_nil_r|intros t' pm' []|].
    intros u x Hx. simpl. rewrite app_nil_r.
    destruct (Nat.eq_dec u t) as [->|Hne].
    + apply status_of_set_status in Hx. subst x.
      destruct (ai_status _ Inv t _ Hc) as [[_ Hi]|Ha]; [|now right].
      destruct Hi as [E|[E|[E|E]]]; discriminate.
    + rewrite status_of_resume_ne in Hx by exact Hne.
      exact (ai_status _ Inv u x Hx).
  - destruct (subscribed s); [|destruct Hin]. destruct Hin as [<-|[]].
    apply (ack_inv_quiet s _
             [ACallbackLog th INFO (Consumed (message_id pm));
              ACallbackLog th INFO AddingFromThread; AInject th pm] Inv).
    + simpl. now rewrite <- !app_assoc.
    + intros t' pm' [E|[E|[E|[]]]]; discriminate.
    + intros u x Hx. simpl. rewrite app_nil_r.
      apply status_of_callback_inv in Hx. destruct Hx as [Hx| ->].
      * exact (ai_status _ Inv u x Hx).
      * right. intros pm' H. now apply no_ack_add_to_queue in H.
  - destruct (status_of s t) as [[| | | | |[] k|]|] eqn:Hc;
      try (now destruct Hin).
    destruct (publish_sync o) as [acts out]. destruct Hin as [<-|[]].
    apply (ack_inv_quiet s _ (flat_map (sync_to_action t) acts) Inv).
    + simpl. apply trace_emits.
    + intros t' pm' H. exfalso. clear - H.
      induction acts as [|[| |] acts IH]; simpl in H; auto;
        destruct H as [E|H]; auto; discriminate.
    + intros u x Hx. rewrite taken_sync. simpl. rewrite app_nil_r.
      destruct (Nat.eq_dec u t) as [->|Hne].
      * apply status_of_set_status in Hx. subst x.
        destruct (ai_status _ Inv t _ Hc) as [[_ Hi]|Ha].
        -- destruct Hi as [E|[E|[E|E]]]; discriminate.
        -- right. destruct out; [exact Ha|]. intros pm' H. inversion H.
      * rewrite status_of_resume_ne, status_of_emits in Hx by exact Hne.
        exact (ai_status _ Inv u x Hx).
Qed.

Lemma ack_inv_path ls : forall s s',
  ack_inv s -> path s ls s' -> ack_inv s'.
Proof.
  induction ls as [|l ls IH]; intros s s' Inv Hp.
  - now inversion Hp; subst.
  - inversion Hp as [|? ? s1 ? ? Hin Hp']; subst.
    eapply IH; [|exact Hp']. eapply ack_inv_step; eauto.
Qed.

(** X10.  In every run of the program, under every scheduling, a message
    is acked only after [get_from_queue] took it from [GLOBAL_QUEUE]:
    whenever the trace holds an ack of a message, the part of the trace
    before that ack holds a take of the same message. *)
Theorem acks_only_follow_takes ls s tr1 t pm tr2 :
  path (boot run) ls s ->
  trace s = tr1 ++ AAck t pm :: tr2 ->
  In pm (taken tr1).
Proof.
  intros Hp E.
  assert (F : acks_follow [] (trace s)).
  { destruct ls as [|l ls].
    - inversion Hp; subst. exact I.
    - inversion Hp as [|? ? s1 ? ? Hin Hp']; subst.
      apply boot_run_step in Hin. destruct Hin as [_ ->].
      exact (ai_trace _ (ack_inv_path ls started s ack_inv_started Hp')). }
  rewrite E in F. exact (acks_follow_split tr1 [] t pm tr2 F).
Qed.

(** X11.  A message whose payload [handle_message] cannot read is never
    acked: in every run of the program, every ack in the trace is of a
    message in whose payload [json.loads(...)['instance_name']] finds
    the field. *)
Theorem unreadable_message_is_never_acked ls s t pm :
  path (boot run) ls s ->
  In (AAck t pm) (trace s) ->
  exists instance_name, parse_payload (data pm) = inr instance_name.
Proof.
  intros Hp H.
  assert (P : parses pm = true).
  { destruct ls as [|l ls].
    - inversion Hp; subst. destruct H.
    - inversion Hp as [|? ? s1 ? ? Hin Hp']; subst.
      apply boot_run_step in Hin. destruct Hin as [_ ->].
      pose proof (ack_inv_path ls started s ack_inv_started Hp') as Inv.
      exact (proj2 (in_parsed _ _ (ai_parsed _ Inv t pm H))). }
  unfold parses in P. destruct (parse_payload (data pm)) as [e|name];
    [discriminate|eauto].
Qed.

(** ** Statuses that other tasks' steps keep *)

Section Kept.

Variable PS : nat -> status -> Prop.
Hypothesis PS_wakes : forall u x x', PS u x -> wakes x x' -> PS u x'.
Variable t : nat.

Lemma ok_set_own x s :
  others_keep PS t s -> others_keep PS t (set_status t x s).
Proof.
  intros H u y Hne Hy. rewrite status_of_set_status_ne in Hy by exact Hne.
  eauto.
Qed.

Lemma ok_resume w c s x0 :
  others_keep PS t s -> status_of s w = Some x0 -> wakes x0 (Runnable c) ->
  others_keep PS t (resume w c s).
Proof.
  intros H Hw W u y Hne Hy. destruct (Nat.eq_dec u w) as [->|Huw].
  - apply status_of_set_status in Hy. subst y. eauto.
  - rewrite status_of_resume_ne in Hy by exact Huw. eauto.
Qed.

Lemma ok_wake_all ws : forall s,
  others_keep PS t s -> others_keep PS t (wake_all ws s).
Proof.
  induction ws as [|w ws IH]; intros s H; simpl; [exact H|].
  destruct (status_of s w) as [[| |ev c| | | |]|] eqn:E; auto.
  apply IH. eapply ok_resume; eauto. reflexivity.
Qed.

Lemma ok_wake_getter s :
  others_keep PS t s -> others_keep PS t (wake_getter s).
Proof.
  intros H. unfold wake_getter. destruct (getters s) as [|g gs]; [exact H|].
  destruct (status_of s g) as [[| | | |k| |]|] eqn:E; try exact H.
  apply (ok_resume g (QueueGet k) (set_getters gs s) (OnGet k) H E).
  reflexivity.
Qed.

Lemma ok_child_done p o s :
  others_keep PS t s -> others_keep PS t (child_done p o s).
Proof.
  intros H. unfold child_done.
  destruct (status_of s p) as [[| | |re ids k| | |]|] eqn:E; try exact H.
  assert (R : forall c,
             wakes (OnGather re ids k) (Runnable c) ->
             others_keep PS t (resume p c s))
    by (intros c W; eapply ok_resume; eauto).
  destruct re, o; try (apply R; simpl; eauto; fail);
    destruct (collect s ids); try exact H; apply R; simpl; eauto.
Qed.

Lemma ok_finish o s : others_keep PS t s -> others_keep PS t (finish t o s).
Proof.
  intros H. unfold finish.
  assert (H1 : others_keep PS t
                 (emit (ADone t o) (set_status t (Finished o) s)))
    by exact (ok_set_own (Finished o) s H).
  destruct (parent_of s t); [now apply ok_child_done|exact H1].
Qed.

Lemma ok_spawn par c s :
  (forall u, PS u (Runnable c)) ->
  others_keep PS t s -> others_keep PS t (spawn t par c s).
Proof.
  intros Hc H u y Hne Hy. apply status_of_spawn_inv in Hy.
  destruct Hy as [Hy| ->]; eauto.
Qed.

Lemma ok_spawn_all par cs : forall s ids s',
  (forall c u, In c cs -> PS u (Runnable c)) ->
  spawn_all t par cs s = (ids, s') ->
  others_keep PS t s -> others_keep PS t s'.
Proof.
  induction cs as [|c cs IH]; intros s ids s' Hcs E H; simpl in E.
  - now injection E as <- <-.
  - destruct (spawn_all t par cs (spawn t par c s)) as [ids' s''] eqn:E'.
    injection E as <- <-.
    eapply IH; [|exact E'|]; [intros; apply Hcs; now right|].
    apply ok_spawn; [intros; apply Hcs; now left|exact H].
Qed.

(** When its step ends, with every other task kept, and the task itself
    in a good status, every task is. *)
Lemma ok_all x s :
  others_keep PS t s -> PS t x ->
  forall u y, status_of (set_status t x s) u = Some y -> PS u y.
Proof.
  intros H Hx u y Hy. destruct (Nat.eq_dec u t) as [->|Hne].
  - apply status_of_set_status in Hy. now subst.
  - rewrite status_of_set_status_ne in Hy by exact Hne. eauto.
Qed.

Lemma ok_all_finish o s :
  others_keep PS t s -> PS t (Finished o) ->
  forall u y, status_of (finish t o s) u = Some y -> PS u y.
Proof.
  intros H Hx u y Hy. destruct (Nat.eq_dec u t) as [->|Hne].
  - apply status_of_finish_self in Hy. now subst.
  - exact (ok_finish o s H u y Hne Hy).
Qed.

End Kept.

(** ** The heap *)

Lemma tidy_mono n c : tidy n c -> forall n', n <= n' -> tidy n' c.
Proof.
  intros T. induction T; intros n' Hn; try (constructor; auto; fail).
  - constructor; auto. lia.
  - constructor. intros r' Hr. apply H0; lia.
Qed.

Lemma tidy_status_mono n n' x :
  n <= n' -> tidy_status n x -> tidy_status n' x.
Proof.
  intros Hn. destruct x; simpl; intros H; auto;
    try (intros; eapply tidy_mono; eauto; fail); eapply tidy_mono; eauto.
Qed.

Lemma tidy_wakes n x x' : tidy_status n x -> wakes x x' -> tidy_status n x'.
Proof.
  destruct x as [c|d c|ev c|re ids k|k|j c|o]; simpl; try tauto.
  - intros H ->. exact H.
  - intros H [[rs ->]|[e ->]]; simpl; [apply H|constructor].
  - intros H ->. simpl. now constructor.
Qed.

Lemma seq_coro_PubSubMessage name mid k c2 :
  seq_coro (PubSubMessage name mid k) c2
  = PubSubMessage name mid (fun r => seq_coro (k r) c2).
Proof. reflexivity. Qed.

Lemma tidy_seq n c1 : tidy n c1 -> forall c2, tidy n c2 -> tidy n (seq_coro c1 c2).
Proof.
  intros T. induction T; intros c2 Hc2; simpl;
    try (constructor; auto; fail); auto.
  apply (tidy_message n name mid (fun r => seq_coro (k r) c2)). intros r Hr.
  apply H0; [exact Hr|]. eapply tidy_mono; [exact Hc2|lia].
Qed.

Lemma heap_child_done p o s : heap (child_done p o s) = heap s.
Proof.
  unfold child_done. destruct (status_of s p) as [[]|]; try reflexivity.
  destruct return_exceptions, o; try reflexivity;
    destruct (collect s children); reflexivity.
Qed.

Lemma heap_finish t o s : heap (finish t o s) = heap s.
Proof.
  unfold finish. destruct (parent_of s t); [|reflexivity].
  now rewrite heap_child_done.
Qed.

Lemma heap_wake_all ws s : heap (wake_all ws s) = heap s.
Proof.
  revert s. induction ws as [|w ws IH]; intros s; simpl; [reflexivity|].
  destruct (status_of s w) as [[]|]; rewrite IH; reflexivity.
Qed.

Lemma heap_wake_getter s : heap (wake_getter s) = heap s.
Proof.
  unfold wake_getter. destruct (getters s) as [|g gs]; [reflexivity|].
  now destruct (status_of s g) as [[]|].
Qed.

Lemma heap_emits acts : forall s,
  heap (fold_left (fun s' a => emit a s') acts s) = heap s.
Proof.
  induction acts as [|a acts IH]; intros s; simpl; [reflexivity|].
  now rewrite IH.
Qed.

Lemma trace_spawn_all t par cs : forall s ids s',
  spawn_all t par cs s = (ids, s') ->
  List.filter is_setattr (trace s') = List.filter is_setattr (trace s).
Proof.
  induction cs as [|c cs IH]; intros s ids s' E; simpl in E.
  - now injection E as <- <-.
  - destruct (spawn_all t par cs (spawn t par c s)) as [ids' s''] eqn:E'.
    injection E as <- <-. rewrite (IH _ _ _ E'). simpl.
    rewrite List.filter_app. simpl. now rewrite app_nil_r.
Qed.

Lemma filter_setattr_snoc tr a :
  is_setattr a = false ->
  List.filter is_setattr (tr ++ [a]) = List.filter is_setattr tr.
Proof.
  intros H. rewrite List.filter_app. simpl. rewrite H. apply app_nil_r.
Qed.

Lemma filter_construction t r :
  List.filter is_setattr (construction t r) = construction t r.
Proof. reflexivity. Qed.

Lemma grows_here t s s' :
  heap s' = heap s ->
  List.filter is_setattr (trace s') = List.filter is_setattr (trace s) ->
  grows t s s'.
Proof.
  intros E1 E2. exists []. rewrite E1, E2. simpl. rewrite !app_nil_r.
  repeat split. constructor.
Qed.

Lemma grows_same t s s1 s' :
  heap s1 = heap s ->
  List.filter is_setattr (trace s1) = List.filter is_setattr (trace s) ->
  grows t s1 s' -> grows t s s'.
Proof.
  intros E1 E2 (news & H1 & H2 & H3). exists news.
  rewrite <- E1, <- E2. auto.
Qed.

Lemma grows_message t o s s1 s' :
  is_message o ->
  heap s1 = (heap s ++ [o])%list ->
  List.filter is_setattr (trace s1)
  = (List.filter is_setattr (trace s) ++ construction t (length (heap s)))%list ->
  grows t s1 s' -> grows t s s'.
Proof.
  intros Ho E1 E2 (news & H1 & H2 & H3). exists (o :: news). split; [|split].
  - rewrite H1, E1, <- app_assoc. reflexivity.
  - now constructor.
  - rewrite H3, E2, E1, length_app, <- app_assoc. simpl.
    now rewrite Nat.add_1_r.
Qed.

Section Tidy.

Variable t : nat.

Let good (m : nat) : nat -> status -> Prop := fun _ x => tidy_status m x.

Let all_good (s : state) : Prop :=
  forall u x, status_of s u = Some x -> tidy_status (length (heap s)) x.

Lemma good_wakes m u x x' : good m u x -> wakes x x' -> good m u x'.
Proof. apply tidy_wakes. Qed.

Lemma tidy_leaf m x s s1 :
  m = length (heap s) ->
  others_keep (good m) t s ->
  tidy_status m x ->
  heap s1 = heap s ->
  tasks s1 = tasks (set_status t x s) ->
  List.filter is_setattr (trace s1) = List.filter is_setattr (trace s) ->
  grows t s s1 /\ all_good s1.
Proof.
  intros Hm H Hx E1 E2 E3. split; [now apply grows_here|].
  intros u y Hy. rewrite E1, <- Hm.
  unfold status_of in Hy. rewrite E2 in Hy.
  exact (ok_all (good m) t x s H Hx u y Hy).
Qed.

Lemma tidy_finish m o s :
  m = length (heap s) ->
  others_keep (good m) t s ->
  grows t s (finish t o s) /\ all_good (finish t o s).
Proof.
  intros Hm H. split.
  - apply grows_here; [apply heap_finish|].
    rewrite trace_finish. now apply filter_setattr_snoc.
  - intros u y Hy. rewrite heap_finish, <- Hm.
    exact (ok_all_finish (good m) (good_wakes m) t o s H I u y Hy).
Qed.

Lemma tidy_via m s s1 s' :
  heap s1 = heap s ->
  List.filter is_setattr (trace s1) = List.filter is_setattr (trace s) ->
  m = length (heap s) ->
  List.Forall is_message (heap s) ->
  (m = length (heap s1) -> List.Forall is_message (heap s1) ->
   grows t s1 s' /\ all_good s') ->
  grows t s s' /\ all_good s'.
Proof.
  intros E1 E2 Hm HF H. rewrite <- E1 in Hm, HF.
  destruct (H Hm HF) as [G A]. split; [|exact A].
  now apply (grows_same t s s1 s').
Qed.

Ltac frame :=
  unfold event_set;
  rewrite ?heap_wake_all, ?heap_wake_getter, ?trace_wake_all,
    ?trace_wake_getter; simpl;
  rewrite ?filter_setattr_snoc by reflexivity; reflexivity.

Ltac via IH Hin m Hm HF Hn :=
  match type of Hin with
  | In ?s' (exec _ _ ?s1) =>
      match goal with
      | |- grows _ ?s _ /\ _ =>
          apply (tidy_via m s s1 s'); [frame|frame|exact Hm|exact HF|];
          let Hm1 := fresh "Hm" in
          let HF1 := fresh "HF" in
          intros Hm1 HF1;
          first [ refine (IH m s1 s' Hm1 Hn HF1 _ Hin)
                | refine (IH _ m s1 s' Hm1 Hn HF1 _ Hin) ]
      end
  end.

(** The step of a task whose code is tidy: the heap gets new messages at
    its end, nothing else is assigned, and every task's code is tidy
    afterwards. *)
Lemma exec_tidy n c (T : tidy n c) : forall m s s',
  m = length (heap s) -> n <= m ->
  List.Forall is_message (heap s) ->
  others_keep (good m) t s ->
  In s' (exec t c s) ->
  grows t s s' /\ all_good s'.
Proof.
  induction T as [ n | n e | n lvl msg k T IH | n lo hi k T IH | n d k T IH
                 | n k T IH | n ev k T IH | n ev k T IH
                 | n c' k Tc IHc Tk IH | n re cs k Tcs IHcs Tk IH
                 | n pm k T IH | n k T IH | n pm k T IH | n k T IH
                 | n j k T IH | n j k T IH | n r name k Hr Hname T IH
                 | n body T IH | n name mid k T IH ];
    intros m s s' Hm Hn HF H Hin; simpl in Hin.
  - destruct Hin as [<-|[]]. now apply (tidy_finish m).
  - destruct Hin as [<-|[]]. now apply (tidy_finish m).
  - via IH Hin m Hm HF Hn. exact H.
  - apply in_flat_map in Hin. destruct Hin as (z & _ & Hin).
    via IH Hin m Hm HF Hn. exact H.
  - destruct Hin as [<-|[]].
    apply (tidy_leaf m (Sleeping d k) s); auto; try frame.
    simpl. eapply tidy_mono; eauto.
  - via IH Hin m Hm HF Hn. exact H.
  - destruct (events s !! ev) as [e|]; [|destruct Hin].
    destruct (is_set e); [via IH Hin m Hm HF Hn; exact H|].
    destruct Hin as [<-|[]].
    apply (tidy_leaf m (OnEvent ev k) s); auto; try frame.
    simpl. eapply tidy_mono; eauto.
  - destruct (events s !! ev) as [e|]; [|destruct Hin].
    via IH Hin m Hm HF Hn. unfold event_set.
    apply (ok_wake_all (good m) (good_wakes m)). exact H.
  - via IH Hin m Hm HF Hn. apply ok_spawn; [|exact H].
    intros u. simpl. eapply tidy_mono; eauto.
  - destruct cs as [|c0 cs]; [via IH Hin m Hm HF Hn; exact H|].
    destruct (spawn_all t (Some t) (c0 :: cs) s) as [ids s1] eqn:E.
    destruct Hin as [<-|[]].
    assert (H1 : others_keep (good m) t s1).
    { eapply ok_spawn_all; [|exact E|exact H].
      intros c1 u Hc1. simpl. eapply tidy_mono; eauto. }
    assert (E1 : heap s1 = heap s) by (eapply heap_spawn_all; eauto).
    assert (E2 := trace_spawn_all _ _ _ _ _ _ E).
    apply (tidy_via m s s1); auto. intros Hm1 HF1.
    apply (tidy_leaf m (OnGather re ids k) s1); auto.
    simpl. intros rs. eapply tidy_mono; eauto.
  - via IH Hin m Hm HF Hn. exact H.
  - destruct (queue s) as [|pm q].
    + destruct Hin as [<-|[]].
      apply (tidy_leaf m (OnGet k) s); auto; try frame.
      simpl. intros pm. eapply tidy_mono; eauto.
    + via IH Hin m Hm HF Hn. exact H.
  - via IH Hin m Hm HF Hn.
    apply (ok_wake_getter (good m) (good_wakes m)). exact H.
  - via IH Hin m Hm HF Hn. exact H.
  - destruct Hin as [<-|[]].
    apply (tidy_leaf m (OnExecutor j k) s); auto; try frame.
    simpl. eapply tidy_mono; eauto.
  - destruct j; via IH Hin m Hm HF Hn; exact H.
  - destruct (heap s !! r) as [o|]; [|destruct Hin].
    destruct (assoc_get name (attrs o)).
    + via IH Hin m Hm HF Hn. exact H.
    + destruct Hin as [<-|[]]. now apply (tidy_finish m).
  - destruct Hin as [<-|[]].
    apply (tidy_leaf m (Runnable (seq_coro body (Forever body))) s);
      auto; try frame.
    simpl. eapply tidy_mono; [|exact Hn].
    apply tidy_seq; [exact T|now constructor].
  - change (In s' (exec t (PubSubMessage name mid k) s)) in Hin.
    rewrite exec_PubSubMessage in Hin.
    match type of Hin with
    | In _ (exec _ _ ?s1) =>
        assert (E1 : heap s1 = (heap s ++ [message_object name mid])%list)
          by (now rewrite heap_emits);
        assert (E2 : List.filter is_setattr (trace s1)
                     = (List.filter is_setattr (trace s)
                        ++ construction t (length (heap s)))%list)
          by (rewrite trace_emits, List.filter_app; reflexivity);
        assert (E3 : tasks s1 = tasks s) by (now rewrite tasks_emits);
        assert (R : grows t s1 s' /\ all_good s')
    end.
    { refine (IH (length (heap s)) _ (S m) _ s' _ _ _ _ Hin).
      - lia.
      - rewrite E1, length_app. simpl. lia.
      - lia.
      - rewrite E1. apply List.Forall_app. split; [exact HF|].
        constructor; [|constructor]. now exists name, mid.
      - intros u x Hne Hx. unfold status_of in Hx. rewrite E3 in Hx.
        apply (tidy_status_mono m); [lia|]. exact (H u x Hne Hx). }
    destruct R as [G A]. split; [|exact A].
    eapply grows_message; [|exact E1|exact E2|exact G]. now exists name, mid.
Qed.

End Tidy.

(** *** The program's code is tidy *)

Lemma tidy_handle_results n rs k : tidy n k -> tidy n (handle_results rs k).
Proof.
  intros Hk. induction rs as [|[|e] rs IH]; simpl; auto. now constructor.
Qed.

Ltac tidy_tac :=
  repeat first
    [ apply tidy_return | apply tidy_raise | apply tidy_log
    | apply tidy_rand; intros ? | apply tidy_sleep
    | apply tidy_new_event; intros ? | apply tidy_wait | apply tidy_set
    | apply tidy_ack | apply tidy_get; intros ? | apply tidy_put
    | apply tidy_size; intros ? | apply tidy_executor | apply tidy_submit
    | apply tidy_getattr; [lia|simpl; tauto|intros ?]
    | apply tidy_forever | apply tidy_create ].

Lemma tidy_save n msg : msg < n -> tidy n (save msg).
Proof. intros H. unfold save. tidy_tac. Qed.

Lemma tidy_restart_host n msg : msg < n -> tidy n (restart_host msg).
Proof.
  intros H. unfold restart_host. constructor. intros z.
  destruct (Z.eqb z 2); tidy_tac.
Qed.

Lemma tidy_cleanup n pm ev : tidy n (cleanup pm ev).
Proof. unfold cleanup. tidy_tac. Qed.

Lemma tidy_dispatch n pm msg : msg < n -> tidy n (dispatch pm msg).
Proof.
  intros H. unfold dispatch. constructor. intros ev. constructor.
  - apply tidy_cleanup.
  - constructor.
    + intros c [<-|[<-|[]]]; [now apply tidy_save|now apply tidy_restart_host].
    + intros rs. apply tidy_handle_results. tidy_tac.
Qed.

Lemma tidy_handle_message n pm : tidy n (handle_message pm).
Proof.
  unfold handle_message. destruct (parse_payload (data pm)) as [e|name].
  - constructor.
  - constructor. intros r Hr. constructor; [lia|simpl; tauto|].
    intros v. constructor. apply tidy_dispatch. lia.
Qed.

Lemma tidy_add_to_queue n pm : tidy n (add_to_queue pm).
Proof. unfold add_to_queue. tidy_tac. Qed.

Lemma tidy_get_from_queue n : tidy n get_from_queue.
Proof.
  unfold get_from_queue. tidy_tac. apply tidy_handle_message.
Qed.

Lemma tidy_publish n : tidy n publish.
Proof. unfold publish. tidy_tac. Qed.

Lemma tidy_run_pubsub n : tidy n run_pubsub.
Proof. unfold run_pubsub. tidy_tac. Qed.

Lemma tidy_run_something_else n : tidy n run_something_else.
Proof. unfold run_something_else. tidy_tac. Qed.

Lemma tidy_run n : tidy n run.
Proof.
  unfold run. constructor; [|intros; constructor].
  intros c [<-|[<-|[<-|[]]]];
    [apply tidy_run_pubsub|apply tidy_run_something_else
    |apply tidy_get_from_queue].
Qed.

(** *** Along the runs *)

Lemma built_app ts1 : forall ts2 r,
  built (ts1 ++ ts2) r = (built ts1 r ++ built ts2 (r + length ts1))%list.
Proof.
  induction ts1 as [|t ts1 IH]; intros ts2 r; simpl.
  - now rewrite Nat.add_0_r.
  - replace (r + S (length ts1)) with (S r + length ts1) by lia.
    now rewrite IH.
Qed.

Lemma extends_refl s : extends s s.
Proof.
  exists [], []. simpl. rewrite !app_nil_r. repeat split. constructor.
Qed.

Lemma extends_same s s' :
  heap s' = heap s ->
  List.filter is_setattr (trace s') = List.filter is_setattr (trace s) ->
  extends s s'.
Proof.
  intros E1 E2. exists [], []. simpl. rewrite !app_nil_r, E1, E2.
  repeat split. constructor.
Qed.

Lemma extends_trans s1 s2 s3 : extends s1 s2 -> extends s2 s3 -> extends s1 s3.
Proof.
  intros (ts & news & L & E1 & F & E2) (ts' & news' & L' & E1' & F' & E2').
  exists (ts ++ ts')%list, (news ++ news')%list. repeat split.
  - rewrite !length_app. lia.
  - rewrite E1', E1, <- app_assoc. reflexivity.
  - apply List.Forall_app. now split.
  - rewrite E2', E2, E1, built_app, length_app, <- app_assoc, L.
    reflexivity.
Qed.

Lemma grows_extends t s s' : grows t s s' -> extends s s'.
Proof.
  intros (news & E1 & F & E2). exists (map (fun _ => t) news), news.
  rewrite length_map. auto.
Qed.

Lemma heap_inv_started : heap_inv (boot run).
Proof.
  split; [constructor|].
  intros [|u] x Hx; [|destruct u; discriminate].
  injection Hx as <-. simpl. apply tidy_run.
Qed.

Lemma heap_inv_others t s ready' :
  heap_inv s ->
  others_keep (fun _ x => tidy_status (length (heap s)) x) t
    (set_ready ready' s).
Proof. intros [_ H] u x _ Hx. exact (H u x Hx). Qed.

(** One transition of the program keeps the objects in order. *)
Lemma heap_inv_step l s s' :
  heap_inv s -> In s' (step l s) -> heap_inv s' /\ extends s s'.
Proof.
  intros Inv Hin. destruct l as [t|t|th pm|t o]; simpl in Hin.
  - destruct (existsb (Nat.eqb t) (ready s)); [|destruct Hin].
    destruct (status_of s t) as [[c| | | | | |]|] eqn:E; try (destruct Hin; fail).
    assert (T : tidy (length (heap s)) c) by exact (hi_tasks s Inv t _ E).
    destruct (exec_tidy t _ c T (length (heap s))
                (set_ready (remove_first t (ready s)) s) s' eq_refl (le_n _)
                (hi_heap s Inv) (heap_inv_others t s _ Inv) Hin)
      as [G A].
    split; [|exact (grows_extends t _ s' G)].
    split; [|exact A].
    destruct G as (news & E1 & F & _). rewrite E1.
    apply List.Forall_app. split; [exact (hi_heap s Inv)|exact F].
  - destruct (status_of s t) as [[|d c| | | | |]|] eqn:E; try (destruct Hin; fail).
    destruct Hin as [<-|[]]. split; [|now apply extends_same].
    split; [exact (hi_heap s Inv)|].
    intros u x Hx. change (heap (resume t c s)) with (heap s).
    destruct (Nat.eq_dec u t) as [->|Hne].
    + apply status_of_set_status in Hx. subst x.
      exact (hi_tasks s Inv t _ E).
    + rewrite status_of_resume_ne in Hx by exact Hne.
      exact (hi_tasks s Inv u x Hx).
  - destruct (subscribed s); [|destruct Hin]. destruct Hin as [<-|[]].
    split; [|apply extends_same; [reflexivity|]].
    + split; [exact (hi_heap s Inv)|].
      intros u x Hx. change (heap (callback th pm s)) with (heap s).
      apply status_of_callback_inv in Hx. destruct Hx as [Hx| ->].
      * exact (hi_tasks s Inv u x Hx).
      * apply tidy_add_to_queue.
    + simpl. rewrite !filter_setattr_snoc by reflexivity. reflexivity.
  - destruct (status_of s t) as [[| | | | |[] k|]|] eqn:E; try (destruct Hin; fail).
    destruct (publish_sync o) as [acts out].
    destruct Hin as [<-|[]].
    assert (Ef : forall acts s0,
               List.filter is_setattr
                 (trace (fold_left (fun s' a => emit a s')
                           (flat_map (sync_to_action t) acts) s0))
               = List.filter is_setattr (trace s0)).
    { intros acts0 s0. rewrite trace_emits, List.filter_app.
      replace (List.filter is_setattr (flat_map (sync_to_action t) acts0))
        with (@nil action); [apply app_nil_r|].
      induction acts0 as [|[| |] acts0 IH]; simpl; auto. }
    split; [|apply extends_same;
             [unfold resume; simpl; apply heap_emits|
              rewrite trace_resume; apply Ef]].
    split.
    + unfold resume. simpl. rewrite heap_emits. exact (hi_heap s Inv).
    + intros u x Hx. unfold resume at 1. simpl. rewrite heap_emits.
      destruct (Nat.eq_dec u t) as [->|Hne].
      * apply status_of_set_status in Hx. subst x.
        pose proof (hi_tasks s Inv t _ E) as Hk. simpl in Hk.
        destruct out; [exact Hk|constructor].
      * rewrite status_of_resume_ne in Hx by exact Hne.
        unfold status_of in Hx. rewrite tasks_emits in Hx.
        exact (hi_tasks s Inv u x Hx).
Qed.

Lemma heap_inv_path s ls s' :
  path s ls s' -> heap_inv s -> heap_inv s' /\ extends s s'.
Proof.
  induction 1 as [s|s l s1 ls s2 Hstep _ IH]; intros Inv.
  - split; [exact Inv|apply extends_refl].
  - destruct (heap_inv_step l s s1 Inv Hstep) as [Inv1 X1].
    destruct (IH Inv1) as [Inv2 X2]. split; [exact Inv2|].
    eapply extends_trans; eauto.
Qed.

Lemma filter_assigns_setattr r name tr :
  List.filter (assigns r name) tr
  = List.filter (assigns r name) (List.filter is_setattr tr).
Proof.
  induction tr as [|a tr IH]; simpl; [reflexivity|].
  destruct a; simpl; try exact IH.
  destruct (Nat.eqb r r0 && String.eqb name0 name); simpl; now rewrite IH.
Qed.

(** Among the assignments of the constructions, each object's [hostname]
    is assigned once, by the task that built it. *)
Lemma built_assigns_hostname ts : forall lo r,
  List.filter (assigns r "hostname") (built ts lo)
  = match ts !! (r - lo) with
    | Some t => if Nat.leb lo r then [ASetAttr t r "hostname"] else []
    | None => []
    end.
Proof.
  induction ts as [|t ts IH]; intros lo r; [reflexivity|].
  cbn [built]. rewrite List.filter_app, IH.
  unfold construction. cbn [List.filter assigns].
  rewrite !andb_false_r. cbn [String.eqb Ascii.eqb Bool.eqb andb].
  rewrite andb_true_r.
  destruct (Nat.eqb_spec r lo) as [->|Hne].
  - rewrite Nat.sub_diag, Nat.leb_refl. cbn [lookup list_lookup].
    replace (lo - S lo) with 0 by lia.
    destruct (Nat.leb_spec (S lo) lo); [lia|].
    now destruct (ts !! 0).
  - destruct (Nat.leb_spec lo r) as [Hle|Hgt].
    + replace (r - lo) with (S (r - S lo)) by lia. cbn [lookup list_lookup].
      destruct (Nat.leb_spec (S lo) r); [reflexivity|lia].
    + replace (r - lo) with 0 by lia. replace (r - S lo) with 0 by lia.
      cbn [lookup list_lookup].
      destruct (Nat.leb_spec (S lo) r); [lia|]. now destruct (ts !! 0).
Qed.

(** In the program as a whole, from its start: the heap holds messages
    only, each assigned by the three assignments of its construction and
    no other. *)
Lemma heap_reachable ls s :
  path (boot run) ls s ->
  heap_inv s
  /\ List.Forall is_message (heap s)
  /\ exists ts,
       length ts = length (heap s)
       /\ List.filter is_setattr (trace s) = built ts 0.
Proof.
  intros Hpath.
  destruct (heap_inv_path _ _ _ Hpath heap_inv_started)
    as [Inv (ts & news & L & E1 & F & E2)].
  simpl in E1, E2. split; [exact Inv|]. split; [exact (hi_heap s Inv)|].
  exists ts. split; [now rewrite E1|exact E2].
Qed.

(** The objects of a state are those of every later state. *)
Lemma heap_is_kept s ls s' r o :
  heap_inv s -> path s ls s' -> heap s !! r = Some o -> heap s' !! r = Some o.
Proof.
  intros Inv Hpath Hr.
  destruct (heap_inv_path _ _ _ Hpath Inv) as [_ (ts & news & _ & E & _)].
  rewrite E. apply lookup_app_l_Some. exact Hr.
Qed.

(** C5.  For a payload whose [instance_name] is the string [name]: in any
    state of the loop, whatever tasks and objects are there, the first
    step of [handle_message] does run, and appends one new object whose
    [hostname] is [name] followed by [.example.net], leaving the objects
    that were there untouched, and assigns [hostname] once.  And in every
    execution of the whole program, from its start: every object of the
    heap has as [hostname] its own [instance_name] followed by
    [.example.net]; its [hostname] was assigned exactly once; and it is
    the same object in every later state. *)
Theorem hostname_is_name_dot_example_net :
  (forall pm name t s,
     parse_payload (data pm) = inr (PStr name) ->
     exists s',
       exec t (handle_message pm) s = [s']
       /\ heap s'
          = heap s
            ++ [{| cls := PubSubMessage_class;
                   attrs := [("instance_name", PStr name);
                             ("message_id", PStr (message_id pm));
                             ("hostname", PStr (name ++ ".example.net")%string)] |}]
       /\ List.filter sets_hostname (trace s')
          = List.filter sets_hostname (trace s)
            ++ [ASetAttr t (length (heap s)) "hostname"]) /\
  (forall ls s, path (boot run) ls s ->
     (forall r o, heap s !! r = Some o ->
        (exists instance_name mid,
           o = {| cls := PubSubMessage_class;
                  attrs := [("instance_name", instance_name);
                            ("message_id", mid);
                            ("hostname",
                             PStr (py_format instance_name ++ ".example.net"))] |})
        /\ (exists t,
              List.filter (assigns r "hostname") (trace s)
              = [ASetAttr t r "hostname"])
        /\ (forall ls' s', path s ls' s' -> heap s' !! r = Some o))).
Proof.
  split.
  - intros pm name t s Hp. rewrite (handle_message_parsed _ _ Hp).
    unfold handler. rewrite exec_PubSubMessage.
    erewrite exec_GetAttr; [|apply lookup_snoc|reflexivity].
    simpl. eexists. split; [reflexivity|]. split; [reflexivity|].
    cbn [trace spawn set_status set_tasks set_ready set_events emit set_heap].
    rewrite <- !app_assoc. rewrite List.filter_app. reflexivity.
  - intros ls s Hpath r o Hr.
    destruct (heap_reachable ls s Hpath) as (Inv & F & ts & L & E).
    split; [|split].
    + rewrite List.Forall_forall in F. apply F.
      apply list_elem_of_In. eapply list_elem_of_lookup_2. exact Hr.
    + assert (Hlt : r < length ts).
      { rewrite L. eapply lookup_lt_Some. exact Hr. }
      destruct (lookup_lt_is_Some_2 ts r Hlt) as [t Ht].
      exists t. rewrite filter_assigns_setattr, E, built_assigns_hostname.
      rewrite Nat.sub_0_r, Ht. reflexivity.
    + intros ls' s' Hpath'. exact (heap_is_kept s ls' s' r o Inv Hpath' Hr).
Qed.

(** C6, as amended.  The class is not frozen: assignment to a field of a
    message is allowed.  And in every execution of the whole program, from
    its start: the objects of a state are the same objects in every later
    state, and the assignments ever made are, object after object, the
    three of its construction and no other. *)
Theorem fields_are_never_reassigned :
  frozen PubSubMessage_class = false /\
  (forall ls s, path (boot run) ls s ->
     (exists ts,
        length ts = length (heap s)
        /\ List.filter is_setattr (trace s) = built ts 0)
     /\ (forall ls' s' r o,
           path s ls' s' -> heap s !! r = Some o -> heap s' !! r = Some o)).
Proof.
  split; [reflexivity|]. intros ls s Hpath.
  destruct (heap_reachable ls s Hpath) as (Inv & F & Hts).
  split; [exact Hts|].
  intros ls' s' r o Hpath' Hr. exact (heap_is_kept s ls' s' r o Inv Hpath' Hr).
Qed.

(** C8.  In every execution of the whole program in which the loop runs
    its ready queue in order, whatever the threads that deliver and
    however their deliveries fall between the turns of the loop: the
    items taken from [GLOBAL_QUEUE], then those in it, then those whose
    [add_to_queue] is still scheduled, are exactly the items injected, in
    the order of injection, each once.  So when as many items were taken
    as were injected, the items taken are the items injected, nothing is
    left in the queue or on its way, and what each thread injected was
    taken in the order in which that thread injected it. *)
Theorem mailbox_loses_and_duplicates_nothing ls s :
  fifo_path (boot run) ls s ->
  exists pend,
    waiting_to_put pend s
    /\ taken (trace s) ++ queue s ++ map snd pend
       = map snd (injected (trace s))
    /\ (length (taken (trace s)) = length (injected (trace s)) ->
        taken (trace s) = map snd (injected (trace s))
        /\ queue s = [] /\ pend = []
        /\ forall th,
             sublist (from_thread th (injected (trace s))) (taken (trace s))).
Proof.
  intros Hp.
  assert (E : exists pend,
             waiting_to_put pend s
             /\ taken (trace s) ++ queue s ++ map snd pend
                = map snd (injected (trace s))).
  { destruct ls as [|l ls].
    - inversion Hp; subst. exists []. split; [|reflexivity].
      split; [apply NoDup_nil_2|]. intros u pm [].
    - destruct (mailbox_reachable l ls s Hp) as [pend Inv]. exists pend.
      split; [exact (waiting_to_put_inv _ _ _ Inv)|].
      apply (inv_count _ _ _ Inv). }
  destruct E as (pend & W & E). exists pend.
  split; [exact W|]. split; [exact E|].
  intros L. rewrite <- (length_map snd) in L.
  destruct (prefix_full _ _ _ E L) as [E1 E2].
  apply app_eq_nil in E2. destruct E2 as [E2 E3].
  split; [exact E1|]. split; [exact E2|].
  split; [now destruct pend|].
  intros th. rewrite E1. apply from_thread_sublist.
Qed.

(** ** Events *)

Lemma events_wake_getter s : events (wake_getter s) = events s.
Proof.
  unfold wake_getter. destruct (getters s) as [|g gs]; [reflexivity|].
  now destruct (status_of s g) as [[]|].
Qed.

Lemma events_spawn_all t par cs : forall s ids s',
  spawn_all t par cs s = (ids, s') -> events s' = events s.
Proof.
  induction cs as [|c cs IH]; intros s ids s' E; simpl in E.
  - now injection E as <- <-.
  - destruct (spawn_all t par cs (spawn t par c s)) as [ids' s''] eqn:E'.
    injection E as <- <-. now rewrite (IH _ _ _ E').
Qed.

Lemma exec_events_grow t c : forall s s',
  In s' (exec t c s) -> length (events s) <= length (events s').
Proof.
  induction c as [ | e | lvl m k IH | lo hi k IH | d k IH | k IH | ev k IH
                 | ev k IH | c' _ k IH | re cs k IH | pm k IH | k IH
                 | pm k IH | k IH | j k IH | j k IH | c' k IH
                 | r name v k IH | r name k IH | body _ ];
    intros s s' Hin; simpl in Hin.
  - destruct Hin as [<-|[]]. now rewrite events_finish.
  - destruct Hin as [<-|[]]. now rewrite events_finish.
  - exact (IH _ _ Hin).
  - apply in_flat_map in Hin. destruct Hin as (z & _ & Hin).
    exact (IH _ _ _ Hin).
  - destruct Hin as [<-|[]]. reflexivity.
  - apply IH in Hin. simpl in Hin. rewrite length_app in Hin. simpl in Hin.
    lia.
  - destruct (events s !! ev) as [e|]; [|destruct Hin].
    destruct (is_set e); [exact (IH _ _ Hin)|].
    destruct Hin as [<-|[]]. simpl. now rewrite length_insert.
  - destruct (events s !! ev) as [e|]; [|destruct Hin].
    apply IH in Hin. unfold event_set in Hin.
    rewrite events_wake_all in Hin. simpl in Hin.
    now rewrite length_insert in Hin.
  - exact (IH _ _ Hin).
  - destruct cs as [|c0 cs]; [exact (IH _ _ _ Hin)|].
    destruct (spawn_all t (Some t) (c0 :: cs) s) as [ids s1] eqn:E.
    destruct Hin as [<-|[]]. simpl.
    now rewrite (events_spawn_all _ _ _ _ _ _ E).
  - exact (IH _ _ Hin).
  - destruct (queue s) as [|pm q].
    + destruct Hin as [<-|[]]. reflexivity.
    + exact (IH _ _ _ Hin).
  - apply IH in Hin. now rewrite events_wake_getter in Hin.
  - exact (IH _ _ _ Hin).
  - destruct Hin as [<-|[]]. reflexivity.
  - apply IH in Hin. destruct j; exact Hin.
  - exact (IH _ _ _ Hin).
  - destruct (heap s !! r) as [o|]; [|destruct Hin].
    destruct (frozen (cls o)).
    + destruct Hin as [<-|[]]. now rewrite events_finish.
    + exact (IH _ _ Hin).
  - destruct (heap s !! r) as [o|]; [|destruct Hin].
    destruct (assoc_get name (attrs o)).
    + exact (IH _ _ _ Hin).
    + destruct Hin as [<-|[]]. now rewrite events_finish.
  - destruct Hin as [<-|[]]. reflexivity.
Qed.

Lemma avoids_wakes ev x x' :
  avoids_status ev x -> wakes x x' -> avoids_status ev x'.
Proof.
  destruct x as [c|d c|e c|re ids k|k|j c|o]; simpl; try tauto.
  - intros H ->. exact H.
  - intros H [[rs ->]|[e ->]]; simpl; [apply H|constructor].
  - intros H ->. simpl. now constructor.
Qed.

Lemma avoids_seq ev c1 :
  avoids ev c1 -> forall c2, avoids ev c2 -> avoids ev (seq_coro c1 c2).
Proof.
  intros A. induction A; intros c2 Hc2; simpl;
    try (constructor; auto; fail); auto.
Qed.

Section Avoid.

Variable ev : nat.
Variable exempt : nat -> Prop.
Variable t : nat.

Let fine : nat -> status -> Prop :=
  fun u x => exempt u \/ avoids_status ev x.

Lemma fine_wakes u x x' : fine u x -> wakes x x' -> fine u x'.
Proof.
  intros [H|H] W; [now left|right]. eapply avoids_wakes; eauto.
Qed.

Ltac avoid_IH IH Hin :=
  match type of Hin with
  | In ?s' (exec _ _ ?s1) =>
      first [ refine (IH s1 s' _ _ Hin) | refine (IH _ s1 s' _ _ Hin) ]
  end.

(** The step of a task whose code avoids [ev], in a state where [ev]
    exists or will not be created by this step: every task avoids [ev]
    afterwards, if the others did. *)
Lemma exec_avoids c (A : avoids ev c) : forall s s',
  ev < length (events s) \/ length (events s') <= ev ->
  others_keep fine t s ->
  In s' (exec t c s) ->
  forall u x, status_of s' u = Some x -> fine u x.
Proof.
  induction A as [ | e | lvl m k A IH | lo hi k A IH | d k A IH | k A IH
                 | e k He A IH | e k He A IH | c' k Ac IHc A IH
                 | re cs k Acs IHcs A IH | pm k A IH | k A IH | pm k A IH
                 | k A IH | j k A IH | j k A IH | c' k A IH
                 | r name v k A IH | r name k A IH | body A IH ];
    intros s s' Hev H Hin; simpl in Hin.
  - destruct Hin as [<-|[]].
    apply (ok_all_finish fine fine_wakes t _ s H). now right.
  - destruct Hin as [<-|[]].
    apply (ok_all_finish fine fine_wakes t _ s H). now right.
  - avoid_IH IH Hin; [exact Hev|exact H].
  - apply in_flat_map in Hin. destruct Hin as (z & _ & Hin).
    avoid_IH IH Hin; [exact Hev|exact H].
  - destruct Hin as [<-|[]].
    apply (ok_all fine t (Sleeping d k) s H). right. exact A.
  - assert (Hne : length (events s) <> ev).
    { destruct Hev as [Hev|Hev]; [lia|].
      apply exec_events_grow in Hin. simpl in Hin.
      rewrite length_app in Hin. simpl in Hin. lia. }
    refine (IH _ Hne _ s' _ _ Hin); [|exact H].
    destruct Hev as [Hev|Hev]; [left|now right].
    simpl. rewrite length_app. lia.
  - destruct (events s !! e) as [es|]; [|destruct Hin].
    destruct (is_set es); [avoid_IH IH Hin; [exact Hev|exact H]|].
    destruct Hin as [<-|[]].
    apply (ok_all fine t (OnEvent e k) s H). right. exact A.
  - destruct (events s !! e) as [es|]; [|destruct Hin].
    avoid_IH IH Hin.
    + destruct Hev as [Hev|Hev]; [left|now right].
      unfold event_set. rewrite events_wake_all. simpl.
      now rewrite length_insert.
    + unfold event_set. apply (ok_wake_all fine fine_wakes). exact H.
  - avoid_IH IH Hin; [exact Hev|].
    apply ok_spawn; [intros u; now right|exact H].
  - destruct cs as [|c0 cs]; [avoid_IH IH Hin; [exact Hev|exact H]|].
    destruct (spawn_all t (Some t) (c0 :: cs) s) as [ids s1] eqn:E.
    destruct Hin as [<-|[]].
    apply (ok_all fine t (OnGather re ids k) s1); [|right; exact A].
    eapply ok_spawn_all; [|exact E|exact H].
    intros c1 u Hc1. right. now apply Acs.
  - avoid_IH IH Hin; [exact Hev|exact H].
  - destruct (queue s) as [|pm q].
    + destruct Hin as [<-|[]].
      apply (ok_all fine t (OnGet k) s H). right. exact A.
    + avoid_IH IH Hin; [exact Hev|exact H].
  - avoid_IH IH Hin.
    + destruct Hev as [Hev|Hev]; [left|now right].
      now rewrite events_wake_getter.
    + apply (ok_wake_getter fine fine_wakes). exact H.
  - avoid_IH IH Hin; [exact Hev|exact H].
  - destruct Hin as [<-|[]].
    apply (ok_all fine t (OnExecutor j k) s H). right. exact A.
  - destruct j; (avoid_IH IH Hin; [exact Hev|exact H]).
  - avoid_IH IH Hin; [exact Hev|exact H].
  - destruct (heap s !! r) as [o|]; [|destruct Hin].
    destruct (frozen (cls o)).
    + destruct Hin as [<-|[]].
      apply (ok_all_finish fine fine_wakes t _ s H). now right.
    + avoid_IH IH Hin; [exact Hev|exact H].
  - destruct (heap s !! r) as [o|]; [|destruct Hin].
    destruct (assoc_get name (attrs o)).
    + avoid_IH IH Hin; [exact Hev|exact H].
    + destruct Hin as [<-|[]].
      apply (ok_all_finish fine fine_wakes t _ s H). now right.
  - destruct Hin as [<-|[]].
    apply (ok_all fine t (Runnable (seq_coro body (Forever body))) s H).
    right. simpl. apply avoids_seq; [exact A|now constructor].
Qed.

End Avoid.

Lemma status_of_wake_all_out ws u : forall s,
  ~ In u ws -> status_of (wake_all ws s) u = status_of s u.
Proof.
  induction ws as [|w ws IH]; intros s Hu; simpl; [reflexivity|].
  assert (Hw : u <> w) by (intros ->; apply Hu; now left).
  assert (Hws : ~ In u ws) by (intros Hin; apply Hu; now right).
  destruct (status_of s w) as [[| |e c| | | |]|]; rewrite IH by exact Hws;
    try reflexivity.
  now apply status_of_resume_ne.
Qed.

Lemma held_wake_getter ev s u x :
  held ev x -> status_of s u = Some x -> status_of (wake_getter s) u = Some x.
Proof.
  intros Hx H. unfold wake_getter. destruct (getters s) as [|g gs]; [exact H|].
  destruct (status_of s g) as [[| | | |k| |]|] eqn:E; try exact H.
  rewrite status_of_resume_ne; [exact H|].
  intros ->. change (status_of s g = Some (OnGet k)) in E.
  rewrite H in E. injection E as ->. destruct Hx.
Qed.

Lemma held_child_done ev p o s u x :
  held ev x -> status_of s u = Some x ->
  status_of (child_done p o s) u = Some x.
Proof.
  intros Hx H. unfold child_done.
  destruct (status_of s p) as [[| | |re ids k| | |]|] eqn:E; try exact H.
  assert (Hne : u <> p).
  { intros ->. rewrite H in E. injection E as ->. destruct Hx. }
  destruct re, o; try (rewrite status_of_resume_ne by exact Hne; exact H);
    destruct (collect s ids); try exact H;
    rewrite status_of_resume_ne by exact Hne; exact H.
Qed.

Lemma held_finish ev t o s u x :
  u <> t -> held ev x -> status_of s u = Some x ->
  status_of (finish t o s) u = Some x.
Proof.
  intros Hne Hx H. unfold finish.
  assert (H1 : status_of (emit (ADone t o) (set_status t (Finished o) s)) u
               = Some x).
  { change (status_of (set_status t (Finished o) s) u = Some x).
    now rewrite status_of_set_status_ne. }
  destruct (parent_of s t); [|exact H1].
  eapply held_child_done; eauto.
Qed.

Section Gate.

Variable ev : nat.
Variable cl : nat.
Variable t : nat.
Hypothesis t_not_cl : t <> cl.

(** From [s] to [s'] the event [ev] is untouched, and so is the task
    [cl]. *)
Let kept (s s' : state) : Prop :=
  events s' !! ev = events s !! ev
  /\ apart ev cl s'
  /\ forall x, held ev x -> status_of s cl = Some x -> status_of s' cl = Some x.

Lemma kept_here s s' :
  events s' = events s ->
  (forall x, held ev x -> status_of s cl = Some x -> status_of s' cl = Some x) ->
  apart ev cl s -> kept s s'.
Proof.
  intros E H Hap. split; [now rewrite E|]. split; [|exact H].
  intros e es. rewrite E. apply Hap.
Qed.

Lemma kept_via s s1 s' :
  events s1 = events s ->
  (forall x, held ev x -> status_of s cl = Some x -> status_of s1 cl = Some x) ->
  apart ev cl s ->
  (ev < length (events s1) -> apart ev cl s1 -> kept s1 s') ->
  ev < length (events s) -> kept s s'.
Proof.
  intros E H Hap K Hev.
  destruct K as (K1 & K2 & K3).
  - now rewrite E.
  - intros e es. rewrite E. apply Hap.
  - split; [now rewrite K1, E|]. split; [exact K2|].
    intros x Hx Hs. apply K3; [exact Hx|]. now apply H.
Qed.

Lemma kept_finish o s : apart ev cl s -> kept s (finish t o s).
Proof.
  intros Hap. apply kept_here; [apply events_finish| |exact Hap].
  intros x Hx Hs. apply (held_finish ev); auto.
Qed.

Lemma kept_set_status x0 s s' :
  events s' = events s -> tasks s' = tasks (set_status t x0 s) ->
  apart ev cl s -> kept s s'.
Proof.
  intros E Et Hap. apply kept_here; [exact E| |exact Hap].
  intros x Hx Hs. unfold status_of. rewrite Et.
  change (status_of (set_status t x0 s) cl = Some x).
  rewrite status_of_set_status_ne; auto.
Qed.

Ltac gate_IH IH Hin Hev Hap :=
  match type of Hin with
  | In ?s' (exec _ _ ?s1) =>
      match goal with
      | |- kept ?s _ =>
          apply (kept_via s s1 s'); [reflexivity| |exact Hap| |exact Hev];
          [ intros ? ? Hs; exact Hs
          | let Hev1 := fresh "Hev" in
            let Hap1 := fresh "Hap" in
            intros Hev1 Hap1;
            first [ refine (IH s1 s' Hev1 Hap1 Hin)
                  | refine (IH _ s1 s' Hev1 Hap1 Hin) ] ]
      end
  end.

(** The step of another task, whose code avoids [ev], touches neither
    [ev] nor the task [cl], which waits for no other event. *)
Lemma exec_gate c (A : avoids ev c) : forall s s',
  ev < length (events s) -> apart ev cl s -> In s' (exec t c s) -> kept s s'.
Proof.
  induction A as [ | e | lvl m k A IH | lo hi k A IH | d k A IH | k A IH
                 | e k He A IH | e k He A IH | c' k Ac IHc A IH
                 | re cs k Acs IHcs A IH | pm k A IH | k A IH | pm k A IH
                 | k A IH | j k A IH | j k A IH | c' k A IH
                 | r name v k A IH | r name k A IH | body A IH ];
    intros s s' Hev Hap Hin; simpl in Hin.
  - destruct Hin as [<-|[]]. now apply kept_finish.
  - destruct Hin as [<-|[]]. now apply kept_finish.
  - gate_IH IH Hin Hev Hap.
  - apply in_flat_map in Hin. destruct Hin as (z & _ & Hin).
    gate_IH IH Hin Hev Hap.
  - destruct Hin as [<-|[]].
    now apply (kept_set_status (Sleeping d k)).
  - assert (Hne : length (events s) <> ev) by lia.
    assert (K : kept
                  (set_events
                     (events s ++ [{| is_set := false; waiters := [] |}]) s)
                  s').
    { refine (IH _ Hne _ s' _ _ Hin).
      - simpl. rewrite length_app. lia.
      - intros e es Hne' He. simpl in He.
        destruct (Nat.lt_ge_cases e (length (events s))) as [Hlt|Hge].
        + rewrite lookup_app_l in He by exact Hlt. now apply (Hap e).
        + rewrite lookup_app_r in He by exact Hge.
          destruct (e - length (events s)) as [|i]; [|destruct i; discriminate].
          injection He as <-. intros []. }
    destruct K as (K1 & K2 & K3). split; [|split; [exact K2|]].
    + rewrite K1. simpl. now apply lookup_app_l.
    + intros x Hx Hs. now apply K3.
  - destruct (events s !! e) as [es|] eqn:Ee; [|destruct Hin].
    destruct (is_set es); [gate_IH IH Hin Hev Hap|].
    destruct Hin as [<-|[]].
    split; [|split].
    + simpl. now rewrite list_lookup_insert_ne.
    + intros e' es' Hne' He'. simpl in He'.
      destruct (Nat.eq_dec e' e) as [->|Hee].
      * rewrite list_lookup_insert_eq in He'
          by (eapply lookup_lt_Some; exact Ee).
        injection He' as <-. simpl. intros Hin. apply in_app_or in Hin.
        destruct Hin as [Hin|[Hin|[]]]; [now apply (Hap e es)|].
        now apply t_not_cl.
      * rewrite list_lookup_insert_ne in He' by congruence.
        now apply (Hap e').
    + intros x Hx Hs.
      change (status_of (set_status t (OnEvent e k) s) cl = Some x).
      rewrite status_of_set_status_ne; auto.
  - destruct (events s !! e) as [es|] eqn:Ee; [|destruct Hin].
    assert (K : kept (event_set e es (emit (ASet t e) s)) s').
    { refine (IH _ s' _ _ Hin).
      - unfold event_set. rewrite events_wake_all. simpl.
        now rewrite length_insert.
      - intros e' es' Hne' He'. unfold event_set in He'.
        rewrite events_wake_all in He'. simpl in He'.
        destruct (Nat.eq_dec e' e) as [->|Hee].
        + rewrite list_lookup_insert_eq in He'
            by (eapply lookup_lt_Some; exact Ee).
          injection He' as <-. intros [].
        + rewrite list_lookup_insert_ne in He' by congruence.
          now apply (Hap e'). }
    destruct K as (K1 & K2 & K3). split; [|split; [exact K2|]].
    + rewrite K1. unfold event_set. rewrite events_wake_all. simpl.
      now rewrite list_lookup_insert_ne.
    + intros x Hx Hs. apply K3; [exact Hx|]. unfold event_set.
      rewrite status_of_wake_all_out; [exact Hs|]. now apply (Hap e es).
  - match type of Hin with
    | In _ (exec _ _ ?s1) =>
        apply (kept_via s s1 s'); [reflexivity| |exact Hap| |exact Hev]
    end.
    + intros x Hx Hs. now apply status_of_spawn.
    + intros Hev1 Hap1. exact (IH _ _ Hev1 Hap1 Hin).
  - destruct cs as [|c0 cs]; [gate_IH IH Hin Hev Hap|].
    destruct (spawn_all t (Some t) (c0 :: cs) s) as [ids s1] eqn:E.
    destruct Hin as [<-|[]].
    apply kept_here; [|intros x Hx Hs|exact Hap].
    + simpl. exact (events_spawn_all _ _ _ _ _ _ E).
    + rewrite status_of_set_status_ne by auto.
      eapply status_of_spawn_all; eauto.
  - gate_IH IH Hin Hev Hap.
  - destruct (queue s) as [|pm q].
    + destruct Hin as [<-|[]]. now apply (kept_set_status (OnGet k)).
    + gate_IH IH Hin Hev Hap.
  - match type of Hin with
    | In _ (exec _ _ ?s1) =>
        apply (kept_via s s1 s');
          [now rewrite events_wake_getter| |exact Hap| |exact Hev]
    end.
    + intros x Hx Hs. apply (held_wake_getter ev); [exact Hx|exact Hs].
    + intros Hev1 Hap1. exact (IH _ _ Hev1 Hap1 Hin).
  - gate_IH IH Hin Hev Hap.
  - destruct Hin as [<-|[]]. now apply (kept_set_status (OnExecutor j k)).
  - destruct j; gate_IH IH Hin Hev Hap.
  - gate_IH IH Hin Hev Hap.
  - destruct (heap s !! r) as [o|]; [|destruct Hin].
    destruct (frozen (cls o)).
    + destruct Hin as [<-|[]]. now apply kept_finish.
    + gate_IH IH Hin Hev Hap.
  - destruct (heap s !! r) as [o|]; [|destruct Hin].
    destruct (assoc_get name (attrs o)).
    + gate_IH IH Hin Hev Hap.
    + destruct Hin as [<-|[]]. now apply kept_finish.
  - destruct Hin as [<-|[]].
    now apply (kept_set_status (Runnable (seq_coro body (Forever body)))).
Qed.

End Gate.

Lemma wv_same s s' :
  events s' = events s -> length (tasks s) <= length (tasks s') ->
  waiters_valid s -> waiters_valid s'.
Proof.
  intros E L H e es w He Hw. rewrite E in He.
  specialize (H e es w He Hw). lia.
Qed.

Lemma length_tasks_set_status t x s :
  length (tasks (set_status t x s)) = length (tasks s).
Proof. simpl. apply length_alter. Qed.

Ltac wv_IH IH Hin :=
  match type of Hin with
  | In ?s' (exec _ _ ?s1) =>
      first [ refine (IH s1 s' _ _ Hin) | refine (IH _ s1 s' _ _ Hin) ]
  end.

(** A step keeps the waiters of every event among the tasks. *)
Lemma exec_waiters_valid t c : forall s s',
  t < length (tasks s) -> waiters_valid s -> In s' (exec t c s) ->
  waiters_valid s'.
Proof.
  induction c as [ | e | lvl m k IH | lo hi k IH | d k IH | k IH | ev k IH
                 | ev k IH | c' _ k IH | re cs k IH | pm k IH | k IH
                 | pm k IH | k IH | j k IH | j k IH | c' k IH
                 | r name v k IH | r name k IH | body _ ];
    intros s s' Ht H Hin; simpl in Hin.
  - destruct Hin as [<-|[]].
    apply (wv_same s); [apply events_finish| |exact H].
    now rewrite length_tasks_finish.
  - destruct Hin as [<-|[]].
    apply (wv_same s); [apply events_finish| |exact H].
    now rewrite length_tasks_finish.
  - wv_IH IH Hin; [exact Ht|exact H].
  - apply in_flat_map in Hin. destruct Hin as (z & _ & Hin).
    wv_IH IH Hin; [exact Ht|exact H].
  - destruct Hin as [<-|[]].
    apply (wv_same s); [reflexivity| |exact H].
    simpl. now rewrite length_alter.
  - wv_IH IH Hin; [exact Ht|].
    intros e es w He Hw. simpl in He. simpl.
    destruct (Nat.lt_ge_cases e (length (events s))) as [Hlt|Hge].
    + rewrite lookup_app_l in He by exact Hlt. exact (H e es w He Hw).
    + rewrite lookup_app_r in He by exact Hge.
      destruct (e - length (events s)) as [|i]; [|destruct i; discriminate].
      injection He as <-. destruct Hw.
  - destruct (events s !! ev) as [e|] eqn:Ee; [|destruct Hin].
    destruct (is_set e); [wv_IH IH Hin; [exact Ht|exact H]|].
    destruct Hin as [<-|[]].
    intros e' es w He Hw. simpl in He. simpl. rewrite length_alter.
    destruct (Nat.eq_dec e' ev) as [->|Hne].
    + rewrite list_lookup_insert_eq in He by (eapply lookup_lt_Some; exact Ee).
      injection He as <-. simpl in Hw. apply in_app_or in Hw.
      destruct Hw as [Hw|[<-|[]]]; [exact (H ev e w Ee Hw)|exact Ht].
    + rewrite list_lookup_insert_ne in He by congruence.
      exact (H e' es w He Hw).
  - destruct (events s !! ev) as [e|] eqn:Ee; [|destruct Hin].
    wv_IH IH Hin.
    + unfold event_set. now rewrite length_tasks_wake_all.
    + intros e' es w He Hw. unfold event_set in He |- *.
      rewrite events_wake_all in He. rewrite length_tasks_wake_all.
      simpl in He. simpl.
      destruct (Nat.eq_dec e' ev) as [->|Hne].
      * rewrite list_lookup_insert_eq in He
          by (eapply lookup_lt_Some; exact Ee).
        injection He as <-. destruct Hw.
      * rewrite list_lookup_insert_ne in He by congruence.
        exact (H e' es w He Hw).
  - wv_IH IH Hin.
    + rewrite length_tasks_spawn. lia.
    + apply (wv_same s); [reflexivity| |exact H].
      rewrite length_tasks_spawn. lia.
  - destruct cs as [|c0 cs]; [wv_IH IH Hin; [exact Ht|exact H]|].
    destruct (spawn_all t (Some t) (c0 :: cs) s) as [ids s1] eqn:E.
    destruct Hin as [<-|[]].
    apply (wv_same s); [|simpl; rewrite length_alter|exact H].
    + simpl. exact (events_spawn_all _ _ _ _ _ _ E).
    + exact (length_tasks_spawn_all _ _ _ _ _ _ E).
  - wv_IH IH Hin; [exact Ht|exact H].
  - destruct (queue s) as [|pm q].
    + destruct Hin as [<-|[]].
      apply (wv_same s); [reflexivity| |exact H].
      simpl. now rewrite length_alter.
    + wv_IH IH Hin; [exact Ht|exact H].
  - wv_IH IH Hin.
    + now rewrite length_tasks_wake_getter.
    + apply (wv_same s); [now rewrite events_wake_getter| |exact H].
      now rewrite length_tasks_wake_getter.
  - wv_IH IH Hin; [exact Ht|exact H].
  - destruct Hin as [<-|[]].
    apply (wv_same s); [reflexivity| |exact H].
    simpl. now rewrite length_alter.
  - destruct j; (wv_IH IH Hin; [exact Ht|exact H]).
  - wv_IH IH Hin; [exact Ht|exact H].
  - destruct (heap s !! r) as [o|]; [|destruct Hin].
    destruct (frozen (cls o)).
    + destruct Hin as [<-|[]].
      apply (wv_same s); [apply events_finish| |exact H].
      now rewrite length_tasks_finish.
    + wv_IH IH Hin; [exact Ht|exact H].
  - destruct (heap s !! r) as [o|]; [|destruct Hin].
    destruct (assoc_get name (attrs o)).
    + wv_IH IH Hin; [exact Ht|exact H].
    + destruct Hin as [<-|[]].
      apply (wv_same s); [apply events_finish| |exact H].
      now rewrite length_tasks_finish.
  - destruct Hin as [<-|[]].
    apply (wv_same s); [reflexivity| |exact H].
    simpl. now rewrite length_alter.
Qed.

(** *** The program's code mentions only the events it creates *)

Ltac avoid_tac :=
  repeat first
    [ apply av_return | apply av_raise | apply av_log
    | apply av_rand; intros ? | apply av_sleep
    | apply av_ack | apply av_get; intros ? | apply av_put
    | apply av_size; intros ? | apply av_executor | apply av_submit
    | apply av_getattr; intros ? | apply av_setattr
    | apply av_newobj; intros ? | apply av_forever | apply av_create ].

Lemma avoids_handle_results ev rs k :
  avoids ev k -> avoids ev (handle_results rs k).
Proof.
  intros Hk. induction rs as [|[|e] rs IH]; simpl; auto. now constructor.
Qed.

Lemma avoids_save ev msg : avoids ev (save msg).
Proof. unfold save. avoid_tac. Qed.

Lemma avoids_restart_host ev msg : avoids ev (restart_host msg).
Proof.
  unfold restart_host. constructor. intros z. destruct (Z.eqb z 2); avoid_tac.
Qed.

Lemma avoids_cleanup ev pm e : e <> ev -> avoids ev (cleanup pm e).
Proof. intros H. unfold cleanup. apply av_wait; [exact H|]. avoid_tac. Qed.

Lemma avoids_dispatch ev pm msg : avoids ev (dispatch pm msg).
Proof.
  unfold dispatch. constructor. intros e He. constructor.
  - now apply avoids_cleanup.
  - constructor.
    + intros c [<-|[<-|[]]]; [apply avoids_save|apply avoids_restart_host].
    + intros rs. apply avoids_handle_results.
      apply av_set; [exact He|constructor].
Qed.

Lemma avoids_handle_message ev pm : avoids ev (handle_message pm).
Proof.
  unfold handle_message. destruct (parse_payload (data pm)) as [e|name].
  - constructor.
  - unfold PubSubMessage, attrs_post_init. avoid_tac. apply avoids_dispatch.
Qed.

Lemma avoids_add_to_queue ev pm : avoids ev (add_to_queue pm).
Proof. unfold add_to_queue. avoid_tac. Qed.

Lemma avoids_get_from_queue ev : avoids ev get_from_queue.
Proof. unfold get_from_queue. avoid_tac. apply avoids_handle_message. Qed.

Lemma avoids_publish ev : avoids ev publish.
Proof. unfold publish. avoid_tac. Qed.

Lemma avoids_run_pubsub ev : avoids ev run_pubsub.
Proof. unfold run_pubsub. avoid_tac. Qed.

Lemma avoids_run_something_else ev : avoids ev run_something_else.
Proof. unfold run_something_else. avoid_tac. Qed.

Lemma avoids_run ev : avoids ev run.
Proof.
  unfold run. constructor; [|intros; constructor].
  intros c [<-|[<-|[<-|[]]]];
    [apply avoids_run_pubsub|apply avoids_run_something_else
    |apply avoids_get_from_queue].
Qed.

(** *** Along the runs *)

Lemma gates_inv_started : gates_inv (boot run).
Proof.
  split.
  - intros [|u] x ev Hx _; [|destruct u; discriminate].
    injection Hx as <-. simpl. apply avoids_run.
  - intros e es w He. destruct e; discriminate.
Qed.

Lemma gates_inv_step l s s' :
  gates_inv s -> In s' (step l s) -> gates_inv s'.
Proof.
  intros Inv Hin. destruct l as [t|t|th pm|t o]; simpl in Hin.
  - destruct (existsb (Nat.eqb t) (ready s)); [|destruct Hin].
    destruct (status_of s t) as [[c| | | | | |]|] eqn:E;
      try (destruct Hin; fail).
    split.
    + intros u x ev Hx Hev.
      assert (Hle : length (events s) <= length (events s')).
      { apply exec_events_grow in Hin. exact Hin. }
      assert (A : avoids ev c).
      { apply (gi_fresh s Inv t (Runnable c) ev E). lia. }
      destruct (exec_avoids ev (fun _ => False) t c A
                  (set_ready (remove_first t (ready s)) s) s'
                  (or_intror Hev)) with (u := u) (x := x) as [[]|Hx'];
        [|exact Hin|exact Hx|exact Hx'].
      intros w y _ Hy. right.
      apply (gi_fresh s Inv w y ev Hy). lia.
    + eapply exec_waiters_valid; [| |exact Hin].
      * apply status_of_lt in E. exact E.
      * exact (gi_waiters s Inv).
  - destruct (status_of s t) as [[|d c| | | | |]|] eqn:E;
      try (destruct Hin; fail).
    destruct Hin as [<-|[]]. split.
    + intros u x ev Hx Hev. change (events (resume t c s)) with (events s) in Hev.
      destruct (Nat.eq_dec u t) as [->|Hne].
      * apply status_of_set_status in Hx. subst x.
        exact (gi_fresh s Inv t _ ev E Hev).
      * rewrite status_of_resume_ne in Hx by exact Hne.
        exact (gi_fresh s Inv u x ev Hx Hev).
    + apply (wv_same s); [reflexivity| |exact (gi_waiters s Inv)].
      now rewrite length_tasks_resume.
  - destruct (subscribed s); [|destruct Hin]. destruct Hin as [<-|[]].
    split.
    + intros u x ev Hx Hev. change (events (callback th pm s)) with (events s) in Hev.
      apply status_of_callback_inv in Hx. destruct Hx as [Hx| ->].
      * exact (gi_fresh s Inv u x ev Hx Hev).
      * apply avoids_add_to_queue.
    + apply (wv_same s); [reflexivity| |exact (gi_waiters s Inv)].
      simpl. rewrite length_app. lia.
  - destruct (status_of s t) as [[| | | | |[] k|]|] eqn:E;
      try (destruct Hin; fail).
    destruct (publish_sync o) as [acts out].
    destruct Hin as [<-|[]]. split.
    + intros u x ev Hx Hev. rewrite events_resume in Hev.
      assert (Ee : forall s0 acts0,
                 events (fold_left (fun s' a => emit a s') acts0 s0)
                 = events s0).
      { intros s0 acts0. revert s0.
        induction acts0 as [|a acts0 IH]; intros s0; simpl; [reflexivity|].
        now rewrite IH. }
      rewrite Ee in Hev.
      destruct (Nat.eq_dec u t) as [->|Hne].
      * apply status_of_set_status in Hx. subst x.
        pose proof (gi_fresh s Inv t _ ev E Hev) as Hk. simpl in Hk.
        destruct out; [exact Hk|constructor].
      * rewrite status_of_resume_ne in Hx by exact Hne.
        unfold status_of in Hx. rewrite tasks_emits in Hx.
        exact (gi_fresh s Inv u x ev Hx Hev).
    + intros e es w He Hw. rewrite length_tasks_resume, tasks_emits.
      rewrite events_resume in He.
      assert (Ee : forall s0 acts0,
                 events (fold_left (fun s' a => emit a s') acts0 s0)
                 = events s0).
      { intros s0 acts0. revert s0.
        induction acts0 as [|a acts0 IH]; intros s0; simpl; [reflexivity|].
        now rewrite IH. }
      rewrite Ee in He. exact (gi_waiters s Inv e es w He Hw).
Qed.

Lemma gates_inv_path s ls s' : path s ls s' -> gates_inv s -> gates_inv s'.
Proof.
  induction 1 as [s|s l s1 ls s2 Hstep _ IH]; intros Inv; [exact Inv|].
  apply IH. eapply gates_inv_step; eauto.
Qed.

(** ** A gather that returns exceptions *)

Section GatherTrue.

Variable p : nat.
Variable ids : list nat.
Variable k0 : list outcome -> coro.
Variable t : nat.
Variable c0 : nat.
Variable x0 : status.
Hypothesis t_not_p : t <> p.
Hypothesis c0_not_t : c0 <> t.
Hypothesis c0_child : In c0 ids.
Hypothesis x0_passive : passive x0.
Hypothesis x0_unfinished : forall o, x0 <> Finished o.

(** The gather of [p] is pending and its child [c0] has not ended. *)
Let pending (s : state) : Prop :=
  status_of s p = Some (OnGather true ids k0) /\ status_of s c0 = Some x0.

Lemma pending_finish o s : pending s -> pending (finish t o s).
Proof.
  intros [Hp Hc]. split; [|now apply passive_finish].
  unfold finish.
  set (s1 := emit (ADone t o) (set_status t (Finished o) s)).
  assert (Hp1 : status_of s1 p = Some (OnGather true ids k0)).
  { change (status_of (set_status t (Finished o) s) p
            = Some (OnGather true ids k0)).
    rewrite status_of_set_status_ne by congruence. exact Hp. }
  assert (Hc1 : status_of s1 c0 = Some x0).
  { change (status_of (set_status t (Finished o) s) c0 = Some x0).
    rewrite status_of_set_status_ne by congruence. exact Hc. }
  destruct (parent_of s t) as [p'|]; [|exact Hp1].
  destruct (Nat.eq_dec p' p) as [->|Hne].
  - unfold child_done. rewrite Hp1.
    rewrite (collect_none c0 x0 s1 ids c0_child Hc1 x0_unfinished).
    destruct o; exact Hp1.
  - apply gather_child_done; [exact Hne|exact Hp1].
Qed.

Lemma pending_set_status x s s' :
  tasks s' = tasks (set_status t x s) -> pending s -> pending s'.
Proof.
  intros E [Hp Hc]. unfold pending, status_of. rewrite E.
  change (status_of (set_status t x s) p = Some (OnGather true ids k0)
          /\ status_of (set_status t x s) c0 = Some x0).
  rewrite !status_of_set_status_ne by congruence. now split.
Qed.

Ltac pend_IH IH Hin :=
  match type of Hin with
  | In ?s' (exec _ _ ?s1) =>
      first [ refine (IH s1 s' _ Hin) | refine (IH _ s1 s' _ Hin) ]
  end.

(** With [return_exceptions=True] a gather resumes only when all its
    children have ended: as long as one of them has not, no step of
    another task ends the wait. *)
Lemma exec_keeps_gather_true c : forall s s',
  pending s -> In s' (exec t c s) -> pending s'.
Proof.
  induction c as [ | e | lvl m k IH | lo hi k IH | d k IH | k IH | ev k IH
                 | ev k IH | c' _ k IH | re cs k IH | pm k IH | k IH
                 | pm k IH | k IH | j k IH | j k IH | c' k IH
                 | r name v k IH | r name k IH | body _ ];
    intros s s' H Hin; simpl in Hin.
  - destruct Hin as [<-|[]]. now apply pending_finish.
  - destruct Hin as [<-|[]]. now apply pending_finish.
  - pend_IH IH Hin. exact H.
  - apply in_flat_map in Hin. destruct Hin as (z & _ & Hin).
    pend_IH IH Hin. exact H.
  - destruct Hin as [<-|[]]. now apply (pending_set_status (Sleeping d k) s).
  - pend_IH IH Hin. exact H.
  - destruct (events s !! ev) as [e|]; [|destruct Hin].
    destruct (is_set e); [pend_IH IH Hin; exact H|].
    destruct Hin as [<-|[]]. now apply (pending_set_status (OnEvent ev k) s).
  - destruct (events s !! ev) as [e|]; [|destruct Hin].
    pend_IH IH Hin. destruct H as [Hp Hc]. unfold event_set. split.
    + now apply gather_wake_all.
    + now apply passive_wake_all.
  - pend_IH IH Hin. destruct H as [Hp Hc].
    split; now apply status_of_spawn.
  - destruct cs as [|c1 cs]; [pend_IH IH Hin; exact H|].
    destruct (spawn_all t (Some t) (c1 :: cs) s) as [ids1 s1] eqn:E.
    destruct Hin as [<-|[]]. destruct H as [Hp Hc].
    apply (pending_set_status (OnGather re ids1 k) s1); [reflexivity|].
    split; eapply status_of_spawn_all; eauto.
  - pend_IH IH Hin. exact H.
  - destruct (queue s) as [|pm q].
    + destruct Hin as [<-|[]]. now apply (pending_set_status (OnGet k) s).
    + pend_IH IH Hin. exact H.
  - pend_IH IH Hin. destruct H as [Hp Hc]. split.
    + now apply gather_wake_getter.
    + now apply passive_wake_getter.
  - pend_IH IH Hin. exact H.
  - destruct Hin as [<-|[]].
    now apply (pending_set_status (OnExecutor j k) s).
  - destruct j; (pend_IH IH Hin; exact H).
  - pend_IH IH Hin. exact H.
  - destruct (heap s !! r) as [o|]; [|destruct Hin].
    destruct (frozen (cls o)).
    + destruct Hin as [<-|[]]. now apply pending_finish.
    + pend_IH IH Hin. exact H.
  - destruct (heap s !! r) as [o|]; [|destruct Hin].
    destruct (assoc_get name (attrs o)).
    + pend_IH IH Hin. exact H.
    + destruct Hin as [<-|[]]. now apply pending_finish.
  - destruct Hin as [<-|[]].
    now apply (pending_set_status
                 (Runnable (seq_coro body (Forever body))) s).
Qed.

End GatherTrue.

(** A transition that is not the turn of [u] leaves [u] in the ready
    queue. *)
Lemma step_keeps_ready l s s' u :
  In s' (step l s) -> l <> Run u -> In u (ready s) -> In u (ready s').
Proof.
  intros Hin Hl Hu. destruct l as [t|t|th pm|t o]; simpl in Hin.
  - destruct (existsb (Nat.eqb t) (ready s)); [|destruct Hin].
    destruct (status_of s t) as [[c| | | | | |]|]; try (destruct Hin; fail).
    eapply exec_ready; [exact Hin|]. simpl.
    apply in_remove_first; [congruence|exact Hu].
  - destruct (status_of s t) as [[|d c| | | | |]|]; try (destruct Hin; fail).
    destruct Hin as [<-|[]]. simpl. apply in_or_app. now left.
  - destruct (subscribed s); [|destruct Hin]. destruct Hin as [<-|[]].
    simpl. apply in_or_app. now left.
  - destruct (status_of s t) as [[| | | | |[] k|]|]; try (destruct Hin; fail).
    destruct (publish_sync o) as [acts out]. destruct Hin as [<-|[]].
    simpl. rewrite ready_emits. apply in_or_app. now left.
Qed.

(** ** A pipeline in the whole program *)

(** *** What a transition of another task leaves alone *)

Lemma parent_of_task s u tk :
  tasks s !! u = Some tk -> parent_of s u = parent tk.
Proof. intros H. unfold parent_of. now rewrite H. Qed.

Lemma step_parent l s s' u p :
  In s' (step l s) -> own_label u l = false ->
  parent_of s u = Some p -> parent_of s' u = Some p.
Proof.
  intros Hin Hl Hp.
  destruct (tasks s !! u) as [tk|] eqn:Eu;
    [|unfold parent_of in Hp; rewrite Eu in Hp; discriminate].
  rewrite (parent_of_task _ _ _ Eu) in Hp.
  destruct l as [t|t|th pm|t o]; simpl in Hin, Hl.
  - apply Nat.eqb_neq in Hl.
    destruct (existsb (Nat.eqb t) (ready s)); [|destruct Hin].
    destruct (status_of s t) as [[c| | | | | |]|]; try (now destruct Hin).
    destruct (exec_moves t u c _ s' tk (not_eq_sym Hl) Hin Eu)
      as (tk' & E' & Hm & _).
    rewrite (parent_of_task _ _ _ E'). congruence.
  - destruct (status_of s t) as [[|d c| | | | |]|]; try (now destruct Hin).
    destruct Hin as [<-|[]]. rewrite parent_of_resume.
    now rewrite (parent_of_task _ _ _ Eu).
  - destruct (subscribed s); [|destruct Hin]. destruct Hin as [<-|[]].
    unfold parent_of, callback. simpl.
    rewrite lookup_app_l by (eapply lookup_lt_Some; exact Eu).
    now rewrite Eu.
  - destruct (status_of s t) as [[| | | | |[] k|]|]; try (now destruct Hin).
    destruct (publish_sync o) as [acts out]. destruct Hin as [<-|[]].
    rewrite parent_of_resume, parent_of_emits.
    now rewrite (parent_of_task _ _ _ Eu).
Qed.

Lemma events_emits acts : forall s,
  events (fold_left (fun s' a => emit a s') acts s) = events s.
Proof.
  induction acts as [|a acts IH]; intros s; simpl; [reflexivity|].
  now rewrite IH.
Qed.

(** A transition of a task whose code avoids [ev] touches neither [ev]
    nor the task [cl], which waits for no other event. *)
Lemma step_gate ev cl l s s' :
  In s' (step l s) -> own_label cl l = false ->
  (forall t c, l = Run t -> status_of s t = Some (Runnable c) -> avoids ev c) ->
  ev < length (events s) -> apart ev cl s ->
  events s' !! ev = events s !! ev
  /\ apart ev cl s'
  /\ forall x, held ev x -> status_of s cl = Some x -> status_of s' cl = Some x.
Proof.
  intros Hin Hl Hav Hev Hap.
  destruct l as [t|t|th pm|t o]; simpl in Hin, Hl.
  - apply Nat.eqb_neq in Hl.
    destruct (existsb (Nat.eqb t) (ready s)); [|destruct Hin].
    destruct (status_of s t) as [[c| | | | | |]|] eqn:E;
      try (now destruct Hin).
    exact (exec_gate ev cl t Hl c (Hav t c eq_refl E)
             (set_ready (remove_first t (ready s)) s) s' Hev Hap Hin).
  - apply Nat.eqb_neq in Hl.
    destruct (status_of s t) as [[|d c| | | | |]|]; try (now destruct Hin).
    destruct Hin as [<-|[]]. split; [reflexivity|]. split; [exact Hap|].
    intros x _ Hx. now rewrite status_of_resume_ne by congruence.
  - destruct (subscribed s); [|destruct Hin]. destruct Hin as [<-|[]].
    split; [reflexivity|]. split; [exact Hap|].
    intros x _ Hx. now apply status_of_callback.
  - apply Nat.eqb_neq in Hl.
    destruct (status_of s t) as [[| | | | |[] k|]|]; try (now destruct Hin).
    destruct (publish_sync o) as [acts out]. destruct Hin as [<-|[]].
    split; [now rewrite events_resume, events_emits|].
    split.
    + intros e es. rewrite events_resume, events_emits. apply Hap.
    + intros x _ Hx. rewrite status_of_resume_ne by congruence.
      now rewrite status_of_emits.
Qed.

(** A gather with [return_exceptions=True], one child of which has not
    ended, is still pending after a transition of another task. *)
Lemma step_keeps_gather_true l s s' p ids k c0 x0 :
  In s' (step l s) -> own_label p l = false -> own_label c0 l = false ->
  In c0 ids -> passive x0 -> (forall o, x0 <> Finished o) ->
  status_of s p = Some (OnGather true ids k) -> status_of s c0 = Some x0 ->
  status_of s' p = Some (OnGather true ids k).
Proof.
  intros Hin Hp Hc Hc0 Hx Hu Hs Hs0.
  destruct l as [t|t|th pm|t o]; simpl in Hin, Hp, Hc.
  - apply Nat.eqb_neq in Hp. apply Nat.eqb_neq in Hc.
    destruct (existsb (Nat.eqb t) (ready s)); [|destruct Hin].
    destruct (status_of s t) as [[c| | | | | |]|]; try (now destruct Hin).
    apply (exec_keeps_gather_true p ids k t c0 x0 Hp (not_eq_sym Hc) Hc0 Hx
             Hu c (set_ready (remove_first t (ready s)) s) s');
      [now split|exact Hin].
  - apply Nat.eqb_neq in Hp.
    destruct (status_of s t) as [[|d c| | | | |]|]; try (now destruct Hin).
    destruct Hin as [<-|[]]. now rewrite status_of_resume_ne by congruence.
  - destruct (subscribed s); [|destruct Hin]. destruct Hin as [<-|[]].
    now apply status_of_callback.
  - apply Nat.eqb_neq in Hp.
    destruct (status_of s t) as [[| | | | |[] k1|]|]; try (now destruct Hin).
    destruct (publish_sync o) as [acts out]. destruct Hin as [<-|[]].
    rewrite status_of_resume_ne by congruence. now rewrite status_of_emits.
Qed.

(** After a transition of a task whose code avoids [ev], every task
    avoids [ev] that did before, and so do the new ones. *)
Lemma step_avoids ev (exempt : nat -> Prop) l s s' :
  In s' (step l s) ->
  (forall t, own_label t l = true -> ~ exempt t) ->
  ev < length (events s) ->
  (forall u x, status_of s u = Some x -> exempt u \/ avoids_status ev x) ->
  forall u x, status_of s' u = Some x -> exempt u \/ avoids_status ev x.
Proof.
  intros Hin Hl Hev H.
  destruct l as [t|t|th pm|t o]; simpl in Hin.
  - destruct (existsb (Nat.eqb t) (ready s)); [|destruct Hin].
    destruct (status_of s t) as [[c| | | | | |]|] eqn:E;
      try (now destruct Hin).
    assert (A : avoids ev c).
    { destruct (H t _ E) as [Hx|Hx]; [|exact Hx].
      exfalso. apply (Hl t); [simpl; apply Nat.eqb_refl|exact Hx]. }
    apply (exec_avoids ev exempt t c A
             (set_ready (remove_first t (ready s)) s) s' (or_introl Hev));
      [|exact Hin].
    intros u x _ Hx. exact (H u x Hx).
  - destruct (status_of s t) as [[|d c| | | | |]|] eqn:E;
      try (now destruct Hin).
    destruct Hin as [<-|[]]. intros u x Hx.
    destruct (Nat.eq_dec u t) as [->|Hne].
    + apply status_of_set_status in Hx. subst x. exact (H t _ E).
    + rewrite status_of_resume_ne in Hx by exact Hne. exact (H u x Hx).
  - destruct (subscribed s); [|destruct Hin]. destruct Hin as [<-|[]].
    intros u x Hx. apply status_of_callback_inv in Hx.
    destruct Hx as [Hx| ->]; [exact (H u x Hx)|].
    right. apply avoids_add_to_queue.
  - destruct (status_of s t) as [[| | | | |[] k|]|] eqn:E;
      try (now destruct Hin).
    destruct (publish_sync o) as [acts out]. destruct Hin as [<-|[]].
    intros u x Hx. destruct (Nat.eq_dec u t) as [->|Hne].
    + apply status_of_set_status in Hx. subst x.
      destruct (H t _ E) as [Hk|Hk]; [now left|right].
      simpl in Hk. destruct out; [exact Hk|constructor].
    + rewrite status_of_resume_ne in Hx by exact Hne.
      rewrite status_of_emits in Hx. exact (H u x Hx).
Qed.

(** What a transition adds to the trace is foreign to every task but
    the one that made it. *)
Lemma step_trace l s s' :
  In s' (step l s) ->
  exists tr,
    trace s' = trace s ++ tr
    /\ forall u, own_label u l = false -> foreign u tr.
Proof.
  intros Hin. destruct l as [t|t|th pm|t o]; simpl in Hin.
  - destruct (existsb (Nat.eqb t) (ready s)); [|destruct Hin].
    destruct (status_of s t) as [[c| | | | | |]|]; try (now destruct Hin).
    destruct (exec_trace_own t c _ s' Hin) as (tr & E & F).
    exists tr. split; [exact E|]. intros u Hu. simpl in Hu.
    apply Nat.eqb_neq in Hu.
    apply (owned_foreign t u); [congruence|exact F].
  - destruct (status_of s t) as [[|d c| | | | |]|]; try (now destruct Hin).
    destruct Hin as [<-|[]]. exists []. split; [now rewrite app_nil_r|].
    intros u _. constructor.
  - destruct (subscribed s); [|destruct Hin]. destruct Hin as [<-|[]].
    eexists. split; [simpl; rewrite <- !app_assoc; reflexivity|].
    intros u _. repeat constructor.
  - destruct (status_of s t) as [[| | | | |[] k|]|]; try (now destruct Hin).
    destruct (publish_sync o) as [acts out]. destruct Hin as [<-|[]].
    eexists. split; [simpl; apply trace_emits|].
    intros u Hu. simpl in Hu. apply Nat.eqb_neq in Hu.
    apply (owned_foreign t u); [congruence|apply owned_sync].
Qed.

Lemma filter_foreign t tr : foreign t tr -> List.filter (by_task t) tr = [].
Proof.
  unfold foreign. induction 1 as [|a tr Ha _ IH]; [reflexivity|].
  simpl. now rewrite Ha.
Qed.

Lemma filter_app_foreign t tr tr2 :
  foreign t tr2 ->
  List.filter (by_task t) (tr ++ tr2) = List.filter (by_task t) tr.
Proof.
  intros F. rewrite List.filter_app, (filter_foreign _ _ F). apply app_nil_r.
Qed.

(** *** Order in the trace *)

Lemma both_ended_app P tr tr2 : both_ended P tr -> both_ended P (tr ++ tr2).
Proof.
  intros [[o1 H1] [o2 H2]].
  split; eexists; apply in_or_app; left; eauto.
Qed.

Lemma split_snoc {A} (tr tr2 before after : list A) a :
  tr ++ tr2 = before ++ a :: after ->
  (exists after', tr = before ++ a :: after')
  \/ (exists before', before = tr ++ before' /\ tr2 = before' ++ a :: after).
Proof.
  revert before. induction tr as [|x tr IH]; intros before E.
  - right. exists before. auto.
  - destruct before as [|y before]; simpl in E.
    + injection E as -> E. left. now exists tr.
    + injection E as -> E. destruct (IH _ E) as [[after' ->]|(b' & -> & ->)].
      * left. now exists after'.
      * right. exists b'. auto.
Qed.

(** Actions that are neither the ack nor the setting of the gate keep the
    order. *)
Lemma ordered_app P tr tr2 :
  ordered P tr ->
  (forall m, ~ In (AAck (p_cl P) m) tr2) ->
  ~ In (ASet (p_h P) (p_ev P)) tr2 ->
  ordered P (tr ++ tr2).
Proof.
  intros [O1 O2] H1 H2. split.
  - intros before m after E.
    destruct (split_snoc _ _ _ _ _ E) as [[after' ->]|(b' & -> & ->)].
    + exact (O1 _ _ _ eq_refl).
    + exfalso. apply (H1 m). apply in_or_app. right. now left.
  - intros before after E.
    destruct (split_snoc _ _ _ _ _ E) as [[after' ->]|(b' & -> & ->)].
    + exact (O2 _ _ eq_refl).
    + exfalso. apply H2. apply in_or_app. right. now left.
Qed.

Lemma foreign_not_in t a tr : foreign t tr -> by_task t a = true -> ~ In a tr.
Proof.
  intros F Ha Hin. unfold foreign in F. rewrite List.Forall_forall in F.
  specialize (F a Hin). congruence.
Qed.

Lemma ordered_app_foreign P tr tr2 :
  ordered P tr -> foreign (p_cl P) tr2 -> foreign (p_h P) tr2 ->
  ordered P (tr ++ tr2).
Proof.
  intros O F1 F2. apply ordered_app; [exact O| |].
  - intros m. apply (foreign_not_in (p_cl P)); [exact F1|].
    simpl. apply Nat.eqb_refl.
  - apply (foreign_not_in (p_h P)); [exact F2|]. simpl. apply Nat.eqb_refl.
Qed.

(** *** The statuses of the pipeline's tasks *)

Lemma sv_passive P f : passive (sv_status P f).
Proof. now destruct f. Qed.

Lemma rh_passive P f : passive (rh_status P f).
Proof. now destruct f. Qed.

Lemma cl_held P f : held (p_ev P) (cl_status P f).
Proof. now destruct f. Qed.

Lemma sv_unfinished P f :
  sv_done f = false -> forall o, sv_status P f <> Finished o.
Proof. destruct f; simpl; intros H o; discriminate. Qed.

Lemma rh_unfinished P f :
  rh_done f = false -> forall o, rh_status P f <> Finished o.
Proof. destruct f; simpl; intros H o; discriminate. Qed.

Lemma avoids_sv P ev f : avoids_status ev (sv_status P f).
Proof.
  destruct f; simpl; try exact I; try apply avoids_save.
  all: unfold save_rest; constructor; intros v; repeat constructor.
Qed.

Lemma avoids_rh P ev f : avoids_status ev (rh_status P f).
Proof.
  destruct f; simpl; try exact I; try apply avoids_restart_host.
  all: unfold restart_rest; constructor; intros v; repeat constructor.
Qed.

Lemma own_label_false_ne u l : own_label u l = false -> l <> Run u.
Proof. intros H ->. simpl in H. now rewrite Nat.eqb_refl in H. Qed.

Lemma pipeline_label_false P l :
  pipeline_label P l = false ->
  own_label (p_h P) l = false /\ own_label (p_cl P) l = false
  /\ own_label (p_sv P) l = false /\ own_label (p_rh P) l = false.
Proof.
  unfold pipeline_label. intros H.
  apply orb_false_elim in H. destruct H as [H H4].
  apply orb_false_elim in H. destruct H as [H H3].
  apply orb_false_elim in H. destruct H as [H1 H2]. auto.
Qed.

(** A transition of a task that is not of the pipeline leaves the
    pipeline where it is. *)
Lemma pipe_frame P base f l s s' :
  pipe_inv P base f s -> pipeline_label P l = false -> In s' (step l s) ->
  pipe_inv P base f s'.
Proof.
  intros Inv Hl Hin.
  destruct (pipeline_label_false P l Hl) as (Lh & Lc & Ls & Lr).
  assert (Hev : p_ev P < length (events s)).
  { eapply lookup_lt_Some. exact (pi_gate _ _ _ _ Inv). }
  assert (Hav : forall t c, l = Run t -> status_of s t = Some (Runnable c) ->
                  avoids (p_ev P) c).
  { intros t c -> Ht. simpl in Lh, Lc.
    apply Nat.eqb_neq in Lh. apply Nat.eqb_neq in Lc.
    exact (pi_others _ _ _ _ Inv t _ Lh Lc Ht). }
  destruct (step_gate (p_ev P) (p_cl P) l s s' Hin Lc Hav Hev
              (pi_apart _ _ _ _ Inv)) as (G1 & G2 & G3).
  destruct (heap_inv_step l s s' (pi_heap_inv _ _ _ _ Inv) Hin)
    as [HI (ts & news & _ & Eh & _)].
  assert (Ssv : status_of s' (p_sv P) = Some (sv_status P (ph_sv f))).
  { eapply step_keeps_passive; eauto using sv_passive.
    exact (pi_sv _ _ _ _ Inv). }
  assert (Srh : status_of s' (p_rh P) = Some (rh_status P (ph_rh f))).
  { eapply step_keeps_passive; eauto using rh_passive.
    exact (pi_rh _ _ _ _ Inv). }
  assert (Scl : status_of s' (p_cl P) = Some (cl_status P (ph_cl f))).
  { apply G3; [apply cl_held|exact (pi_cl _ _ _ _ Inv)]. }
  assert (Sh : status_of s' (p_h P) = Some (h_status P f)).
  { pose proof (pi_h _ _ _ _ Inv) as Hh.
    pose proof (pi_coherent _ _ _ _ Inv) as Hc.
    unfold h_status in *. unfold coherent in Hc.
    destruct (ph_h f).
    - apply andb_true_iff in Hc. destruct Hc as [Hc _].
      apply negb_true_iff, andb_false_iff in Hc.
      destruct Hc as [Hc|Hc].
      + eapply (step_keeps_gather_true l s s' _ _ _ (p_sv P));
          [exact Hin|exact Lh|exact Ls|now left|apply sv_passive
          |apply (sv_unfinished P _ Hc)|exact Hh|exact (pi_sv _ _ _ _ Inv)].
      + eapply (step_keeps_gather_true l s s' _ _ _ (p_rh P));
          [exact Hin|exact Lh|exact Lr|right; now left|apply rh_passive
          |apply (rh_unfinished P _ Hc)|exact Hh|exact (pi_rh _ _ _ _ Inv)].
    - eapply step_keeps_passive; eauto. exact I.
    - eapply step_keeps_passive; eauto. exact I. }
  split.
  - exact (pi_ids _ _ _ _ Inv).
  - exact (pi_coherent _ _ _ _ Inv).
  - exact HI.
  - rewrite Eh. apply lookup_app_l_Some. exact (pi_heap _ _ _ _ Inv).
  - eapply step_parent; eauto. exact (pi_parent_sv _ _ _ _ Inv).
  - eapply step_parent; eauto. exact (pi_parent_rh _ _ _ _ Inv).
  - exact Sh.
  - exact Scl.
  - exact Ssv.
  - exact Srh.
  - intros u c Hu Hs.
    assert (E : status_of s u = Some (Runnable c) /\ own_label u l = false).
    { destruct Hu as [ -> | [ -> | [ -> | -> ] ] ].
      - rewrite Sh in Hs. now rewrite (pi_h _ _ _ _ Inv).
      - rewrite Scl in Hs. now rewrite (pi_cl _ _ _ _ Inv).
      - rewrite Ssv in Hs. now rewrite (pi_sv _ _ _ _ Inv).
      - rewrite Srh in Hs. now rewrite (pi_rh _ _ _ _ Inv). }
    destruct E as [E Lu].
    eapply step_keeps_ready; [exact Hin|now apply own_label_false_ne|].
    exact (pi_ready _ _ _ _ Inv u c Hu E).
  - rewrite G1. exact (pi_gate _ _ _ _ Inv).
  - exact G2.
  - intros u x Hh Hc Hs.
    destruct (step_avoids (p_ev P) (fun u => u = p_h P \/ u = p_cl P)
                l s s' Hin) with (u := u) (x := x) as [[?|?]|Hx];
      try congruence; try exact Hev; try exact Hs.
    + intros t Ht [ -> | -> ]; congruence.
    + intros w y Hy.
      destruct (Nat.eq_dec w (p_h P)) as [->|Hwh]; [left; now left|].
      destruct (Nat.eq_dec w (p_cl P)) as [->|Hwc]; [left; now right|].
      right. exact (pi_others _ _ _ _ Inv w y Hwh Hwc Hy).
  - destruct (pi_trace _ _ _ _ Inv) as (tr & Et & T1 & T2 & T3 & T4 & O).
    destruct (step_trace l s s' Hin) as (tr2 & E2 & F).
    exists (tr ++ tr2). split; [now rewrite E2, Et, app_assoc|].
    rewrite !filter_app_foreign by auto.
    repeat (split; [assumption|]).
    apply ordered_app_foreign; auto.
Qed.

(** *** Reading a state after its updates *)

Lemma status_of_emit a s u : status_of (emit a s) u = status_of s u.
Proof. reflexivity. Qed.

Lemma status_of_set_ready r s u : status_of (set_ready r s) u = status_of s u.
Proof. reflexivity. Qed.

Lemma status_of_set_events e s u :
  status_of (set_events e s) u = status_of s u.
Proof. reflexivity. Qed.

Lemma parent_of_emit a s u : parent_of (emit a s) u = parent_of s u.
Proof. reflexivity. Qed.

Lemma parent_of_set_ready r s u : parent_of (set_ready r s) u = parent_of s u.
Proof. reflexivity. Qed.

Lemma parent_of_set_events e s u :
  parent_of (set_events e s) u = parent_of s u.
Proof. reflexivity. Qed.

Lemma ready_emit a s : ready (emit a s) = ready s.
Proof. reflexivity. Qed.

Lemma ready_set_status t x s : ready (set_status t x s) = ready s.
Proof. reflexivity. Qed.

Lemma ready_set_ready r s : ready (set_ready r s) = r.
Proof. reflexivity. Qed.

Lemma ready_set_events e s : ready (set_events e s) = ready s.
Proof. reflexivity. Qed.

Lemma ready_resume t c s : ready (resume t c s) = ready s ++ [t].
Proof. reflexivity. Qed.

Lemma events_emit a s : events (emit a s) = events s.
Proof. reflexivity. Qed.

Lemma events_set_ready r s : events (set_ready r s) = events s.
Proof. reflexivity. Qed.

Lemma events_set_events e s : events (set_events e s) = e.
Proof. reflexivity. Qed.

Lemma trace_emit a s : trace (emit a s) = trace s ++ [a].
Proof. reflexivity. Qed.

Lemma trace_set_status t x s : trace (set_status t x s) = trace s.
Proof. reflexivity. Qed.

Lemma trace_set_ready r s : trace (set_ready r s) = trace s.
Proof. reflexivity. Qed.

Lemma trace_set_events e s : trace (set_events e s) = trace s.
Proof. reflexivity. Qed.

Lemma length_tasks_emit a s : length (tasks (emit a s)) = length (tasks s).
Proof. reflexivity. Qed.

Lemma length_tasks_set_ready r s :
  length (tasks (set_ready r s)) = length (tasks s).
Proof. reflexivity. Qed.

Lemma length_tasks_set_events e s :
  length (tasks (set_events e s)) = length (tasks s).
Proof. reflexivity. Qed.

Create Rewrite HintDb obs.

#[local] Hint Rewrite
  status_of_emit status_of_set_ready status_of_set_events
  parent_of_emit parent_of_set_ready parent_of_set_events
  parent_of_set_status parent_of_resume parent_of_finish
  parent_of_wake_all
  ready_emit ready_set_status ready_set_ready ready_set_events ready_resume
  events_emit events_set_ready events_set_events events_set_status
  events_resume events_finish events_wake_all
  trace_emit trace_set_status trace_set_ready trace_set_events trace_resume
  trace_finish trace_wake_all
  length_tasks_emit length_tasks_set_ready length_tasks_set_events
  length_tasks_set_status length_tasks_resume length_tasks_finish
  length_tasks_wake_all
  : obs.

(** *** The steps of the pipeline's coroutines *)

Lemma range_1_3 : range_Z 1 3 = [1%Z; 2%Z].
Proof. reflexivity. Qed.

Lemma exec_save t msg s :
  exec t (save msg) s
  = [emit (ASleep t RandomUnit)
       (set_status t (Sleeping RandomUnit (save_rest msg)) s)].
Proof. reflexivity. Qed.

Lemma exec_save_rest t msg name mid s :
  heap s !! msg = Some (message_object name mid) ->
  exec t (save_rest msg) s
  = [finish t Returned (emit (ALog t DEBUG (Saved name)) s)].
Proof.
  intros H. unfold save_rest.
  erewrite exec_GetAttr; [|exact H|reflexivity]. reflexivity.
Qed.

(** [restart_host] draws 1 and sleeps 1 or 2 seconds, or draws 2 and
    raises. *)
Lemma exec_restart_host t msg name mid s :
  heap s !! msg = Some (message_object name mid) ->
  exec t (restart_host msg) s
  = [emit (ASleep t (Seconds 1))
       (set_status t (Sleeping (Seconds 1) (restart_rest msg)) s);
     emit (ASleep t (Seconds 2))
       (set_status t (Sleeping (Seconds 2) (restart_rest msg)) s);
     finish t (Raised (restart_error name)) s].
Proof.
  intros H. unfold restart_host.
  change (exec t (RandRange 1 3 ?k) s)
    with (flat_map (fun z => exec t (k z) s) (range_Z 1 3)).
  rewrite range_1_3. cbn [flat_map Z.eqb Pos.eqb app].
  erewrite exec_GetAttr; [|exact H|reflexivity].
  reflexivity.
Qed.

Lemma exec_restart_rest t msg name mid s :
  heap s !! msg = Some (message_object name mid) ->
  exec t (restart_rest msg) s
  = [finish t Returned (emit (ALog t DEBUG (Restarted (hostname_of name))) s)].
Proof.
  intros H. unfold restart_rest.
  erewrite exec_GetAttr; [|exact H|reflexivity]. reflexivity.
Qed.

Lemma exec_collect_results t ev rs e s :
  events s !! ev = Some e ->
  exec t (collect_results ev rs) s
  = [finish t Returned
       (event_set ev e
          (emit (ASet t ev) (fold_left (log_caught t) (exceptions rs) s)))].
Proof.
  intros H. unfold collect_results. rewrite exec_handle_results.
  cbn [exec]. rewrite events_log_caught, H. reflexivity.
Qed.

Lemma exec_cleanup t pm ev e s :
  events s !! ev = Some e ->
  exec t (cleanup pm ev) s
  = if is_set e
    then [emit (ASleep t RandomUnit)
            (set_status t (Sleeping RandomUnit (cleanup_ack pm)) s)]
    else [emit (AWait t ev) (event_park t ev e (cleanup_rest pm) s)].
Proof. intros H. unfold cleanup. cbn [exec]. rewrite H. reflexivity. Qed.

Lemma exec_cleanup_rest t pm s :
  exec t (cleanup_rest pm) s
  = [emit (ASleep t RandomUnit)
       (set_status t (Sleeping RandomUnit (cleanup_ack pm)) s)].
Proof. reflexivity. Qed.

Lemma exec_cleanup_ack t pm s :
  exec t (cleanup_ack pm) s
  = [finish t Returned
       (emit (ALog t DEBUG (DoneAcked (message_id pm))) (emit (AAck t pm) s))].
Proof. reflexivity. Qed.

(** The end of a child of a gather that returns exceptions. *)
Lemma finish_child t p o ids k s :
  parent_of s t = Some p -> t <> p ->
  status_of s p = Some (OnGather true ids k) ->
  finish t o s
  = match collect (emit (ADone t o) (set_status t (Finished o) s)) ids with
    | Some os => resume p (k os) (emit (ADone t o) (set_status t (Finished o) s))
    | None => emit (ADone t o) (set_status t (Finished o) s)
    end.
Proof.
  intros Hp Hne Hs. unfold finish. rewrite Hp. unfold child_done.
  rewrite status_of_emit, status_of_set_status_ne by congruence.
  rewrite Hs. now destruct o.
Qed.

Lemma collect_pair s a b oa ob :
  status_of s a = Some (Finished oa) -> status_of s b = Some (Finished ob) ->
  collect s [a; b] = Some [oa; ob].
Proof. intros Ha Hb. simpl. now rewrite Ha, Hb. Qed.

Lemma step_moves l s s' u tk :
  In s' (step l s) -> own_label u l = false -> tasks s !! u = Some tk ->
  exists tk', tasks s' !! u = Some tk' /\ moved tk tk'.
Proof.
  intros Hin Hl Eu. destruct l as [t|t|th pm|t o]; simpl in Hin, Hl.
  - apply Nat.eqb_neq in Hl.
    destruct (existsb (Nat.eqb t) (ready s)); [|destruct Hin].
    destruct (status_of s t) as [[c| | | | | |]|]; try (now destruct Hin).
    exact (exec_moves t u c _ s' tk (not_eq_sym Hl) Hin Eu).
  - apply Nat.eqb_neq in Hl.
    destruct (status_of s t) as [[|d c| | | | |]|]; try (now destruct Hin).
    destruct Hin as [<-|[]]. exists tk. split; [|apply moved_refl].
    unfold resume. simpl. rewrite list_lookup_alter_ne by congruence.
    exact Eu.
  - destruct (subscribed s); [|destruct Hin]. destruct Hin as [<-|[]].
    exists tk. split; [|apply moved_refl]. simpl.
    apply lookup_app_l_Some. exact Eu.
  - apply Nat.eqb_neq in Hl.
    destruct (status_of s t) as [[| | | | |[] k|]|]; try (now destruct Hin).
    destruct (publish_sync o) as [acts out]. destruct Hin as [<-|[]].
    exists tk. split; [|apply moved_refl].
    unfold resume. simpl. rewrite list_lookup_alter_ne by congruence.
    now rewrite tasks_emits.
Qed.

(** *** The transitions of the pipeline's own tasks *)

Lemma not_task_run P x u :
  pipeline_task P x -> ~ pipeline_task P u -> own_label u (Run x) = false.
Proof.
  intros Hx Hu. simpl. apply Nat.eqb_neq. intros ->. now apply Hu.
Qed.

Lemma not_task_fire P x u :
  pipeline_task P x -> ~ pipeline_task P u -> own_label u (Fire x) = false.
Proof.
  intros Hx Hu. simpl. apply Nat.eqb_neq. intros ->. now apply Hu.
Qed.

Lemma task_h P : pipeline_task P (p_h P).
Proof. now left. Qed.

Lemma task_cl P : pipeline_task P (p_cl P).
Proof. right. now left. Qed.

Lemma task_sv P : pipeline_task P (p_sv P).
Proof. right. right. now left. Qed.

Lemma task_rh P : pipeline_task P (p_rh P).
Proof. right. right. now right. Qed.

(** The invariant after a transition of one of the pipeline's tasks,
    from what the transition did. *)
Lemma pipe_inv_own P base f f' l s s' tr2 :
  pipe_inv P base f s ->
  In s' (step l s) ->
  (forall u, ~ pipeline_task P u -> own_label u l = false) ->
  coherent f' = true ->
  parent_of s' (p_sv P) = Some (p_h P) ->
  parent_of s' (p_rh P) = Some (p_h P) ->
  status_of s' (p_h P) = Some (h_status P f') ->
  status_of s' (p_cl P) = Some (cl_status P (ph_cl f')) ->
  status_of s' (p_sv P) = Some (sv_status P (ph_sv f')) ->
  status_of s' (p_rh P) = Some (rh_status P (ph_rh f')) ->
  (forall u c, pipeline_task P u -> status_of s' u = Some (Runnable c) ->
     In u (ready s')) ->
  events s' !! p_ev P = Some (gate_of P f') ->
  (forall e, e <> p_ev P -> events s' !! e = events s !! e) ->
  length (tasks s') = length (tasks s) ->
  trace s' = trace s ++ tr2 ->
  h_trace P f' = h_trace P f ++ List.filter (by_task (p_h P)) tr2 ->
  cl_trace P (ph_cl f')
  = cl_trace P (ph_cl f) ++ List.filter (by_task (p_cl P)) tr2 ->
  sv_trace P (ph_sv f')
  = sv_trace P (ph_sv f) ++ List.filter (by_task (p_sv P)) tr2 ->
  rh_trace P (ph_rh f')
  = rh_trace P (ph_rh f) ++ List.filter (by_task (p_rh P)) tr2 ->
  (forall tr,
     List.filter (by_task (p_h P)) tr = h_trace P f ->
     List.filter (by_task (p_sv P)) tr = sv_trace P (ph_sv f) ->
     List.filter (by_task (p_rh P)) tr = rh_trace P (ph_rh f) ->
     ordered P tr -> ordered P (tr ++ tr2)) ->
  pipe_inv P base f' s'.
Proof.
  intros Inv Hin Hl Hc Psv Prh Sh Scl Ssv Srh Hr Hg He Hlen Ht Th Tcl Tsv Trh
    Ho.
  destruct (heap_inv_step l s s' (pi_heap_inv _ _ _ _ Inv) Hin)
    as [HI (ts & news & _ & Eh & _)].
  split; try assumption.
  - exact (pi_ids _ _ _ _ Inv).
  - rewrite Eh. apply lookup_app_l_Some. exact (pi_heap _ _ _ _ Inv).
  - intros e es Hne Hes. rewrite (He e Hne) in Hes.
    exact (pi_apart _ _ _ _ Inv e es Hne Hes).
  - intros u x Hh Hcl Hs.
    destruct (Nat.eq_dec u (p_sv P)) as [->|Hsv].
    { rewrite Ssv in Hs. injection Hs as <-. apply avoids_sv. }
    destruct (Nat.eq_dec u (p_rh P)) as [->|Hrh].
    { rewrite Srh in Hs. injection Hs as <-. apply avoids_rh. }
    assert (Hu : ~ pipeline_task P u).
    { intros [?|[?|[?|?]]]; congruence. }
    assert (Hlt : u < length (tasks s)).
    { rewrite <- Hlen. eapply status_of_lt. exact Hs. }
    destruct (lookup_lt_is_Some_2 (tasks s) u Hlt) as [tk Etk].
    destruct (step_moves l s s' u tk Hin (Hl u Hu) Etk)
      as (tk' & Etk' & _ & Hm).
    rewrite (status_of_task _ _ _ Etk') in Hs. injection Hs as <-.
    pose proof (pi_others _ _ _ _ Inv u _ Hh Hcl (status_of_task _ _ _ Etk))
      as Ha.
    destruct Hm as [->|Hw]; [exact Ha|].
    eapply avoids_wakes; eauto.
  - destruct (pi_trace _ _ _ _ Inv) as (tr & Et & T1 & T2 & T3 & T4 & O).
    exists (tr ++ tr2). split; [now rewrite Ht, Et, app_assoc|].
    rewrite !List.filter_app, T1, T2, T3, T4.
    repeat (split; [now symmetry|]).
    now apply Ho.
Qed.

Lemma ordered_app_set P tr tr2 :
  ordered P tr -> both_ended P tr ->
  (forall m, ~ In (AAck (p_cl P) m) tr2) ->
  ordered P (tr ++ tr2).
Proof.
  intros [O1 O2] B H1. split.
  - intros before m after E.
    destruct (split_snoc _ _ _ _ _ E) as [[after' ->]|(b' & -> & ->)].
    + exact (O1 _ _ _ eq_refl).
    + exfalso. apply (H1 m). apply in_or_app. right. now left.
  - intros before after E.
    destruct (split_snoc _ _ _ _ _ E) as [[after' ->]|(b' & -> & ->)].
    + exact (O2 _ _ eq_refl).
    + now apply both_ended_app.
Qed.

Lemma ordered_app_ack P tr tr2 :
  ordered P tr -> both_ended P tr -> In (ASet (p_h P) (p_ev P)) tr ->
  ~ In (ASet (p_h P) (p_ev P)) tr2 ->
  ordered P (tr ++ tr2).
Proof.
  intros [O1 O2] B Hs H2. split.
  - intros before m after E.
    destruct (split_snoc _ _ _ _ _ E) as [[after' ->]|(b' & -> & ->)].
    + exact (O1 _ _ _ eq_refl).
    + split; [now apply both_ended_app|]. apply in_or_app. now left.
  - intros before after E.
    destruct (split_snoc _ _ _ _ _ E) as [[after' ->]|(b' & -> & ->)].
    + exact (O2 _ _ eq_refl).
    + exfalso. apply H2. apply in_or_app. right. now left.
Qed.

Lemma in_filtered (p : action -> bool) tr l a :
  List.filter p tr = l -> In a l -> In a tr.
Proof. intros <- H. apply List.filter_In in H. tauto. Qed.

Lemma both_ended_done P fs fr tr :
  sv_done fs = true -> rh_done fr = true ->
  List.filter (by_task (p_sv P)) tr = sv_trace P fs ->
  List.filter (by_task (p_rh P)) tr = rh_trace P fr ->
  both_ended P tr.
Proof.
  intros Hs Hr Ts Tr. split.
  - exists Returned. apply (in_filtered _ _ _ _ Ts).
    destruct fs; try discriminate. simpl. auto.
  - exists (rh_result P fr). apply (in_filtered _ _ _ _ Tr).
    destruct fr; try discriminate; simpl; auto.
Qed.

Lemma filter_logs_own t es :
  List.filter (by_task t)
    (map (fun e => ALog t DEBUG (CaughtException e)) es)
  = map (fun e => ALog t DEBUG (CaughtException e)) es.
Proof.
  induction es as [|e es IH]; simpl; [reflexivity|].
  now rewrite Nat.eqb_refl, IH.
Qed.

Lemma filter_logs_other t u es :
  u <> t ->
  List.filter (by_task u)
    (map (fun e => ALog t DEBUG (CaughtException e)) es)
  = [].
Proof.
  intros H. induction es as [|e es IH]; simpl; [reflexivity|].
  now rewrite (proj2 (Nat.eqb_neq u t) H).
Qed.

Lemma wake_all_one w e c s :
  status_of s w = Some (OnEvent e c) -> wake_all [w] s = resume w c s.
Proof. intros H. simpl. now rewrite H. Qed.

Section OwnSteps.

Variable P : pipeline.
Variable base : list action.
Variable f : phases.
Variable s : state.
Hypothesis Inv : pipe_inv P base f s.

Let Hid : p_h P < p_n P := pi_ids _ _ _ _ Inv.

Ltac ne := unfold p_cl, p_sv, p_rh in *; lia.

Ltac st :=
  repeat first
    [ progress autorewrite with obs
    | rewrite status_of_set_status_ne by ne
    | rewrite status_of_resume_ne by ne ].

Ltac ids :=
  unfold p_cl, p_sv, p_rh; cbn [List.filter by_task app];
  rewrite ?Nat.eqb_refl;
  repeat rewrite (proj2 (Nat.eqb_neq _ _)) by lia;
  cbn [List.filter by_task app].

Ltac dead S Hst := exfalso; generalize S; revert Hst; st; congruence.

Lemma keep_ready_run x u :
  u <> x -> In u (ready s) -> In u (remove_first x (ready s)).
Proof. apply in_remove_first. Qed.

(** [save] starts: it goes to sleep. *)
Lemma own_sv_start s' :
  ph_sv f = SvStart -> In s' (step (Run (p_sv P)) s) ->
  pipe_inv P base (with_sv f SvSleeping) s'.
Proof.
  intros Hf Hin. pose proof Hin as Hstep.
  pose proof (pi_sv _ _ _ _ Inv) as Hs. rewrite Hf in Hs. simpl in Hs.
  rewrite (run_runnable s _ _ Hs (pi_ready _ _ _ _ Inv _ _ (task_sv P) Hs))
    in Hin.
  rewrite exec_save in Hin. destruct Hin as [<-|[]].
  apply (pipe_inv_own P base f (with_sv f SvSleeping) (Run (p_sv P)) s _
           [ASleep (p_sv P) RandomUnit] Inv Hstep).
  - intros u. apply not_task_run, task_sv.
  - pose proof (pi_coherent _ _ _ _ Inv) as Hc. unfold coherent in *.
    simpl. now rewrite Hf in Hc.
  - st. exact (pi_parent_sv _ _ _ _ Inv).
  - st. exact (pi_parent_rh _ _ _ _ Inv).
  - st. exact (pi_h _ _ _ _ Inv).
  - st. exact (pi_cl _ _ _ _ Inv).
  - st. eapply status_of_set_status_eq. exact Hs.
  - st. exact (pi_rh _ _ _ _ Inv).
  - intros u c Hu Hst. st. revert Hst.
    destruct Hu as [ -> | [ -> | [ -> | -> ] ] ]; st; intros Hst.
    + apply keep_ready_run; [ne|].
      exact (pi_ready _ _ _ _ Inv _ _ (task_h P) Hst).
    + apply keep_ready_run; [ne|].
      exact (pi_ready _ _ _ _ Inv _ _ (task_cl P) Hst).
    + erewrite status_of_set_status_eq in Hst by exact Hs. discriminate.
    + apply keep_ready_run; [ne|].
      exact (pi_ready _ _ _ _ Inv _ _ (task_rh P) Hst).
  - st. exact (pi_gate _ _ _ _ Inv).
  - intros e _. st. reflexivity.
  - st. reflexivity.
  - st. reflexivity.
  - ids. now rewrite app_nil_r.
  - ids. now rewrite app_nil_r.
  - rewrite Hf. ids. reflexivity.
  - ids. now rewrite app_nil_r.
  - intros tr _ _ _ O. apply ordered_app; [exact O| |].
    + intros m [H|[]]. discriminate.
    + intros [H|[]]. discriminate.
Qed.

(** Its timer expires. *)
Lemma own_sv_fire s' :
  ph_sv f = SvSleeping -> In s' (step (Fire (p_sv P)) s) ->
  pipe_inv P base (with_sv f SvWoke) s'.
Proof.
  intros Hf Hin. pose proof Hin as Hstep.
  pose proof (pi_sv _ _ _ _ Inv) as Hs. rewrite Hf in Hs. simpl in Hs.
  rewrite (fire_sleeping s _ _ _ Hs) in Hin. destruct Hin as [<-|[]].
  apply (pipe_inv_own P base f (with_sv f SvWoke) (Fire (p_sv P)) s _ []
           Inv Hstep).
  - intros u. apply not_task_fire, task_sv.
  - pose proof (pi_coherent _ _ _ _ Inv) as Hc. unfold coherent in *.
    simpl. now rewrite Hf in Hc.
  - st. exact (pi_parent_sv _ _ _ _ Inv).
  - st. exact (pi_parent_rh _ _ _ _ Inv).
  - st. exact (pi_h _ _ _ _ Inv).
  - st. exact (pi_cl _ _ _ _ Inv).
  - eapply status_of_resume_eq. exact Hs.
  - st. exact (pi_rh _ _ _ _ Inv).
  - intros u c Hu Hst. st. apply in_or_app. revert Hst.
    destruct Hu as [ -> | [ -> | [ -> | -> ] ] ]; st; intros Hst.
    + left. exact (pi_ready _ _ _ _ Inv _ _ (task_h P) Hst).
    + left. exact (pi_ready _ _ _ _ Inv _ _ (task_cl P) Hst).
    + right. now left.
    + left. exact (pi_ready _ _ _ _ Inv _ _ (task_rh P) Hst).
  - st. exact (pi_gate _ _ _ _ Inv).
  - intros e _. st. reflexivity.
  - st. reflexivity.
  - st. now rewrite app_nil_r.
  - simpl. now rewrite app_nil_r.
  - simpl. now rewrite app_nil_r.
  - rewrite Hf. reflexivity.
  - simpl. now rewrite app_nil_r.
  - intros tr _ _ _ O. now rewrite app_nil_r.
Qed.

Lemma rh_status_done fr :
  rh_done fr = true -> rh_status P fr = Finished (rh_result P fr).
Proof. destruct fr; simpl; intros H; try discriminate; reflexivity. Qed.

Lemma sv_status_done fs : sv_done fs = true -> sv_status P fs = Finished Returned.
Proof. destruct fs; simpl; intros H; try discriminate; reflexivity. Qed.

(** While a sub-task has not ended, [handle_message] is in its gather. *)
Lemma gathering :
  sv_done (ph_sv f) = false \/ rh_done (ph_rh f) = false ->
  ph_h f = HGather
  /\ status_of s (p_h P)
     = Some (OnGather true [p_sv P; p_rh P] (collect_results (p_ev P))).
Proof.
  intros H. pose proof (pi_coherent _ _ _ _ Inv) as Hc.
  pose proof (pi_h _ _ _ _ Inv) as Hh. unfold coherent in Hc.
  unfold h_status in Hh. apply andb_true_iff in Hc. destruct Hc as [Hc _].
  destruct (ph_h f); [now split| |];
    apply andb_true_iff in Hc; destruct Hc as [H1 H2];
    destruct H as [H|H]; congruence.
Qed.

(** [save] ends: it logs and returns; if [restart_host] has ended too,
    the gather of [handle_message] resumes. *)
Lemma own_sv_end s' :
  ph_sv f = SvWoke -> In s' (step (Run (p_sv P)) s) ->
  pipe_inv P base
    (if rh_done (ph_rh f) then with_h (with_sv f SvDone) HResumed
     else with_sv f SvDone) s'.
Proof.
  intros Hf Hin. pose proof Hin as Hstep.
  pose proof (pi_sv _ _ _ _ Inv) as Hs. rewrite Hf in Hs. simpl in Hs.
  destruct gathering as [Hh Hhs]; [left; now rewrite Hf|].
  pose proof (pi_coherent _ _ _ _ Inv) as Hc. unfold coherent in Hc.
  rewrite Hh, Hf in Hc. simpl in Hc.
  rewrite (run_runnable s _ _ Hs (pi_ready _ _ _ _ Inv _ _ (task_sv P) Hs))
    in Hin.
  rewrite (exec_save_rest _ _ _ _
             (set_ready (remove_first (p_sv P) (ready s)) s)
             (pi_heap _ _ _ _ Inv)) in Hin.
  rewrite (finish_child _ (p_h P) _ [p_sv P; p_rh P]
             (collect_results (p_ev P))) in Hin;
    [|st; exact (pi_parent_sv _ _ _ _ Inv)|ne|st; exact Hhs].
  match type of Hin with
  | In _ [match collect ?s3 _ with _ => _ end] =>
      assert (S3sv : status_of s3 (p_sv P) = Some (Finished Returned))
        by (st; eapply status_of_set_status_eq; st; exact Hs);
      assert (S3rh : status_of s3 (p_rh P) = Some (rh_status P (ph_rh f)))
        by (st; exact (pi_rh _ _ _ _ Inv))
  end.
  destruct (rh_done (ph_rh f)) eqn:Hr.
  - rewrite (rh_status_done _ Hr) in S3rh.
    rewrite (collect_pair _ _ _ _ _ S3sv S3rh) in Hin.
    destruct Hin as [<-|[]].
    apply (pipe_inv_own P base f (with_h (with_sv f SvDone) HResumed)
             (Run (p_sv P)) s _
             [ALog (p_sv P) DEBUG (Saved (p_name P)); ADone (p_sv P) Returned]
             Inv Hstep).
    + intros u. apply not_task_run, task_sv.
    + unfold coherent. simpl. rewrite Hr. simpl.
      destruct (ph_cl f); simpl in *; congruence.
    + st. exact (pi_parent_sv _ _ _ _ Inv).
    + st. exact (pi_parent_rh _ _ _ _ Inv).
    + eapply status_of_resume_eq. st. exact Hhs.
    + st. exact (pi_cl _ _ _ _ Inv).
    + st. exact S3sv.
    + st. exact (pi_rh _ _ _ _ Inv).
    + intros u c Hu Hst. st. apply in_or_app.
      destruct Hu as [ -> | [ -> | [ -> | -> ] ] ].
      * right. now left.
      * left. apply keep_ready_run; [ne|]. revert Hst. st. intros Hst.
        exact (pi_ready _ _ _ _ Inv _ _ (task_cl P) Hst).
      * dead S3sv Hst.
      * left. apply keep_ready_run; [ne|]. revert Hst. st. intros Hst.
        exact (pi_ready _ _ _ _ Inv _ _ (task_rh P) Hst).
    + st. pose proof (pi_gate _ _ _ _ Inv) as Hg. unfold gate_of in *.
      simpl. now rewrite Hh in Hg.
    + intros e _. st. reflexivity.
    + st. reflexivity.
    + st. now rewrite <- app_assoc.
    + unfold h_trace. simpl. rewrite Hh. ids. now rewrite app_nil_r.
    + ids. now rewrite app_nil_r.
    + rewrite Hf. ids. reflexivity.
    + ids. now rewrite app_nil_r.
    + intros tr _ _ _ O. apply ordered_app; [exact O| |].
      * intros m [H|[H|[]]]; discriminate.
      * intros [H|[H|[]]]; discriminate.
  - rewrite (collect_none (p_rh P) (rh_status P (ph_rh f)) _
               [p_sv P; p_rh P]) in Hin;
      [|right; now left|exact S3rh|now apply rh_unfinished].
    destruct Hin as [<-|[]].
    apply (pipe_inv_own P base f (with_sv f SvDone) (Run (p_sv P)) s _
             [ALog (p_sv P) DEBUG (Saved (p_name P)); ADone (p_sv P) Returned]
             Inv Hstep).
    + intros u. apply not_task_run, task_sv.
    + unfold coherent. simpl. rewrite Hh, Hr. simpl.
      destruct (ph_cl f); simpl in *; congruence.
    + st. exact (pi_parent_sv _ _ _ _ Inv).
    + st. exact (pi_parent_rh _ _ _ _ Inv).
    + st. exact (pi_h _ _ _ _ Inv).
    + st. exact (pi_cl _ _ _ _ Inv).
    + exact S3sv.
    + exact S3rh.
    + intros u c Hu Hst. st.
      destruct Hu as [ -> | [ -> | [ -> | -> ] ] ].
      * dead Hhs Hst.
      * apply keep_ready_run; [ne|]. revert Hst. st. intros Hst.
        exact (pi_ready _ _ _ _ Inv _ _ (task_cl P) Hst).
      * dead S3sv Hst.
      * apply keep_ready_run; [ne|]. revert Hst. st. intros Hst.
        exact (pi_ready _ _ _ _ Inv _ _ (task_rh P) Hst).
    + st. exact (pi_gate _ _ _ _ Inv).
    + intros e _. st. reflexivity.
    + st. reflexivity.
    + st. now rewrite <- app_assoc.
    + unfold h_trace. simpl. ids. now rewrite app_nil_r.
    + ids. now rewrite app_nil_r.
    + rewrite Hf. ids. reflexivity.
    + ids. now rewrite app_nil_r.
    + intros tr _ _ _ O. apply ordered_app; [exact O| |].
      * intros m [H|[H|[]]]; discriminate.
      * intros [H|[H|[]]]; discriminate.
Qed.

(** [restart_host] starts: it goes to sleep for 1 or 2 seconds, or it
    raises at once; then, if [save] has ended, the gather resumes. *)
Lemma own_rh_start s' :
  ph_rh f = RhStart -> In s' (step (Run (p_rh P)) s) ->
  pipe_inv P base (with_rh f (RhSleeping 1)) s'
  \/ pipe_inv P base (with_rh f (RhSleeping 2)) s'
  \/ pipe_inv P base
       (if sv_done (ph_sv f) then with_h (with_rh f RhFailed) HResumed
        else with_rh f RhFailed) s'.
Proof.
  intros Hf Hin. pose proof Hin as Hstep.
  pose proof (pi_rh _ _ _ _ Inv) as Hs. rewrite Hf in Hs. simpl in Hs.
  destruct gathering as [Hh Hhs]; [right; now rewrite Hf|].
  pose proof (pi_coherent _ _ _ _ Inv) as Hc. unfold coherent in Hc.
  rewrite Hh, Hf in Hc. simpl in Hc. rewrite andb_false_r in Hc.
  simpl in Hc.
  rewrite (run_runnable s _ _ Hs (pi_ready _ _ _ _ Inv _ _ (task_rh P) Hs))
    in Hin.
  rewrite (exec_restart_host _ _ _ _
             (set_ready (remove_first (p_rh P) (ready s)) s)
             (pi_heap _ _ _ _ Inv)) in Hin.
  assert (Sleepy : forall secs,
             (secs = 1 \/ secs = 2)%Z ->
             pipe_inv P base (with_rh f (RhSleeping secs))
               (emit (ASleep (p_rh P) (Seconds secs))
                  (set_status (p_rh P)
                     (Sleeping (Seconds secs) (restart_rest (p_msg P)))
                     (set_ready (remove_first (p_rh P) (ready s)) s)))).
  { intros secs Hsecs.
    apply (pipe_inv_own P base f (with_rh f (RhSleeping secs))
             (Run (p_rh P)) s _ [ASleep (p_rh P) (Seconds secs)] Inv).
    - rewrite (run_runnable s _ _ Hs
                 (pi_ready _ _ _ _ Inv _ _ (task_rh P) Hs)).
      rewrite (exec_restart_host _ _ _ _
                 (set_ready (remove_first (p_rh P) (ready s)) s)
                 (pi_heap _ _ _ _ Inv)).
      destruct Hsecs as [ -> | -> ]; [left|right; left]; reflexivity.
    - intros u. apply not_task_run, task_rh.
    - unfold coherent. simpl. rewrite Hh. simpl. rewrite andb_false_r.
      exact Hc.
    - st. exact (pi_parent_sv _ _ _ _ Inv).
    - st. exact (pi_parent_rh _ _ _ _ Inv).
    - st. unfold h_status. simpl. rewrite Hh. exact Hhs.
    - st. exact (pi_cl _ _ _ _ Inv).
    - st. exact (pi_sv _ _ _ _ Inv).
    - st. eapply status_of_set_status_eq. exact Hs.
    - intros u c Hu Hst. st. apply keep_ready_run.
      + destruct Hu as [ -> | [ -> | [ -> | -> ] ] ]; try ne.
        exfalso. revert Hst. st.
        erewrite status_of_set_status_eq by exact Hs. discriminate.
      + destruct Hu as [ -> | [ -> | [ -> | -> ] ] ].
        * revert Hst. st. intros Hst.
          exact (pi_ready _ _ _ _ Inv _ _ (task_h P) Hst).
        * revert Hst. st. intros Hst.
          exact (pi_ready _ _ _ _ Inv _ _ (task_cl P) Hst).
        * revert Hst. st. intros Hst.
          exact (pi_ready _ _ _ _ Inv _ _ (task_sv P) Hst).
        * exact (pi_ready _ _ _ _ Inv _ _ (task_rh P) Hs).
    - st. exact (pi_gate _ _ _ _ Inv).
    - intros e _. st. reflexivity.
    - st. reflexivity.
    - st. reflexivity.
    - unfold h_trace. simpl. rewrite Hh. ids. now rewrite app_nil_r.
    - ids. now rewrite app_nil_r.
    - ids. now rewrite app_nil_r.
    - rewrite Hf. ids. reflexivity.
    - intros tr _ _ _ O. apply ordered_app; [exact O| |].
      + intros m [H|[]]. discriminate.
      + intros [H|[]]. discriminate. }
  destruct Hin as [<-|[<-|[<-|[]]]];
    [left; apply Sleepy; now left|right; left; apply Sleepy; now right
    |right; right].
  clear Sleepy.
  assert (E : forall o s0,
             parent_of s0 (p_rh P) = Some (p_h P) ->
             status_of s0 (p_h P)
             = Some (OnGather true [p_sv P; p_rh P]
                       (collect_results (p_ev P))) ->
             finish (p_rh P) o s0
             = match
                 collect
                   (emit (ADone (p_rh P) o)
                      (set_status (p_rh P) (Finished o) s0))
                   [p_sv P; p_rh P]
               with
               | Some os =>
                   resume (p_h P) (collect_results (p_ev P) os)
                     (emit (ADone (p_rh P) o)
                        (set_status (p_rh P) (Finished o) s0))
               | None =>
                   emit (ADone (p_rh P) o)
                     (set_status (p_rh P) (Finished o) s0)
               end).
  { intros o s0 H1 H2. apply finish_child; [exact H1|ne|exact H2]. }
  rewrite E in Hstep |- *;
    try (st; exact (pi_parent_rh _ _ _ _ Inv)); try (st; exact Hhs).
  clear E.
  match goal with
  | |- pipe_inv _ _ _ (match collect ?s3 _ with _ => _ end) =>
      assert (S3rh : status_of s3 (p_rh P)
                     = Some (Finished (Raised (restart_error (p_name P)))))
        by (st; eapply status_of_set_status_eq; st; exact Hs);
      assert (S3sv : status_of s3 (p_sv P) = Some (sv_status P (ph_sv f)))
        by (st; exact (pi_sv _ _ _ _ Inv))
  end.
  destruct (sv_done (ph_sv f)) eqn:Hr.
  - rewrite (sv_status_done _ Hr) in S3sv.
    rewrite (collect_pair _ _ _ _ _ S3sv S3rh) in Hstep |- *.
    apply (pipe_inv_own P base f (with_h (with_rh f RhFailed) HResumed)
             (Run (p_rh P)) s _
             [ADone (p_rh P) (Raised (restart_error (p_name P)))]
             Inv Hstep).
    + intros u. apply not_task_run, task_rh.
    + unfold coherent. simpl. rewrite Hr. simpl.
      destruct (ph_cl f); simpl in *; congruence.
    + st. exact (pi_parent_sv _ _ _ _ Inv).
    + st. exact (pi_parent_rh _ _ _ _ Inv).
    + eapply status_of_resume_eq. st. exact Hhs.
    + st. exact (pi_cl _ _ _ _ Inv).
    + st. exact (pi_sv _ _ _ _ Inv).
    + st. exact S3rh.
    + intros u c Hu Hst. st. apply in_or_app.
      destruct Hu as [ -> | [ -> | [ -> | -> ] ] ].
      * right. now left.
      * left. apply keep_ready_run; [ne|]. revert Hst. st. intros Hst.
        exact (pi_ready _ _ _ _ Inv _ _ (task_cl P) Hst).
      * left. apply keep_ready_run; [ne|]. revert Hst. st. intros Hst.
        exact (pi_ready _ _ _ _ Inv _ _ (task_sv P) Hst).
      * dead S3rh Hst.
    + st. pose proof (pi_gate _ _ _ _ Inv) as Hg. unfold gate_of in *.
      simpl. now rewrite Hh in Hg.
    + intros e _. st. reflexivity.
    + st. reflexivity.
    + st. reflexivity.
    + unfold h_trace. simpl. rewrite Hh. ids. now rewrite app_nil_r.
    + ids. now rewrite app_nil_r.
    + ids. now rewrite app_nil_r.
    + rewrite Hf. ids. reflexivity.
    + intros tr _ _ _ O. apply ordered_app; [exact O| |].
      * intros m [H|[]]; discriminate.
      * intros [H|[]]; discriminate.
  - rewrite (collect_none (p_sv P) (sv_status P (ph_sv f)) _
               [p_sv P; p_rh P]);
      [|now left|exact S3sv|now apply sv_unfinished].
    rewrite (collect_none (p_sv P) (sv_status P (ph_sv f)) _
               [p_sv P; p_rh P]) in Hstep;
      [|now left|exact S3sv|now apply sv_unfinished].
    apply (pipe_inv_own P base f (with_rh f RhFailed) (Run (p_rh P)) s _
             [ADone (p_rh P) (Raised (restart_error (p_name P)))]
             Inv Hstep).
    + intros u. apply not_task_run, task_rh.
    + unfold coherent. simpl. rewrite Hh, Hr. simpl. exact Hc.
    + st. exact (pi_parent_sv _ _ _ _ Inv).
    + st. exact (pi_parent_rh _ _ _ _ Inv).
    + st. unfold h_status. simpl. rewrite Hh. exact Hhs.
    + st. exact (pi_cl _ _ _ _ Inv).
    + exact S3sv.
    + exact S3rh.
    + intros u c Hu Hst. st.
      destruct Hu as [ -> | [ -> | [ -> | -> ] ] ].
      * dead Hhs Hst.
      * apply keep_ready_run; [ne|]. revert Hst. st. intros Hst.
        exact (pi_ready _ _ _ _ Inv _ _ (task_cl P) Hst).
      * apply keep_ready_run; [ne|]. revert Hst. st. intros Hst.
        exact (pi_ready _ _ _ _ Inv _ _ (task_sv P) Hst).
      * dead S3rh Hst.
    + st. exact (pi_gate _ _ _ _ Inv).
    + intros e _. st. reflexivity.
    + st. reflexivity.
    + st. reflexivity.
    + unfold h_trace. simpl. rewrite Hh. ids. now rewrite app_nil_r.
    + ids. now rewrite app_nil_r.
    + ids. now rewrite app_nil_r.
    + rewrite Hf. ids. reflexivity.
    + intros tr _ _ _ O. apply ordered_app; [exact O| |].
      * intros m [H|[]]; discriminate.
      * intros [H|[]]; discriminate.
Qed.

(** Its timer expires. *)
Lemma own_rh_fire s' secs :
  ph_rh f = RhSleeping secs -> In s' (step (Fire (p_rh P)) s) ->
  pipe_inv P base (with_rh f (RhWoke secs)) s'.
Proof.
  intros Hf Hin. pose proof Hin as Hstep.
  pose proof (pi_rh _ _ _ _ Inv) as Hs. rewrite Hf in Hs. simpl in Hs.
  destruct gathering as [Hh Hhs]; [right; now rewrite Hf|].
  pose proof (pi_coherent _ _ _ _ Inv) as Hc. unfold coherent in Hc.
  rewrite Hh, Hf in Hc. simpl in Hc. rewrite andb_false_r in Hc.
  simpl in Hc.
  rewrite (fire_sleeping s _ _ _ Hs) in Hin. destruct Hin as [<-|[]].
  apply (pipe_inv_own P base f (with_rh f (RhWoke secs)) (Fire (p_rh P)) s _
           [] Inv Hstep).
  - intros u. apply not_task_fire, task_rh.
  - unfold coherent. simpl. rewrite Hh. simpl. rewrite andb_false_r.
    exact Hc.
  - st. exact (pi_parent_sv _ _ _ _ Inv).
  - st. exact (pi_parent_rh _ _ _ _ Inv).
  - st. unfold h_status. simpl. rewrite Hh. exact Hhs.
  - st. exact (pi_cl _ _ _ _ Inv).
  - st. exact (pi_sv _ _ _ _ Inv).
  - eapply status_of_resume_eq. exact Hs.
  - intros u c Hu Hst. st. apply in_or_app.
    destruct Hu as [ -> | [ -> | [ -> | -> ] ] ].
    + dead Hhs Hst.
    + left. revert Hst. st. intros Hst.
      exact (pi_ready _ _ _ _ Inv _ _ (task_cl P) Hst).
    + left. revert Hst. st. intros Hst.
      exact (pi_ready _ _ _ _ Inv _ _ (task_sv P) Hst).
    + right. now left.
  - st. exact (pi_gate _ _ _ _ Inv).
  - intros e _. st. reflexivity.
  - st. reflexivity.
  - st. now rewrite app_nil_r.
  - unfold h_trace. simpl. rewrite Hh. now rewrite app_nil_r.
  - simpl. now rewrite app_nil_r.
  - simpl. now rewrite app_nil_r.
  - rewrite Hf. reflexivity.
  - intros tr _ _ _ O. now rewrite app_nil_r.
Qed.

(** [restart_host] ends: it logs and returns; if [save] has ended too,
    the gather of [handle_message] resumes. *)
Lemma own_rh_end s' secs :
  ph_rh f = RhWoke secs -> In s' (step (Run (p_rh P)) s) ->
  pipe_inv P base
    (if sv_done (ph_sv f) then with_h (with_rh f (RhDone secs)) HResumed
     else with_rh f (RhDone secs)) s'.
Proof.
  intros Hf Hin. pose proof Hin as Hstep.
  pose proof (pi_rh _ _ _ _ Inv) as Hs. rewrite Hf in Hs. simpl in Hs.
  destruct gathering as [Hh Hhs]; [right; now rewrite Hf|].
  pose proof (pi_coherent _ _ _ _ Inv) as Hc. unfold coherent in Hc.
  rewrite Hh, Hf in Hc. simpl in Hc. rewrite andb_false_r in Hc.
  simpl in Hc.
  rewrite (run_runnable s _ _ Hs (pi_ready _ _ _ _ Inv _ _ (task_rh P) Hs))
    in Hin.
  rewrite (exec_restart_rest _ _ _ _
             (set_ready (remove_first (p_rh P) (ready s)) s)
             (pi_heap _ _ _ _ Inv)) in Hin.
  destruct Hin as [<-|[]].
  rewrite (finish_child (p_rh P) (p_h P) Returned [p_sv P; p_rh P]
             (collect_results (p_ev P))) in Hstep |- *;
    try (st; exact (pi_parent_rh _ _ _ _ Inv)); try (st; exact Hhs);
    try ne.
  match goal with
  | |- pipe_inv _ _ _ (match collect ?s3 _ with _ => _ end) =>
      assert (S3rh : status_of s3 (p_rh P) = Some (Finished Returned))
        by (st; eapply status_of_set_status_eq; st; exact Hs);
      assert (S3sv : status_of s3 (p_sv P) = Some (sv_status P (ph_sv f)))
        by (st; exact (pi_sv _ _ _ _ Inv))
  end.
  destruct (sv_done (ph_sv f)) eqn:Hr.
  - rewrite (sv_status_done _ Hr) in S3sv.
    rewrite (collect_pair _ _ _ _ _ S3sv S3rh) in Hstep |- *.
    apply (pipe_inv_own P base f (with_h (with_rh f (RhDone secs)) HResumed)
             (Run (p_rh P)) s _
             [ALog (p_rh P) DEBUG (Restarted (hostname_of (p_name P)));
              ADone (p_rh P) Returned]
             Inv Hstep).
    + intros u. apply not_task_run, task_rh.
    + unfold coherent. simpl. rewrite Hr. simpl.
      destruct (ph_cl f); simpl in *; congruence.
    + st. exact (pi_parent_sv _ _ _ _ Inv).
    + st. exact (pi_parent_rh _ _ _ _ Inv).
    + eapply status_of_resume_eq. st. exact Hhs.
    + st. exact (pi_cl _ _ _ _ Inv).
    + st. exact (pi_sv _ _ _ _ Inv).
    + st. exact S3rh.
    + intros u c Hu Hst. st. apply in_or_app.
      destruct Hu as [ -> | [ -> | [ -> | -> ] ] ].
      * right. now left.
      * left. apply keep_ready_run; [ne|]. revert Hst. st. intros Hst.
        exact (pi_ready _ _ _ _ Inv _ _ (task_cl P) Hst).
      * left. apply keep_ready_run; [ne|]. revert Hst. st. intros Hst.
        exact (pi_ready _ _ _ _ Inv _ _ (task_sv P) Hst).
      * dead S3rh Hst.
    + st. pose proof (pi_gate _ _ _ _ Inv) as Hg. unfold gate_of in *.
      simpl. now rewrite Hh in Hg.
    + intros e _. st. reflexivity.
    + st. reflexivity.
    + st. now rewrite <- app_assoc.
    + unfold h_trace. simpl. rewrite Hh. ids. now rewrite app_nil_r.
    + ids. now rewrite app_nil_r.
    + ids. now rewrite app_nil_r.
    + rewrite Hf. ids. reflexivity.
    + intros tr _ _ _ O. apply ordered_app; [exact O| |].
      * intros m [H|[H|[]]]; discriminate.
      * intros [H|[H|[]]]; discriminate.
  - rewrite (collect_none (p_sv P) (sv_status P (ph_sv f)) _
               [p_sv P; p_rh P]) in Hstep |- *;
      try (now left); try exact S3sv; try (now apply sv_unfinished).
    apply (pipe_inv_own P base f (with_rh f (RhDone secs)) (Run (p_rh P)) s _
             [ALog (p_rh P) DEBUG (Restarted (hostname_of (p_name P)));
              ADone (p_rh P) Returned]
             Inv Hstep).
    + intros u. apply not_task_run, task_rh.
    + unfold coherent. simpl. rewrite Hh, Hr. simpl. exact Hc.
    + st. exact (pi_parent_sv _ _ _ _ Inv).
    + st. exact (pi_parent_rh _ _ _ _ Inv).
    + st. unfold h_status. simpl. rewrite Hh. exact Hhs.
    + st. exact (pi_cl _ _ _ _ Inv).
    + exact S3sv.
    + exact S3rh.
    + intros u c Hu Hst. st.
      destruct Hu as [ -> | [ -> | [ -> | -> ] ] ].
      * dead Hhs Hst.
      * apply keep_ready_run; [ne|]. revert Hst. st. intros Hst.
        exact (pi_ready _ _ _ _ Inv _ _ (task_cl P) Hst).
      * apply keep_ready_run; [ne|]. revert Hst. st. intros Hst.
        exact (pi_ready _ _ _ _ Inv _ _ (task_sv P) Hst).
      * dead S3rh Hst.
    + st. exact (pi_gate _ _ _ _ Inv).
    + intros e _. st. reflexivity.
    + st. reflexivity.
    + st. now rewrite <- app_assoc.
    + unfold h_trace. simpl. rewrite Hh. ids. now rewrite app_nil_r.
    + ids. now rewrite app_nil_r.
    + ids. now rewrite app_nil_r.
    + rewrite Hf. ids. reflexivity.
    + intros tr _ _ _ O. apply ordered_app; [exact O| |].
      * intros m [H|[H|[]]]; discriminate.
      * intros [H|[H|[]]]; discriminate.
Qed.

(** What holds once [handle_message] has set the gate. *)
Lemma gate_is_set :
  h_done (ph_h f) = true ->
  ph_h f = HDone /\ sv_done (ph_sv f) = true /\ rh_done (ph_rh f) = true.
Proof.
  intros H. pose proof (pi_coherent _ _ _ _ Inv) as Hc. unfold coherent in Hc.
  apply andb_true_iff in Hc. destruct Hc as [Hc _].
  destruct (ph_h f); try discriminate.
  apply andb_true_iff in Hc. tauto.
Qed.

(** [cleanup] starts: it waits for the gate, or goes to sleep at once if
    the gate is set already. *)
Lemma own_cl_start s' :
  ph_cl f = ClStart -> In s' (step (Run (p_cl P)) s) ->
  pipe_inv P base
    (with_cl f (if h_done (ph_h f) then ClSleeping false else ClParked)) s'.
Proof.
  intros Hf Hin. pose proof Hin as Hstep.
  pose proof (pi_cl _ _ _ _ Inv) as Hs. rewrite Hf in Hs. simpl in Hs.
  pose proof (pi_gate _ _ _ _ Inv) as Hg. unfold gate_of in Hg.
  rewrite Hf in Hg.
  pose proof (pi_coherent _ _ _ _ Inv) as Hc. unfold coherent in Hc.
  rewrite Hf, andb_true_r in Hc.
  rewrite (run_runnable s _ _ Hs (pi_ready _ _ _ _ Inv _ _ (task_cl P) Hs))
    in Hin.
  rewrite (exec_cleanup _ _ _ _
             (set_ready (remove_first (p_cl P) (ready s)) s) Hg) in Hin.
  cbn [is_set] in Hin.
  destruct (h_done (ph_h f)) eqn:Hd; destruct Hin as [<-|[]].
  - apply (pipe_inv_own P base f (with_cl f (ClSleeping false))
             (Run (p_cl P)) s _ [ASleep (p_cl P) RandomUnit] Inv Hstep).
    + intros u. apply not_task_run, task_cl.
    + unfold coherent. simpl. rewrite Hc, Hd. reflexivity.
    + st. exact (pi_parent_sv _ _ _ _ Inv).
    + st. exact (pi_parent_rh _ _ _ _ Inv).
    + st. exact (pi_h _ _ _ _ Inv).
    + st. eapply status_of_set_status_eq. exact Hs.
    + st. exact (pi_sv _ _ _ _ Inv).
    + st. exact (pi_rh _ _ _ _ Inv).
    + intros u c Hu Hst. st.
      destruct Hu as [ -> | [ -> | [ -> | -> ] ] ].
      * apply keep_ready_run; [ne|]. revert Hst. st. intros Hst.
        exact (pi_ready _ _ _ _ Inv _ _ (task_h P) Hst).
      * exfalso. revert Hst. st.
        erewrite status_of_set_status_eq by exact Hs. discriminate.
      * apply keep_ready_run; [ne|]. revert Hst. st. intros Hst.
        exact (pi_ready _ _ _ _ Inv _ _ (task_sv P) Hst).
      * apply keep_ready_run; [ne|]. revert Hst. st. intros Hst.
        exact (pi_ready _ _ _ _ Inv _ _ (task_rh P) Hst).
    + st. unfold gate_of. simpl. now rewrite Hd.
    + intros e _. st. reflexivity.
    + st. reflexivity.
    + st. reflexivity.
    + unfold h_trace. simpl. ids. now rewrite app_nil_r.
    + rewrite Hf. ids. reflexivity.
    + ids. now rewrite app_nil_r.
    + ids. now rewrite app_nil_r.
    + intros tr _ _ _ O. apply ordered_app; [exact O| |].
      * intros m [H|[]]. discriminate.
      * intros [H|[]]. discriminate.
  - unfold event_park in *. cbn [is_set waiters app] in *.
    assert (Hev : p_ev P < length (events s))
      by (eapply lookup_lt_Some; exact Hg).
    apply (pipe_inv_own P base f (with_cl f ClParked)
             (Run (p_cl P)) s _ [AWait (p_cl P) (p_ev P)] Inv Hstep).
    + intros u. apply not_task_run, task_cl.
    + unfold coherent. simpl. rewrite Hc, Hd. reflexivity.
    + st. exact (pi_parent_sv _ _ _ _ Inv).
    + st. exact (pi_parent_rh _ _ _ _ Inv).
    + st. exact (pi_h _ _ _ _ Inv).
    + st. eapply status_of_set_status_eq. exact Hs.
    + st. exact (pi_sv _ _ _ _ Inv).
    + st. exact (pi_rh _ _ _ _ Inv).
    + intros u c Hu Hst. st.
      destruct Hu as [ -> | [ -> | [ -> | -> ] ] ].
      * apply keep_ready_run; [ne|]. revert Hst. st. intros Hst.
        exact (pi_ready _ _ _ _ Inv _ _ (task_h P) Hst).
      * exfalso. revert Hst. st.
        erewrite status_of_set_status_eq by exact Hs. discriminate.
      * apply keep_ready_run; [ne|]. revert Hst. st. intros Hst.
        exact (pi_ready _ _ _ _ Inv _ _ (task_sv P) Hst).
      * apply keep_ready_run; [ne|]. revert Hst. st. intros Hst.
        exact (pi_ready _ _ _ _ Inv _ _ (task_rh P) Hst).
    + st. rewrite list_lookup_insert_eq by exact Hev.
      unfold gate_of. simpl. now rewrite Hd.
    + intros e He. st. now rewrite list_lookup_insert_ne by congruence.
    + st. reflexivity.
    + st. reflexivity.
    + unfold h_trace. simpl. ids. now rewrite app_nil_r.
    + rewrite Hf. ids. reflexivity.
    + ids. now rewrite app_nil_r.
    + ids. now rewrite app_nil_r.
    + intros tr _ _ _ O. apply ordered_app; [exact O| |].
      * intros m [H|[]]. discriminate.
      * intros [H|[]]. discriminate.
Qed.

(** [cleanup], woken by the gate, goes to sleep. *)
Lemma own_cl_woken s' :
  ph_cl f = ClWoken -> In s' (step (Run (p_cl P)) s) ->
  pipe_inv P base (with_cl f (ClSleeping true)) s'.
Proof.
  intros Hf Hin. pose proof Hin as Hstep.
  pose proof (pi_cl _ _ _ _ Inv) as Hs. rewrite Hf in Hs. simpl in Hs.
  pose proof (pi_gate _ _ _ _ Inv) as Hg. unfold gate_of in Hg.
  rewrite Hf in Hg.
  pose proof (pi_coherent _ _ _ _ Inv) as Hc. unfold coherent in Hc.
  rewrite Hf in Hc.
  rewrite (run_runnable s _ _ Hs (pi_ready _ _ _ _ Inv _ _ (task_cl P) Hs))
    in Hin.
  rewrite exec_cleanup_rest in Hin. destruct Hin as [<-|[]].
  apply (pipe_inv_own P base f (with_cl f (ClSleeping true))
           (Run (p_cl P)) s _ [ASleep (p_cl P) RandomUnit] Inv Hstep).
  - intros u. apply not_task_run, task_cl.
  - unfold coherent. simpl. exact Hc.
  - st. exact (pi_parent_sv _ _ _ _ Inv).
  - st. exact (pi_parent_rh _ _ _ _ Inv).
  - st. exact (pi_h _ _ _ _ Inv).
  - st. eapply status_of_set_status_eq. exact Hs.
  - st. exact (pi_sv _ _ _ _ Inv).
  - st. exact (pi_rh _ _ _ _ Inv).
  - intros u c Hu Hst. st.
    destruct Hu as [ -> | [ -> | [ -> | -> ] ] ].
    + apply keep_ready_run; [ne|]. revert Hst. st. intros Hst.
      exact (pi_ready _ _ _ _ Inv _ _ (task_h P) Hst).
    + exfalso. revert Hst. st.
      erewrite status_of_set_status_eq by exact Hs. discriminate.
    + apply keep_ready_run; [ne|]. revert Hst. st. intros Hst.
      exact (pi_ready _ _ _ _ Inv _ _ (task_sv P) Hst).
    + apply keep_ready_run; [ne|]. revert Hst. st. intros Hst.
      exact (pi_ready _ _ _ _ Inv _ _ (task_rh P) Hst).
  - st. unfold gate_of. simpl. exact Hg.
  - intros e _. st. reflexivity.
  - st. reflexivity.
  - st. reflexivity.
  - unfold h_trace. simpl. ids. now rewrite app_nil_r.
  - rewrite Hf. ids. reflexivity.
  - ids. now rewrite app_nil_r.
  - ids. now rewrite app_nil_r.
  - intros tr _ _ _ O. apply ordered_app; [exact O| |].
    + intros m [H|[]]. discriminate.
    + intros [H|[]]. discriminate.
Qed.

(** Its timer expires. *)
Lemma own_cl_fire s' b :
  ph_cl f = ClSleeping b -> In s' (step (Fire (p_cl P)) s) ->
  pipe_inv P base (with_cl f (ClWoke b)) s'.
Proof.
  intros Hf Hin. pose proof Hin as Hstep.
  pose proof (pi_cl _ _ _ _ Inv) as Hs. rewrite Hf in Hs. simpl in Hs.
  pose proof (pi_gate _ _ _ _ Inv) as Hg. unfold gate_of in Hg.
  rewrite Hf in Hg.
  pose proof (pi_coherent _ _ _ _ Inv) as Hc. unfold coherent in Hc.
  rewrite Hf in Hc.
  rewrite (fire_sleeping s _ _ _ Hs) in Hin. destruct Hin as [<-|[]].
  apply (pipe_inv_own P base f (with_cl f (ClWoke b)) (Fire (p_cl P)) s _ []
           Inv Hstep).
  - intros u. apply not_task_fire, task_cl.
  - unfold coherent. simpl. exact Hc.
  - st. exact (pi_parent_sv _ _ _ _ Inv).
  - st. exact (pi_parent_rh _ _ _ _ Inv).
  - st. exact (pi_h _ _ _ _ Inv).
  - eapply status_of_resume_eq. exact Hs.
  - st. exact (pi_sv _ _ _ _ Inv).
  - st. exact (pi_rh _ _ _ _ Inv).
  - intros u c Hu Hst. st. apply in_or_app.
    destruct Hu as [ -> | [ -> | [ -> | -> ] ] ].
    + left. revert Hst. st. intros Hst.
      exact (pi_ready _ _ _ _ Inv _ _ (task_h P) Hst).
    + right. now left.
    + left. revert Hst. st. intros Hst.
      exact (pi_ready _ _ _ _ Inv _ _ (task_sv P) Hst).
    + left. revert Hst. st. intros Hst.
      exact (pi_ready _ _ _ _ Inv _ _ (task_rh P) Hst).
  - st. unfold gate_of. simpl. exact Hg.
  - intros e _. st. reflexivity.
  - st. reflexivity.
  - st. now rewrite app_nil_r.
  - simpl. now rewrite app_nil_r.
  - rewrite Hf. simpl. now rewrite app_nil_r.
  - simpl. now rewrite app_nil_r.
  - simpl. now rewrite app_nil_r.
  - intros tr _ _ _ O. now rewrite app_nil_r.
Qed.

(** [cleanup] ends: it acks, logs and returns. *)
Lemma own_cl_end s' b :
  ph_cl f = ClWoke b -> In s' (step (Run (p_cl P)) s) ->
  pipe_inv P base (with_cl f (ClDone b)) s'.
Proof.
  intros Hf Hin. pose proof Hin as Hstep.
  pose proof (pi_cl _ _ _ _ Inv) as Hs. rewrite Hf in Hs. simpl in Hs.
  pose proof (pi_gate _ _ _ _ Inv) as Hg. unfold gate_of in Hg.
  rewrite Hf in Hg.
  pose proof (pi_coherent _ _ _ _ Inv) as Hc. unfold coherent in Hc.
  rewrite Hf in Hc. apply andb_true_iff in Hc. destruct Hc as [Hc Hd].
  destruct (gate_is_set Hd) as (Hh & Hsv & Hrh).
  pose proof (pi_h _ _ _ _ Inv) as Hhs. unfold h_status in Hhs.
  rewrite Hh in Hhs.
  rewrite (run_runnable s _ _ Hs (pi_ready _ _ _ _ Inv _ _ (task_cl P) Hs))
    in Hin.
  rewrite exec_cleanup_ack in Hin. destruct Hin as [<-|[]].
  apply (pipe_inv_own P base f (with_cl f (ClDone b)) (Run (p_cl P)) s _
           [AAck (p_cl P) (p_pm P);
            ALog (p_cl P) DEBUG (DoneAcked (message_id (p_pm P)));
            ADone (p_cl P) Returned] Inv Hstep).
  - intros u. apply not_task_run, task_cl.
  - unfold coherent. simpl. now rewrite Hc, Hd.
  - st. exact (pi_parent_sv _ _ _ _ Inv).
  - st. exact (pi_parent_rh _ _ _ _ Inv).
  - unfold h_status. simpl. rewrite Hh.
    apply passive_finish; [ne|exact I|]. st. exact Hhs.
  - eapply status_of_finish. st. exact Hs.
  - apply passive_finish; [ne|apply sv_passive|]. st.
    exact (pi_sv _ _ _ _ Inv).
  - apply passive_finish; [ne|apply rh_passive|]. st.
    exact (pi_rh _ _ _ _ Inv).
  - intros u c Hu Hst. apply ready_finish. st.
    destruct Hu as [ -> | [ -> | [ -> | -> ] ] ].
    + exfalso.
      rewrite (passive_finish _ _ _ _ (Finished Returned)) in Hst;
        [discriminate|ne|exact I|st; exact Hhs].
    + exfalso. erewrite status_of_finish in Hst; [discriminate|].
      st. exact Hs.
    + apply keep_ready_run; [ne|].
      rewrite (passive_finish _ _ _ _ (sv_status P (ph_sv f))) in Hst;
        [|ne|apply sv_passive|st; exact (pi_sv _ _ _ _ Inv)].
      apply (pi_ready _ _ _ _ Inv _ c (task_sv P)).
      rewrite (pi_sv _ _ _ _ Inv). exact Hst.
    + apply keep_ready_run; [ne|].
      rewrite (passive_finish _ _ _ _ (rh_status P (ph_rh f))) in Hst;
        [|ne|apply rh_passive|st; exact (pi_rh _ _ _ _ Inv)].
      apply (pi_ready _ _ _ _ Inv _ c (task_rh P)).
      rewrite (pi_rh _ _ _ _ Inv). exact Hst.
  - st. unfold gate_of. simpl. exact Hg.
  - intros e _. st. reflexivity.
  - st. reflexivity.
  - st. now rewrite <- !app_assoc.
  - unfold h_trace. simpl. ids. now rewrite app_nil_r.
  - rewrite Hf. ids. simpl. now rewrite <- app_assoc.
  - ids. now rewrite app_nil_r.
  - ids. now rewrite app_nil_r.
  - intros tr Th Tsv Trh O. apply ordered_app_ack; [exact O| | |].
    + exact (both_ended_done P _ _ tr Hsv Hrh Tsv Trh).
    + apply (in_filtered _ _ _ _ Th). unfold h_trace. rewrite Hh.
      apply in_or_app. right. apply in_or_app. right. now left.
    + intros [H|[H|[H|[]]]]; discriminate.
Qed.

(** [handle_message] resumes with the results of gather: it logs the
    exceptions, sets the gate, which wakes [cleanup] if it waits, and
    returns. *)
Lemma own_h_run s' :
  ph_h f = HResumed -> In s' (step (Run (p_h P)) s) ->
  pipe_inv P base
    (with_h
       (with_cl f (match ph_cl f with ClParked => ClWoken | x => x end))
       HDone) s'.
Proof.
  intros Hf Hin. pose proof Hin as Hstep.
  pose proof (pi_h _ _ _ _ Inv) as Hs. unfold h_status in Hs.
  rewrite Hf in Hs.
  pose proof (pi_gate _ _ _ _ Inv) as Hg. unfold gate_of in Hg.
  rewrite Hf in Hg. cbn [h_done] in Hg.
  pose proof (pi_coherent _ _ _ _ Inv) as Hc. unfold coherent in Hc.
  rewrite Hf in Hc. cbn [h_done negb] in Hc.
  apply andb_true_iff in Hc. destruct Hc as [Hc Hcl].
  apply andb_true_iff in Hc. destruct Hc as [Hsv Hrh].
  assert (Hev : p_ev P < length (events s))
    by (eapply lookup_lt_Some; exact Hg).
  pose proof (pi_cl _ _ _ _ Inv) as Hcs.
  pose proof (pi_sv _ _ _ _ Inv) as Hss.
  pose proof (pi_rh _ _ _ _ Inv) as Hrs.
  rewrite (run_runnable s _ _ Hs (pi_ready _ _ _ _ Inv _ _ (task_h P) Hs))
    in Hin.
  rewrite (exec_collect_results _ _ _ _
             (set_ready (remove_first (p_h P) (ready s)) s) Hg) in Hin.
  destruct Hin as [<-|[]].
  unfold event_set in *. cbn [waiters] in *.
  set (logs := map (fun e => ALog (p_h P) DEBUG (CaughtException e))
                 (exceptions [Returned; rh_result P (ph_rh f)])).
  assert (Et : forall s0,
             trace (fold_left (log_caught (p_h P))
                      (exceptions [Returned; rh_result P (ph_rh f)]) s0)
             = trace s0 ++ logs) by (intros; apply trace_log_caught).
  assert (Es : forall s0 u,
             status_of (fold_left (log_caught (p_h P))
                          (exceptions [Returned; rh_result P (ph_rh f)]) s0)
               u
             = status_of s0 u).
  { intros s0 u. destruct (rh_result P (ph_rh f)); reflexivity. }
  assert (Ep : forall s0 u,
             parent_of (fold_left (log_caught (p_h P))
                          (exceptions [Returned; rh_result P (ph_rh f)]) s0)
               u
             = parent_of s0 u).
  { intros s0 u. destruct (rh_result P (ph_rh f)); reflexivity. }
  assert (Er : forall s0,
             ready (fold_left (log_caught (p_h P))
                      (exceptions [Returned; rh_result P (ph_rh f)]) s0)
             = ready s0).
  { intros s0. destruct (rh_result P (ph_rh f)); reflexivity. }
  assert (El : forall s0,
             length (tasks (fold_left (log_caught (p_h P))
                      (exceptions [Returned; rh_result P (ph_rh f)]) s0))
             = length (tasks s0)).
  { intros s0. destruct (rh_result P (ph_rh f)); reflexivity. }
  assert (Ee := fun s0 => events_log_caught (p_h P)
                   (exceptions [Returned; rh_result P (ph_rh f)]) s0).
  destruct (ph_cl f) eqn:Hfc; try discriminate; cbn [cl_status] in Hcs.
  - (* cleanup has not started: nobody waits *)
    cbn [wake_all] in *.
    apply (pipe_inv_own P base f (with_h (with_cl f ClStart) HDone)
             (Run (p_h P)) s _
             (logs ++ [ASet (p_h P) (p_ev P); ADone (p_h P) Returned])
             Inv Hstep).
    + intros u. apply not_task_run, task_h.
    + unfold coherent. simpl. now rewrite Hsv, Hrh.
    + st. rewrite Ep. st. exact (pi_parent_sv _ _ _ _ Inv).
    + st. rewrite Ep. st. exact (pi_parent_rh _ _ _ _ Inv).
    + eapply status_of_finish. st. rewrite Es. st. exact Hs.
    + apply passive_finish; [ne|exact I|]. st. rewrite Es. st. exact Hcs.
    + apply passive_finish; [ne|apply sv_passive|]. st. rewrite Es. st.
      exact Hss.
    + apply passive_finish; [ne|apply rh_passive|]. st. rewrite Es. st.
      exact Hrs.
    + intros u c Hu Hst. apply ready_finish. st. rewrite Er. st.
      destruct Hu as [ -> | [ -> | [ -> | -> ] ] ].
      * exfalso. erewrite status_of_finish in Hst; [discriminate|].
        st. rewrite Es. st. exact Hs.
      * apply keep_ready_run; [ne|].
        exact (pi_ready _ _ _ _ Inv _ _ (task_cl P) Hcs).
      * apply keep_ready_run; [ne|].
        rewrite (passive_finish _ _ _ _ (sv_status P (ph_sv f))) in Hst;
          [|ne|apply sv_passive|st; rewrite Es; st; exact Hss].
        apply (pi_ready _ _ _ _ Inv _ c (task_sv P)).
        rewrite Hss. exact Hst.
      * apply keep_ready_run; [ne|].
        rewrite (passive_finish _ _ _ _ (rh_status P (ph_rh f))) in Hst;
          [|ne|apply rh_passive|st; rewrite Es; st; exact Hrs].
        apply (pi_ready _ _ _ _ Inv _ c (task_rh P)).
        rewrite Hrs. exact Hst.
    + st. rewrite Ee. st. now rewrite list_lookup_insert_eq by exact Hev.
    + intros e He. st. rewrite Ee. st.
      now rewrite list_lookup_insert_ne by congruence.
    + st. rewrite El. st. reflexivity.
    + st. rewrite Et. st. now rewrite <- !app_assoc.
    + unfold h_trace. simpl. rewrite Hf.
      rewrite List.filter_app. unfold logs. rewrite filter_logs_own.
      ids. reflexivity.
    + rewrite List.filter_app. unfold logs.
      rewrite filter_logs_other by ne. ids. simpl. rewrite Hfc.
      now rewrite app_nil_r.
    + rewrite List.filter_app. unfold logs.
      rewrite filter_logs_other by ne. ids. now rewrite app_nil_r.
    + rewrite List.filter_app. unfold logs.
      rewrite filter_logs_other by ne. ids. now rewrite app_nil_r.
    + intros tr Th Tsv Trh O. apply ordered_app_set; [exact O| |].
      * exact (both_ended_done P _ _ tr Hsv Hrh Tsv Trh).
      * intros m Hm. apply in_app_or in Hm. unfold logs in Hm.
        destruct Hm as [Hm|[Hm|[Hm|[]]]]; try discriminate.
        apply in_map_iff in Hm. destruct Hm as (e & He & _). discriminate.
  - (* cleanup waits: it is woken *)
    match goal with
    | |- pipe_inv _ _ _ (finish _ _ (wake_all _ ?sE)) =>
        assert (Ew : wake_all [p_cl P] sE
                     = resume (p_cl P) (cleanup_rest (p_pm P)) sE)
          by (apply (wake_all_one _ (p_ev P)); st; rewrite Es; st; exact Hcs)
    end.
    rewrite Ew in Hstep |- *. clear Ew.
    apply (pipe_inv_own P base f (with_h (with_cl f ClWoken) HDone)
             (Run (p_h P)) s _
             (logs ++ [ASet (p_h P) (p_ev P); ADone (p_h P) Returned])
             Inv Hstep).
    + intros u. apply not_task_run, task_h.
    + unfold coherent. simpl. now rewrite Hsv, Hrh.
    + st. rewrite Ep. st. exact (pi_parent_sv _ _ _ _ Inv).
    + st. rewrite Ep. st. exact (pi_parent_rh _ _ _ _ Inv).
    + eapply status_of_finish. st. rewrite Es. st. exact Hs.
    + apply passive_finish; [ne|exact I|].
      eapply status_of_resume_eq. st. rewrite Es. st. exact Hcs.
    + apply passive_finish; [ne|apply sv_passive|]. st. rewrite Es. st.
      exact Hss.
    + apply passive_finish; [ne|apply rh_passive|]. st. rewrite Es. st.
      exact Hrs.
    + intros u c Hu Hst. apply ready_finish. st. rewrite Er. st.
      apply in_or_app.
      destruct Hu as [ -> | [ -> | [ -> | -> ] ] ].
      * exfalso. erewrite status_of_finish in Hst; [discriminate|].
        st. rewrite Es. st. exact Hs.
      * right. now left.
      * left. apply keep_ready_run; [ne|].
        rewrite (passive_finish _ _ _ _ (sv_status P (ph_sv f))) in Hst;
          [|ne|apply sv_passive|st; rewrite Es; st; exact Hss].
        apply (pi_ready _ _ _ _ Inv _ c (task_sv P)).
        rewrite Hss. exact Hst.
      * left. apply keep_ready_run; [ne|].
        rewrite (passive_finish _ _ _ _ (rh_status P (ph_rh f))) in Hst;
          [|ne|apply rh_passive|st; rewrite Es; st; exact Hrs].
        apply (pi_ready _ _ _ _ Inv _ c (task_rh P)).
        rewrite Hrs. exact Hst.
    + st. rewrite Ee. st. now rewrite list_lookup_insert_eq by exact Hev.
    + intros e He. st. rewrite Ee. st.
      now rewrite list_lookup_insert_ne by congruence.
    + st. rewrite El. st. reflexivity.
    + st. rewrite Et. st. now rewrite <- !app_assoc.
    + unfold h_trace. simpl. rewrite Hf.
      rewrite List.filter_app. unfold logs. rewrite filter_logs_own.
      ids. reflexivity.
    + rewrite List.filter_app. unfold logs.
      rewrite filter_logs_other by ne. ids. simpl. rewrite Hfc.
      now rewrite app_nil_r.
    + rewrite List.filter_app. unfold logs.
      rewrite filter_logs_other by ne. ids. now rewrite app_nil_r.
    + rewrite List.filter_app. unfold logs.
      rewrite filter_logs_other by ne. ids. now rewrite app_nil_r.
    + intros tr Th Tsv Trh O. apply ordered_app_set; [exact O| |].
      * exact (both_ended_done P _ _ tr Hsv Hrh Tsv Trh).
      * intros m Hm. apply in_app_or in Hm. unfold logs in Hm.
        destruct Hm as [Hm|[Hm|[Hm|[]]]]; try discriminate.
        apply in_map_iff in Hm. destruct Hm as (e & He & _). discriminate.
Qed.

End OwnSteps.

End Program.

(* ================================================================== *)
(** * Concrete runs *)

Local Open Scope list_scope.

Lemma sample_message_parses :
  parse_payload sample_decode sample_loads (data sample_message)
  = inr (PStr "ab12").
Proof. vm_compute. reflexivity. Qed.







(** C6, what fails: a field of a built message can be assigned again.
    The assignment raises nothing and the field has the new value. *)
Lemma PubSubMessage_can_be_reassigned :
  exists s,
    step (Run 0) (boot (reassign sample_format)) = [s]
    /\ status_of s 0 = Some (Finished Returned)
    /\ heap s
       = [{| cls := PubSubMessage_class;
             attrs := [("instance_name", PStr "ab12");
                       ("message_id", PStr "1");
                       ("hostname", PStr "elsewhere")] |}].
Proof.
  eexists. split; [vm_compute; reflexivity|]. vm_compute. repeat split.
Qed.


(** A call of [publish_sync] whose third publish call fails has published
    two messages, not five; one whose first call fails has published
    none. *)
Lemma publish_sync_can_publish_fewer_than_five :
  length (published (fst (publish_sync (fails_at 2)))) = 2
  /\ snd (publish_sync (fails_at 2)) = Raised TransportError
  /\ published (fst (publish_sync stormy)) = []
  /\ ~ (forall o, length (published (fst (publish_sync o))) = 5).
Proof.
  split; [vm_compute; reflexivity|]. split; [vm_compute; reflexivity|].
  split; [vm_compute; reflexivity|]. intros H. specialize (H stormy).
  vm_compute in H. discriminate.
Qed.

(** C3, what fails: [publish_sync] raises a transport error at its first
    publish call; the exception comes out of [publish], whose task ends
    with it.  Nothing was logged, and nothing can happen any more: the
    loop of [publish] is over. *)
Lemma publish_failure_kills_the_loop :
  snd (publish_sync stormy) = Raised TransportError
  /\ exists s,
       path (boot publish) [Run 0; Run 0; ExecutorDone 0 stormy; Run 0] s
       /\ status_of s 0 = Some (Finished (Raised TransportError))
       /\ List.filter is_log (trace s) = []
       /\ terminal s.
Proof.
  split; [vm_compute; reflexivity|]. eexists. split.
  - eapply path_cons; [left; vm_compute; reflexivity|].
    eapply path_cons; [left; vm_compute; reflexivity|].
    eapply path_cons; [left; vm_compute; reflexivity|].
    eapply path_cons; [left; vm_compute; reflexivity|]. apply path_nil.
  - split; [vm_compute; reflexivity|]. split; [vm_compute; reflexivity|].
    apply terminalb_terminal; vm_compute; reflexivity.
Qed.

Lemma publish_failure_ends_the_loop_witness :
  status_of publish_waiting 0 = Some awaiting_publish
  /\ exists s1,
       step (ExecutorDone 0 stormy) publish_waiting = [s1] /\ In 0 (ready s1).
Proof.
  split; [vm_compute; reflexivity|].
  destruct (publish_failure_ends_the_loop publish_waiting 0 stormy)
    as (s1 & H1 & _ & H2 & _); [vm_compute; reflexivity|].
  exists s1. auto.
Defined.

Lemma ingest_never_waits_for_a_pipeline_witness :
  exists s2,
    path (two_queued sample_decode sample_loads sample_format
            untagged_message sample_message) [Run 0; Run 0] s2
    /\ status_of s2 2
       = Some (Runnable (handle_message sample_decode sample_loads
                           sample_format sample_message)).
Proof.
  destruct (ingest_never_waits_for_a_pipeline sample_decode sample_loads
              sample_format
              (two_queued sample_decode sample_loads sample_format
                 untagged_message sample_message)
              0 untagged_message sample_message [] (PStr "ab12"))
    as (s1 & s2 & E1 & E2 & _ & HB & _).
  - left. vm_compute. reflexivity.
  - vm_compute. auto.
  - vm_compute. reflexivity.
  - vm_compute. reflexivity.
  - exists s2. split; [|exact HB].
    eapply path_cons; [rewrite E1; now left|].
    eapply path_cons; [rewrite E2; now left|]. apply path_nil.
Defined.

Lemma one_delivery_runs :
  follow (one_delivery sample_message)
    (boot (run sample_decode sample_loads sample_format))
  = Some (after sample_decode sample_loads sample_format
            (one_delivery sample_message)).
Proof. vm_compute. reflexivity. Qed.

Lemma mailbox_keeps_every_injection_witness :
  exists pend,
    waiting_to_put pend
      (after sample_decode sample_loads sample_format
         (one_delivery sample_message))
    /\ taken (trace (after sample_decode sample_loads sample_format
                       (one_delivery sample_message)))
       ++ queue (after sample_decode sample_loads sample_format
                   (one_delivery sample_message))
       ++ map snd pend
       = map snd (injected (trace (after sample_decode sample_loads
                                     sample_format
                                     (one_delivery sample_message)))).
Proof.
  apply (mailbox_keeps_every_injection sample_decode sample_loads
           sample_format (one_delivery sample_message)).
  apply follow_fifo_path. exact one_delivery_runs.
Defined.

Lemma dequeues_follow_injections_witness :
  taken (trace (after sample_decode sample_loads sample_format
                  (one_delivery sample_message)))
  = [sample_message].
Proof.
  destruct (dequeues_follow_injections sample_decode sample_loads
              sample_format (one_delivery sample_message)
              (after sample_decode sample_loads sample_format
                 (one_delivery sample_message)))
    as [_ H].
  - apply follow_fifo_path. exact one_delivery_runs.
  - destruct H as [H _]; [vm_compute; reflexivity|].
    rewrite H. vm_compute. reflexivity.
Defined.

Lemma ingest_never_ends_nor_oversleeps_witness :
  exists x,
    status_of (after sample_decode sample_loads sample_format
                 (one_delivery sample_message)) ingest = Some x
    /\ ingest_status sample_decode sample_loads sample_format x.
Proof.
  destruct (ingest_never_ends_nor_oversleeps sample_decode sample_loads
              sample_format (Run 0) (tl (one_delivery sample_message))
              (after sample_decode sample_loads sample_format
                 (one_delivery sample_message)))
    as (x & H1 & H2 & _).
  - apply follow_fifo_path. exact one_delivery_runs.
  - exists x. auto.
Defined.

Lemma publish_sync_stops_at_first_failure_witness :
  published (fst (publish_sync (fails_at 2)))
  = map sample_payload ["afkp"; "uz49"]
  /\ snd (publish_sync (fails_at 2)) = Raised TransportError.
Proof.
  rewrite (publish_sync_stops_at_first_failure (fails_at 2) 2).
  - split; vm_compute; reflexivity.
  - lia.
  - intros i Hi. destruct i as [|[|i]]; [reflexivity|reflexivity|lia].
  - reflexivity.
Defined.

Lemma published_payload_is_accepted_witness :
  exists name,
    valid_name name
    /\ sample_payload "afkp"
       = utf8_encode (json_dumps [("instance_name", name)]).
Proof.
  destruct (published_payload_is_accepted sample_decode sample_loads
              sample_format (fails_at 2)
              {| data := sample_payload "afkp"; message_id := "1" |})
    as (name & V & E & _).
  - vm_compute. left. reflexivity.
  - exists name. split; [exact V|exact E].
Defined.

Lemma publish_goes_round_witness :
  exists s',
    path publish_waiting
      [ExecutorDone 0 (calm (fun n => n)); Run 0; Fire 0; Run 0; Run 0] s'
    /\ status_of s' 0 = Some awaiting_publish.
Proof.
  destruct (publish_goes_round publish_waiting 0 (calm (fun n => n)))
    as (s' & H1 & H2 & _); [vm_compute; reflexivity..|].
  exists s'. auto.
Defined.

Lemma add_to_queue_appends_witness :
  exists s',
    exec 0 (add_to_queue sample_message) (boot (add_to_queue sample_message))
    = [s']
    /\ queue s' = [sample_message].
Proof.
  destruct (add_to_queue_appends 0 sample_message
              (boot (add_to_queue sample_message))
              (Runnable (add_to_queue sample_message)))
    as (s' & H1 & H2 & _); [reflexivity|].
  exists s'. auto.
Defined.

Lemma after_one_delivery :
  follow (tl (one_delivery sample_message))
    (started sample_decode sample_loads sample_format)
  = Some (after sample_decode sample_loads sample_format
            (one_delivery sample_message)).
Proof. vm_compute. reflexivity. Qed.

Lemma run_something_else_never_ends_witness :
  exists x',
    status_of (after sample_decode sample_loads sample_format
                 (one_delivery sample_message)) 2 = Some x'
    /\ rse_status x'.
Proof.
  destruct (run_something_else_never_ends 2
              (tl (one_delivery sample_message))
              (started sample_decode sample_loads sample_format)
              (after sample_decode sample_loads sample_format
                 (one_delivery sample_message))
              (Runnable run_something_else))
    as [H _].
  - reflexivity.
  - now left.
  - apply fifo_path_path, follow_fifo_path. exact after_one_delivery.
  - exact H.
Defined.

Lemma run_never_returns_witness :
  status_of (after sample_decode sample_loads sample_format
               (one_delivery sample_message)) 0
  = Some gather_of_run
  /\ status_of (after sample_decode sample_loads sample_format
                  (one_delivery sample_message)) 1
     = Some (Finished Returned).
Proof.
  destruct (run_never_returns sample_decode sample_loads sample_format
              (Run 0) (tl (one_delivery sample_message))
              (after sample_decode sample_loads sample_format
                 (one_delivery sample_message)))
    as (H0 & _).
  - apply fifo_path_path, follow_fifo_path. exact one_delivery_runs.
  - split; [exact H0|]. vm_compute. reflexivity.
Defined.

Lemma one_message_walks :
  walk (one_message sample_message)
    (boot (run sample_decode sample_loads sample_format))
  = Some (reached sample_decode sample_loads sample_format
            (one_message sample_message)).
Proof. vm_compute. reflexivity. Qed.

Lemma acks_only_follow_takes_witness :
  In sample_message
    (taken (firstn 34
              (trace (reached sample_decode sample_loads sample_format
                        (one_message sample_message))))).
Proof.
  apply (acks_only_follow_takes sample_decode sample_loads sample_format
           (one_message sample_message)
           (reached sample_decode sample_loads sample_format
              (one_message sample_message))
           _ 7 sample_message
           (skipn 35
              (trace (reached sample_decode sample_loads sample_format
                        (one_message sample_message))))).
  - apply walk_path. exact one_message_walks.
  - vm_compute. reflexivity.
Defined.

Lemma unreadable_message_is_never_acked_witness :
  exists instance_name,
    parse_payload sample_decode sample_loads (data sample_message)
    = inr instance_name.
Proof.
  apply (unreadable_message_is_never_acked sample_decode sample_loads
           sample_format (one_message sample_message)
           (reached sample_decode sample_loads sample_format
              (one_message sample_message))
           7 sample_message).
  - apply walk_path. exact one_message_walks.
  - vm_compute. do 34 right. left. reflexivity.
Defined.

Lemma hostname_is_name_dot_example_net_witness :
  (exists s',
      exec 6 (handle_message sample_decode sample_loads sample_format
                sample_message)
        (boot (run sample_decode sample_loads sample_format)) = [s']
      /\ heap s'
         = [{| cls := PubSubMessage_class;
               attrs := [("instance_name", PStr "ab12");
                         ("message_id", PStr "1");
                         ("hostname", PStr "ab12.example.net")] |}])
  /\ (exists t,
        List.filter (assigns 0 "hostname")
          (trace (reached sample_decode sample_loads sample_format
                    (one_message sample_message)))
        = [ASetAttr t 0 "hostname"]).
Proof.
  destruct (hostname_is_name_dot_example_net sample_decode sample_loads
              sample_format) as [H1 H2].
  split.
  - destruct (H1 sample_message "ab12" 6
                (boot (run sample_decode sample_loads sample_format))
                sample_message_parses) as (s' & E & Hh & _).
    exists s'. split; [exact E|exact Hh].
  - destruct (H2 (one_message sample_message)
                (reached sample_decode sample_loads sample_format
                   (one_message sample_message)))
      with (r := 0)
           (o := message_object sample_format (PStr "ab12") (PStr "1"))
      as (_ & Ht & _).
    + apply walk_path. exact one_message_walks.
    + vm_compute. reflexivity.
    + exact Ht.
Defined.

(** The message of the sample run, built in its seventh transition, is
    the same object eleven transitions later, when it has been acked. *)
Lemma fields_are_never_reassigned_witness :
  frozen PubSubMessage_class = false
  /\ heap (reached sample_decode sample_loads sample_format
             (one_message sample_message)) !! 0
     = Some {| cls := PubSubMessage_class;
               attrs := [("instance_name", PStr "ab12");
                         ("message_id", PStr "1");
                         ("hostname", PStr "ab12.example.net")] |}
  /\ List.filter is_setattr
       (trace (reached sample_decode sample_loads sample_format
                 (one_message sample_message)))
     = construction 6 0.
Proof.
  destruct (fields_are_never_reassigned sample_decode sample_loads
              sample_format) as [H1 H2].
  split; [exact H1|].
  destruct (H2 (firstn 7 (one_message sample_message))
              (reached sample_decode sample_loads sample_format
                 (firstn 7 (one_message sample_message))))
    as [_ Hk].
  - apply walk_path. vm_compute. reflexivity.
  - split.
    + apply (Hk (skipn 7 (one_message sample_message))).
      * apply walk_path. vm_compute. reflexivity.
      * vm_compute. reflexivity.
    + vm_compute. reflexivity.
Defined.

Lemma mailbox_loses_and_duplicates_nothing_witness :
  taken (trace (after sample_decode sample_loads sample_format
                  (one_delivery sample_message)))
  = [sample_message]
  /\ queue (after sample_decode sample_loads sample_format
              (one_delivery sample_message)) = [].
Proof.
  destruct (mailbox_loses_and_duplicates_nothing sample_decode sample_loads
              sample_format (one_delivery sample_message)
              (after sample_decode sample_loads sample_format
                 (one_delivery sample_message)))
    as (pend & _ & _ & H).
  - apply follow_fifo_path. exact one_delivery_runs.
  - destruct H as (H1 & H2 & _); [vm_compute; reflexivity|].
    split; [|exact H2]. rewrite H1. vm_compute. reflexivity.
Defined.
